(** * The Vienna Game Job System (GameJobSystem.h): a shallow embedding

    The development follows the header file top to bottom: [Job],
    [JobMemory] with its pools of job segments, [JobQueue], [JobSystem], and
    the two out-of-line members [Job::operator()] and [Job::onFinished].

    Modelling decisions.
    - A pointer to a Job is an arena address (pool, segment, offset): the
      slot [offset] of segment [jobLists[segment]] of pool
      [m_jobPools[pool]].  [nullptr] is [None].
    - [uint32_t] counters are [Z] with the wrap-around written out
      ([wrap32]); [size_t] expressions use [wrap64].
    - The singletons [JobMemory] and [JobSystem] are one [World] record that
      every member function threads through the monad [M].
    - Dereferencing [nullptr] or indexing a vector out of range is undefined
      behaviour: outcome [UB].  Calling an empty [std::function] throws
      [std::bad_function_call]: outcome [BadCall].  Loops whose trip count
      depends on the heap take fuel: outcome [OutOfFuel].
    - A mutex-protected region, an atomic read-modify-write and one run of
      [Job::operator()] are each taken as one indivisible step.
    - User job bodies are scripts of calls into the public interface
      ([Body]); the calling thread is an explicit argument.
    - [std::rand] is an oracle: a sequence of values and a position.
    - Two ghost lists record which job bodies were invoked and for which
      jobs [onFinished] ran; a ghost counter records [notify_all]. *)

From Stdlib Require Import ZArith Lia.
From stdpp Require Import base option list gmap.

Open Scope Z_scope.

(** ** Machine integers *)

Definition wrap32 (x : Z) : Z := x mod 2 ^ 32.
Definition wrap64 (x : Z) : Z := x mod 2 ^ 64.

#[global] Arguments wrap32 : simpl never.
#[global] Arguments wrap64 : simpl never.

(** ** Job bodies *)

(** [Function] is [std::function<void()>]; [None] is the empty callable.
    A non-empty one is a script of interface calls executed in order. *)
#[warning="-register-all"]
Inductive Body : Type :=
| BReturn
| BAddJob (func : option Body) (poolNumber : nat) (rest : Body)
| BAddChildJob (func : option Body) (rest : Body)
| BAddChildJobIn (func : option Body) (poolNumber : nat) (rest : Body)
| BOnFinishedAddJob (func : option Body) (rest : Body)
| BPlayBackPool (playPoolNumber : nat) (onFinishedFunction : option Body)
    (rest : Body)
| BResetPool (poolNumber : nat) (rest : Body)
| BTerminate (rest : Body)
| BOnFinishedTerminatePool (rest : Body).

Abbreviation Function := (option Body) (only parsing).

(** ** class Job *)

Record JobPtr : Type := mkJobPtr {
  jp_pool : nat;
  jp_seg : nat;
  jp_off : nat
}.

#[global] Instance JobPtr_eq_dec : EqDecision JobPtr.
Proof. solve_decision. Defined.

Record Job : Type := mkJob {
  m_available : bool;
  m_poolNumber : nat;
  m_function : option Function;
  m_parentJob : option JobPtr;
  m_numUnfinishedChildren : Z;
  m_onFinishedJob : option JobPtr;
  m_pFirstChild : option JobPtr;
  m_pLastChild : option JobPtr;
  m_pNextSibling : option JobPtr
}.

(** [Job()]: the constructor initialises neither [m_available] nor
    [m_pLastChild].  The value found in the uninitialised flag is the
    argument; [m_pLastChild] is written by [allocateJob] before any read. *)
Definition Job_ctor (indeterminate : bool) : Job :=
  {| m_available := indeterminate; m_poolNumber := 0%nat;
     m_function := None; m_parentJob := None;
     m_numUnfinishedChildren := 0; m_onFinishedJob := None;
     m_pFirstChild := None; m_pLastChild := None; m_pNextSibling := None |}.

Definition set_available (b : bool) (j : Job) : Job :=
  {| m_available := b; m_poolNumber := m_poolNumber j;
     m_function := m_function j; m_parentJob := m_parentJob j;
     m_numUnfinishedChildren := m_numUnfinishedChildren j;
     m_onFinishedJob := m_onFinishedJob j; m_pFirstChild := m_pFirstChild j;
     m_pLastChild := m_pLastChild j; m_pNextSibling := m_pNextSibling j |}.

Definition set_poolNumber (n : nat) (j : Job) : Job :=
  {| m_available := m_available j; m_poolNumber := n;
     m_function := m_function j; m_parentJob := m_parentJob j;
     m_numUnfinishedChildren := m_numUnfinishedChildren j;
     m_onFinishedJob := m_onFinishedJob j; m_pFirstChild := m_pFirstChild j;
     m_pLastChild := m_pLastChild j; m_pNextSibling := m_pNextSibling j |}.

Definition set_function (f : option Function) (j : Job) : Job :=
  {| m_available := m_available j; m_poolNumber := m_poolNumber j;
     m_function := f; m_parentJob := m_parentJob j;
     m_numUnfinishedChildren := m_numUnfinishedChildren j;
     m_onFinishedJob := m_onFinishedJob j; m_pFirstChild := m_pFirstChild j;
     m_pLastChild := m_pLastChild j; m_pNextSibling := m_pNextSibling j |}.

Definition set_parentJob (p : option JobPtr) (j : Job) : Job :=
  {| m_available := m_available j; m_poolNumber := m_poolNumber j;
     m_function := m_function j; m_parentJob := p;
     m_numUnfinishedChildren := m_numUnfinishedChildren j;
     m_onFinishedJob := m_onFinishedJob j; m_pFirstChild := m_pFirstChild j;
     m_pLastChild := m_pLastChild j; m_pNextSibling := m_pNextSibling j |}.

Definition set_numUnfinishedChildren (n : Z) (j : Job) : Job :=
  {| m_available := m_available j; m_poolNumber := m_poolNumber j;
     m_function := m_function j; m_parentJob := m_parentJob j;
     m_numUnfinishedChildren := n;
     m_onFinishedJob := m_onFinishedJob j; m_pFirstChild := m_pFirstChild j;
     m_pLastChild := m_pLastChild j; m_pNextSibling := m_pNextSibling j |}.

Definition set_onFinishedJob (p : option JobPtr) (j : Job) : Job :=
  {| m_available := m_available j; m_poolNumber := m_poolNumber j;
     m_function := m_function j; m_parentJob := m_parentJob j;
     m_numUnfinishedChildren := m_numUnfinishedChildren j;
     m_onFinishedJob := p; m_pFirstChild := m_pFirstChild j;
     m_pLastChild := m_pLastChild j; m_pNextSibling := m_pNextSibling j |}.

Definition set_pFirstChild (p : option JobPtr) (j : Job) : Job :=
  {| m_available := m_available j; m_poolNumber := m_poolNumber j;
     m_function := m_function j; m_parentJob := m_parentJob j;
     m_numUnfinishedChildren := m_numUnfinishedChildren j;
     m_onFinishedJob := m_onFinishedJob j; m_pFirstChild := p;
     m_pLastChild := m_pLastChild j; m_pNextSibling := m_pNextSibling j |}.

Definition set_pLastChild (p : option JobPtr) (j : Job) : Job :=
  {| m_available := m_available j; m_poolNumber := m_poolNumber j;
     m_function := m_function j; m_parentJob := m_parentJob j;
     m_numUnfinishedChildren := m_numUnfinishedChildren j;
     m_onFinishedJob := m_onFinishedJob j; m_pFirstChild := m_pFirstChild j;
     m_pLastChild := p; m_pNextSibling := m_pNextSibling j |}.

Definition set_pNextSibling (p : option JobPtr) (j : Job) : Job :=
  {| m_available := m_available j; m_poolNumber := m_poolNumber j;
     m_function := m_function j; m_parentJob := m_parentJob j;
     m_numUnfinishedChildren := m_numUnfinishedChildren j;
     m_onFinishedJob := m_onFinishedJob j; m_pFirstChild := m_pFirstChild j;
     m_pLastChild := m_pLastChild j; m_pNextSibling := p |}.

(** ** class JobMemory *)

Definition m_listLength : nat := 4096.

Abbreviation JobList := (list Job) (only parsing).

Record JobPool : Type := mkJobPool {
  jobIndex : Z;
  jobLists : list JobList;
  numJobsLeftToPlay : Z;
  isPlayedBack : bool;
  pOnPlaybackFinishedJob : option JobPtr
}.

(** [new JobList(m_listLength)] *)
Definition JobList_new (indeterminate : bool) : JobList :=
  replicate m_listLength (Job_ctor indeterminate).

(** [JobPool()]: [numJobsLeftToPlay] has no initialiser; it is written by
    [playBackPool] before [Job::operator()] reads it in playback mode. *)
Definition JobPool_ctor (indeterminate : bool) : JobPool :=
  {| jobIndex := 0; jobLists := [JobList_new indeterminate];
     numJobsLeftToPlay := 0; isPlayedBack := false;
     pOnPlaybackFinishedJob := None |}.

Definition set_jobIndex (i : Z) (p : JobPool) : JobPool :=
  {| jobIndex := i; jobLists := jobLists p;
     numJobsLeftToPlay := numJobsLeftToPlay p;
     isPlayedBack := isPlayedBack p;
     pOnPlaybackFinishedJob := pOnPlaybackFinishedJob p |}.

Definition set_jobLists (l : list JobList) (p : JobPool) : JobPool :=
  {| jobIndex := jobIndex p; jobLists := l;
     numJobsLeftToPlay := numJobsLeftToPlay p;
     isPlayedBack := isPlayedBack p;
     pOnPlaybackFinishedJob := pOnPlaybackFinishedJob p |}.

Definition set_numJobsLeftToPlay (n : Z) (p : JobPool) : JobPool :=
  {| jobIndex := jobIndex p; jobLists := jobLists p;
     numJobsLeftToPlay := n;
     isPlayedBack := isPlayedBack p;
     pOnPlaybackFinishedJob := pOnPlaybackFinishedJob p |}.

Definition set_isPlayedBack (b : bool) (p : JobPool) : JobPool :=
  {| jobIndex := jobIndex p; jobLists := jobLists p;
     numJobsLeftToPlay := numJobsLeftToPlay p;
     isPlayedBack := b;
     pOnPlaybackFinishedJob := pOnPlaybackFinishedJob p |}.

Definition set_pOnPlaybackFinishedJob (j : option JobPtr) (p : JobPool)
  : JobPool :=
  {| jobIndex := jobIndex p; jobLists := jobLists p;
     numJobsLeftToPlay := numJobsLeftToPlay p;
     isPlayedBack := isPlayedBack p;
     pOnPlaybackFinishedJob := j |}.

(** ** class JobQueue *)

(** A [std::queue] of job pointers behind a mutex: the front is the head.
    The elements are raw pointers, so a queue can hold [nullptr]; [pop] and
    [steal] return [nullptr] for the empty queue. *)
Abbreviation JobQueue := (list (option JobPtr)) (only parsing).

Module JobQueue.

Definition push (pJob : option JobPtr) (q : JobQueue) : JobQueue :=
  q ++ [pJob].

Definition pop (q : JobQueue) : option JobPtr * JobQueue :=
  if decide (length q = 0%nat) then (None, q)
  else match q with
       | pJob :: rest => (pJob, rest)
       | [] => (None, q)
       end.

Definition steal (q : JobQueue) : option JobPtr * JobQueue :=
  if decide (length q = 0%nat) then (None, q)
  else match q with
       | pJob :: rest => (pJob, rest)
       | [] => (None, q)
       end.

End JobQueue.

(** ** The state of the two singletons *)

Abbreviation ThreadId := nat (only parsing).

Record World : Type := mkWorld {
  (* JobMemory *)
  m_jobPools : list JobPool;
  (* JobSystem *)
  m_threads_size : nat;
  m_jobPointers : list (option JobPtr);
  m_threadIndexMap : gmap nat nat;
  m_terminate : bool;
  m_jobQueues : list (option JobQueue);
  m_numJobs : Z;
  threadIndexCounter : nat;
  (* environment *)
  rand_seq : nat -> nat;
  rand_pos : nat;
  indeterminate_flag : bool;
  (* ghost *)
  body_log : list JobPtr;
  finished_log : list JobPtr;
  notify_count : nat
}.

Definition set_jobPools (x : list JobPool) (w : World) : World :=
  {| m_jobPools := x; m_threads_size := m_threads_size w;
     m_jobPointers := m_jobPointers w;
     m_threadIndexMap := m_threadIndexMap w; m_terminate := m_terminate w;
     m_jobQueues := m_jobQueues w; m_numJobs := m_numJobs w;
     threadIndexCounter := threadIndexCounter w; rand_seq := rand_seq w;
     rand_pos := rand_pos w; indeterminate_flag := indeterminate_flag w;
     body_log := body_log w; finished_log := finished_log w;
     notify_count := notify_count w |}.

Definition set_jobPointers (x : list (option JobPtr)) (w : World) : World :=
  {| m_jobPools := m_jobPools w; m_threads_size := m_threads_size w;
     m_jobPointers := x;
     m_threadIndexMap := m_threadIndexMap w; m_terminate := m_terminate w;
     m_jobQueues := m_jobQueues w; m_numJobs := m_numJobs w;
     threadIndexCounter := threadIndexCounter w; rand_seq := rand_seq w;
     rand_pos := rand_pos w; indeterminate_flag := indeterminate_flag w;
     body_log := body_log w; finished_log := finished_log w;
     notify_count := notify_count w |}.

Definition set_threadIndexMap (x : gmap nat nat) (w : World) : World :=
  {| m_jobPools := m_jobPools w; m_threads_size := m_threads_size w;
     m_jobPointers := m_jobPointers w;
     m_threadIndexMap := x; m_terminate := m_terminate w;
     m_jobQueues := m_jobQueues w; m_numJobs := m_numJobs w;
     threadIndexCounter := threadIndexCounter w; rand_seq := rand_seq w;
     rand_pos := rand_pos w; indeterminate_flag := indeterminate_flag w;
     body_log := body_log w; finished_log := finished_log w;
     notify_count := notify_count w |}.

Definition set_terminate (x : bool) (w : World) : World :=
  {| m_jobPools := m_jobPools w; m_threads_size := m_threads_size w;
     m_jobPointers := m_jobPointers w;
     m_threadIndexMap := m_threadIndexMap w; m_terminate := x;
     m_jobQueues := m_jobQueues w; m_numJobs := m_numJobs w;
     threadIndexCounter := threadIndexCounter w; rand_seq := rand_seq w;
     rand_pos := rand_pos w; indeterminate_flag := indeterminate_flag w;
     body_log := body_log w; finished_log := finished_log w;
     notify_count := notify_count w |}.

Definition set_jobQueues (x : list (option JobQueue)) (w : World) : World :=
  {| m_jobPools := m_jobPools w; m_threads_size := m_threads_size w;
     m_jobPointers := m_jobPointers w;
     m_threadIndexMap := m_threadIndexMap w; m_terminate := m_terminate w;
     m_jobQueues := x; m_numJobs := m_numJobs w;
     threadIndexCounter := threadIndexCounter w; rand_seq := rand_seq w;
     rand_pos := rand_pos w; indeterminate_flag := indeterminate_flag w;
     body_log := body_log w; finished_log := finished_log w;
     notify_count := notify_count w |}.

Definition set_numJobs (x : Z) (w : World) : World :=
  {| m_jobPools := m_jobPools w; m_threads_size := m_threads_size w;
     m_jobPointers := m_jobPointers w;
     m_threadIndexMap := m_threadIndexMap w; m_terminate := m_terminate w;
     m_jobQueues := m_jobQueues w; m_numJobs := x;
     threadIndexCounter := threadIndexCounter w; rand_seq := rand_seq w;
     rand_pos := rand_pos w; indeterminate_flag := indeterminate_flag w;
     body_log := body_log w; finished_log := finished_log w;
     notify_count := notify_count w |}.

Definition set_threadIndexCounter (x : nat) (w : World) : World :=
  {| m_jobPools := m_jobPools w; m_threads_size := m_threads_size w;
     m_jobPointers := m_jobPointers w;
     m_threadIndexMap := m_threadIndexMap w; m_terminate := m_terminate w;
     m_jobQueues := m_jobQueues w; m_numJobs := m_numJobs w;
     threadIndexCounter := x; rand_seq := rand_seq w;
     rand_pos := rand_pos w; indeterminate_flag := indeterminate_flag w;
     body_log := body_log w; finished_log := finished_log w;
     notify_count := notify_count w |}.

Definition set_rand_pos (x : nat) (w : World) : World :=
  {| m_jobPools := m_jobPools w; m_threads_size := m_threads_size w;
     m_jobPointers := m_jobPointers w;
     m_threadIndexMap := m_threadIndexMap w; m_terminate := m_terminate w;
     m_jobQueues := m_jobQueues w; m_numJobs := m_numJobs w;
     threadIndexCounter := threadIndexCounter w; rand_seq := rand_seq w;
     rand_pos := x; indeterminate_flag := indeterminate_flag w;
     body_log := body_log w; finished_log := finished_log w;
     notify_count := notify_count w |}.

Definition set_body_log (x : list JobPtr) (w : World) : World :=
  {| m_jobPools := m_jobPools w; m_threads_size := m_threads_size w;
     m_jobPointers := m_jobPointers w;
     m_threadIndexMap := m_threadIndexMap w; m_terminate := m_terminate w;
     m_jobQueues := m_jobQueues w; m_numJobs := m_numJobs w;
     threadIndexCounter := threadIndexCounter w; rand_seq := rand_seq w;
     rand_pos := rand_pos w; indeterminate_flag := indeterminate_flag w;
     body_log := x; finished_log := finished_log w;
     notify_count := notify_count w |}.

Definition set_finished_log (x : list JobPtr) (w : World) : World :=
  {| m_jobPools := m_jobPools w; m_threads_size := m_threads_size w;
     m_jobPointers := m_jobPointers w;
     m_threadIndexMap := m_threadIndexMap w; m_terminate := m_terminate w;
     m_jobQueues := m_jobQueues w; m_numJobs := m_numJobs w;
     threadIndexCounter := threadIndexCounter w; rand_seq := rand_seq w;
     rand_pos := rand_pos w; indeterminate_flag := indeterminate_flag w;
     body_log := body_log w; finished_log := x;
     notify_count := notify_count w |}.

Definition set_notify_count (x : nat) (w : World) : World :=
  {| m_jobPools := m_jobPools w; m_threads_size := m_threads_size w;
     m_jobPointers := m_jobPointers w;
     m_threadIndexMap := m_threadIndexMap w; m_terminate := m_terminate w;
     m_jobQueues := m_jobQueues w; m_numJobs := m_numJobs w;
     threadIndexCounter := threadIndexCounter w; rand_seq := rand_seq w;
     rand_pos := rand_pos w; indeterminate_flag := indeterminate_flag w;
     body_log := body_log w; finished_log := finished_log w;
     notify_count := x |}.

(** ** Outcomes and the monad of member functions *)

Inductive Res (A : Type) : Type :=
| Ok (a : A) (w : World)
| UB
| BadCall (w : World)
| OutOfFuel.

Arguments Ok {A} a w.
Arguments UB {A}.
Arguments BadCall {A} w.
Arguments OutOfFuel {A}.

Definition M (A : Type) : Type := World -> Res A.

Definition ret {A} (a : A) : M A := fun w => Ok a w.

Definition bind {A B} (m : M A) (k : A -> M B) : M B :=
  fun w => match m w with
           | Ok a w' => k a w'
           | UB => UB
           | BadCall w' => BadCall w'
           | OutOfFuel => OutOfFuel
           end.

Notation "'do' x <- m ; k" := (bind m (fun x => k))
  (at level 10, x name, m at level 100, k at level 200,
   format "'[v' 'do'  x  <-  m ; '/' k ']'").

Definition undefined {A} : M A := fun _ => UB.
Definition get_world : M World := fun w => Ok w w.
Definition modify (f : World -> World) : M unit := fun w => Ok tt (f w).
Definition out_of_fuel {A} : M A := fun _ => OutOfFuel.
Definition bad_function_call {A} : M A := fun w => BadCall w.

(** ** Access to the arena *)

Definition lookupJob (pools : list JobPool) (p : JobPtr) : option Job :=
  pool ← pools !! jp_pool p;
  seg ← jobLists pool !! jp_seg p;
  seg !! jp_off p.

Definition alterJob (f : Job -> Job) (p : JobPtr) (pools : list JobPool)
  : list JobPool :=
  alter (fun pool =>
           set_jobLists (alter (alter f (jp_off p)) (jp_seg p) (jobLists pool))
                        pool)
        (jp_pool p) pools.

(** Reading or writing through a pointer that addresses no slot is
    undefined behaviour. *)
Definition readJob (p : JobPtr) : M Job :=
  fun w => match lookupJob (m_jobPools w) p with
           | Some j => Ok j w
           | None => UB
           end.

Definition writeJob (f : Job -> Job) (p : JobPtr) : M unit :=
  fun w => match lookupJob (m_jobPools w) p with
           | Some _ => Ok tt (set_jobPools (alterJob f p (m_jobPools w)) w)
           | None => UB
           end.

Definition readPool (poolNumber : nat) : M JobPool :=
  fun w => match m_jobPools w !! poolNumber with
           | Some pool => Ok pool w
           | None => UB
           end.

Definition writePool (f : JobPool -> JobPool) (poolNumber : nat) : M unit :=
  fun w => match m_jobPools w !! poolNumber with
           | Some _ => Ok tt (set_jobPools (alter f poolNumber (m_jobPools w)) w)
           | None => UB
           end.

(** ** Members of Job defined in the class body *)

Module Job.

Definition setParentJob (this parentJob : JobPtr) : M unit :=
  do _ <- writeJob (set_parentJob (Some parentJob)) this;
  do _ <- writeJob (fun j => set_numUnfinishedChildren
                               (wrap32 (m_numUnfinishedChildren j + 1)) j)
                   parentJob;
  do parent <- readJob parentJob;
  match m_pFirstChild parent with
  | Some _ =>
      match m_pLastChild parent with
      | Some last =>
          do _ <- writeJob (set_pNextSibling (Some this)) last;
          writeJob (set_pLastChild (Some this)) parentJob
      | None => undefined
      end
  | None =>
      do _ <- writeJob (set_pFirstChild (Some this)) parentJob;
      writeJob (set_pLastChild (Some this)) parentJob
  end.

Definition setOnFinished (this : JobPtr) (pJob : option JobPtr) : M unit :=
  writeJob (set_onFinishedJob pJob) this.

Definition setFunction (this : JobPtr) (func : option Function) : M unit :=
  writeJob (set_function func) this.

(** [childFinished], with the not yet defined [onFinished] as argument. *)
Definition childFinished_with (onFinished : JobPtr -> M unit)
    (this : JobPtr) : M unit :=
  do j <- readJob this;
  let numLeft := m_numUnfinishedChildren j in
  do _ <- writeJob (set_numUnfinishedChildren (wrap32 (numLeft + -1))) this;
  if decide (numLeft = 1) then onFinished this else ret tt.

End Job.

(** ** Members of JobMemory *)

Module JobMemory.

(** [poolNumber > m_jobPools.size() - 1], computed in [size_t]. *)
Definition pool_missing (poolNumber : nat) (w : World) : bool :=
  bool_decide
    (Z.of_nat poolNumber > wrap64 (Z.of_nat (length (m_jobPools w)) - 1)).

Definition resetPool (poolNumber : nat) : M unit :=
  do w <- get_world;
  do _ <- (if pool_missing poolNumber w
           then modify (fun w =>
                  set_jobPools
                    (m_jobPools w ++
                     replicate (S poolNumber - length (m_jobPools w))
                               (JobPool_ctor (indeterminate_flag w))) w)
           else ret tt);
  writePool (set_jobIndex 0) poolNumber.

(** [index > pPool->jobLists.size() * m_listLength - 1] *)
Definition segment_missing (index : Z) (pPool : JobPool) : bool :=
  bool_decide
    (index > wrap64 (Z.of_nat (length (jobLists pPool))
                     * Z.of_nat m_listLength - 1)).

Definition getNextJob (poolNumber : nat) : M JobPtr :=
  do w <- get_world;
  do _ <- (if pool_missing poolNumber w then resetPool poolNumber
           else ret tt);
  do pPool <- readPool poolNumber;
  let index := jobIndex pPool in
  do _ <- writePool (set_jobIndex (wrap32 (index + 1))) poolNumber;
  do _ <- (if segment_missing index pPool
           then do w <- get_world;
                writePool (fun p => set_jobLists
                             (jobLists p ++
                              [JobList_new (indeterminate_flag w)]) p)
                          poolNumber
           else ret tt);
  let pJob := mkJobPtr poolNumber
                (Z.to_nat (index / Z.of_nat m_listLength))
                (Z.to_nat (index mod Z.of_nat m_listLength)) in
  do _ <- readJob pJob;
  ret pJob.

(** The [do ... while (!pJob->m_available)] loop of [allocateJob]. *)
Fixpoint probe (fuel : nat) (poolNumber : nat) : M JobPtr :=
  match fuel with
  | O => out_of_fuel
  | S fuel' =>
      do pJob <- getNextJob poolNumber;
      do j <- readJob pJob;
      if m_available j then ret pJob else probe fuel' poolNumber
  end.

Definition allocateJob (fuel : nat) (pParent : option JobPtr)
    (poolNumber : nat) : M JobPtr :=
  do pJob <- probe fuel poolNumber;
  do _ <- writeJob (set_poolNumber poolNumber) pJob;
  do _ <- writeJob (set_onFinishedJob None) pJob;
  do _ <- writeJob (set_pFirstChild None) pJob;
  do _ <- writeJob (set_pLastChild None) pJob;
  do _ <- writeJob (set_pNextSibling None) pJob;
  do _ <- match pParent with
          | Some parent => Job.setParentJob pJob parent
          | None => ret tt
          end;
  ret pJob.

End JobMemory.

(** ** Members of JobSystem, and the out-of-line members of Job *)

Module JobSystem.

(** [std::rand()] *)
Definition rand : M nat :=
  fun w => Ok (rand_seq w (rand_pos w)) (set_rand_pos (S (rand_pos w)) w).

(** [m_threadIndexMap[std::this_thread::get_id()]]: [operator[]] of
    [std::map] inserts a value-initialised entry for an absent key. *)
Definition getThreadNumber (tid : ThreadId) : M nat :=
  fun w => match m_threadIndexMap w !! tid with
           | Some n => Ok n w
           | None => Ok 0%nat
                       (set_threadIndexMap (<[tid := 0%nat]> (m_threadIndexMap w)) w)
           end.

Definition getJobPointer (tid : ThreadId) : M (option JobPtr) :=
  do n <- getThreadNumber tid;
  do w <- get_world;
  match m_jobPointers w !! n with
  | Some p => ret p
  | None => undefined
  end.

Definition terminate : M unit := modify (set_terminate true).

Definition getNumberJobs : M Z := fun w => Ok (m_numJobs w) w.

(** [addJob(Job *pJob)] *)
Definition addJob (pJob : option JobPtr) : M unit :=
  do _ <- modify (fun w => set_numJobs (wrap32 (m_numJobs w + 1)) w);
  do r <- rand;
  do w <- get_world;
  if decide (m_threads_size w = 0%nat) then undefined
  else
    let idx := (r mod m_threads_size w)%nat in
    match m_jobQueues w !! idx with
    | Some (Some q) =>
        modify (set_jobQueues
                  (<[idx := Some (JobQueue.push pJob q)]> (m_jobQueues w)))
    | _ => undefined
    end.

(** The statements of [Job::onFinished] that follow the notification of the
    parent: schedule the successor, count the job out, wake a waiting main
    thread, release the slot. *)
Definition onFinished_rest (this : JobPtr) : M unit :=
  do j <- readJob this;
  do _ <- match m_onFinishedJob j with
          | Some succ => addJob (Some succ)
          | None => ret tt
          end;
  do w <- get_world;
  let numLeft := m_numJobs w in
  do _ <- modify (set_numJobs (wrap32 (numLeft - 1)));
  do _ <- (if decide (numLeft = 1)
           then modify (fun w => set_notify_count (S (notify_count w)) w)
           else ret tt);
  writeJob (set_available true) this.

(** [Job::onFinished] *)
Fixpoint onFinished (fuel : nat) (this : JobPtr) : M unit :=
  match fuel with
  | O => out_of_fuel
  | S fuel' =>
      do _ <- modify (fun w => set_finished_log (finished_log w ++ [this]) w);
      do j <- readJob this;
      do _ <- match m_parentJob j with
              | Some parent =>
                  Job.childFinished_with (onFinished fuel') parent
              | None => ret tt
              end;
      onFinished_rest this
  end.

Definition childFinished (fuel : nat) (this : JobPtr) : M unit :=
  Job.childFinished_with (onFinished fuel) this.

(** [addJob(Function func, uint32_t poolNumber, std::string id)] *)
Definition addJob_func (fuel : nat) (tid : ThreadId) (func : Function)
    (poolNumber : nat) : M unit :=
  do pCurrentJob <- getJobPointer tid;
  match pCurrentJob with
  | None =>
      do pCurrentJob <- JobMemory.allocateJob fuel None poolNumber;
      do _ <- Job.setFunction pCurrentJob (Some func);
      addJob (Some pCurrentJob)
  | Some _ =>
      do pJob <- JobMemory.allocateJob fuel None poolNumber;
      do _ <- Job.setFunction pJob (Some func);
      addJob (Some pJob)
  end.

(** [addChildJob(Function func, uint32_t poolNumber, std::string id)] *)
Definition addChildJob_in (fuel : nat) (tid : ThreadId) (func : Function)
    (poolNumber : nat) : M unit :=
  do pPool <- readPool poolNumber;
  if isPlayedBack pPool then ret tt
  else
    do pCurrentJob <- getJobPointer tid;
    do pJob <- JobMemory.allocateJob fuel pCurrentJob poolNumber;
    do _ <- Job.setFunction pJob (Some func);
    addJob (Some pJob).

(** [addChildJob(Function func)] and [addChildJob(Function func,
    std::string id)]: the pool is that of the caller's current job. *)
Definition addChildJob (fuel : nat) (tid : ThreadId) (func : Function)
  : M unit :=
  do pCurrentJob <- getJobPointer tid;
  match pCurrentJob with
  | None => undefined
  | Some cur =>
      do j <- readJob cur;
      addChildJob_in fuel tid func (m_poolNumber j)
  end.

Definition onFinishedAddJob (fuel : nat) (tid : ThreadId) (func : Function)
  : M unit :=
  do pCurrentJob <- getJobPointer tid;
  match pCurrentJob with
  | None => undefined
  | Some cur =>
      do j <- readJob cur;
      do pPool <- readPool (m_poolNumber j);
      if isPlayedBack pPool then ret tt
      else
        do j <- readJob cur;
        let pParentJob := m_parentJob j in
        let poolNumber := m_poolNumber j in
        do pNewJob <- JobMemory.allocateJob fuel pParentJob poolNumber;
        do _ <- Job.setFunction pNewJob (Some func);
        Job.setOnFinished cur (Some pNewJob)
  end.

(** [std::bind(&JobSystem::terminate, this)] as a job body *)
Definition terminate_function : Function := Some (BTerminate BReturn).

Definition onFinishedTerminatePool (fuel : nat) (tid : ThreadId) : M unit :=
  onFinishedAddJob fuel tid terminate_function.

Definition playBackPool (fuel : nat) (tid : ThreadId) (playPoolNumber : nat)
    (onFinishedFunction : Function) : M unit :=
  do pCurrentJob <- getJobPointer tid;
  do pParentJob <- match pCurrentJob with
                   | Some cur => do j <- readJob cur; ret (m_parentJob j)
                   | None => ret None
                   end;
  do poolNumber <- match pCurrentJob with
                   | Some cur => do j <- readJob cur; ret (m_poolNumber j)
                   | None => ret 0%nat
                   end;
  do ponFinishedJob <- JobMemory.allocateJob fuel pParentJob poolNumber;
  do _ <- Job.setFunction ponFinishedJob (Some onFinishedFunction);
  do pPool <- readPool playPoolNumber;
  if decide (jobIndex pPool = 0) then addJob (Some ponFinishedJob)
  else
    do _ <- writePool (set_isPlayedBack true) playPoolNumber;
    do _ <- writePool (fun p => set_numJobsLeftToPlay (jobIndex p) p)
                      playPoolNumber;
    do _ <- writePool (set_pOnPlaybackFinishedJob (Some ponFinishedJob))
                      playPoolNumber;
    do _ <- readJob (mkJobPtr playPoolNumber 0 0);
    addJob (Some (mkJobPtr playPoolNumber 0 0)).

(** Running a job body on thread [tid]. *)
Fixpoint run_body (fuel : nat) (tid : ThreadId) (b : Body) : M unit :=
  match b with
  | BReturn => ret tt
  | BAddJob func poolNumber rest =>
      do _ <- addJob_func fuel tid func poolNumber; run_body fuel tid rest
  | BAddChildJob func rest =>
      do _ <- addChildJob fuel tid func; run_body fuel tid rest
  | BAddChildJobIn func poolNumber rest =>
      do _ <- addChildJob_in fuel tid func poolNumber; run_body fuel tid rest
  | BOnFinishedAddJob func rest =>
      do _ <- onFinishedAddJob fuel tid func; run_body fuel tid rest
  | BPlayBackPool playPoolNumber func rest =>
      do _ <- playBackPool fuel tid playPoolNumber func;
      run_body fuel tid rest
  | BResetPool poolNumber rest =>
      do _ <- JobMemory.resetPool poolNumber; run_body fuel tid rest
  | BTerminate rest =>
      do _ <- terminate; run_body fuel tid rest
  | BOnFinishedTerminatePool rest =>
      do _ <- onFinishedTerminatePool fuel tid; run_body fuel tid rest
  end.

(** The call through a non-null [m_function]. *)
Definition call_function (fuel : nat) (tid : ThreadId) (this : JobPtr)
    (func : Function) : M unit :=
  match func with
  | None => bad_function_call
  | Some body =>
      do _ <- modify (fun w => set_body_log (body_log w ++ [this]) w);
      run_body fuel tid body
  end.

(** The [while (pChild != nullptr)] loop of [Job::operator()]. *)
Fixpoint play_children (fuel : nat) (this : JobPtr)
    (pChild : option JobPtr) {struct fuel} : M unit :=
  match pChild with
  | None => ret tt
  | Some child =>
      match fuel with
      | O => out_of_fuel
      | S fuel' =>
          do _ <- writeJob (fun j => set_numUnfinishedChildren
                             (wrap32 (m_numUnfinishedChildren j + 1)) j) this;
          do _ <- addJob (Some child);
          do c <- readJob child;
          play_children fuel' this (m_pNextSibling c)
      end
  end.

(** The block of [Job::operator()] that is run when the pool of the job is
    being played back. *)
Definition Job_call_playback (fuel : nat) (this : JobPtr) (poolNumber : nat)
  : M unit :=
  do j <- readJob this;
  do _ <- play_children fuel this (m_pFirstChild j);
  do pPool <- readPool poolNumber;
  let numLeft := numJobsLeftToPlay pPool in
  do _ <- writePool (set_numJobsLeftToPlay (wrap32 (numLeft - 1))) poolNumber;
  if decide (numLeft = 1)
  then
    do _ <- writePool (set_isPlayedBack false) poolNumber;
    do pPool <- readPool poolNumber;
    addJob (pOnPlaybackFinishedJob pPool)
  else ret tt.

(** The last two statements of [Job::operator()]. *)
Definition Job_call_finish (fuel : nat) (this : JobPtr) : M unit :=
  do j <- readJob this;
  let numLeft := m_numUnfinishedChildren j in
  do _ <- writeJob (set_numUnfinishedChildren (wrap32 (numLeft - 1))) this;
  if decide (numLeft = 1) then onFinished fuel this else ret tt.

(** [Job::operator()], run by thread [tid] *)
Definition Job_call (fuel : nat) (tid : ThreadId) (this : JobPtr) : M unit :=
  do j <- readJob this;
  match m_function j with
  | None => ret tt
  | Some func =>
      do _ <- writeJob (set_numUnfinishedChildren 1) this;
      do _ <- call_function fuel tid this func;
      do j <- readJob this;
      let poolNumber := m_poolNumber j in
      do pPool <- readPool poolNumber;
      do _ <- (if isPlayedBack pPool
               then Job_call_playback fuel this poolNumber
               else ret tt);
      Job_call_finish fuel this
  end.

End JobSystem.

(** ** The worker loop and the constructor *)

Module Worker.

Import JobSystem.

(** The prologue of [threadTask]: claim an index, create the queue,
    clear the current-job pointer, register the thread identity. *)
Definition threadTask_start (tid : ThreadId) : M nat :=
  do w <- get_world;
  let threadIndex := threadIndexCounter w in
  do _ <- modify (set_threadIndexCounter (S threadIndex));
  if decide (threadIndex < length (m_jobQueues w)
             ∧ threadIndex < length (m_jobPointers w))%nat
  then
    do _ <- modify (fun w => set_jobQueues
                      (<[threadIndex := Some []]> (m_jobQueues w)) w);
    do _ <- modify (fun w => set_jobPointers
                      (<[threadIndex := None]> (m_jobPointers w)) w);
    do _ <- modify (fun w => set_threadIndexMap
                      (<[tid := threadIndex]> (m_threadIndexMap w)) w);
    ret threadIndex
  else undefined.

Definition pop_queue (idx : nat) : M (option JobPtr) :=
  do w <- get_world;
  match m_jobQueues w !! idx with
  | Some (Some q) =>
      let '(pJob, q') := JobQueue.pop q in
      do _ <- modify (set_jobQueues (<[idx := Some q']> (m_jobQueues w)));
      ret pJob
  | _ => undefined
  end.

Definition steal_queue (idx : nat) : M (option JobPtr) :=
  do w <- get_world;
  match m_jobQueues w !! idx with
  | Some (Some q) =>
      let '(pJob, q') := JobQueue.steal q in
      do _ <- modify (set_jobQueues (<[idx := Some q']> (m_jobQueues w)));
      ret pJob
  | _ => undefined
  end.

(** [while (pJob == nullptr && m_threads.size() > 1)] with the counter
    [max], which leaves the loop when it reaches zero. *)
Fixpoint steal_loop (max : nat) (threadIndex : nat) (pJob : option JobPtr)
  : M (option JobPtr) :=
  match max with
  | O => ret pJob
  | S max' =>
      do w <- get_world;
      match pJob with
      | Some _ => ret pJob
      | None =>
          if decide (1 < m_threads_size w)%nat
          then
            do r <- rand;
            let idx := (r mod m_threads_size w)%nat in
            do pJob' <- (if decide (idx ≠ threadIndex) then steal_queue idx
                         else ret pJob);
            steal_loop max' threadIndex pJob'
          else ret pJob
      end
  end.

(** One trip through the [while (true)] loop of [threadTask]; the result
    says whether the loop goes on. *)
Definition threadTask_iteration (fuel : nat) (tid : ThreadId)
    (threadIndex : nat) : M bool :=
  do w <- get_world;
  if m_terminate w then ret false
  else
    do pJob <- pop_queue threadIndex;
    do w <- get_world;
    if m_terminate w then ret false
    else
      do pJob <- steal_loop 5 threadIndex pJob;
      do w <- get_world;
      if m_terminate w then ret false
      else
        match pJob with
        | Some p =>
            do _ <- modify (fun w => set_jobPointers
                              (<[threadIndex := Some p]> (m_jobPointers w)) w);
            do _ <- Job_call fuel tid p;
            ret true
        | None => ret true
        end.

(** The state after [JobMemory()] and the member initialisers of
    [JobSystem(threadCount, numPools)], before any worker has started. *)
Definition initial_world (threadCount : nat) (rnd : nat -> nat)
    (indeterminate : bool) : World :=
  {| m_jobPools := [JobPool_ctor indeterminate];
     m_threads_size := threadCount;
     m_jobPointers := replicate threadCount None;
     m_threadIndexMap := ∅;
     m_terminate := false;
     m_jobQueues := replicate threadCount None;
     m_numJobs := 0;
     threadIndexCounter := 0%nat;
     rand_seq := rnd; rand_pos := 0%nat;
     indeterminate_flag := indeterminate;
     body_log := []; finished_log := []; notify_count := 0%nat |}.

(** The prologues of the threads [tids], one after the other: the start
    of the workers in which no two prologues overlap.  The constructor
    starts the threads at the same time, and the last statement of the
    prologue writes [m_threadIndexMap] without a lock (line 281), so
    prologues that overlap there race on the map; that start is not
    described by this definition.  It serves to build the worlds in which
    every worker has registered. *)
Fixpoint start_workers (tids : list ThreadId) : M unit :=
  match tids with
  | [] => ret tt
  | tid :: rest => do _ <- threadTask_start tid; start_workers rest
  end.

(** A schedule is the list of workers (thread identity and index) that
    take the next trip through their loop. *)
Fixpoint run_schedule (fuel : nat) (sched : list (ThreadId * nat))
  : M unit :=
  match sched with
  | [] => ret tt
  | (tid, idx) :: rest =>
      do _ <- threadTask_iteration fuel tid idx; run_schedule fuel rest
  end.

End Worker.

(** ** Derived notions used in the statements *)

(** [n] successive calls of [JobQueue::pop]: the results and the queue that
    is left. *)
Fixpoint pops (n : nat) (q : JobQueue) : list (option JobPtr) * JobQueue :=
  match n with
  | O => ([], q)
  | S n' =>
      let '(pJob, q') := JobQueue.pop q in
      let '(rest, q'') := pops n' q' in
      (pJob :: rest, q'')
  end.

(** The job stored at an address, and single fields of it. *)
Definition jobAt (w : World) (p : JobPtr) : option Job :=
  lookupJob (m_jobPools w) p.

Definition counterAt (w : World) (p : JobPtr) : option Z :=
  m_numUnfinishedChildren <$> jobAt w p.

(** How often [onFinished] has run for a job, how often its body has. *)
Definition finished_times (w : World) (p : JobPtr) : nat :=
  length (filter (λ q, q = p) (finished_log w)).

Definition body_times (w : World) (p : JobPtr) : nat :=
  length (filter (λ q, q = p) (body_log w)).

(** The world with the job at [p] changed by [f]. *)
Definition updJob (f : Job -> Job) (p : JobPtr) (w : World) : World :=
  set_jobPools (alterJob f p (m_jobPools w)) w.

Definition updPool (f : JobPool -> JobPool) (n : nat) (w : World) : World :=
  set_jobPools (alter f n (m_jobPools w)) w.

(** [size()] of a vector fits [size_t]. *)
Definition pools_fit (w : World) : Prop :=
  Z.of_nat (length (m_jobPools w)) < 2 ^ 64.

(** ** Concrete worlds used in examples *)

(** A scheduler with [threadCount] workers, identities [1 .. threadCount],
    all of which have run their prologue; [std::rand] always returns 0 and
    uninitialised availability flags read as [b]. *)
Definition started_world (threadCount : nat) (b : bool) : World :=
  match Worker.start_workers (seq 1 threadCount)
          (Worker.initial_world threadCount (λ _, 0%nat) b) with
  | Ok _ w => w
  | _ => Worker.initial_world threadCount (λ _, 0%nat) b
  end.

Definition slot0 : JobPtr := mkJobPtr 0 0 0.

(** Slot 0 of pool 0 is a live job (counter 1, not available, counted in
    [m_numJobs]) whose [m_function] is still the null pointer. *)
Definition world_null_function : World :=
  set_numJobs 1
    (updJob (λ j, set_numUnfinishedChildren 1 (set_available false j)) slot0
       (started_world 1 true)).

(** The outcome of a run and its final world, for closed examples. *)
Definition final_world {A} (r : Res A) : option World :=
  match r with
  | Ok _ w => Some w
  | _ => None
  end.

(** The main thread (identity 0) submits [f], resets pool 0 and submits
    [g], with no worker running in between. *)
Definition submit_reset_submit (f g : Function) : M unit :=
  do _ <- JobSystem.addJob_func 1 0%nat f 0;
  do _ <- JobMemory.resetPool 0;
  JobSystem.addJob_func 1 0%nat g 0.

(** Pool 0 of a fresh scheduler put into playback mode. *)
Definition world_playing_back : World :=
  updPool (set_isPlayedBack true) 0 (started_world 1 true).

(** An address is valid when it addresses a slot. *)
Definition valid (w : World) (p : JobPtr) : Prop := is_Some (jobAt w p).

(** What [allocateJob] writes into the slot it has chosen. *)
Definition allocate_init (poolNumber : nat) (j : Job) : Job :=
  set_pNextSibling None
    (set_pLastChild None
       (set_pFirstChild None
          (set_onFinishedJob None (set_poolNumber poolNumber j)))).

(** The address that [getNextJob] computes from an index. *)
Definition slot_of_index (poolNumber : nat) (index : Z) : JobPtr :=
  mkJobPtr poolNumber (Z.to_nat (index / Z.of_nat m_listLength))
           (Z.to_nat (index mod Z.of_nat m_listLength)).

Definition incr_counter (j : Job) : Job :=
  set_numUnfinishedChildren (wrap32 (m_numUnfinishedChildren j + 1)) j.

(** The world after the five initialising writes of [allocateJob]. *)
Definition initialised (poolNumber : nat) (p : JobPtr) (w : World) : World :=
  updJob (set_pNextSibling None) p
    (updJob (set_pLastChild None) p
       (updJob (set_pFirstChild None) p
          (updJob (set_onFinishedJob None) p
             (updJob (set_poolNumber poolNumber) p w)))).

(** The world after [getNextJob] has taken the index of [pool]. *)
Definition index_taken (poolNumber : nat) (pool : JobPool) (w : World)
  : World :=
  updPool (set_jobIndex (wrap32 (jobIndex pool + 1))) poolNumber w.

Definition leaf : Function := Some BReturn.

(** The job found at an address of a concrete world, and the pool found at
    an index. *)
Definition the_job (w : World) (p : JobPtr) : Job :=
  default (Job_ctor true) (jobAt w p).

Definition the_pool (w : World) (n : nat) : JobPool :=
  default (JobPool_ctor true) (m_jobPools w !! n).

(** One worker.  The main thread has submitted a root job whose body adds
    one child; the worker has run the root (slot 0), has taken the child
    (slot 1) from its queue and is about to call the child's body, which
    registers a successor. *)
Definition world_child_running : World :=
  default (started_world 1 true)
    (final_world
       ((do _ <- JobSystem.addJob_func 1 0%nat
                   (Some (BAddChildJob
                            (Some (BOnFinishedAddJob leaf BReturn)) BReturn)) 0;
         do _ <- Worker.threadTask_iteration 1 1%nat 0;
         do p <- Worker.pop_queue 0;
         do _ <- modify (set_jobPointers [p]);
         writeJob (set_numUnfinishedChildren 1) (mkJobPtr 0 0 1))
          (started_world 1 true))).

(** ** Well-formed worlds *)

(** There is at least one worker, [m_jobQueues] has one entry per worker,
    and every worker has created its queue. *)
Definition queues_ready (w : World) : Prop :=
  (0 < m_threads_size w)%nat
  ∧ length (m_jobQueues w) = m_threads_size w
  ∧ ∀ i, (i < m_threads_size w)%nat → ∃ q, m_jobQueues w !! i = Some (Some q).

(** Parent pointers address slots. *)
Definition parents_valid (w : World) : Prop :=
  ∀ p j q, jobAt w p = Some j → m_parentJob j = Some q → valid w q.

(** The number of slots whose counter is 1: a bound on the depth of the
    recursion of [onFinished] through [childFinished]. *)
Definition is_one (j : Job) : nat :=
  if decide (m_numUnfinishedChildren j = 1) then 1%nat else 0%nat.

Definition ones_pools (pools : list JobPool) : nat :=
  sum_list (map (λ pool, sum_list (map (λ seg, sum_list (map is_one seg))
                                       (jobLists pool))) pools).

Definition ones (w : World) : nat := ones_pools (m_jobPools w).

(** The fields of a job that only allocation and registration write. *)
Definition link_view (j : Job)
  : nat * option Function * option JobPtr * option JobPtr * option JobPtr
    * option JobPtr * option JobPtr :=
  (m_poolNumber j, m_function j, m_parentJob j, m_onFinishedJob j,
   m_pFirstChild j, m_pLastChild j, m_pNextSibling j).

Definition same_links (w w' : World) : Prop :=
  ∀ q, (link_view <$> jobAt w' q) = (link_view <$> jobAt w q).

(** A computation that does not run [onFinished]. *)
Definition keeps_finished_log {A} (m : M A) : Prop :=
  ∀ w a w', m w = Ok a w' → finished_log w' = finished_log w.

(** All jobs of the arena, and a decision procedure for [parents_valid]. *)
Definition all_jobs (w : World) : list Job :=
  pool ← m_jobPools w; seg ← jobLists pool; seg.

Definition parents_valid_b (w : World) : bool :=
  forallb (λ j, match m_parentJob j with
                | Some q => bool_decide (valid w q)
                | None => true
                end) (all_jobs w).

(** One worker has taken the only job, a leaf at slot 0 submitted by the
    main thread, from its queue and has set its counter to 1. *)
Definition world_leaf_running : World :=
  default (started_world 1 true)
    (final_world
       ((do _ <- JobSystem.addJob_func 1 0%nat leaf 0;
         do p <- Worker.pop_queue 0;
         do _ <- modify (set_jobPointers [p]);
         writeJob (set_numUnfinishedChildren 1) slot0)
          (started_world 1 true))).

(** ** Playback of a recorded tree *)

(** A body that only registers children and successors with the current
    job: during playback of the job's pool these calls do nothing. *)
Fixpoint quiet (b : Body) : bool :=
  match b with
  | BReturn => true
  | BAddChildJob _ rest => quiet rest
  | BOnFinishedAddJob _ rest => quiet rest
  | _ => false
  end.

(** The contents of all queues. *)
Definition all_queued (w : World) : list (option JobPtr) :=
  q ← m_jobQueues w; default [] q.

(** The sibling chain that starts at [start] visits the jobs of [l]. *)
Fixpoint chain (w : World) (start : option JobPtr) (l : list JobPtr) : Prop :=
  match l with
  | [] => start = None
  | k :: rest =>
      start = Some k
      ∧ ∃ kj, jobAt w k = Some kj ∧ chain w (m_pNextSibling kj) rest
  end.

(** A recorded tree: its jobs, and for each job its children in the order
    of registration, its parent and its depth. *)
Record Recording : Type := mkRecording {
  rec_nodes : list JobPtr;
  rec_kids : JobPtr -> list JobPtr;
  rec_par : JobPtr -> option JobPtr;
  rec_depth : JobPtr -> nat
}.

Definition tree_ok (R : Recording) (root : JobPtr) : Prop :=
  NoDup (rec_nodes R)
  ∧ (root ∈ rec_nodes R ∧ rec_depth R root = 0%nat)
  ∧ (∀ y, y ∈ rec_nodes R → rec_par R y = None ↔ y = root)
  ∧ (∀ x k, x ∈ rec_nodes R → k ∈ rec_kids R x →
            k ∈ rec_nodes R ∧ rec_par R k = Some x
            ∧ rec_depth R k = S (rec_depth R x))
  ∧ (∀ x, x ∈ rec_nodes R → NoDup (rec_kids R x))
  ∧ (∀ y x, y ∈ rec_nodes R → rec_par R y = Some x →
            x ∈ rec_nodes R ∧ y ∈ rec_kids R x).

(** The arena holds the recording in pool [pp]. *)
Definition recorded_in (w : World) (pp : nat) (R : Recording) : Prop :=
  ∀ x, x ∈ rec_nodes R →
       ∃ j b, jobAt w x = Some j
              ∧ m_poolNumber j = pp
              ∧ m_function j = Some (Some b) ∧ quiet b = true
              ∧ m_parentJob j = rec_par R x
              ∧ m_onFinishedJob j = None
              ∧ chain w (m_pFirstChild j) (rec_kids R x).

(** The recorded jobs that are due: not yet executed, and either the root
    or a child of an executed job. *)
Definition due (R : Recording) (E : list JobPtr) (y : JobPtr) : Prop :=
  (y ∉ E)
  ∧ match rec_par R y with
    | Some x => x ∈ E
    | None => True
    end.

#[global] Instance due_dec (R : Recording) (E : list JobPtr) (y : JobPtr) :
  Decision (due R E y).
Proof. unfold due. destruct (rec_par R y); apply _. Defined.

Definition frontier (R : Recording) (E : list JobPtr) : list JobPtr :=
  filter (due R E) (rec_nodes R).

(** Worker threads keep their registration. *)
Definition same_sched (w w' : World) : Prop :=
  m_threads_size w' = m_threads_size w
  ∧ m_threadIndexMap w' = m_threadIndexMap w
  ∧ m_terminate w' = m_terminate w
  ∧ m_jobPointers w' = m_jobPointers w.

(** The bookkeeping of a pool apart from its segments. *)
Definition pool_view (p : JobPool) : Z * Z * bool * option JobPtr :=
  (jobIndex p, numJobsLeftToPlay p, isPlayedBack p, pOnPlaybackFinishedJob p).

Definition same_pool_views (w w' : World) : Prop :=
  ∀ n, (pool_view <$> m_jobPools w' !! n) = (pool_view <$> m_jobPools w !! n).

(** The children of a job that have not completed yet. *)
Definition open_kids (R : Recording) (D : list JobPtr) (x : JobPtr)
  : list JobPtr :=
  filter (λ k, k ∉ D) (rec_kids R x).

(** The executed jobs [E] contain the parent of each of their members. *)
Definition closed_under_par (R : Recording) (E : list JobPtr) : Prop :=
  ∀ x y, x ∈ E → rec_par R x = Some y → y ∈ E.

(** [D], the completed jobs, are executed and contain all children of their
    members; an executed job that has not completed counts its children
    that have not, and has one.  The job [skip] is exempt. *)
Definition counters_ok (R : Recording) (w : World) (E D : list JobPtr)
    (skip : option JobPtr) : Prop :=
  (∀ x, x ∈ D → x ∈ E)
  ∧ (∀ x k, x ∈ D → k ∈ rec_kids R x → k ∈ D)
  ∧ (∀ x, x ∈ E → x ∉ D → Some x ≠ skip →
          counterAt w x = Some (Z.of_nat (length (open_kids R D x)))
          ∧ open_kids R D x ≠ []).

(** The scheduler as the playback needs it: every worker has a queue and a
    current-job slot, no termination has been requested, and the thread
    registry is that of [w0]. *)
Definition sched_ok (w0 w : World) : Prop :=
  queues_ready w
  ∧ m_terminate w = false
  ∧ m_threadIndexMap w = m_threadIndexMap w0
  ∧ m_threads_size w = m_threads_size w0
  ∧ length (m_jobPointers w) = m_threads_size w0.

(** The completion job: a plain callback without parent or successor, in a
    pool other than the played one that is not being played back. *)
Definition completion_ok (w : World) (c : JobPtr) (pp : nat) : Prop :=
  ∃ cj poolq, jobAt w c = Some cj
              ∧ m_function cj = Some (Some BReturn)
              ∧ m_parentJob cj = None
              ∧ m_onFinishedJob cj = None
              ∧ m_poolNumber cj ≠ pp
              ∧ m_jobPools w !! m_poolNumber cj = Some poolq
              ∧ isPlayedBack poolq = false.

(** Pool [pp] is being played back with [left] jobs to go. *)
Definition pool_playing (w : World) (pp : nat) (c : JobPtr) (left : nat)
  : Prop :=
  ∃ pool, m_jobPools w !! pp = Some pool
          ∧ isPlayedBack pool = true
          ∧ numJobsLeftToPlay pool = Z.of_nat left
          ∧ pOnPlaybackFinishedJob pool = Some c.

(** The playback is under way: [E] lists the executed jobs in order, [D]
    the completed ones. *)
Definition playing (R : Recording) (pp : nat) (c : JobPtr) (w0 w : World)
    (E D : list JobPtr) : Prop :=
  recorded_in w pp R
  ∧ NoDup E ∧ (∀ x, x ∈ E → x ∈ rec_nodes R) ∧ closed_under_par R E
  ∧ counters_ok R w E D None
  ∧ all_queued w ≡ₚ Some <$> frontier R E
  ∧ pool_playing w pp c (length (rec_nodes R) - length E)
  ∧ (length E < length (rec_nodes R))%nat
  ∧ body_log w = body_log w0 ++ E
  ∧ sched_ok w0 w
  ∧ completion_ok w c pp.

(** All recorded jobs have been executed and the completion job is queued. *)
Definition finished (R : Recording) (pp : nat) (c : JobPtr) (w0 w : World)
    (E : list JobPtr) : Prop :=
  E ≡ₚ rec_nodes R
  ∧ all_queued w ≡ₚ [Some c]
  ∧ body_log w = body_log w0 ++ E
  ∧ sched_ok w0 w
  ∧ completion_ok w c pp.

(** The completion job has run as well; nothing is queued. *)
Definition completed (R : Recording) (c : JobPtr) (w0 w : World)
    (E : list JobPtr) : Prop :=
  E ≡ₚ rec_nodes R
  ∧ all_queued w = []
  ∧ body_log w = body_log w0 ++ E ++ [c]
  ∧ sched_ok w0 w.

(** The pools other than [pp] keep their bookkeeping. *)
Definition other_pools_same (pp : nat) (w w' : World) : Prop :=
  ∀ m, m ≠ pp →
       (pool_view <$> m_jobPools w' !! m) = (pool_view <$> m_jobPools w !! m).

(** What taking a job from the queues may change. *)
Definition taken (w : World) (r : option JobPtr) (w' : World) : Prop :=
  m_jobPools w' = m_jobPools w
  ∧ same_sched w w'
  ∧ body_log w' = body_log w
  ∧ queues_ready w'
  ∧ match r with
    | Some x => all_queued w ≡ₚ Some x :: all_queued w'
    | None => all_queued w' = all_queued w
    end.

(** The states of a playback, with the number of jobs still to be run:
    the recorded jobs that are left and the completion job. *)
Definition replay_state (R : Recording) (pp : nat) (c : JobPtr)
    (w0 w : World) (m : nat) : Prop :=
  (∃ E D, playing R pp c w0 w E D
          ∧ m = S (length (rec_nodes R) - length E))
  ∨ (∃ E, finished R pp c w0 w E ∧ m = 1%nat)
  ∨ (∃ E, completed R c w0 w E ∧ m = 0%nat).

(** A worker of [w0]: a registered thread identity with its index. *)
Definition worker_of (w0 : World) (ti : ThreadId * nat) : Prop :=
  m_threadIndexMap w0 !! ti.1 = Some ti.2
  ∧ (ti.2 < m_threads_size w0)%nat.

(** The job body that a caller of the playback runs: it asks for the
    playback of pool [pp] with a plain completion callback. *)
Definition playback_caller (pp : nat) : Function :=
  Some (BPlayBackPool pp (Some BReturn) BReturn).

(** Pool [pp] holds the recording and is at rest with its index at the
    number of recorded jobs; the caller [J] is a top-level job of another
    pool whose body is [playback_caller]; the next slot [c] of the caller's
    pool is free. *)
Definition request_ready (R : Recording) (pp : nat) (c J : JobPtr)
    (w : World) : Prop :=
  recorded_in w pp R
  ∧ pools_fit w
  ∧ (∃ pool, m_jobPools w !! pp = Some pool
             ∧ isPlayedBack pool = false
             ∧ jobIndex pool = Z.of_nat (length (rec_nodes R)))
  ∧ (∃ jj poolq nj,
        jobAt w J = Some jj
        ∧ m_function jj = Some (playback_caller pp)
        ∧ m_parentJob jj = None ∧ m_onFinishedJob jj = None
        ∧ m_poolNumber jj ≠ pp
        ∧ m_jobPools w !! m_poolNumber jj = Some poolq
        ∧ isPlayedBack poolq = false
        ∧ JobMemory.segment_missing (jobIndex poolq) poolq = false
        ∧ c = slot_of_index (m_poolNumber jj) (jobIndex poolq)
        ∧ jobAt w c = Some nj
        ∧ m_available nj = true ∧ m_parentJob nj = None)
  ∧ (c ≠ J) ∧ (c ∉ rec_nodes R) ∧ (J ∉ rec_nodes R).

(** A playback has been requested and not started: the caller [J] is the
    only queued job. *)
Definition requested (R : Recording) (pp : nat) (c J : JobPtr)
    (ws w : World) : Prop :=
  request_ready R pp c J w
  ∧ all_queued w ≡ₚ [Some J]
  ∧ body_log w = body_log ws
  ∧ sched_ok ws w.

(** The states of a run that plays a recording back, with the number of
    jobs still to be run: before the caller has run, and after. *)
Definition run_state (R : Recording) (pp : nat) (c J : JobPtr)
    (ws w : World) (m : nat) : Prop :=
  (requested R pp c J ws w ∧ m = S (S (length (rec_nodes R))))
  ∨ (∃ w1, body_log w1 = body_log ws ++ [J]
           ∧ m_threadIndexMap w1 = m_threadIndexMap ws
           ∧ m_threads_size w1 = m_threads_size ws
           ∧ replay_state R pp c w1 w m).

(** ** A recorded tree and a recorded forest *)

(** The body of a job that adds two leaves as children. *)
Definition two_kids : Function :=
  Some (BAddChildJob leaf (BAddChildJob leaf BReturn)).

(** Two workers.  The main thread has submitted a [two_kids] job to pool 1,
    worker 1 has run it and its two children, and the main thread has then
    submitted a job to pool 0 that plays pool 1 back. *)
Definition world_tree_requested : World :=
  default (started_world 2 true)
    (final_world
       ((do _ <- JobSystem.addJob_func 1 0%nat two_kids 1;
         do _ <- Worker.run_schedule 4 [(1, 0); (1, 0); (1, 0)]%nat;
         JobSystem.addJob_func 1 0%nat (playback_caller 1) 0)
          (started_world 2 true))).

(** The tree recorded in pool 1 of [world_tree_requested]. *)
Definition tree_root : JobPtr := mkJobPtr 1 0 0.

Definition tree_recording : Recording :=
  {| rec_nodes := [tree_root; mkJobPtr 1 0 1; mkJobPtr 1 0 2];
     rec_kids := λ x, if decide (x = tree_root)
                      then [mkJobPtr 1 0 1; mkJobPtr 1 0 2] else [];
     rec_par := λ x, if decide (x = tree_root) then None else Some tree_root;
     rec_depth := λ x, if decide (x = tree_root) then 0%nat else 1%nat |}.

(** Two workers.  The main thread has submitted two leaves to pool 1,
    worker 1 has run both, and the main thread has then submitted a job to
    pool 0 that plays pool 1 back. *)
Definition world_forest_requested : World :=
  default (started_world 2 true)
    (final_world
       ((do _ <- JobSystem.addJob_func 1 0%nat leaf 1;
         do _ <- JobSystem.addJob_func 1 0%nat leaf 1;
         do _ <- Worker.run_schedule 4 [(1, 0); (1, 0)]%nat;
         JobSystem.addJob_func 1 0%nat (playback_caller 1) 0)
          (started_world 2 true))).

(** [world_forest_requested] after worker 1 has taken two trips through its
    loop: it has run the caller and slot 0 of pool 1. *)
Definition world_forest_played : World :=
  default world_forest_requested
    (final_world
       (Worker.run_schedule 4 [(1, 0); (1, 0)]%nat world_forest_requested)).

(** ** Well-formed job memory *)

(** The number of slots of a pool. *)
Definition capacity (p : JobPool) : Z :=
  Z.of_nat (length (jobLists p)) * Z.of_nat m_listLength.

(** A pool as [JobPool()], [resetPool] and [getNextJob] leave it: the
    index is a [uint32_t] that does not exceed the capacity, there is a
    segment, the capacity does not exceed [2 ^ 32], and every segment has
    [m_listLength] slots. *)
Definition pool_ok (p : JobPool) : Prop :=
  0 ≤ jobIndex p < 2 ^ 32
  ∧ jobIndex p ≤ capacity p
  ∧ 0 < capacity p ≤ 2 ^ 32
  ∧ Forall (λ seg, length seg = m_listLength) (jobLists p).

(** The job memory is well formed: there is a pool, there are at most
    [2 ^ 32] pools, and every pool is well formed. *)
Definition memory_ok (w : World) : Prop :=
  (0 < length (m_jobPools w))%nat
  ∧ Z.of_nat (length (m_jobPools w)) ≤ 2 ^ 32
  ∧ Forall pool_ok (m_jobPools w).

(** ** Further concrete worlds *)

(** One worker; every slot of the only segment of pool 0 has been handed
    out, so the index of the pool equals its capacity. *)
Definition world_segment_full : World :=
  updPool (set_jobIndex (Z.of_nat m_listLength)) 0 (started_world 1 true).

(** One worker; slots 0 and 1 of pool 0 are marked as not available. *)
Definition world_two_taken : World :=
  updJob (set_available false) (mkJobPtr 0 0 1)
    (updJob (set_available false) slot0 (started_world 1 true)).

(** ** The recorded child list of a job *)

(** [l] is the list of children of [parent] in the order of registration:
    the sibling chain from [m_pFirstChild] runs through [l], and
    [m_pLastChild] is its last element. *)
Definition child_list (w : World) (parent : JobPtr) (l : list JobPtr)
  : Prop :=
  ∃ pj, jobAt w parent = Some pj
        ∧ chain w (m_pFirstChild pj) l
        ∧ (l ≠ [] → m_pLastChild pj = last l)
        ∧ NoDup l ∧ parent ∉ l.

(** One worker has taken the only job, slot 0 of pool 0, from its queue
    and has set its counter to 1; the job has slot 1 as its successor. *)
Definition world_successor_pending : World :=
  updJob (set_onFinishedJob (Some (mkJobPtr 0 0 1))) slot0 world_leaf_running.

(** [world_leaf_running] with pool 0, the pool of the running job, in
    playback mode. *)
Definition world_leaf_in_playback : World :=
  updPool (set_isPlayedBack true) 0 world_leaf_running.

(** One worker and two pools.  The main thread has created pool 1 and has
    submitted to pool 0 a job that plays pool 1 back; the worker has taken
    the job from its queue and has set its counter to 1.  Nothing has been
    recorded in pool 1. *)
Definition world_caller_running : World :=
  default (started_world 1 true)
    (final_world
       ((do _ <- JobMemory.resetPool 1;
         do _ <- JobSystem.addJob_func 1 0%nat (playback_caller 1) 0;
         do p <- Worker.pop_queue 0;
         do _ <- modify (set_jobPointers [p]);
         writeJob (set_numUnfinishedChildren 1) slot0)
          (started_world 1 true))).

(** ** What job bodies leave alone *)

(** The thread bookkeeping that only the constructor and the worker loop
    write. *)
Definition thread_view (w : World) : list (option JobPtr) * nat * nat :=
  (m_jobPointers w, m_threads_size w, threadIndexCounter w).

Definition keeps_threads {A} (m : M A) : Prop :=
  ∀ w a w', m w = Ok a w' → thread_view w' = thread_view w.

(** [world_tree_requested] after worker 1 has taken one trip through its
    loop, in which it has run the caller of the playback. *)
Definition world_tree_playing : World :=
  default world_tree_requested
    (final_world
       (Worker.threadTask_iteration 4 1%nat 0 world_tree_requested)).

(** ** Recording children *)

(** The bookkeeping of a pool and the number of its segments. *)
Definition pool_shape (p : JobPool) : Z * Z * bool * option JobPtr * nat :=
  (pool_view p, length (jobLists p)).

Definition same_pool_shapes (w w' : World) : Prop :=
  ∀ n, (pool_shape <$> m_jobPools w' !! n)
       = (pool_shape <$> m_jobPools w !! n).

(** A body that calls [addChildJob(func)] [k] times and goes on as
    [rest]. *)
Fixpoint add_children (k : nat) (func : Function) (rest : Body) : Body :=
  match k with
  | O => rest
  | S k' => BAddChildJob func (add_children k' func rest)
  end.

(** The [k] slots of pool [n] from index [index] on. *)
Definition slots_from (n : nat) (index : Z) (k : nat) : list JobPtr :=
  (λ i, slot_of_index n (index + Z.of_nat i)) <$> seq 0 k.

(** ** A pool that is used for a second frame *)

(** A job that adds one leaf as a child, and a job that registers a leaf
    as its successor. *)
Definition one_kid : Function := Some (BAddChildJob leaf BReturn).

Definition with_successor : Function :=
  Some (BOnFinishedAddJob leaf BReturn).

(** One worker.  In the first frame the main thread has submitted a
    [one_kid] job to pool 0 and the worker has run it (slot 0) and its
    child (slot 1); both have finished, nothing is queued and [m_numJobs]
    is 0.  The main thread has then reset pool 0.  Slot 1 still holds the
    parent pointer to slot 0. *)
Definition world_second_frame : World :=
  default (started_world 1 true)
    (final_world
       ((do _ <- JobSystem.addJob_func 1 0%nat one_kid 0;
         do _ <- Worker.run_schedule 2 [(1, 0); (1, 0)]%nat;
         JobMemory.resetPool 0) (started_world 1 true))).

(** The second frame: the main thread has submitted a [with_successor]
    job, which has got slot 0. *)
Definition world_successor_submitted : World :=
  default world_second_frame
    (final_world
       (JobSystem.addJob_func 1 0%nat with_successor 0 world_second_frame)).

(** The worker has taken that job from its queue, has set its counter to 1
    and is about to call its body. *)
Definition world_successor_calling : World :=
  default world_successor_submitted
    (final_world
       ((do p <- Worker.pop_queue 0;
         do _ <- modify (set_jobPointers [p]);
         writeJob (set_numUnfinishedChildren 1) slot0)
          world_successor_submitted)).

(** The body has called [onFinishedAddJob]. *)
Definition world_successor_registered : World :=
  default world_successor_calling
    (final_world
       (JobSystem.onFinishedAddJob 1 1%nat leaf world_successor_calling)).

(** [world_successor_submitted] after the worker has taken two trips
    through its loop: it has run the job and its successor. *)
Definition world_successor_done : World :=
  default world_successor_submitted
    (final_world
       (Worker.run_schedule 2 [(1, 0); (1, 0)]%nat
          world_successor_submitted)).

(** The second frame, otherwise: the main thread has submitted a leaf,
    which has got slot 0, and a [with_successor] job, which has got
    slot 1. *)
Definition world_two_submitted : World :=
  default world_second_frame
    (final_world
       ((do _ <- JobSystem.addJob_func 1 0%nat leaf 0;
         JobSystem.addJob_func 1 0%nat with_successor 0)
          world_second_frame)).

(** [world_two_submitted] after the worker has taken [n] trips through its
    loop. *)
Definition world_two_after (n : nat) : World :=
  default world_two_submitted
    (final_world
       (Worker.run_schedule 3 (replicate n (1, 0)%nat) world_two_submitted)).

(** ** Where [addJob] puts a job *)

(** [p] has been appended to the queue that the next value of [std::rand]
    selects in [w]; the other queues are those of [w]. *)
Definition pushed_back (w w' : World) (p : option JobPtr) : Prop :=
  ∃ q, m_jobQueues w
         !! (rand_seq w (rand_pos w) mod m_threads_size w)%nat
       = Some (Some q)
       ∧ m_jobQueues w'
         = <[(rand_seq w (rand_pos w) mod m_threads_size w)%nat
             := Some (q ++ [p])]> (m_jobQueues w).

(** ** Runs of the system *)

(** What the threads do, one step after the other: a thread runs the
    prologue of [threadTask]; a worker takes a trip through its loop; a
    thread makes interface calls; a thread asks for its current job. *)
Inductive Event : Type :=
| EStart (tid : ThreadId)
| ETrip (tid : ThreadId) (threadIndex : nat)
| ECalls (tid : ThreadId) (calls : Body)
| ECurrentJob (tid : ThreadId).

Definition run_event (fuel : nat) (e : Event) : M unit :=
  match e with
  | EStart tid => do _ <- Worker.threadTask_start tid; ret tt
  | ETrip tid threadIndex =>
      do _ <- Worker.threadTask_iteration fuel tid threadIndex; ret tt
  | ECalls tid calls => JobSystem.run_body fuel tid calls
  | ECurrentJob tid => do _ <- JobSystem.getJobPointer tid; ret tt
  end.

Fixpoint run_events (fuel : nat) (es : list Event) : M unit :=
  match es with
  | [] => ret tt
  | e :: rest => do _ <- run_event fuel e; run_events fuel rest
  end.

(** The index that [getThreadNumber] finds for a thread: the registered
    one, and 0 for a thread without entry. *)
Definition index_found (tid : ThreadId) (w : World) : nat :=
  default 0%nat (m_threadIndexMap w !! tid).

Definition keeps_index (tid : ThreadId) {A} (m : M A) : Prop :=
  ∀ w a w', m w = Ok a w' → index_found tid w' = index_found tid w.

(** ** Taking a job from the queues *)

(** [w1] is [w] after [r] and [k] null entries have been removed from the
    queues; the job memory is that of [w]. *)
Definition removed (w : World) (r : option JobPtr) (k : nat) (w1 : World)
  : Prop :=
  m_jobPools w1 = m_jobPools w
  ∧ all_queued w ≡ₚ match r with
                    | Some x => [Some x]
                    | None => []
                    end ++ replicate k None ++ all_queued w1.

(** ** A recorded child with a successor *)

(** A job that adds one child, which registers a leaf as its successor. *)
Definition kid_with_successor : Function :=
  Some (BAddChildJob with_successor BReturn).

(** Two workers.  The main thread has submitted a [kid_with_successor] job
    to pool 1, worker 1 has run it (slot 0), its child (slot 1) and the
    successor of the child (slot 2), and the main thread has then submitted
    a job to pool 0 that plays pool 1 back. *)
Definition world_chain_requested : World :=
  default (started_world 2 true)
    (final_world
       ((do _ <- JobSystem.addJob_func 1 0%nat kid_with_successor 1;
         do _ <- Worker.run_schedule 4 [(1, 0); (1, 0); (1, 0)]%nat;
         JobSystem.addJob_func 1 0%nat (playback_caller 1) 0)
          (started_world 2 true))).

(** [world_chain_requested] after worker 1 has taken six trips through its
    loop. *)
Definition world_chain_played : World :=
  default world_chain_requested
    (final_world
       (Worker.run_schedule 4 (replicate 6 (1, 0)%nat)
          world_chain_requested)).

(** * Properties *)

(** ** The work queue *)

Lemma pop_cons (j : option JobPtr) (q : JobQueue) :
  JobQueue.pop (j :: q) = (j, q).
Proof. reflexivity. Qed.

Lemma pop_nil : JobQueue.pop [] = (None, []).
Proof. reflexivity. Qed.

Lemma pops_all (q : JobQueue) : pops (length q) q = (q, []).
Proof.
  induction q as [|j q IH]; [reflexivity|].
  cbn [length pops]. rewrite pop_cons, IH. reflexivity.
Qed.

(** C7. [steal] gives the same result and the same remaining queue as [pop]
    on every queue: both hand out the front element (a null pointer for the
    empty queue) and leave the tail; the same holds for the two operations
    applied to the queue of a worker. *)
Theorem steal_is_pop (q : JobQueue) (idx : nat) (w : World) :
  JobQueue.steal q = JobQueue.pop q
  ∧ JobQueue.pop q = (default None (head q), tail q)
  ∧ Worker.steal_queue idx w = Worker.pop_queue idx w.
Proof.
  split; [reflexivity|]. split; [|reflexivity].
  destruct q; reflexivity.
Qed.

(** C8. A queue is first in, first out: after [push a] and then [push b] on
    any queue [q], popping [length q + 2] times returns the elements of [q]
    in order, then [a], then [b], and leaves the queue empty; [pop] on the
    empty queue returns the null pointer and leaves it empty. *)
Theorem queue_is_fifo (q : JobQueue) (a b : option JobPtr) :
  pops (length q + 2) (JobQueue.push b (JobQueue.push a q)) = (q ++ [a; b], [])
  ∧ pops 2 (JobQueue.push b (JobQueue.push a [])) = ([a; b], [])
  ∧ JobQueue.pop [] = (None, []).
Proof.
  split; [|split; reflexivity].
  unfold JobQueue.push. rewrite <- app_assoc. cbn [app].
  replace (length q + 2)%nat with (length (q ++ [a; b])).
  - apply pops_all.
  - rewrite length_app. reflexivity.
Qed.

(** ** The arena: reading after writing *)

Lemma lookupJob_alterJob (f : Job -> Job) (p q : JobPtr)
    (pools : list JobPool) :
  lookupJob (alterJob f p pools) q
  = if decide (p = q) then f <$> lookupJob pools q else lookupJob pools q.
Proof.
  unfold lookupJob, alterJob.
  destruct p as [pp ps po], q as [qp qs qo]; cbn [jp_pool jp_seg jp_off].
  destruct (decide (pp = qp)) as [->|Hp].
  - rewrite list_lookup_alter_eq.
    destruct (pools !! qp) as [pool|];
      cbn [mbind option_bind fmap option_fmap option_map jobLists set_jobLists];
      [|by case_decide].
    destruct (decide (ps = qs)) as [->|Hs].
    + rewrite list_lookup_alter_eq.
      destruct (jobLists pool !! qs) as [seg|];
        cbn [mbind option_bind fmap option_fmap option_map];
        [|by case_decide].
      destruct (decide (po = qo)) as [->|Ho].
      * rewrite list_lookup_alter_eq. by rewrite decide_True.
      * rewrite list_lookup_alter_ne by done.
        rewrite decide_False; [done|congruence].
    + rewrite list_lookup_alter_ne by done.
      rewrite decide_False; [done|congruence].
  - rewrite list_lookup_alter_ne by done.
    rewrite decide_False; [done|congruence].
Qed.

Lemma lookupJob_alterJob_eq (f : Job -> Job) (p : JobPtr)
    (pools : list JobPool) :
  lookupJob (alterJob f p pools) p = f <$> lookupJob pools p.
Proof. rewrite lookupJob_alterJob. by rewrite decide_True. Qed.

Lemma lookupJob_alterJob_ne (f : Job -> Job) (p q : JobPtr)
    (pools : list JobPool) :
  p ≠ q → lookupJob (alterJob f p pools) q = lookupJob pools q.
Proof. intros. rewrite lookupJob_alterJob. by rewrite decide_False. Qed.

Lemma jobAt_updJob (f : Job -> Job) (p q : JobPtr) (w : World) :
  jobAt (updJob f p w) q
  = if decide (p = q) then f <$> jobAt w q else jobAt w q.
Proof. apply lookupJob_alterJob. Qed.

Lemma length_alterJob (f : Job -> Job) (p : JobPtr) (pools : list JobPool) :
  length (alterJob f p pools) = length pools.
Proof. unfold alterJob. apply length_alter. Qed.

(** Writing a job leaves the bookkeeping of every pool alone. *)
Lemma pool_fields_alterJob (f : Job -> Job) (p : JobPtr)
    (pools : list JobPool) (n : nat) :
  (jobIndex <$> alterJob f p pools !! n) = (jobIndex <$> pools !! n)
  ∧ (numJobsLeftToPlay <$> alterJob f p pools !! n)
    = (numJobsLeftToPlay <$> pools !! n)
  ∧ (isPlayedBack <$> alterJob f p pools !! n) = (isPlayedBack <$> pools !! n)
  ∧ (pOnPlaybackFinishedJob <$> alterJob f p pools !! n)
    = (pOnPlaybackFinishedJob <$> pools !! n).
Proof.
  unfold alterJob. destruct (decide (jp_pool p = n)) as [<-|Hn].
  - rewrite list_lookup_alter_eq. by destruct (pools !! jp_pool p).
  - by rewrite list_lookup_alter_ne.
Qed.

(** ** Running the monad *)

Lemma readJob_run (p : JobPtr) (w : World) (j : Job) :
  jobAt w p = Some j → readJob p w = Ok j w.
Proof. unfold readJob, jobAt. by intros ->. Qed.

Lemma writeJob_run (f : Job -> Job) (p : JobPtr) (w : World) (j : Job) :
  jobAt w p = Some j → writeJob f p w = Ok tt (updJob f p w).
Proof. unfold writeJob, jobAt. by intros ->. Qed.

Lemma readPool_run (n : nat) (w : World) (pool : JobPool) :
  m_jobPools w !! n = Some pool → readPool n w = Ok pool w.
Proof. unfold readPool. by intros ->. Qed.

Lemma writePool_run (f : JobPool -> JobPool) (n : nat) (w : World)
    (pool : JobPool) :
  m_jobPools w !! n = Some pool → writePool f n w = Ok tt (updPool f n w).
Proof. unfold writePool. by intros ->. Qed.

Lemma bind_run {A B} (m : M A) (k : A -> M B) (w w' : World) (a : A) :
  m w = Ok a w' → bind m k w = k a w'.
Proof. unfold bind. by intros ->. Qed.

Lemma bind_bind {A B C} (m : M A) (f : A -> M B) (g : B -> M C) (w : World) :
  bind (bind m f) g w = bind m (fun x => bind (f x) g) w.
Proof. unfold bind. by destruct (m w). Qed.

Lemma bind_ret {A B} (a : A) (k : A -> M B) (w : World) :
  bind (ret a) k w = k a w.
Proof. reflexivity. Qed.

Lemma bind_Ok_inv {A B} (m : M A) (k : A → M B) (w w' : World) (b : B) :
  bind m k w = Ok b w' → ∃ a w1, m w = Ok a w1 ∧ k a w1 = Ok b w'.
Proof.
  unfold bind. destruct (m w) as [a w1| | |]; try done.
  intros H. by exists a, w1.
Qed.

Lemma wrap64_small (x : Z) : 0 ≤ x < 2 ^ 64 → wrap64 x = x.
Proof. intros. unfold wrap64. by apply Z.mod_small. Qed.

Lemma wrap32_small (x : Z) : 0 ≤ x < 2 ^ 32 → wrap32 x = x.
Proof. intros. unfold wrap32. by apply Z.mod_small. Qed.

Lemma pool_missing_false (n : nat) (w : World) :
  pools_fit w → (n < length (m_jobPools w))%nat →
  JobMemory.pool_missing n w = false.
Proof.
  unfold pools_fit, JobMemory.pool_missing. intros Hfit Hn.
  apply bool_decide_eq_false. rewrite wrap64_small; lia.
Qed.

Lemma set_jobPools_same (w : World) : set_jobPools (m_jobPools w) w = w.
Proof. by destruct w. Qed.

(** ** Resetting a pool *)

(** C5. For a pool that exists, [resetPool] stores 0 in the pool's
    [jobIndex] and changes nothing else: the segments of the pool, hence
    every field of every slot, the playback state of the pool, every other
    pool and every member of the scheduler are as before. *)
Theorem resetPool_only_index (poolNumber : nat) (w : World) (pool : JobPool) :
  pools_fit w →
  m_jobPools w !! poolNumber = Some pool →
  JobMemory.resetPool poolNumber w
  = Ok tt (set_jobPools (<[poolNumber := set_jobIndex 0 pool]> (m_jobPools w)) w)
  ∧ jobIndex (set_jobIndex 0 pool) = 0
  ∧ jobLists (set_jobIndex 0 pool) = jobLists pool
  ∧ numJobsLeftToPlay (set_jobIndex 0 pool) = numJobsLeftToPlay pool
  ∧ isPlayedBack (set_jobIndex 0 pool) = isPlayedBack pool
  ∧ pOnPlaybackFinishedJob (set_jobIndex 0 pool) = pOnPlaybackFinishedJob pool
  ∧ (∀ p : JobPtr,
       lookupJob (<[poolNumber := set_jobIndex 0 pool]> (m_jobPools w)) p
       = lookupJob (m_jobPools w) p)
  ∧ (∀ n : nat, n ≠ poolNumber →
       <[poolNumber := set_jobIndex 0 pool]> (m_jobPools w) !! n
       = m_jobPools w !! n).
Proof.
  intros Hfit Hpool.
  assert (Hlt : (poolNumber < length (m_jobPools w))%nat)
    by (eapply lookup_lt_Some; eauto).
  repeat split.
  - unfold JobMemory.resetPool, get_world, bind.
    rewrite (pool_missing_false _ _ Hfit Hlt). unfold ret.
    rewrite (writePool_run _ _ _ _ Hpool). unfold updPool.
    do 2 f_equal. apply list_eq. intros i.
    destruct (decide (i = poolNumber)) as [->|Hi].
    + rewrite list_lookup_alter_eq, list_lookup_insert_eq by done.
      by rewrite Hpool.
    + by rewrite list_lookup_alter_ne, list_lookup_insert_ne.
  - intros p. unfold lookupJob.
    destruct (decide (jp_pool p = poolNumber)) as [->|Hp].
    + rewrite list_lookup_insert_eq by done. by rewrite Hpool.
    + by rewrite list_lookup_insert_ne.
  - intros n Hn. by rewrite list_lookup_insert_ne.
Qed.

(** ** The thread registry *)

(** The first call on a thread whose identity is not in
    [m_threadIndexMap]: [getThreadNumber] returns 0 and inserts the entry
    [tid ↦ 0]; [getJobPointer] then reads [m_jobPointers[0]]. *)
Lemma first_call_inserts_zero (tid : ThreadId) (w : World) :
  m_threadIndexMap w !! tid = None →
  let w' := set_threadIndexMap (<[tid := 0%nat]> (m_threadIndexMap w)) w in
  JobSystem.getThreadNumber tid w = Ok 0%nat w'
  ∧ JobSystem.getJobPointer tid w
    = match m_jobPointers w !! 0%nat with
      | Some p => Ok p w'
      | None => UB
      end
  ∧ (JobSystem.getJobPointer tid w = Ok None w'
     ↔ m_jobPointers w !! 0%nat = Some None).
Proof.
  intros Hnone w'.
  assert (Hnum : JobSystem.getThreadNumber tid w = Ok 0%nat w').
  { unfold JobSystem.getThreadNumber. by rewrite Hnone. }
  assert (Hptr : JobSystem.getJobPointer tid w
                 = match m_jobPointers w !! 0%nat with
                   | Some p => Ok p w'
                   | None => UB
                   end).
  { unfold JobSystem.getJobPointer. rewrite (bind_run _ _ _ _ _ Hnum).
    unfold get_world, bind. subst w'. cbn [m_jobPointers set_threadIndexMap].
    by destruct (m_jobPointers w !! 0%nat). }
  split; [done|]. split; [done|].
  rewrite Hptr. destruct (m_jobPointers w !! 0%nat) as [[p|]|]; split;
    intros H; try done; inversion H.
Qed.

(** ** Child registration during playback *)

(** C6. While the target pool is being played back,
    [addChildJob(func, poolNumber, id)] returns at once: the world after the
    call is the world before it, so nothing is allocated or queued and no
    counter or link has changed. *)
Theorem addChildJob_playback_noop (fuel : nat) (tid : ThreadId)
    (func : Function) (poolNumber : nat) (w : World) (pool : JobPool) :
  m_jobPools w !! poolNumber = Some pool →
  isPlayedBack pool = true →
  JobSystem.addChildJob_in fuel tid func poolNumber w = Ok tt w.
Proof.
  intros Hpool Hplay. unfold JobSystem.addChildJob_in.
  rewrite (bind_run _ _ _ _ _ (readPool_run _ _ _ Hpool)).
  by rewrite Hplay.
Qed.

(** The overloads that take the pool from the caller's current job: on a
    registered worker thread with a current job in a pool under playback
    they are the same no-op. *)
Lemma addChildJob_default_pool_playback_noop (fuel : nat) (tid : ThreadId)
    (func : Function) (w : World) (n : nat) (cur : JobPtr) (j : Job)
    (pool : JobPool) :
  m_threadIndexMap w !! tid = Some n →
  m_jobPointers w !! n = Some (Some cur) →
  jobAt w cur = Some j →
  m_jobPools w !! m_poolNumber j = Some pool →
  isPlayedBack pool = true →
  JobSystem.addChildJob fuel tid func w = Ok tt w.
Proof.
  intros Htid Hcur Hj Hpool Hplay.
  unfold JobSystem.addChildJob, JobSystem.getJobPointer,
    JobSystem.getThreadNumber, get_world, bind.
  rewrite Htid, Hcur. unfold ret.
  rewrite (readJob_run _ _ _ Hj). unfold JobSystem.addChildJob_in.
  rewrite (bind_run _ _ _ _ _ (readPool_run _ _ _ Hpool)).
  by rewrite Hplay.
Qed.

Lemma addChildJob_playback_noop_witness :
  JobSystem.addChildJob_in 1 1%nat (Some BReturn) 0 world_playing_back
  = Ok tt world_playing_back.
Proof.
  apply (addChildJob_playback_noop 1 1%nat (Some BReturn) 0 world_playing_back
           (set_isPlayedBack true (JobPool_ctor true))).
  - reflexivity.
  - reflexivity.
Defined.

Lemma resetPool_only_index_witness :
  jobIndex (the_pool world_tree_requested 1) = 3
  ∧ JobMemory.resetPool 1 world_tree_requested
    = Ok tt (set_jobPools
               (<[1%nat := set_jobIndex 0 (the_pool world_tree_requested 1)]>
                  (m_jobPools world_tree_requested))
               world_tree_requested)
  ∧ (m_pFirstChild
       <$> lookupJob
             (<[1%nat := set_jobIndex 0 (the_pool world_tree_requested 1)]>
                (m_jobPools world_tree_requested))
             tree_root)
    = Some (Some (mkJobPtr 1 0 1))
  ∧ (m_parentJob
       <$> lookupJob
             (<[1%nat := set_jobIndex 0 (the_pool world_tree_requested 1)]>
                (m_jobPools world_tree_requested))
             (mkJobPtr 1 0 2))
    = Some (Some tree_root).
Proof.
  destruct (resetPool_only_index 1 world_tree_requested
              (the_pool world_tree_requested 1))
    as (Hrun & _ & _ & _ & _ & _ & Hjobs & _).
  - unfold pools_fit. vm_compute. reflexivity.
  - vm_compute. reflexivity.
  - split; [vm_compute; reflexivity|]. split; [exact Hrun|].
    rewrite !Hjobs. split; vm_compute; reflexivity.
Defined.

(** ** Executing a job without a function *)

(** C1, counterexample.  Slot 0 is a live job with counter 1 whose
    [m_function] is null.  [Job::operator()] returns with the world
    unchanged: the counter is still 1, [onFinished] has not run, the job is
    not available and [m_numJobs] is still 1. *)
Lemma Job_call_null_function_counterexample :
  (m_function <$> jobAt world_null_function slot0) = Some None
  ∧ counterAt world_null_function slot0 = Some 1
  ∧ ∃ w', JobSystem.Job_call 1 1%nat slot0 world_null_function = Ok tt w'
          ∧ counterAt w' slot0 = Some 1
          ∧ finished_times w' slot0 = 0%nat
          ∧ (m_available <$> jobAt w' slot0) = Some false
          ∧ m_numJobs w' = 1.
Proof.
  split; [reflexivity|]. split; [reflexivity|].
  exists world_null_function. repeat split; reflexivity.
Qed.

(** C1, as amended.  A job whose [m_function] is the null pointer is not
    executed at all: [Job::operator()] returns at once and leaves the whole
    world as it was, so no counter is decremented and [onFinished] does not
    run.  A job whose [m_function] points to an empty [std::function] sets
    its counter to 1 and then throws [std::bad_function_call]; the
    completion protocol does not run either. *)
Theorem Job_call_without_function (fuel : nat) (tid : ThreadId)
    (this : JobPtr) (w : World) (j : Job) :
  jobAt w this = Some j →
  m_function j = None ∨ m_function j = Some None →
  JobSystem.Job_call fuel tid this w
  = match m_function j with
    | None => Ok tt w
    | Some _ => BadCall (updJob (set_numUnfinishedChildren 1) this w)
    end.
Proof.
  intros Hj Hf. unfold JobSystem.Job_call.
  rewrite (bind_run _ _ _ _ _ (readJob_run _ _ _ Hj)).
  destruct Hf as [-> | ->]; [reflexivity|].
  rewrite (bind_run _ _ _ _ _ (writeJob_run _ _ _ _ Hj)).
  reflexivity.
Qed.

Lemma Job_call_without_function_witness :
  JobSystem.Job_call 1 1%nat slot0 world_null_function
  = Ok tt world_null_function.
Proof.
  apply (Job_call_without_function 1 1%nat slot0 world_null_function
           (set_numUnfinishedChildren 1 (set_available false (Job_ctor true)))).
  - reflexivity.
  - left. reflexivity.
Defined.

(** ** Allocation *)

(** C2, the code at the failing input.  The main thread submits [f], resets
    pool 0 and submits [g] before any worker has run.  Both submissions get
    slot 0: its availability flag is still true after the first allocation,
    so the second one takes the slot of the job that is still queued.  The
    queue then holds slot 0 twice and the slot holds [g]. *)
Theorem allocateJob_reuses_live_slot :
  ∃ w1 w2 w3,
    JobMemory.allocateJob 1 None 0 (started_world 1 true) = Ok slot0 w1
    ∧ (m_available <$> jobAt w1 slot0) = Some true
    ∧ JobMemory.resetPool 0 w1 = Ok tt w2
    ∧ JobMemory.allocateJob 1 None 0 w2 = Ok slot0 w3
    ∧ ∃ w4,
        submit_reset_submit (Some BReturn) (Some (BTerminate BReturn))
          (started_world 1 true) = Ok tt w4
        ∧ m_jobQueues w4 = [Some [Some slot0; Some slot0]]
        ∧ (m_function <$> jobAt w4 slot0)
          = Some (Some (Some (BTerminate BReturn)))
        ∧ m_numJobs w4 = 2.
Proof.
  eexists _, _, _.
  split; [vm_compute; reflexivity|].
  split; [vm_compute; reflexivity|].
  split; [vm_compute; reflexivity|].
  split; [vm_compute; reflexivity|].
  eexists. split; [vm_compute; reflexivity|].
  repeat split; vm_compute; reflexivity.
Qed.

(** ** Worlds after writes *)

Ltac wsimpl :=
  cbn [m_jobPools m_threads_size m_jobPointers m_threadIndexMap m_terminate
       m_jobQueues m_numJobs threadIndexCounter rand_seq rand_pos
       indeterminate_flag body_log finished_log notify_count
       set_jobPools set_jobPointers set_threadIndexMap set_terminate
       set_jobQueues set_numJobs set_threadIndexCounter set_rand_pos
       set_body_log set_finished_log set_notify_count] in *.

Lemma jobAt_updJob_eq (f : Job -> Job) (p : JobPtr) (w : World) :
  jobAt (updJob f p w) p = f <$> jobAt w p.
Proof. rewrite jobAt_updJob. by rewrite decide_True. Qed.

Lemma jobAt_updJob_ne (f : Job -> Job) (p q : JobPtr) (w : World) :
  p ≠ q → jobAt (updJob f p w) q = jobAt w q.
Proof. intros. rewrite jobAt_updJob. by rewrite decide_False. Qed.

Lemma lookupJob_alter_pool (f : JobPool -> JobPool) (n : nat)
    (pools : list JobPool) (p : JobPtr) :
  (∀ pool, jobLists (f pool) = jobLists pool) →
  lookupJob (alter f n pools) p = lookupJob pools p.
Proof.
  intros Hf. unfold lookupJob.
  destruct (decide (n = jp_pool p)) as [->|Hn].
  - rewrite list_lookup_alter_eq. destruct (pools !! jp_pool p) as [pool|];
      cbn [fmap option_fmap option_map mbind option_bind]; [|done].
    by rewrite Hf.
  - by rewrite list_lookup_alter_ne.
Qed.

Lemma jobAt_updPool (f : JobPool -> JobPool) (n : nat) (w : World)
    (p : JobPtr) :
  (∀ pool, jobLists (f pool) = jobLists pool) →
  jobAt (updPool f n w) p = jobAt w p.
Proof. intros. unfold jobAt, updPool. wsimpl. by apply lookupJob_alter_pool. Qed.

Lemma valid_updJob (f : Job -> Job) (p q : JobPtr) (w : World) :
  valid (updJob f p w) q ↔ valid w q.
Proof.
  unfold valid. rewrite jobAt_updJob. case_decide; [|done].
  by rewrite fmap_is_Some.
Qed.

Lemma writeJob_valid (f : Job -> Job) (p : JobPtr) (w : World) :
  valid w p → writeJob f p w = Ok tt (updJob f p w).
Proof. intros [j Hj]. by eapply writeJob_run. Qed.

Lemma pool_updJob (f : Job -> Job) (p : JobPtr) (w : World) (n : nat)
    (pool : JobPool) :
  m_jobPools w !! n = Some pool →
  ∃ pool', m_jobPools (updJob f p w) !! n = Some pool'
           ∧ jobIndex pool' = jobIndex pool
           ∧ numJobsLeftToPlay pool' = numJobsLeftToPlay pool
           ∧ isPlayedBack pool' = isPlayedBack pool
           ∧ pOnPlaybackFinishedJob pool' = pOnPlaybackFinishedJob pool
           ∧ length (jobLists pool') = length (jobLists pool).
Proof.
  intros Hpool. unfold updJob, alterJob. wsimpl.
  destruct (decide (jp_pool p = n)) as [<-|Hn].
  - rewrite list_lookup_alter_eq, Hpool. eexists. split; [reflexivity|].
    cbn. rewrite length_alter. done.
  - rewrite list_lookup_alter_ne by done. by exists pool.
Qed.

(** ** One allocation, step by step *)

Section Allocation.

Variables (w : World) (poolNumber : nat) (pool : JobPool).
Hypothesis Hfit : pools_fit w.
Hypothesis Hpool : m_jobPools w !! poolNumber = Some pool.
Hypothesis Hsegment : JobMemory.segment_missing (jobIndex pool) pool = false.

Lemma getNextJob_run :
  valid w (slot_of_index poolNumber (jobIndex pool)) →
  JobMemory.getNextJob poolNumber w
  = Ok (slot_of_index poolNumber (jobIndex pool))
       (index_taken poolNumber pool w).
Proof.
  intros [j Hj].
  assert (Hlt : (poolNumber < length (m_jobPools w))%nat)
    by (eapply lookup_lt_Some; eauto).
  unfold JobMemory.getNextJob, get_world, bind.
  rewrite (pool_missing_false _ _ Hfit Hlt). unfold ret.
  rewrite (readPool_run _ _ _ Hpool).
  rewrite (writePool_run _ _ _ _ Hpool). rewrite Hsegment.
  fold (slot_of_index poolNumber (jobIndex pool)).
  erewrite readJob_run; [done|].
  rewrite jobAt_updPool; [exact Hj|done].
Qed.

Lemma jobAt_index_taken (p : JobPtr) :
  jobAt (index_taken poolNumber pool w) p = jobAt w p.
Proof. unfold index_taken. by rewrite jobAt_updPool. Qed.

Lemma probe_run (fuel : nat) (j : Job) :
  jobAt w (slot_of_index poolNumber (jobIndex pool)) = Some j →
  m_available j = true →
  JobMemory.probe (S fuel) poolNumber w
  = Ok (slot_of_index poolNumber (jobIndex pool))
       (index_taken poolNumber pool w).
Proof.
  intros Hj Hav. cbn [JobMemory.probe].
  rewrite (bind_run _ _ _ _ _ (getNextJob_run (mk_is_Some _ _ Hj))).
  erewrite bind_run; [|apply readJob_run; rewrite jobAt_index_taken; exact Hj].
  by rewrite Hav.
Qed.

End Allocation.

Ltac jobAt_norm :=
  repeat first
    [ rewrite jobAt_updJob_eq
    | rewrite jobAt_updJob_ne by (done || congruence)
    | rewrite jobAt_index_taken
    | rewrite jobAt_updPool by done ].

Lemma jobAt_initialised (poolNumber : nat) (p q : JobPtr) (w : World) :
  jobAt (initialised poolNumber p w) q
  = if decide (p = q) then allocate_init poolNumber <$> jobAt w q
    else jobAt w q.
Proof.
  unfold initialised. case_decide as Hpq.
  - subst q. jobAt_norm. by destruct (jobAt w p).
  - by jobAt_norm.
Qed.

Lemma valid_initialised (poolNumber : nat) (p q : JobPtr) (w : World) :
  valid (initialised poolNumber p w) q ↔ valid w q.
Proof. unfold initialised. by rewrite !valid_updJob. Qed.

Lemma valid_index_taken (poolNumber : nat) (pool : JobPool) (w : World)
    (q : JobPtr) :
  valid (index_taken poolNumber pool w) q ↔ valid w q.
Proof. unfold valid. by rewrite jobAt_index_taken. Qed.

(** [allocateJob] without a parent, when the slot at the pool's index is
    available. *)
Lemma allocateJob_orphan_run (fuel : nat) (w : World) (poolNumber : nat)
    (pool : JobPool) (j : Job) :
  pools_fit w →
  m_jobPools w !! poolNumber = Some pool →
  JobMemory.segment_missing (jobIndex pool) pool = false →
  jobAt w (slot_of_index poolNumber (jobIndex pool)) = Some j →
  m_available j = true →
  JobMemory.allocateJob (S fuel) None poolNumber w
  = Ok (slot_of_index poolNumber (jobIndex pool))
       (initialised poolNumber (slot_of_index poolNumber (jobIndex pool))
          (index_taken poolNumber pool w)).
Proof.
  intros Hfit Hpool Hseg Hj Hav. unfold JobMemory.allocateJob.
  rewrite (bind_run _ _ _ _ _ (probe_run w _ pool Hfit Hpool Hseg fuel j Hj Hav)).
  assert (Hv : valid (index_taken poolNumber pool w)
                 (slot_of_index poolNumber (jobIndex pool))).
  { rewrite valid_index_taken. by eexists. }
  unfold initialised.
  repeat (erewrite bind_run;
          [|apply writeJob_valid; rewrite ?valid_updJob; exact Hv]).
  reflexivity.
Qed.

(** [setParentJob] for a parent that has no child yet, and for one that
    has. *)
Lemma setParentJob_first_run (this parent : JobPtr) (w : World) (pj : Job) :
  valid w this →
  jobAt (updJob (set_parentJob (Some parent)) this w) parent = Some pj →
  m_pFirstChild pj = None →
  Job.setParentJob this parent w
  = Ok tt (updJob (set_pLastChild (Some this)) parent
             (updJob (set_pFirstChild (Some this)) parent
                (updJob incr_counter parent
                   (updJob (set_parentJob (Some parent)) this w)))).
Proof.
  intros Hthis Hpj Hfirst. unfold Job.setParentJob.
  rewrite (bind_run _ _ _ _ _ (writeJob_valid _ _ _ Hthis)).
  fold incr_counter.
  rewrite (bind_run _ _ _ _ _ (writeJob_run _ _ _ _ Hpj)).
  erewrite bind_run;
    [|apply readJob_run; rewrite jobAt_updJob_eq, Hpj; reflexivity].
  cbn [incr_counter m_pFirstChild set_numUnfinishedChildren].
  rewrite Hfirst.
  erewrite bind_run;
    [|apply writeJob_valid; rewrite !valid_updJob].
  - apply writeJob_valid. rewrite !valid_updJob.
    apply valid_updJob with (set_parentJob (Some parent)) this. by eexists.
  - apply valid_updJob with (set_parentJob (Some parent)) this. by eexists.
Qed.

Lemma setParentJob_next_run (this parent last : JobPtr) (w : World)
    (pj : Job) :
  valid w this →
  jobAt (updJob (set_parentJob (Some parent)) this w) parent = Some pj →
  is_Some (m_pFirstChild pj) →
  m_pLastChild pj = Some last →
  valid w last →
  Job.setParentJob this parent w
  = Ok tt (updJob (set_pLastChild (Some this)) parent
             (updJob (set_pNextSibling (Some this)) last
                (updJob incr_counter parent
                   (updJob (set_parentJob (Some parent)) this w)))).
Proof.
  intros Hthis Hpj [f Hfirst] Hlast Hvlast. unfold Job.setParentJob.
  rewrite (bind_run _ _ _ _ _ (writeJob_valid _ _ _ Hthis)).
  fold incr_counter.
  rewrite (bind_run _ _ _ _ _ (writeJob_run _ _ _ _ Hpj)).
  erewrite bind_run;
    [|apply readJob_run; rewrite jobAt_updJob_eq, Hpj; reflexivity].
  cbn [incr_counter m_pFirstChild m_pLastChild set_numUnfinishedChildren].
  rewrite Hfirst, Hlast.
  erewrite bind_run; [|apply writeJob_valid; by rewrite !valid_updJob].
  apply writeJob_valid. rewrite !valid_updJob.
  apply valid_updJob with (set_parentJob (Some parent)) this. by eexists.
Qed.

(** [allocateJob] with a parent: the allocation of the slot followed by
    [setParentJob]. *)
Lemma allocateJob_child_run (fuel : nat) (w : World) (poolNumber : nat)
    (pool : JobPool) (j : Job) (parent : JobPtr) (w' : World) :
  pools_fit w →
  m_jobPools w !! poolNumber = Some pool →
  JobMemory.segment_missing (jobIndex pool) pool = false →
  jobAt w (slot_of_index poolNumber (jobIndex pool)) = Some j →
  m_available j = true →
  Job.setParentJob (slot_of_index poolNumber (jobIndex pool)) parent
    (initialised poolNumber (slot_of_index poolNumber (jobIndex pool))
       (index_taken poolNumber pool w)) = Ok tt w' →
  JobMemory.allocateJob (S fuel) (Some parent) poolNumber w
  = Ok (slot_of_index poolNumber (jobIndex pool)) w'.
Proof.
  intros Hfit Hpool Hseg Hj Hav Hset. unfold JobMemory.allocateJob.
  rewrite (bind_run _ _ _ _ _ (probe_run w _ pool Hfit Hpool Hseg fuel j Hj Hav)).
  assert (Hv : valid (index_taken poolNumber pool w)
                 (slot_of_index poolNumber (jobIndex pool))).
  { rewrite valid_index_taken. by eexists. }
  unfold initialised in Hset.
  repeat (erewrite bind_run;
          [|apply writeJob_valid; rewrite ?valid_updJob; exact Hv]).
  by rewrite (bind_run _ _ _ _ _ Hset).
Qed.

Lemma getJobPointer_registered (tid : ThreadId) (w : World) (n : nat)
    (p : option JobPtr) :
  m_threadIndexMap w !! tid = Some n →
  m_jobPointers w !! n = Some p →
  JobSystem.getJobPointer tid w = Ok p w.
Proof.
  intros Htid Hp.
  unfold JobSystem.getJobPointer, JobSystem.getThreadNumber, get_world, bind.
  rewrite Htid, Hp. reflexivity.
Qed.

(** ** Registering a successor *)

(** X24.  [onFinishedAddJob], called by a worker whose current job [cur] has
    the parent [parent], outside playback, allocates the successor with
    [parent] as its parent: the successor's [m_parentJob] is [parent], the
    counter of [parent] is one higher, the successor is the last child of
    [parent] (and the first one if there was none; otherwise the former last
    child has it as next sibling), and [cur] has it as [m_onFinishedJob].
    The parent's completion waits for the successor: when [cur] then reports
    its completion to [parent], the counter returns to its former value,
    which is not zero, and [onFinished] does not run for [parent]. *)
Theorem onFinishedAddJob_inherits_parent
    (fuel : nat) (tid : ThreadId) (func : Function) (w : World)
    (n : nat) (cur parent : JobPtr) (cj pj nj : Job) (pool : JobPool) :
  pools_fit w →
  m_threadIndexMap w !! tid = Some n →
  m_jobPointers w !! n = Some (Some cur) →
  jobAt w cur = Some cj →
  m_parentJob cj = Some parent →
  jobAt w parent = Some pj →
  m_jobPools w !! m_poolNumber cj = Some pool →
  isPlayedBack pool = false →
  JobMemory.segment_missing (jobIndex pool) pool = false →
  jobAt w (slot_of_index (m_poolNumber cj) (jobIndex pool)) = Some nj →
  m_available nj = true →
  slot_of_index (m_poolNumber cj) (jobIndex pool) ≠ cur →
  slot_of_index (m_poolNumber cj) (jobIndex pool) ≠ parent →
  (is_Some (m_pFirstChild pj) →
   ∃ last, m_pLastChild pj = Some last ∧ valid w last) →
  1 ≤ m_numUnfinishedChildren pj < 2 ^ 32 - 1 →
  ∃ w', JobSystem.onFinishedAddJob (S fuel) tid func w = Ok tt w'
    ∧ (∃ nj', jobAt w' (slot_of_index (m_poolNumber cj) (jobIndex pool)) = Some nj'
              ∧ m_parentJob nj' = Some parent
              ∧ m_function nj' = Some func
              ∧ m_poolNumber nj' = m_poolNumber cj)
    ∧ (∃ cj', jobAt w' cur = Some cj'
              ∧ m_onFinishedJob cj'
                = Some (slot_of_index (m_poolNumber cj) (jobIndex pool)))
    ∧ (∃ pj', jobAt w' parent = Some pj'
              ∧ m_numUnfinishedChildren pj' = m_numUnfinishedChildren pj + 1
              ∧ m_pLastChild pj'
                = Some (slot_of_index (m_poolNumber cj) (jobIndex pool))
              ∧ m_pFirstChild pj'
                = Some (default (slot_of_index (m_poolNumber cj) (jobIndex pool))
                                (m_pFirstChild pj)))
    ∧ (∀ last, is_Some (m_pFirstChild pj) → m_pLastChild pj = Some last →
         ∃ lj, jobAt w' last = Some lj
               ∧ m_pNextSibling lj
                 = Some (slot_of_index (m_poolNumber cj) (jobIndex pool)))
    ∧ (∃ w'', JobSystem.childFinished (S fuel) parent w' = Ok tt w''
              ∧ counterAt w'' parent = Some (m_numUnfinishedChildren pj)
              ∧ finished_log w'' = finished_log w').
Proof.
  intros Hfit Htid Hptr Hcur Hpar Hpj Hpool Hplay Hseg Hnj Hav Hnc Hnp Hlast Hc.
  set (pNew := slot_of_index (m_poolNumber cj) (jobIndex pool)) in *.
  unfold JobSystem.onFinishedAddJob.
  rewrite (bind_run _ _ _ _ _ (getJobPointer_registered _ _ _ _ Htid Hptr)).
  rewrite (bind_run _ _ _ _ _ (readJob_run _ _ _ Hcur)).
  rewrite (bind_run _ _ _ _ _ (readPool_run _ _ _ Hpool)).
  rewrite Hplay.
  rewrite (bind_run _ _ _ _ _ (readJob_run _ _ _ Hcur)).
  rewrite Hpar.
  assert (Hvnew : valid (initialised (m_poolNumber cj) pNew
                           (index_taken (m_poolNumber cj) pool w)) pNew).
  { rewrite valid_initialised, valid_index_taken. by eexists. }
  assert (Hpj' : jobAt (updJob (set_parentJob (Some parent)) pNew
                          (initialised (m_poolNumber cj) pNew
                             (index_taken (m_poolNumber cj) pool w))) parent
                 = Some pj).
  { jobAt_norm. rewrite jobAt_initialised, decide_False by done.
    by rewrite jobAt_index_taken. }
  assert (Hinit : ∀ q, q ≠ pNew →
            jobAt (initialised (m_poolNumber cj) pNew
                     (index_taken (m_poolNumber cj) pool w)) q = jobAt w q).
  { intros q Hq. rewrite jobAt_initialised, decide_False by done.
    by rewrite jobAt_index_taken. }
  assert (Hfin : ∀ W pj',
            jobAt W parent = Some pj' →
            m_numUnfinishedChildren pj' = m_numUnfinishedChildren pj + 1 →
            ∃ w'', JobSystem.childFinished (S fuel) parent W = Ok tt w''
                   ∧ counterAt w'' parent = Some (m_numUnfinishedChildren pj)
                   ∧ finished_log w'' = finished_log W).
  { intros W pj' HW Hcnt. unfold JobSystem.childFinished, Job.childFinished_with.
    rewrite (bind_run _ _ _ _ _ (readJob_run _ _ _ HW)).
    rewrite (bind_run _ _ _ _ _ (writeJob_run _ _ _ _ HW)).
    rewrite decide_False by lia. eexists. split; [reflexivity|].
    split; [|reflexivity]. unfold counterAt. rewrite jobAt_updJob_eq, HW.
    cbn. f_equal. rewrite Hcnt. rewrite wrap32_small; lia. }
  destruct (m_pFirstChild pj) as [first|] eqn:Hfirst.
  - destruct (Hlast (mk_is_Some _ _ eq_refl)) as (last & Hl & Hvl).
    erewrite bind_run.
    2:{ eapply allocateJob_child_run; eauto.
        eapply setParentJob_next_run; eauto.
        by rewrite valid_initialised, valid_index_taken. }
    fold pNew. unfold Job.setFunction, Job.setOnFinished.
    erewrite bind_run;
      [|apply writeJob_valid; by rewrite !valid_updJob].
    erewrite writeJob_valid;
      [|rewrite !valid_updJob, valid_initialised, valid_index_taken; by eexists].
    eexists. split; [reflexivity|].
    assert (Hparent : ∃ pj',
              jobAt (updJob (set_onFinishedJob (Some pNew)) cur
                (updJob (set_function (Some func)) pNew
                  (updJob (set_pLastChild (Some pNew)) parent
                    (updJob (set_pNextSibling (Some pNew)) last
                      (updJob incr_counter parent
                        (updJob (set_parentJob (Some parent)) pNew
                          (initialised (m_poolNumber cj) pNew
                            (index_taken (m_poolNumber cj) pool w)))))))) parent
              = Some pj'
              ∧ m_numUnfinishedChildren pj' = m_numUnfinishedChildren pj + 1
              ∧ m_pLastChild pj' = Some pNew
              ∧ m_pFirstChild pj' = Some first).
    { rewrite !jobAt_updJob, !Hinit by done. rewrite Hpj.
      rewrite (decide_False (P := pNew = parent)) by done.
      rewrite (decide_True (P := parent = parent)) by done.
      repeat case_decide; try congruence; cbn; eexists;
        (split; [reflexivity|]); cbn;
        rewrite ?Hfirst; (split; [rewrite wrap32_small; lia|done]). }
    split; [|split; [|split; [exact Hparent|split]]].
    + rewrite !jobAt_updJob, jobAt_initialised, jobAt_index_taken.
      rewrite Hnj. rewrite (decide_True (P := pNew = pNew)) by done.
      rewrite (decide_False (P := parent = pNew)) by done.
      rewrite (decide_False (P := cur = pNew)) by done.
      repeat case_decide; try congruence; cbn; eexists;
        (split; [reflexivity|]); done.
    + rewrite jobAt_updJob_eq.
      assert (Hv : valid (updJob (set_function (Some func)) pNew
                  (updJob (set_pLastChild (Some pNew)) parent
                    (updJob (set_pNextSibling (Some pNew)) last
                      (updJob incr_counter parent
                        (updJob (set_parentJob (Some parent)) pNew
                          (initialised (m_poolNumber cj) pNew
                            (index_taken (m_poolNumber cj) pool w))))))) cur).
      { rewrite !valid_updJob, valid_initialised, valid_index_taken.
        by eexists. }
      destruct Hv as [x ->]. by eexists.
    + intros last0 _ Hl0. rewrite Hl in Hl0. injection Hl0 as <-.
      rewrite !jobAt_updJob.
      assert (Hv : valid (updJob incr_counter parent
                        (updJob (set_parentJob (Some parent)) pNew
                          (initialised (m_poolNumber cj) pNew
                            (index_taken (m_poolNumber cj) pool w)))) last).
      { by rewrite !valid_updJob, valid_initialised, valid_index_taken. }
      rewrite (decide_True (P := last = last)) by done.
      destruct Hv as [x Hx]. rewrite !jobAt_updJob in Hx. rewrite Hx.
      repeat case_decide; try congruence; cbn; eexists;
        (split; [reflexivity|]); done.
    + destruct Hparent as (pj' & Hpj'' & Hcnt & _). by eapply Hfin.
  - erewrite bind_run.
    2:{ eapply allocateJob_child_run; eauto.
        eapply setParentJob_first_run; eauto. }
    fold pNew. unfold Job.setFunction, Job.setOnFinished.
    erewrite bind_run;
      [|apply writeJob_valid; by rewrite !valid_updJob].
    erewrite writeJob_valid;
      [|rewrite !valid_updJob, valid_initialised, valid_index_taken; by eexists].
    eexists. split; [reflexivity|].
    assert (Hparent : ∃ pj',
              jobAt (updJob (set_onFinishedJob (Some pNew)) cur
                (updJob (set_function (Some func)) pNew
                  (updJob (set_pLastChild (Some pNew)) parent
                    (updJob (set_pFirstChild (Some pNew)) parent
                      (updJob incr_counter parent
                        (updJob (set_parentJob (Some parent)) pNew
                          (initialised (m_poolNumber cj) pNew
                            (index_taken (m_poolNumber cj) pool w)))))))) parent
              = Some pj'
              ∧ m_numUnfinishedChildren pj' = m_numUnfinishedChildren pj + 1
              ∧ m_pLastChild pj' = Some pNew
              ∧ m_pFirstChild pj' = Some pNew).
    { rewrite !jobAt_updJob, !Hinit by done. rewrite Hpj.
      repeat case_decide; try congruence; cbn; eexists;
        (split; [reflexivity|]); cbn;
        (split; [rewrite wrap32_small; lia|done]). }
    split; [|split; [|split; [exact Hparent|split]]].
    + rewrite !jobAt_updJob, jobAt_initialised, jobAt_index_taken.
      rewrite Hnj.
      repeat case_decide; try congruence; cbn; eexists;
        (split; [reflexivity|]); done.
    + rewrite jobAt_updJob_eq.
      assert (Hv : valid (updJob (set_function (Some func)) pNew
                  (updJob (set_pLastChild (Some pNew)) parent
                    (updJob (set_pFirstChild (Some pNew)) parent
                      (updJob incr_counter parent
                        (updJob (set_parentJob (Some parent)) pNew
                          (initialised (m_poolNumber cj) pNew
                            (index_taken (m_poolNumber cj) pool w))))))) cur).
      { rewrite !valid_updJob, valid_initialised, valid_index_taken.
        by eexists. }
      destruct Hv as [x ->]. by eexists.
    + intros last0 [? [=]].
    + destruct Hparent as (pj' & Hpj'' & Hcnt & _). by eapply Hfin.
Qed.

Lemma onFinishedAddJob_inherits_parent_witness :
  ∃ w', JobSystem.onFinishedAddJob 1 1%nat leaf world_child_running = Ok tt w'
        ∧ (m_parentJob <$> jobAt w' (mkJobPtr 0 0 2))
          = Some (Some (mkJobPtr 0 0 0))
        ∧ counterAt w' (mkJobPtr 0 0 0) = Some 2.
Proof.
  destruct (onFinishedAddJob_inherits_parent 0 1%nat leaf world_child_running
              0%nat (mkJobPtr 0 0 1) (mkJobPtr 0 0 0)
              (the_job world_child_running (mkJobPtr 0 0 1))
              (the_job world_child_running (mkJobPtr 0 0 0))
              (the_job world_child_running (mkJobPtr 0 0 2))
              (the_pool world_child_running 0))
    as (w' & Hrun & (nj' & Hnj & Hpar & _) & _ & (pj' & Hpj & Hcnt & _) & _).
  - unfold pools_fit. vm_compute. reflexivity.
  - vm_compute. reflexivity.
  - vm_compute. reflexivity.
  - vm_compute. reflexivity.
  - vm_compute. reflexivity.
  - vm_compute. reflexivity.
  - vm_compute. reflexivity.
  - vm_compute. reflexivity.
  - vm_compute. reflexivity.
  - vm_compute. reflexivity.
  - vm_compute. reflexivity.
  - vm_compute. discriminate.
  - vm_compute. discriminate.
  - intros _. exists (mkJobPtr 0 0 1). split; [vm_compute; reflexivity|].
    eexists. vm_compute. reflexivity.
  - vm_compute. split; [discriminate|reflexivity].
  - exists w'. split; [exact Hrun|]. split.
    + change (slot_of_index _ _) with (mkJobPtr 0 0 2) in Hnj.
      rewrite Hnj. cbn. by rewrite Hpar.
    + unfold counterAt. rewrite Hpj. cbn. rewrite Hcnt. reflexivity.
Defined.

(** ** Only the decrement to zero runs [onFinished] *)

Lemma keeps_ret {A} (a : A) : keeps_finished_log (ret a).
Proof. intros w a' w' [= _ <-]. reflexivity. Qed.

Lemma keeps_bind {A B} (m : M A) (k : A -> M B) :
  keeps_finished_log m → (∀ a, keeps_finished_log (k a)) →
  keeps_finished_log (bind m k).
Proof.
  intros Hm Hk w b w'. unfold bind.
  destruct (m w) as [a w1| | |] eqn:Hmw; try done.
  intros Hkw. rewrite (Hk a _ _ _ Hkw). eapply Hm, Hmw.
Qed.

Lemma keeps_undefined {A} : keeps_finished_log (@undefined A).
Proof. intros w a w' [=]. Qed.

Lemma keeps_out_of_fuel {A} : keeps_finished_log (@out_of_fuel A).
Proof. intros w a w' [=]. Qed.

Lemma keeps_bad_function_call {A} : keeps_finished_log (@bad_function_call A).
Proof. intros w a w' [=]. Qed.

Lemma keeps_get_world : keeps_finished_log get_world.
Proof. intros w a w' [= _ <-]. reflexivity. Qed.

Lemma keeps_modify (f : World -> World) :
  (∀ w, finished_log (f w) = finished_log w) → keeps_finished_log (modify f).
Proof. intros Hf w a w' [= _ <-]. apply Hf. Qed.

Lemma keeps_readJob (p : JobPtr) : keeps_finished_log (readJob p).
Proof.
  intros w a w'. unfold readJob.
  destruct (lookupJob _ _); [|done]. by intros [= _ <-].
Qed.

Lemma keeps_writeJob (f : Job -> Job) (p : JobPtr) :
  keeps_finished_log (writeJob f p).
Proof.
  intros w a w'. unfold writeJob.
  destruct (lookupJob _ _); [|done]. by intros [= _ <-].
Qed.

Lemma keeps_readPool (n : nat) : keeps_finished_log (readPool n).
Proof.
  intros w a w'. unfold readPool.
  destruct (_ !! _); [|done]. by intros [= _ <-].
Qed.

Lemma keeps_writePool (f : JobPool -> JobPool) (n : nat) :
  keeps_finished_log (writePool f n).
Proof.
  intros w a w'. unfold writePool.
  destruct (_ !! _); [|done]. by intros [= _ <-].
Qed.

Lemma keeps_rand : keeps_finished_log JobSystem.rand.
Proof. by intros w a w' [= _ <-]. Qed.

Lemma keeps_getThreadNumber (tid : ThreadId) :
  keeps_finished_log (JobSystem.getThreadNumber tid).
Proof.
  intros w a w'. unfold JobSystem.getThreadNumber.
  destruct (_ !! _); by intros [= _ <-].
Qed.

Create HintDb keeps.

#[local] Hint Resolve keeps_ret keeps_undefined keeps_out_of_fuel
  keeps_bad_function_call keeps_get_world keeps_readJob keeps_writeJob
  keeps_readPool keeps_writePool keeps_rand keeps_getThreadNumber : keeps.

Ltac keeps_step :=
  match goal with
  | |- keeps_finished_log (bind _ _) => apply keeps_bind; [|intros ?]
  | |- keeps_finished_log (modify _) => apply keeps_modify; intros ?; reflexivity
  | |- keeps_finished_log (match ?x with _ => _ end) => destruct x
  | |- keeps_finished_log (let '(_, _) := ?x in _) => destruct x
  | |- keeps_finished_log _ => solve [auto with keeps]
  end.

Ltac keeps := repeat keeps_step.

Lemma keeps_getJobPointer (tid : ThreadId) :
  keeps_finished_log (JobSystem.getJobPointer tid).
Proof. unfold JobSystem.getJobPointer. keeps. Qed.

Lemma keeps_addJob (pJob : option JobPtr) :
  keeps_finished_log (JobSystem.addJob pJob).
Proof. unfold JobSystem.addJob. keeps. Qed.

Lemma keeps_setParentJob (this parent : JobPtr) :
  keeps_finished_log (Job.setParentJob this parent).
Proof. unfold Job.setParentJob. keeps. Qed.

Lemma keeps_resetPool (n : nat) : keeps_finished_log (JobMemory.resetPool n).
Proof. unfold JobMemory.resetPool. keeps. Qed.

#[local] Hint Resolve keeps_getJobPointer keeps_addJob keeps_setParentJob
  keeps_resetPool : keeps.

Lemma keeps_getNextJob (n : nat) : keeps_finished_log (JobMemory.getNextJob n).
Proof. unfold JobMemory.getNextJob. keeps. Qed.

#[local] Hint Resolve keeps_getNextJob : keeps.

Lemma keeps_probe (fuel n : nat) : keeps_finished_log (JobMemory.probe fuel n).
Proof.
  induction fuel as [|fuel IH]; cbn [JobMemory.probe]; keeps.
Qed.

#[local] Hint Resolve keeps_probe : keeps.

Lemma keeps_allocateJob (fuel : nat) (pParent : option JobPtr) (n : nat) :
  keeps_finished_log (JobMemory.allocateJob fuel pParent n).
Proof. unfold JobMemory.allocateJob. keeps. Qed.

#[local] Hint Resolve keeps_allocateJob : keeps.

Lemma keeps_addJob_func (fuel : nat) (tid : ThreadId) (func : Function)
    (n : nat) :
  keeps_finished_log (JobSystem.addJob_func fuel tid func n).
Proof.
  unfold JobSystem.addJob_func, Job.setFunction. keeps.
Qed.

Lemma keeps_addChildJob_in (fuel : nat) (tid : ThreadId) (func : Function)
    (n : nat) :
  keeps_finished_log (JobSystem.addChildJob_in fuel tid func n).
Proof.
  unfold JobSystem.addChildJob_in, Job.setFunction. keeps.
Qed.

#[local] Hint Resolve keeps_addJob_func keeps_addChildJob_in : keeps.

Lemma keeps_addChildJob (fuel : nat) (tid : ThreadId) (func : Function) :
  keeps_finished_log (JobSystem.addChildJob fuel tid func).
Proof. unfold JobSystem.addChildJob. keeps. Qed.

Lemma keeps_onFinishedAddJob (fuel : nat) (tid : ThreadId) (func : Function) :
  keeps_finished_log (JobSystem.onFinishedAddJob fuel tid func).
Proof.
  unfold JobSystem.onFinishedAddJob, Job.setFunction, Job.setOnFinished.
  keeps.
Qed.

Lemma keeps_playBackPool (fuel : nat) (tid : ThreadId) (n : nat)
    (func : Function) :
  keeps_finished_log (JobSystem.playBackPool fuel tid n func).
Proof. unfold JobSystem.playBackPool, Job.setFunction. keeps. Qed.

Lemma keeps_terminate : keeps_finished_log JobSystem.terminate.
Proof. unfold JobSystem.terminate. keeps. Qed.

#[local] Hint Resolve keeps_addChildJob keeps_onFinishedAddJob
  keeps_playBackPool keeps_terminate : keeps.

Lemma keeps_run_body (fuel : nat) (tid : ThreadId) (b : Body) :
  keeps_finished_log (JobSystem.run_body fuel tid b).
Proof.
  induction b; cbn [JobSystem.run_body];
    unfold JobSystem.onFinishedTerminatePool; keeps.
Qed.

#[local] Hint Resolve keeps_run_body : keeps.

Lemma keeps_call_function (fuel : nat) (tid : ThreadId) (this : JobPtr)
    (func : Function) :
  keeps_finished_log (JobSystem.call_function fuel tid this func).
Proof. unfold JobSystem.call_function. keeps. Qed.

Lemma keeps_play_children (fuel : nat) (this : JobPtr)
    (pChild : option JobPtr) :
  keeps_finished_log (JobSystem.play_children fuel this pChild).
Proof.
  revert pChild. induction fuel as [|fuel IH]; intros [child|];
    cbn [JobSystem.play_children]; keeps.
Qed.

#[local] Hint Resolve keeps_call_function keeps_play_children : keeps.

Lemma keeps_Job_call_playback (fuel : nat) (this : JobPtr) (n : nat) :
  keeps_finished_log (JobSystem.Job_call_playback fuel this n).
Proof. unfold JobSystem.Job_call_playback. keeps. Qed.

(** ** [onFinished] returns, and runs once for its job *)

Lemma sum_list_alter {A} (g : A -> nat) (f : A -> A) (l : list A) (i : nat)
    (x : A) :
  l !! i = Some x →
  (sum_list (map g (alter f i l)) + g x = sum_list (map g l) + g (f x))%nat.
Proof.
  revert i. induction l as [|y l IH]; intros [|i] Hi; try done.
  - injection Hi as ->. cbn. lia.
  - cbn. specialize (IH i Hi). cbn in IH. lia.
Qed.

Lemma ones_updJob (f : Job -> Job) (p : JobPtr) (w : World) (j : Job) :
  jobAt w p = Some j →
  (ones (updJob f p w) + is_one j = ones w + is_one (f j))%nat.
Proof.
  unfold jobAt, lookupJob, ones, ones_pools, updJob, alterJob. wsimpl.
  destruct (m_jobPools w !! jp_pool p) as [pool|] eqn:Hpool; [|done].
  cbn [mbind option_bind].
  destruct (jobLists pool !! jp_seg p) as [seg|] eqn:Hseg; [|done].
  cbn [mbind option_bind]. intros Hj.
  pose proof (sum_list_alter is_one f seg _ _ Hj) as H1.
  pose proof (sum_list_alter (λ seg, sum_list (map is_one seg))
                (alter f (jp_off p)) (jobLists pool) _ _ Hseg) as H2.
  pose proof (sum_list_alter
                (λ pool, sum_list (map (λ seg, sum_list (map is_one seg))
                                       (jobLists pool)))
                (λ pool, set_jobLists
                           (alter (alter f (jp_off p)) (jp_seg p) (jobLists pool))
                           pool)
                (m_jobPools w) _ _ Hpool) as H3.
  cbn [jobLists set_jobLists] in H3. lia.
Qed.

Lemma addJob_run (pJob : option JobPtr) (w : World) (q : list (option JobPtr)) :
  m_threads_size w ≠ 0%nat →
  m_jobQueues w !! (rand_seq w (rand_pos w) mod m_threads_size w)%nat
  = Some (Some q) →
  JobSystem.addJob pJob w
  = Ok tt (set_jobQueues
             (<[(rand_seq w (rand_pos w) mod m_threads_size w)%nat
                := Some (JobQueue.push pJob q)]> (m_jobQueues w))
             (set_rand_pos (S (rand_pos w))
                (set_numJobs (wrap32 (m_numJobs w + 1)) w))).
Proof.
  intros Hsize Hq. unfold JobSystem.addJob, JobSystem.rand, modify, get_world, bind.
  wsimpl. rewrite decide_False by done. rewrite Hq. reflexivity.
Qed.

Lemma queues_ready_set_jobQueues (w : World) (idx : nat)
    (q : list (option JobPtr)) (w' : World) :
  queues_ready w →
  m_threads_size w' = m_threads_size w →
  m_jobQueues w' = <[idx := Some q]> (m_jobQueues w) →
  queues_ready w'.
Proof.
  intros (Hpos & Hlen & Hq) Hsize Hqs. split; [by rewrite Hsize|].
  split; [by rewrite Hqs, length_insert, Hsize|].
  intros i Hi. rewrite Hsize in Hi. destruct (Hq i Hi) as [qi Hqi].
  rewrite Hqs. destruct (decide (idx = i)) as [->|Hne].
  - exists q. apply list_lookup_insert_eq. by eapply lookup_lt_Some.
  - exists qi. by rewrite list_lookup_insert_ne.
Qed.

Lemma addJob_ready (pJob : option JobPtr) (w : World) :
  queues_ready w →
  ∃ w', JobSystem.addJob pJob w = Ok tt w'
        ∧ m_jobPools w' = m_jobPools w
        ∧ finished_log w' = finished_log w
        ∧ queues_ready w'.
Proof.
  intros Hready. pose proof Hready as (Hpos & Hlen & Hq).
  destruct (Hq (rand_seq w (rand_pos w) mod m_threads_size w)%nat) as [q Hqi].
  { apply Nat.mod_upper_bound. lia. }
  eexists. split; [apply addJob_run; [lia|exact Hqi]|].
  split; [reflexivity|]. split; [reflexivity|].
  eapply queues_ready_set_jobQueues; [exact Hready|reflexivity|reflexivity].
Qed.

Lemma jobAt_same_pools (w w' : World) (p : JobPtr) :
  m_jobPools w' = m_jobPools w → jobAt w' p = jobAt w p.
Proof. unfold jobAt. by intros ->. Qed.

Lemma same_links_refl (w : World) : same_links w w.
Proof. by intros q. Qed.

Lemma same_links_trans (w1 w2 w3 : World) :
  same_links w1 w2 → same_links w2 w3 → same_links w1 w3.
Proof. intros H12 H23 q. by rewrite H23, H12. Qed.

Lemma same_links_pools (w w' : World) :
  m_jobPools w' = m_jobPools w → same_links w w'.
Proof. intros H q. by rewrite (jobAt_same_pools _ _ _ H). Qed.

Lemma same_links_updJob (f : Job -> Job) (p : JobPtr) (w : World) :
  (∀ j, link_view (f j) = link_view j) → same_links w (updJob f p w).
Proof.
  intros Hf q. rewrite jobAt_updJob. case_decide; [|done].
  destruct (jobAt w q); cbn; [|done]. by rewrite Hf.
Qed.

Lemma same_links_valid (w w' : World) (q : JobPtr) :
  same_links w w' → valid w' q ↔ valid w q.
Proof.
  intros H. unfold valid. rewrite <- (fmap_is_Some link_view (jobAt w' q)).
  rewrite <- (fmap_is_Some link_view (jobAt w q)). by rewrite H.
Qed.

Lemma same_links_parent (w w' : World) (q : JobPtr) (j' : Job) :
  same_links w w' → jobAt w' q = Some j' →
  ∃ j, jobAt w q = Some j ∧ link_view j = link_view j'.
Proof.
  intros H Hj'. specialize (H q). rewrite Hj' in H.
  destruct (jobAt w q) as [j|]; [|done]. exists j. split; [done|].
  cbn in H. congruence.
Qed.

Lemma same_links_parents_valid (w w' : World) :
  same_links w w' → parents_valid w → parents_valid w'.
Proof.
  intros H Hpv p j' q Hj' Hpar.
  destruct (same_links_parent _ _ _ _ H Hj') as (j & Hj & Hview).
  rewrite (same_links_valid _ _ _ H). apply (Hpv p j q Hj).
  unfold link_view in Hview. congruence.
Qed.

Lemma finished_times_app (w w' : World) (l : list JobPtr) (t : JobPtr) :
  finished_log w' = finished_log w ++ l →
  finished_times w' t
  = (finished_times w t + length (filter (λ q, q = t) l))%nat.
Proof.
  intros H. unfold finished_times. by rewrite H, filter_app, length_app.
Qed.

Lemma bind_modify {B} (f : World -> World) (k : unit -> M B) (w : World) :
  bind (modify f) k w = k tt (f w).
Proof. reflexivity. Qed.

Lemma bind_get_world {B} (k : World -> M B) (w : World) :
  bind get_world k w = k w w.
Proof. reflexivity. Qed.

Lemma onFinished_total (fuel : nat) (x : JobPtr) (w : World) :
  queues_ready w → parents_valid w → valid w x → (ones w < fuel)%nat →
  ∃ w', JobSystem.onFinished fuel x w = Ok tt w'
        ∧ queues_ready w' ∧ same_links w w'
        ∧ (∀ t, counterAt w t ≠ Some 1 →
                finished_times w' t
                = (finished_times w t + (if decide (t = x) then 1 else 0))%nat)
        ∧ (∀ t, counterAt w t ≠ Some 1 →
                counterAt w' t = counterAt w t
                ∨ counterAt w' t = (λ c, wrap32 (c + -1)) <$> counterAt w t).
Proof.
  revert x w. induction fuel as [|fuel IH]; intros x w Hready Hpv [j Hj] Hfuel;
    [lia|].
  cbn [JobSystem.onFinished].
  set (w1 := set_finished_log (finished_log w ++ [x]) w).
  assert (Hw1 : ∃ w2, match m_parentJob j with
                      | Some parent =>
                          Job.childFinished_with (JobSystem.onFinished fuel) parent
                      | None => ret tt
                      end w1 = Ok tt w2
                      ∧ queues_ready w2 ∧ same_links w w2
                      ∧ (∀ t, counterAt w t ≠ Some 1 →
                              finished_times w2 t
                              = (finished_times w t
                                 + (if decide (t = x) then 1 else 0))%nat)
                      ∧ (∀ t, counterAt w t ≠ Some 1 →
                              counterAt w2 t = counterAt w t
                              ∨ counterAt w2 t
                                = (λ c, wrap32 (c + -1)) <$> counterAt w t)).
  { assert (Hbase : ∀ t, finished_times w1 t
                         = (finished_times w t
                            + (if decide (t = x) then 1 else 0))%nat).
    { intros t. rewrite (finished_times_app w w1 [x]) by reflexivity.
      f_equal. rewrite filter_cons, filter_nil.
      repeat case_decide; try congruence; reflexivity. }
    destruct (m_parentJob j) as [p|] eqn:Hpar.
    - destruct (Hpv x j p Hj Hpar) as [pj Hpj0].
      assert (Hpj : jobAt w1 p = Some pj) by exact Hpj0.
      unfold Job.childFinished_with.
      erewrite bind_run; [|apply readJob_run; exact Hpj].
      erewrite bind_run; [|eapply writeJob_run; exact Hpj].
      set (W1 := updJob _ p w1).
      assert (Hlinks : same_links w W1).
      { apply same_links_trans with w1; [by apply same_links_pools|].
        by apply same_links_updJob. }
      assert (Hother : ∀ t, t ≠ p → counterAt W1 t = counterAt w t).
      { intros t Ht. unfold counterAt, W1. by rewrite jobAt_updJob_ne. }
      assert (Hp1 : counterAt W1 p
                    = (λ c, wrap32 (c + -1)) <$> counterAt w p).
      { unfold counterAt, W1. rewrite jobAt_updJob_eq, Hpj, Hpj0. done. }
      case_decide as Hc.
      + assert (Hnotp : ∀ t, counterAt w t ≠ Some 1 → t ≠ p).
        { intros t Ht ->. apply Ht. unfold counterAt. rewrite Hpj0. cbn.
          by f_equal. }
        destruct (IH p W1) as (w2 & Hrun & Hready2 & Hlinks2 & Htimes2 & Hcnt2).
        * done.
        * by eapply same_links_parents_valid.
        * rewrite (same_links_valid _ _ _ Hlinks). by eexists.
        * pose proof (ones_updJob
                        (set_numUnfinishedChildren
                           (wrap32 (m_numUnfinishedChildren pj + -1))) p w1 pj Hpj)
            as Hones.
          fold W1 in Hones. unfold is_one in Hones.
          cbn [m_numUnfinishedChildren set_numUnfinishedChildren] in Hones.
          rewrite Hc in Hones. rewrite decide_True in Hones by done.
          rewrite decide_False in Hones by (vm_compute; discriminate).
          change (ones w1) with (ones w) in Hones. lia.
        * exists w2. split; [exact Hrun|]. split; [done|].
          split; [by eapply same_links_trans|]. split.
          -- intros t Ht. pose proof (Hnotp t Ht) as Hne.
             rewrite Htimes2 by (by rewrite Hother).
             rewrite (finished_times_app w1 W1 []) by (cbn; by rewrite app_nil_r).
             rewrite Hbase, filter_nil. cbn [length].
             rewrite (decide_False (P := t = p)) by done. lia.
          -- intros t Ht. pose proof (Hnotp t Ht) as Hne.
             rewrite <- (Hother t Hne). apply Hcnt2. by rewrite Hother.
      + exists W1. split; [reflexivity|]. split; [done|]. split; [done|].
        split.
        * intros t Ht. rewrite <- Hbase. reflexivity.
        * intros t Ht. destruct (decide (t = p)) as [->|Hne].
          -- by right.
          -- left. by apply Hother.
    - exists w1. split; [reflexivity|]. split; [done|].
      split; [by apply same_links_pools|]. split.
      + intros t _. apply Hbase.
      + intros t _. by left. }
  destruct Hw1 as (w2 & Hrun2 & Hready2 & Hlinks2 & Htimes2 & Hcnt2).
  rewrite bind_modify. fold w1.
  erewrite bind_run; [|apply readJob_run; exact Hj].
  erewrite bind_run; [|exact Hrun2].
  unfold JobSystem.onFinished_rest.
  assert (Hx2 : valid w2 x) by (rewrite (same_links_valid _ _ _ Hlinks2); by eexists).
  destruct Hx2 as [j2 Hj2].
  erewrite bind_run; [|apply readJob_run; exact Hj2].
  assert (Hw3 : ∃ w3, match m_onFinishedJob j2 with
                      | Some succ => JobSystem.addJob (Some succ)
                      | None => ret tt
                      end w2 = Ok tt w3
                      ∧ m_jobPools w3 = m_jobPools w2
                      ∧ finished_log w3 = finished_log w2
                      ∧ queues_ready w3).
  { destruct (m_onFinishedJob j2) as [succ|].
    - by apply addJob_ready.
    - by exists w2. }
  destruct Hw3 as (w3 & Hrun3 & Hpools3 & Hlog3 & Hready3).
  erewrite bind_run; [|exact Hrun3].
  rewrite bind_get_world, bind_modify.
  assert (Hfinal : ∀ w4, m_jobPools w4 = m_jobPools w3 →
            finished_log w4 = finished_log w3 →
            m_threads_size w4 = m_threads_size w3 →
            m_jobQueues w4 = m_jobQueues w3 →
            ∃ w', writeJob (set_available true) x w4 = Ok tt w'
                  ∧ queues_ready w' ∧ same_links w w'
                  ∧ (∀ t, counterAt w t ≠ Some 1 →
                          finished_times w' t
                          = (finished_times w t
                             + (if decide (t = x) then 1 else 0))%nat)
                  ∧ (∀ t, counterAt w t ≠ Some 1 →
                          counterAt w' t = counterAt w t
                          ∨ counterAt w' t
                            = (λ c, wrap32 (c + -1)) <$> counterAt w t)).
  { intros w4 Hp4 Hl4 Hs4 Hq4.
    assert (Hj4 : jobAt w4 x = Some j2).
    { rewrite (jobAt_same_pools w3 w4) by done.
      by rewrite (jobAt_same_pools w2 w3). }
    eexists. split; [eapply writeJob_run; exact Hj4|].
    split; [|split; [|split]].
    - unfold queues_ready, updJob in *. wsimpl. by rewrite Hs4, Hq4.
    - eapply same_links_trans; [exact Hlinks2|].
      eapply same_links_trans; [apply same_links_pools; exact Hpools3|].
      eapply same_links_trans; [apply same_links_pools; exact Hp4|].
      by apply same_links_updJob.
    - intros t Ht. rewrite <- (Htimes2 t Ht). unfold finished_times.
      unfold updJob. wsimpl. by rewrite Hl4, Hlog3.
    - intros t Ht.
      assert (Heq : counterAt (updJob (set_available true) x w4) t
                    = counterAt w2 t).
      { unfold counterAt. rewrite jobAt_updJob.
        rewrite (jobAt_same_pools w3 w4) by done.
        rewrite (jobAt_same_pools w2 w3) by done.
        case_decide; [|done]. by destruct (jobAt w2 t). }
      rewrite Heq. by apply Hcnt2. }
  case_decide; [rewrite bind_modify|rewrite bind_ret]; by apply Hfinal.
Qed.

Lemma jobAt_all_jobs (w : World) (p : JobPtr) (j : Job) :
  jobAt w p = Some j → j ∈ all_jobs w.
Proof.
  unfold jobAt, lookupJob, all_jobs.
  destruct (m_jobPools w !! jp_pool p) as [pool|] eqn:Hpool; [|done].
  cbn [mbind option_bind].
  destruct (jobLists pool !! jp_seg p) as [seg|] eqn:Hseg; [|done].
  cbn [mbind option_bind]. intros Hj.
  apply list_elem_of_bind. exists pool. split.
  - apply list_elem_of_bind. exists seg. split.
    + by eapply list_elem_of_lookup_2.
    + by eapply list_elem_of_lookup_2.
  - by eapply list_elem_of_lookup_2.
Qed.

Lemma parents_valid_b_sound (w : World) :
  parents_valid_b w = true → parents_valid w.
Proof.
  unfold parents_valid_b. rewrite forallb_forall. intros H p j q Hj Hq.
  specialize (H j). rewrite Hq in H.
  eapply (proj1 (bool_decide_eq_true _)), H.
  apply list_elem_of_In. by eapply jobAt_all_jobs.
Qed.

(** Up to its last two statements [Job::operator()] does not run
    [onFinished]. *)
Lemma Job_call_front (fuel : nat) (tid : ThreadId) (this : JobPtr)
    (w w' : World) (j : Job) (func : Function) :
  jobAt w this = Some j → m_function j = Some func →
  JobSystem.Job_call fuel tid this w = Ok tt w' →
  ∃ w1, finished_log w1 = finished_log w
        ∧ JobSystem.Job_call_finish fuel this w1 = Ok tt w'.
Proof.
  intros Hj Hf. unfold JobSystem.Job_call.
  rewrite (bind_run _ _ _ _ _ (readJob_run _ _ _ Hj)), Hf.
  intros (? & wa & Ha & H)%bind_Ok_inv.
  apply bind_Ok_inv in H as (? & wb & Hb & H).
  apply bind_Ok_inv in H as (j2 & wc & Hc & H).
  apply bind_Ok_inv in H as (pl & wd & Hd & H).
  apply bind_Ok_inv in H as (? & we & He & H).
  exists we. split; [|exact H].
  assert (Hpb : finished_log we = finished_log wd).
  { destruct (isPlayedBack pl).
    - by apply (keeps_Job_call_playback _ _ _ _ _ _ He).
    - by apply (keeps_ret _ _ _ _ He). }
  rewrite Hpb, (keeps_readPool _ _ _ _ Hd), (keeps_readJob _ _ _ _ Hc),
    (keeps_call_function _ _ _ _ _ _ _ Hb).
  by apply (keeps_writeJob _ _ _ _ _ Ha).
Qed.

(** X23.  [onFinished] runs for a job exactly when a decrement of its
    counter, in [childFinished] or at the end of [Job::operator()], finds
    the value 1.  Both places apply the same rule, and a run of
    [Job::operator()] that returns has left the log of runs of [onFinished]
    unchanged up to its final decrement.  In a world where parent
    pointers address slots and every worker has its queue, the decrement
    returns; the number of runs of [onFinished] for the job grows by one if
    the counter was 1 and the log of runs is unchanged otherwise; after a
    decrement that found 1, a further decrement finds a value other than 1
    and runs nothing.  No other part of the execution of a job runs
    [onFinished]: calling the body, with all the interface calls it makes,
    and the playback block leave the log of runs unchanged, and so do
    allocation and queueing. *)
Theorem onFinished_exactly_once (fuel : nat) (tid : ThreadId) (this : JobPtr)
    (w : World) (j : Job) :
  queues_ready w → parents_valid w → jobAt w this = Some j →
  (ones w < fuel)%nat →
  JobSystem.Job_call_finish fuel this w = JobSystem.childFinished fuel this w
  ∧ (∀ func w', m_function j = Some func →
                JobSystem.Job_call fuel tid this w = Ok tt w' →
                ∃ w1, finished_log w1 = finished_log w
                      ∧ JobSystem.childFinished fuel this w1 = Ok tt w')
  ∧ (∃ w', JobSystem.childFinished fuel this w = Ok tt w'
           ∧ finished_times w' this
             = (finished_times w this
                + (if decide (m_numUnfinishedChildren j = 1%Z) then 1 else 0))%nat
           ∧ (m_numUnfinishedChildren j ≠ 1 →
              finished_log w' = finished_log w)
           ∧ (m_numUnfinishedChildren j = 1 →
              ∀ fuel', ∃ w'', JobSystem.childFinished fuel' this w' = Ok tt w''
                              ∧ finished_log w'' = finished_log w'))
  ∧ (∀ func, keeps_finished_log (JobSystem.call_function fuel tid this func))
  ∧ (∀ n, keeps_finished_log (JobSystem.Job_call_playback fuel this n))
  ∧ (∀ pParent n, keeps_finished_log (JobMemory.allocateJob fuel pParent n))
  ∧ (∀ pJob, keeps_finished_log (JobSystem.addJob pJob)).
Proof.
  intros Hready Hpv Hj Hfuel.
  split; [reflexivity|].
  split; [intros func w' Hf Hcall;
          exact (Job_call_front fuel tid this w w' j func Hj Hf Hcall)|].
  split; [|repeat split; intros;
           auto using keeps_call_function, keeps_Job_call_playback,
             keeps_allocateJob, keeps_addJob].
  unfold JobSystem.childFinished, Job.childFinished_with.
  erewrite bind_run; [|apply readJob_run; exact Hj].
  erewrite bind_run; [|eapply writeJob_run; exact Hj].
  set (W := updJob _ this w).
  assert (Hlinks : same_links w W) by (by apply same_links_updJob).
  assert (HW : counterAt W this
               = Some (wrap32 (m_numUnfinishedChildren j + -1))).
  { unfold counterAt, W. by rewrite jobAt_updJob_eq, Hj. }
  case_decide as Hc.
  - rewrite Hc in HW. change (wrap32 (1 + -1)) with 0 in HW.
    destruct (onFinished_total fuel this W)
      as (w' & Hrun & Hready' & Hlinks' & Htimes & Hcnt).
    + done.
    + by eapply same_links_parents_valid.
    + rewrite (same_links_valid _ _ _ Hlinks). by eexists.
    + pose proof (ones_updJob
                    (set_numUnfinishedChildren
                       (wrap32 (m_numUnfinishedChildren j + -1))) this w j Hj)
        as Hones.
      fold W in Hones. unfold is_one in Hones.
      cbn [m_numUnfinishedChildren set_numUnfinishedChildren] in Hones.
      rewrite Hc in Hones. rewrite decide_True in Hones by done.
      rewrite decide_False in Hones by (vm_compute; discriminate). lia.
    + exists w'. split; [exact Hrun|]. split; [|split; [done|]].
      * rewrite Htimes by (rewrite HW; discriminate).
        rewrite decide_True by done. reflexivity.
      * intros _ fuel'.
        assert (Hv : valid w' this).
        { rewrite (same_links_valid _ _ _ Hlinks'),
            (same_links_valid _ _ _ Hlinks). by eexists. }
        destruct Hv as [j' Hj'].
        assert (Hne : m_numUnfinishedChildren j' ≠ 1).
        { destruct (Hcnt this) as [H|H]; [rewrite HW; discriminate| |];
            rewrite HW in H; unfold counterAt in H; rewrite Hj' in H;
            cbn in H; injection H as ->; [done|vm_compute; discriminate]. }
        erewrite bind_run; [|apply readJob_run; exact Hj'].
        erewrite bind_run; [|eapply writeJob_run; exact Hj'].
        rewrite decide_False by done. eexists. split; reflexivity.
  - exists W. split; [reflexivity|]. split; [|split; [done|done]].
    unfold finished_times. subst W. unfold updJob. wsimpl. lia.
Qed.

Lemma queues_ready_one_worker (w : World) (q : list (option JobPtr)) :
  m_threads_size w = 1%nat → m_jobQueues w = [Some q] → queues_ready w.
Proof.
  intros Hsize Hq. split; [lia|]. split; [by rewrite Hq, Hsize|].
  intros i Hi. rewrite Hq.
  exists q. replace i with 0%nat by lia. reflexivity.
Qed.

Lemma onFinished_exactly_once_witness :
  ∃ w', JobSystem.childFinished 2 slot0 world_leaf_running = Ok tt w'
        ∧ finished_times w' slot0 = 1%nat.
Proof.
  destruct (onFinished_exactly_once 2 1%nat slot0 world_leaf_running
              (the_job world_leaf_running slot0))
    as (_ & _ & (w' & Hrun & Htimes & _) & _).
  - apply queues_ready_one_worker with []; vm_compute; reflexivity.
  - apply parents_valid_b_sound. vm_compute. reflexivity.
  - vm_compute. reflexivity.
  - vm_compute. lia.
  - exists w'. split; [exact Hrun|]. rewrite Htimes. reflexivity.
Defined.

(** * Playing back a recorded pool *)

(** ** Quiet bodies during playback *)

Lemma onFinishedAddJob_playback_noop (fuel : nat) (tid : ThreadId)
    (func : Function) (w : World) (n : nat) (cur : JobPtr) (j : Job)
    (pool : JobPool) :
  m_threadIndexMap w !! tid = Some n →
  m_jobPointers w !! n = Some (Some cur) →
  jobAt w cur = Some j →
  m_jobPools w !! m_poolNumber j = Some pool →
  isPlayedBack pool = true →
  JobSystem.onFinishedAddJob fuel tid func w = Ok tt w.
Proof.
  intros Htid Hcur Hj Hpool Hplay. unfold JobSystem.onFinishedAddJob.
  rewrite (bind_run _ _ _ _ _ (getJobPointer_registered _ _ _ _ Htid Hcur)).
  rewrite (bind_run _ _ _ _ _ (readJob_run _ _ _ Hj)).
  rewrite (bind_run _ _ _ _ _ (readPool_run _ _ _ Hpool)).
  by rewrite Hplay.
Qed.

Lemma run_body_quiet (fuel : nat) (tid : ThreadId) (b : Body) (w : World)
    (n : nat) (cur : JobPtr) (j : Job) (pool : JobPool) :
  quiet b = true →
  m_threadIndexMap w !! tid = Some n →
  m_jobPointers w !! n = Some (Some cur) →
  jobAt w cur = Some j →
  m_jobPools w !! m_poolNumber j = Some pool →
  isPlayedBack pool = true →
  JobSystem.run_body fuel tid b w = Ok tt w.
Proof.
  intros Hq Htid Hcur Hj Hpool Hplay.
  induction b; cbn [quiet] in Hq; try discriminate; cbn [JobSystem.run_body].
  - reflexivity.
  - erewrite bind_run;
      [|eapply addChildJob_default_pool_playback_noop; eauto]. auto.
  - erewrite bind_run;
      [|eapply onFinishedAddJob_playback_noop; eauto]. auto.
Qed.

(** ** Queues as multisets *)

Lemma bind_insert_perm {A B} (f : A -> list B) (l : list A) (i : nat)
    (x y : A) :
  l !! i = Some x →
  (<[i := y]> l ≫= f) ++ f x ≡ₚ (l ≫= f) ++ f y.
Proof.
  revert i. induction l as [|a l IH]; intros [|i] Hi; try done.
  - injection Hi as ->. cbn. rewrite <- !app_assoc.
    rewrite (Permutation_app_comm (l ≫= f) (f x)).
    rewrite (Permutation_app_comm (l ≫= f) (f y)).
    rewrite !app_assoc. apply Permutation_app_tail, Permutation_app_comm.
  - cbn. rewrite <- !app_assoc. apply Permutation_app_head. by apply IH.
Qed.

Lemma all_queued_insert (w w' : World) (i : nat)
    (q q' : list (option JobPtr)) :
  m_jobQueues w !! i = Some (Some q) →
  m_jobQueues w' = <[i := Some q']> (m_jobQueues w) →
  all_queued w' ++ q ≡ₚ all_queued w ++ q'.
Proof.
  intros Hq Hw'. unfold all_queued. rewrite Hw'.
  apply (bind_insert_perm (default []) _ _ _ (Some q') Hq).
Qed.

Lemma all_queued_push (w w' : World) (i : nat) (q : list (option JobPtr))
    (p : option JobPtr) :
  m_jobQueues w !! i = Some (Some q) →
  m_jobQueues w' = <[i := Some (JobQueue.push p q)]> (m_jobQueues w) →
  all_queued w' ≡ₚ all_queued w ++ [p].
Proof.
  intros Hq Hw'. pose proof (all_queued_insert _ _ _ _ _ Hq Hw') as H.
  unfold JobQueue.push in H.
  apply (Permutation_app_inv_r q).
  rewrite H. rewrite <- !app_assoc. apply Permutation_app_head.
  apply Permutation_app_comm.
Qed.

Lemma all_queued_pop (w w' : World) (i : nat) (q : list (option JobPtr))
    (p : option JobPtr) :
  m_jobQueues w !! i = Some (Some (p :: q)) →
  m_jobQueues w' = <[i := Some q]> (m_jobQueues w) →
  all_queued w ≡ₚ p :: all_queued w'.
Proof.
  intros Hq Hw'. pose proof (all_queued_insert _ _ _ _ _ Hq Hw') as H.
  apply (Permutation_app_inv_r q).
  rewrite <- H. cbn. rewrite Permutation_middle. reflexivity.
Qed.

Lemma all_queued_same (w w' : World) :
  m_jobQueues w' = m_jobQueues w → all_queued w' = all_queued w.
Proof. unfold all_queued. by intros ->. Qed.

(** ** Queueing a job *)

Lemma addJob_effect (p : option JobPtr) (w : World) :
  queues_ready w →
  ∃ w', JobSystem.addJob p w = Ok tt w'
        ∧ m_jobPools w' = m_jobPools w
        ∧ same_sched w w'
        ∧ body_log w' = body_log w
        ∧ queues_ready w'
        ∧ all_queued w' ≡ₚ all_queued w ++ [p].
Proof.
  intros Hready. pose proof Hready as (Hpos & Hlen & Hq).
  destruct (Hq (rand_seq w (rand_pos w) mod m_threads_size w)%nat) as [q Hqi].
  { apply Nat.mod_upper_bound. lia. }
  eexists. split; [apply addJob_run; [lia|exact Hqi]|].
  split; [reflexivity|]. split; [done|]. split; [reflexivity|]. split.
  - eapply queues_ready_set_jobQueues; [exact Hready|reflexivity|reflexivity].
  - eapply all_queued_push; [exact Hqi|reflexivity].
Qed.

(** ** Frames *)

Lemma same_sched_refl (w : World) : same_sched w w.
Proof. done. Qed.

Lemma same_sched_trans (w1 w2 w3 : World) :
  same_sched w1 w2 → same_sched w2 w3 → same_sched w1 w3.
Proof.
  intros (?&?&?&?) (?&?&?&?). repeat split; congruence.
Qed.

Lemma same_sched_updJob (f : Job -> Job) (p : JobPtr) (w : World) :
  same_sched w (updJob f p w).
Proof. done. Qed.

Lemma same_sched_updPool (f : JobPool -> JobPool) (n : nat) (w : World) :
  same_sched w (updPool f n w).
Proof. done. Qed.

Lemma same_pool_views_refl (w : World) : same_pool_views w w.
Proof. done. Qed.

Lemma same_pool_views_trans (w1 w2 w3 : World) :
  same_pool_views w1 w2 → same_pool_views w2 w3 → same_pool_views w1 w3.
Proof. intros H12 H23 n. by rewrite H23, H12. Qed.

Lemma same_pool_views_pools (w w' : World) :
  m_jobPools w' = m_jobPools w → same_pool_views w w'.
Proof. intros H n. by rewrite H. Qed.

Lemma same_pool_views_updJob (f : Job -> Job) (p : JobPtr) (w : World) :
  same_pool_views w (updJob f p w).
Proof.
  intros n. unfold updJob, alterJob. wsimpl.
  destruct (decide (jp_pool p = n)) as [<-|Hn].
  - rewrite list_lookup_alter_eq. by destruct (m_jobPools w !! jp_pool p).
  - by rewrite list_lookup_alter_ne.
Qed.

Lemma same_pool_views_lookup (w w' : World) (n : nat) (pool : JobPool) :
  same_pool_views w w' → m_jobPools w !! n = Some pool →
  ∃ pool', m_jobPools w' !! n = Some pool' ∧ pool_view pool' = pool_view pool.
Proof.
  intros H Hn. specialize (H n). rewrite Hn in H.
  destruct (m_jobPools w' !! n) as [pool'|]; [|done].
  exists pool'. split; [done|]. cbn in H. congruence.
Qed.

Lemma same_links_updPool (f : JobPool -> JobPool) (n : nat) (w : World) :
  (∀ pool, jobLists (f pool) = jobLists pool) →
  same_links w (updPool f n w).
Proof. intros Hf q. by rewrite jobAt_updPool. Qed.

Lemma same_links_job (w w' : World) (q : JobPtr) (j : Job) :
  same_links w w' → jobAt w q = Some j →
  ∃ j', jobAt w' q = Some j' ∧ link_view j' = link_view j.
Proof.
  intros H Hj. specialize (H q). rewrite Hj in H.
  destruct (jobAt w' q) as [j'|]; [|done]. exists j'. split; [done|].
  cbn in H. congruence.
Qed.

Lemma link_view_fields (j j' : Job) :
  link_view j' = link_view j →
  m_poolNumber j' = m_poolNumber j ∧ m_function j' = m_function j
  ∧ m_parentJob j' = m_parentJob j ∧ m_onFinishedJob j' = m_onFinishedJob j
  ∧ m_pFirstChild j' = m_pFirstChild j ∧ m_pLastChild j' = m_pLastChild j
  ∧ m_pNextSibling j' = m_pNextSibling j.
Proof. unfold link_view. intros [=]. done. Qed.

Lemma chain_same_links (w w' : World) (start : option JobPtr)
    (l : list JobPtr) :
  same_links w w' → chain w start l → chain w' start l.
Proof.
  intros H. revert start. induction l as [|k l IH]; intros start; [done|].
  cbn [chain]. intros (-> & kj & Hkj & Hrest). split; [done|].
  destruct (same_links_job _ _ _ _ H Hkj) as (kj' & Hkj' & Hv).
  exists kj'. split; [done|].
  destruct (link_view_fields _ _ Hv) as (_&_&_&_&_&_&->). by apply IH.
Qed.

Lemma counterAt_updJob_ne (f : Job -> Job) (p t : JobPtr) (w : World) :
  p ≠ t → counterAt (updJob f p w) t = counterAt w t.
Proof. intros. unfold counterAt. by rewrite jobAt_updJob_ne. Qed.

Lemma counterAt_same_pools (w w' : World) (t : JobPtr) :
  m_jobPools w' = m_jobPools w → counterAt w' t = counterAt w t.
Proof. intros H. unfold counterAt. by rewrite (jobAt_same_pools _ _ _ H). Qed.

(** ** The loop over the recorded children *)

Lemma play_children_spec (kids : list JobPtr) :
  ∀ (fuel : nat) (w : World) (start : option JobPtr) (x : JobPtr) (c : Z),
    chain w start kids → (length kids ≤ fuel)%nat →
    counterAt w x = Some c → 0 ≤ c → c + Z.of_nat (length kids) < 2 ^ 32 →
    queues_ready w →
    ∃ w', JobSystem.play_children fuel x start w = Ok tt w'
          ∧ same_links w w' ∧ same_pool_views w w' ∧ same_sched w w'
          ∧ body_log w' = body_log w ∧ queues_ready w'
          ∧ all_queued w' ≡ₚ all_queued w ++ (Some <$> kids)
          ∧ (∀ t, t ≠ x → counterAt w' t = counterAt w t)
          ∧ counterAt w' x = Some (c + Z.of_nat (length kids)).
Proof.
  induction kids as [|k kids IH]; intros fuel w start x c Hchain Hfuel Hc Hc0 Hcb
    Hready.
  - cbn [chain] in Hchain. subst start. exists w.
    split; [by destruct fuel|].
    do 5 (split; [done|]). split; [by rewrite fmap_nil, app_nil_r|].
    split; [done|]. rewrite Hc. f_equal. cbn. lia.
  - cbn [chain] in Hchain. destruct Hchain as (-> & kj & Hkj & Hrest).
    destruct fuel as [|fuel]; [cbn in Hfuel; lia|].
    cbn [JobSystem.play_children].
    assert (Hx : ∃ xj, jobAt w x = Some xj ∧ m_numUnfinishedChildren xj = c).
    { unfold counterAt in Hc. destruct (jobAt w x) as [xj|]; [|done].
      exists xj. split; [done|]. cbn in Hc. congruence. }
    destruct Hx as (xj & Hxj & Hxc).
    erewrite bind_run; [|eapply writeJob_run; exact Hxj].
    set (w1 := updJob _ x w).
    destruct (addJob_effect (Some k) w1) as (w2 & Hrun2 & Hpools2 & Hsched2
                                             & Hlog2 & Hready2 & Hq2).
    { done. }
    erewrite bind_run; [|exact Hrun2].
    assert (Hl1 : same_links w w1) by (by apply same_links_updJob).
    assert (Hl2 : same_links w w2).
    { eapply same_links_trans; [exact Hl1|by apply same_links_pools]. }
    destruct (same_links_job _ _ _ _ Hl2 Hkj) as (kj2 & Hkj2 & Hv).
    destruct (link_view_fields _ _ Hv) as (_&_&_&_&_&_&Hnext).
    erewrite bind_run; [|apply readJob_run; exact Hkj2].
    rewrite Hnext.
    assert (Hc2 : counterAt w2 x = Some (c + 1)).
    { rewrite (counterAt_same_pools w1 w2) by done.
      unfold counterAt, w1. rewrite jobAt_updJob_eq, Hxj. cbn. f_equal.
      rewrite Hxc. apply wrap32_small. cbn [length] in Hcb. lia. }
    destruct (IH fuel w2 (m_pNextSibling kj) x (c + 1))
      as (w' & Hrun & Hl & Hpv & Hs & Hlog & Hready' & Hq & Hothers & Hcx).
    { by eapply chain_same_links. }
    { cbn in Hfuel. lia. }
    { done. }
    { lia. }
    { cbn [length] in Hcb. lia. }
    { done. }
    exists w'. split; [exact Hrun|].
    split; [by eapply same_links_trans|].
    split.
    { eapply same_pool_views_trans; [|exact Hpv].
      eapply same_pool_views_trans; [apply same_pool_views_updJob|].
      by apply same_pool_views_pools. }
    split; [by eapply same_sched_trans|].
    split; [by rewrite Hlog, Hlog2|].
    split; [done|]. split.
    { rewrite Hq, Hq2. cbn. rewrite <- app_assoc. reflexivity. }
    split.
    { intros t Ht. rewrite (Hothers t Ht).
      rewrite (counterAt_same_pools w1 w2) by done.
      by apply counterAt_updJob_ne. }
    rewrite Hcx. f_equal. cbn [length]. lia.
Qed.

(** ** Completion runs up the tree *)

Lemma filter_notin_cons_notin (x : JobPtr) (D l : list JobPtr) :
  x ∉ l → filter (λ k, k ∉ x :: D) l = filter (λ k, k ∉ D) l.
Proof.
  induction l as [|a l IH]; intros Hx; [done|].
  apply not_elem_of_cons in Hx as [Hxa Hx]. rewrite !filter_cons.
  specialize (IH Hx).
  destruct (decide (a ∈ D)) as [HaD|HaD].
  - rewrite (decide_False (P := a ∉ D)) by (intros Hn; by apply Hn).
    rewrite (decide_False (P := a ∉ x :: D)); [done|].
    rewrite not_elem_of_cons. intros [_ Hn]. by apply Hn.
  - rewrite (decide_True (P := a ∉ D)) by done.
    rewrite (decide_True (P := a ∉ x :: D)); [by f_equal|].
    rewrite not_elem_of_cons. split; congruence.
Qed.

Lemma filter_notin_cons_in (x : JobPtr) (D l : list JobPtr) :
  NoDup l → x ∈ l → x ∉ D →
  length (filter (λ k, k ∉ D) l) = S (length (filter (λ k, k ∉ x :: D) l)).
Proof.
  induction l as [|a l IH]; intros Hnd Hx HD; [by apply elem_of_nil in Hx|].
  apply NoDup_cons in Hnd as [Ha Hnd]. rewrite !filter_cons.
  apply elem_of_cons in Hx as [<-|Hx].
  - rewrite (filter_notin_cons_notin x D l Ha).
    rewrite (decide_True (P := x ∉ D)) by done.
    rewrite (decide_False (P := x ∉ x :: D)); [done|].
    rewrite not_elem_of_cons. intros [Hn _]. by apply Hn.
  - specialize (IH Hnd Hx HD).
    assert (a ≠ x) by (intros ->; done).
    destruct (decide (a ∈ D)) as [HaD|HaD].
    + rewrite (decide_False (P := a ∉ D)) by (intros Hn; by apply Hn).
      rewrite (decide_False (P := a ∉ x :: D)); [done|].
      rewrite not_elem_of_cons. intros [_ Hn]. by apply Hn.
    + rewrite (decide_True (P := a ∉ D)) by done.
      rewrite (decide_True (P := a ∉ x :: D));
        [cbn [length]; by f_equal|].
      rewrite not_elem_of_cons. split; congruence.
Qed.

Lemma onFinished_rest_plain (x : JobPtr) (w : World) (j : Job) :
  jobAt w x = Some j → m_onFinishedJob j = None →
  ∃ w', JobSystem.onFinished_rest x w = Ok tt w'
        ∧ same_links w w' ∧ (∀ t, counterAt w' t = counterAt w t)
        ∧ same_pool_views w w' ∧ same_sched w w'
        ∧ body_log w' = body_log w ∧ m_jobQueues w' = m_jobQueues w.
Proof.
  intros Hj Hsucc. unfold JobSystem.onFinished_rest.
  erewrite bind_run; [|apply readJob_run; exact Hj].
  rewrite Hsucc, bind_ret, bind_get_world, bind_modify.
  assert (Hfinal : ∀ w4, m_jobPools w4 = m_jobPools w → same_sched w w4 →
            body_log w4 = body_log w → m_jobQueues w4 = m_jobQueues w →
            ∃ w', writeJob (set_available true) x w4 = Ok tt w'
                  ∧ same_links w w' ∧ (∀ t, counterAt w' t = counterAt w t)
                  ∧ same_pool_views w w' ∧ same_sched w w'
                  ∧ body_log w' = body_log w
                  ∧ m_jobQueues w' = m_jobQueues w).
  { intros w4 Hp4 Hs4 Hl4 Hq4.
    assert (Hj4 : jobAt w4 x = Some j) by (by rewrite (jobAt_same_pools w w4)).
    eexists. split; [eapply writeJob_run; exact Hj4|].
    split; [|split; [|split; [|split; [|split]]]].
    - eapply same_links_trans; [apply same_links_pools; exact Hp4|].
      by apply same_links_updJob.
    - intros t. unfold counterAt. rewrite jobAt_updJob.
      rewrite (jobAt_same_pools w w4) by done.
      case_decide; [|done]. by destruct (jobAt w t).
    - eapply same_pool_views_trans; [apply same_pool_views_pools; exact Hp4|].
      apply same_pool_views_updJob.
    - eapply same_sched_trans; [exact Hs4|]. apply same_sched_updJob.
    - exact Hl4.
    - exact Hq4. }
  case_decide; [rewrite bind_modify|rewrite bind_ret]; by apply Hfinal.
Qed.

Lemma recorded_in_same_links (w w' : World) (pp : nat) (R : Recording) :
  same_links w w' → recorded_in w pp R → recorded_in w' pp R.
Proof.
  intros Hl Hrec x Hx.
  destruct (Hrec x Hx) as (j & b & Hj & Hpool & Hf & Hq & Hpar & Hsucc & Hchain).
  destruct (same_links_job _ _ _ _ Hl Hj) as (j' & Hj' & Hv).
  destruct (link_view_fields _ _ Hv) as (H1 & H2 & H3 & H4 & H5 & _ & _).
  exists j', b. rewrite H1, H2, H3, H4, H5.
  repeat split; try done. by eapply chain_same_links.
Qed.

Section Cascade.

Variables (R : Recording) (root : JobPtr) (pp : nat) (E : list JobPtr).
Hypothesis Htree : tree_ok R root.
Hypothesis HE : ∀ x, x ∈ E → x ∈ rec_nodes R.
Hypothesis HEpar : closed_under_par R E.
Hypothesis Hsmall : Z.of_nat (length (rec_nodes R)) < 2 ^ 32.

Lemma kid_parent (x z : JobPtr) :
  z ∈ rec_nodes R → x ∈ rec_kids R z → rec_par R x = Some z.
Proof.
  intros Hz Hx. destruct Htree as (_ & _ & _ & Hkids & _). by apply Hkids.
Qed.

Lemma parent_kid (x z : JobPtr) :
  x ∈ rec_nodes R → rec_par R x = Some z →
  z ∈ rec_nodes R ∧ x ∈ rec_kids R z
  ∧ rec_depth R x = S (rec_depth R z).
Proof.
  intros Hx Hpar. destruct Htree as (_ & _ & _ & Hkids & _ & Hp).
  destruct (Hp x z Hx Hpar) as [Hz Hk]. split; [done|]. split; [done|].
  by apply Hkids.
Qed.

Lemma kids_NoDup (z : JobPtr) : z ∈ rec_nodes R → NoDup (rec_kids R z).
Proof. destruct Htree as (_ & _ & _ & _ & Hnd & _). apply Hnd. Qed.

Lemma kids_length (z : JobPtr) :
  z ∈ rec_nodes R →
  (length (rec_kids R z) ≤ length (rec_nodes R))%nat.
Proof.
  intros Hz. apply submseteq_length, NoDup_submseteq; [by apply kids_NoDup|].
  intros k Hk. destruct Htree as (_ & _ & _ & Hkids & _).
  by apply (Hkids z k).
Qed.

Lemma open_kids_length (D : list JobPtr) (z : JobPtr) :
  z ∈ rec_nodes R →
  (length (open_kids R D z) ≤ length (rec_nodes R))%nat.
Proof.
  intros Hz. unfold open_kids.
  etransitivity; [apply length_filter|by apply kids_length].
Qed.

Lemma open_kids_other (D : list JobPtr) (x z : JobPtr) :
  x ∉ rec_kids R z → open_kids R (x :: D) z = open_kids R D z.
Proof. intros. by apply filter_notin_cons_notin. Qed.

Lemma open_kids_parent (D : list JobPtr) (x z : JobPtr) :
  z ∈ rec_nodes R → x ∈ rec_kids R z → x ∉ D →
  length (open_kids R D z) = S (length (open_kids R (x :: D) z)).
Proof.
  intros Hz Hx HD. apply filter_notin_cons_in; [by apply kids_NoDup|done|done].
Qed.

Lemma open_kids_nil (D : list JobPtr) (x k : JobPtr) :
  open_kids R D x = [] → k ∈ rec_kids R x → k ∈ D.
Proof.
  intros Hnil Hk. destruct (decide (k ∈ D)) as [|Hn]; [done|].
  assert (Hin : k ∈ open_kids R D x) by (by apply list_elem_of_filter).
  rewrite Hnil in Hin. by apply elem_of_nil in Hin.
Qed.

(** Completing [x]: what remains to be shown for the other jobs. *)
Lemma counters_ok_done (w w' : World) (D : list JobPtr) (x : JobPtr)
    (skip : option JobPtr) :
  counters_ok R w E D (Some x) → x ∈ E → open_kids R D x = [] →
  (∀ z, z ∈ E → z ∉ x :: D → Some z ≠ skip →
        counterAt w' z = Some (Z.of_nat (length (open_kids R (x :: D) z)))
        ∧ open_kids R (x :: D) z ≠ []) →
  counters_ok R w' E (x :: D) skip.
Proof.
  intros (HDE & Hclosed & _) HxE Hnil Hrest. split; [|split; [|done]].
  - intros z [->|Hz]%elem_of_cons; [done|by apply HDE].
  - intros z k [->|Hz]%elem_of_cons Hk; apply elem_of_cons; right.
    + by eapply open_kids_nil.
    + by eapply Hclosed.
Qed.

Lemma cascade (fuel : nat) :
  ∀ (x : JobPtr) (w : World) (D : list JobPtr),
    recorded_in w pp R → queues_ready w →
    x ∈ E → x ∉ D → open_kids R D x = [] →
    counters_ok R w E D (Some x) →
    (rec_depth R x < fuel)%nat →
    ∃ w' D', JobSystem.onFinished fuel x w = Ok tt w'
             ∧ counters_ok R w' E D' None ∧ x ∈ D' ∧ (∀ y, y ∈ D → y ∈ D')
             ∧ same_links w w' ∧ same_pool_views w w' ∧ same_sched w w'
             ∧ body_log w' = body_log w ∧ m_jobQueues w' = m_jobQueues w.
Proof.
  induction fuel as [|fuel IH]; intros x w D Hrec Hready HxE HxD Hnil Hok Hdepth;
    [lia|].
  cbn [JobSystem.onFinished]. rewrite bind_modify.
  set (w1 := set_finished_log (finished_log w ++ [x]) w).
  assert (Hx : x ∈ rec_nodes R) by (by apply HE).
  destruct (Hrec x Hx) as (j & b & Hj & _ & _ & _ & Hpar & Hsucc & _).
  erewrite bind_run; [|apply readJob_run; exact Hj]. rewrite Hpar.
  (* the world after the parent has been informed *)
  assert (Hmid : ∃ w2 D2,
            match rec_par R x with
            | Some parent =>
                Job.childFinished_with (JobSystem.onFinished fuel) parent
            | None => ret tt
            end w1 = Ok tt w2
            ∧ counters_ok R w2 E D2 None ∧ x ∈ D2 ∧ (∀ y, y ∈ D → y ∈ D2)
            ∧ same_links w w2 ∧ same_pool_views w w2 ∧ same_sched w w2
            ∧ body_log w2 = body_log w ∧ m_jobQueues w2 = m_jobQueues w).
  { destruct (rec_par R x) as [y|] eqn:Hy.
    - destruct (parent_kid x y Hx Hy) as (Hynode & Hxkid & Hdep).
      assert (HyE : y ∈ E) by (by eapply HEpar).
      assert (HyD : y ∉ D).
      { intros HyD. apply HxD. destruct Hok as (_ & Hclosed & _).
        by eapply Hclosed. }
      assert (Hyx : y ≠ x) by (intros ->; lia).
      destruct Hok as (HDE & Hclosed & Hcnt).
      destruct (Hcnt y HyE HyD) as [Hcy Hopen]; [congruence|].
      pose proof (open_kids_parent D x y Hynode Hxkid HxD) as Hlen.
      pose proof (open_kids_length (x :: D) y Hynode) as Hbound.
      assert (Hyj : ∃ yj, jobAt w1 y = Some yj
                ∧ m_numUnfinishedChildren yj
                  = Z.of_nat (S (length (open_kids R (x :: D) y)))).
      { unfold counterAt in Hcy. change (jobAt w1 y) with (jobAt w y).
        destruct (jobAt w y) as [yj|]; [|done]. exists yj. split; [done|].
        cbn in Hcy. rewrite <- Hlen. congruence. }
      destruct Hyj as (yj & Hyj & Hyc).
      unfold Job.childFinished_with.
      erewrite bind_run; [|apply readJob_run; exact Hyj].
      erewrite bind_run; [|eapply writeJob_run; exact Hyj].
      set (W1 := updJob _ y w1).
      assert (HW1y : counterAt W1 y
                     = Some (Z.of_nat (length (open_kids R (x :: D) y)))).
      { unfold counterAt, W1. rewrite jobAt_updJob_eq, Hyj. cbn. f_equal.
        rewrite Hyc. rewrite wrap32_small; lia. }
      assert (HW1o : ∀ z, z ≠ y → counterAt W1 z = counterAt w z).
      { intros z Hz. unfold W1. by rewrite counterAt_updJob_ne. }
      assert (Hl1 : same_links w W1).
      { eapply same_links_trans; [apply (same_links_pools w w1); done|].
        by apply same_links_updJob. }
      assert (Hothers : ∀ z, z ∈ E → z ∉ x :: D → z ≠ y →
                counterAt W1 z
                = Some (Z.of_nat (length (open_kids R (x :: D) z)))
                ∧ open_kids R (x :: D) z ≠ []).
      { intros z HzE [Hzx HzD]%not_elem_of_cons Hzy.
        rewrite (HW1o z Hzy).
        assert (Hnk : x ∉ rec_kids R z).
        { intros Hk. apply Hzy.
          pose proof (kid_parent x z (HE z HzE) Hk) as Hp. congruence. }
        rewrite (open_kids_other D x z Hnk). apply Hcnt; [done|done|congruence]. }
      case_decide as Hone.
      + assert (Hzero : open_kids R (x :: D) y = []).
        { apply length_zero_iff_nil. lia. }
        destruct (IH y W1 (x :: D))
          as (w2 & D2 & Hrun & Hok2 & HyD2 & Hsub & Hl2 & Hpv2 & Hs2 & Hlog2 & Hq2).
        * by eapply recorded_in_same_links.
        * done.
        * done.
        * intros [?|?]%elem_of_cons; [done|done].
        * done.
        * apply (counters_ok_done w W1 D x (Some y)); [by split|done|done|].
          intros z HzE HzD Hzy. apply Hothers; [done|done|congruence].
        * lia.
        * exists w2, D2. split; [exact Hrun|]. split; [done|].
          split; [apply Hsub; by left|].
          split; [intros z Hz; apply Hsub; by right|].
          split; [by eapply same_links_trans|].
          split.
          { eapply same_pool_views_trans; [|exact Hpv2].
            apply (same_pool_views_updJob _ y w1). }
          split; [by eapply same_sched_trans|].
          split; [by rewrite Hlog2|by rewrite Hq2].
      + exists W1, (x :: D). split; [reflexivity|]. split.
        { apply (counters_ok_done w W1 D x None); [by split|done|done|].
          intros z HzE HzD _. destruct (decide (z = y)) as [->|Hzy].
          - split; [done|]. intros Hnil'. apply Hone. rewrite Hyc, Hnil'.
            reflexivity.
          - by apply Hothers. }
        split; [by left|]. split; [intros z Hz; by right|].
        split; [done|]. split; [apply (same_pool_views_updJob _ y w1)|].
        done.
    - exists w1, (x :: D). split; [reflexivity|]. split.
      { apply (counters_ok_done w w1 D x None); [done|done|done|].
        intros z HzE [Hzx HzD]%not_elem_of_cons _.
        assert (Hnk : x ∉ rec_kids R z).
        { intros Hk. pose proof (kid_parent x z (HE z HzE) Hk) as Hp.
          congruence. }
        rewrite (open_kids_other D x z Hnk).
        destruct Hok as (_ & _ & Hcnt).
        apply (Hcnt z); [done|done|congruence]. }
      split; [by left|]. split; [intros z Hz; by right|]. done. }
  destruct Hmid as (w2 & D2 & Hrun2 & Hok2 & HxD2 & Hsub2 & Hl2 & Hpv2 & Hs2
                    & Hlog2 & Hq2).
  erewrite bind_run; [|exact Hrun2].
  destruct (same_links_job _ _ _ _ Hl2 Hj) as (j2 & Hj2 & Hv).
  destruct (link_view_fields _ _ Hv) as (_ & _ & _ & Hsucc2 & _).
  destruct (onFinished_rest_plain x w2 j2 Hj2)
    as (w' & Hrun & Hl & Hc & Hpv & Hs & Hlog & Hq);
    [by rewrite Hsucc2|].
  exists w', D2. split; [exact Hrun|]. split.
  { destruct Hok2 as (H1 & H2 & H3). split; [done|]. split; [done|].
    intros z Hz1 Hz2 Hz3. rewrite Hc. by apply H3. }
  split; [done|]. split; [done|].
  split; [by eapply same_links_trans|].
  split; [by eapply same_pool_views_trans|].
  split; [by eapply same_sched_trans|].
  split; [by rewrite Hlog|by rewrite Hq].
Qed.

End Cascade.

(** ** The frontier of the playback *)

Section Frontier.

Variables (R : Recording) (root : JobPtr) (E : list JobPtr).
Hypothesis Htree : tree_ok R root.
Hypothesis HE : ∀ x, x ∈ E → x ∈ rec_nodes R.
Hypothesis HEpar : closed_under_par R E.

Lemma elem_of_frontier (E' : list JobPtr) (y : JobPtr) :
  y ∈ frontier R E' ↔ y ∈ rec_nodes R ∧ due R E' y.
Proof. unfold frontier. rewrite list_elem_of_filter. tauto. Qed.

Lemma NoDup_frontier (E' : list JobPtr) : NoDup (frontier R E').
Proof.
  unfold frontier. apply NoDup_filter. by destruct Htree.
Qed.

Lemma kid_not_executed (x k : JobPtr) :
  x ∈ rec_nodes R → x ∉ E → k ∈ rec_kids R x → k ∉ E.
Proof.
  intros Hx HxE Hk HkE. apply HxE.
  apply (HEpar k x HkE). by apply (kid_parent R root Htree).
Qed.

Lemma frontier_step (x : JobPtr) :
  x ∈ frontier R E →
  frontier R (E ++ [x]) ++ [x] ≡ₚ frontier R E ++ rec_kids R x.
Proof.
  intros Hx. apply elem_of_frontier in Hx as [Hxn [HxE Hxdue]].
  apply NoDup_Permutation.
  - apply NoDup_app. split; [apply NoDup_frontier|]. split.
    + intros y Hy ->%list_elem_of_singleton.
      apply elem_of_frontier in Hy as [_ [Hy _]]. apply Hy.
      apply elem_of_app. right. by apply list_elem_of_singleton.
    + apply NoDup_singleton.
  - apply NoDup_app. split; [apply NoDup_frontier|]. split.
    + intros y Hy Hk. apply elem_of_frontier in Hy as [_ [_ Hdue]].
      rewrite (kid_parent R root Htree y x Hxn Hk) in Hdue. done.
    + by apply (kids_NoDup R root Htree).
  - intros y. rewrite !elem_of_app, !elem_of_frontier, list_elem_of_singleton.
    unfold due. rewrite not_elem_of_app, list_elem_of_singleton. split.
    + intros [(Hyn & [HyE Hyx] & Hdue)| ->].
      * destruct (rec_par R y) as [z|] eqn:Hz; [|left; done].
        apply elem_of_app in Hdue as [HzE| ->%list_elem_of_singleton].
        -- left. done.
        -- right. by apply (parent_kid R root Htree y x).
      * left. done.
    + intros [(Hyn & HyE & Hdue)|Hk].
      * destruct (decide (y = x)) as [->|Hne]; [by right|]. left.
        split; [done|]. split; [done|].
        destruct (rec_par R y); [|done]. apply elem_of_app. by left.
      * left. destruct Htree as (_ & _ & _ & Hkids & _).
        destruct (Hkids x y Hxn Hk) as (Hyn & Hpar & Hdep).
        split; [done|]. split.
        -- split; [by apply (kid_not_executed x y)|]. intros ->. lia.
        -- rewrite Hpar. apply elem_of_app. right.
           by apply list_elem_of_singleton.
Qed.

(** While some recorded job has not been executed, one is due. *)
Lemma frontier_nonempty :
  (length E < length (rec_nodes R))%nat → NoDup E → frontier R E ≠ [].
Proof.
  intros Hlen HndE.
  assert (Hex : ∃ y, y ∈ rec_nodes R ∧ y ∉ E).
  { destruct (decide (Forall (λ y, y ∈ E) (rec_nodes R))) as [Hall|Hn].
    - exfalso. rewrite Forall_forall in Hall.
      assert (length (rec_nodes R) ≤ length E)%nat; [|lia].
      apply submseteq_length, NoDup_submseteq; [by destruct Htree|done].
    - apply not_Forall_Exists in Hn; [|intros ?; apply _].
      apply Exists_exists in Hn as (y & Hy & HyE). by exists y. }
  destruct Hex as (y & Hy & HyE).
  assert (Hgen : ∀ d y, rec_depth R y = d → y ∈ rec_nodes R → y ∉ E →
                        ∃ z, z ∈ frontier R E).
  { clear y Hy HyE. induction d as [|d IH]; intros y Hd Hy HyE.
    - exists y. apply elem_of_frontier. split; [done|]. split; [done|].
      destruct (rec_par R y) as [z|] eqn:Hz; [|done].
      destruct (parent_kid R root Htree y z Hy Hz) as (_ & _ & Hdep). lia.
    - destruct (rec_par R y) as [z|] eqn:Hz.
      + destruct (parent_kid R root Htree y z Hy Hz) as (Hzn & _ & Hdep).
        destruct (decide (z ∈ E)) as [HzE|HzE].
        * exists y. apply elem_of_frontier. split; [done|]. split; [done|].
          by rewrite Hz.
        * apply (IH z); [lia|done|done].
      + exists y. apply elem_of_frontier. split; [done|]. split; [done|].
        by rewrite Hz. }
  destruct (Hgen _ y eq_refl Hy HyE) as [z Hz].
  intros Hnil. rewrite Hnil in Hz. by apply elem_of_nil in Hz.
Qed.

End Frontier.

(** ** Writing the bookkeeping of a pool *)

Lemma lookup_updPool_eq (f : JobPool -> JobPool) (n : nat) (w : World) :
  m_jobPools (updPool f n w) !! n = f <$> m_jobPools w !! n.
Proof. unfold updPool. wsimpl. apply list_lookup_alter_eq. Qed.

Lemma lookup_updPool_ne (f : JobPool -> JobPool) (n m : nat) (w : World) :
  n ≠ m → m_jobPools (updPool f n w) !! m = m_jobPools w !! m.
Proof. intros. unfold updPool. wsimpl. by apply list_lookup_alter_ne. Qed.

Lemma other_pools_same_refl (pp : nat) (w : World) : other_pools_same pp w w.
Proof. done. Qed.

Lemma other_pools_same_trans (pp : nat) (w1 w2 w3 : World) :
  other_pools_same pp w1 w2 → other_pools_same pp w2 w3 →
  other_pools_same pp w1 w3.
Proof. intros H12 H23 m Hm. by rewrite H23, H12. Qed.

Lemma other_pools_same_views (pp : nat) (w w' : World) :
  same_pool_views w w' → other_pools_same pp w w'.
Proof. intros H m _. apply H. Qed.

Lemma other_pools_same_updPool (pp : nat) (f : JobPool -> JobPool)
    (w : World) :
  other_pools_same pp w (updPool f pp w).
Proof. intros m Hm. by rewrite lookup_updPool_ne. Qed.

Lemma counterAt_updPool (f : JobPool -> JobPool) (n : nat) (w : World)
    (t : JobPtr) :
  (∀ pool, jobLists (f pool) = jobLists pool) →
  counterAt (updPool f n w) t = counterAt w t.
Proof. intros. unfold counterAt. by rewrite jobAt_updPool. Qed.

Lemma completion_ok_frame (pp : nat) (c : JobPtr) (w w' : World) :
  same_links w w' → other_pools_same pp w w' →
  completion_ok w c pp → completion_ok w' c pp.
Proof.
  intros Hl Hp (cj & poolq & Hcj & Hf & Hpar & Hsucc & Hne & Hq & Hplay).
  destruct (same_links_job _ _ _ _ Hl Hcj) as (cj' & Hcj' & Hv).
  destruct (link_view_fields _ _ Hv) as (H1 & H2 & H3 & H4 & _).
  specialize (Hp (m_poolNumber cj) Hne). rewrite Hq in Hp.
  destruct (m_jobPools w' !! m_poolNumber cj) as [poolq'|] eqn:Hq'; [|done].
  exists cj', poolq'. rewrite H1, H2, H3, H4.
  repeat split; try done. cbn in Hp. unfold pool_view in Hp. congruence.
Qed.

(** ** The playback block of one job *)

Lemma playback_block (fuel : nat) (pp : nat) (c x : JobPtr) (w : World)
    (j : Job) (kids : list JobPtr) (left : nat) :
  jobAt w x = Some j →
  chain w (m_pFirstChild j) kids → (length kids ≤ fuel)%nat →
  m_numUnfinishedChildren j = 1 →
  1 + Z.of_nat (length kids) < 2 ^ 32 →
  queues_ready w →
  pool_playing w pp c (S left) → Z.of_nat (S left) < 2 ^ 32 →
  ∃ w', JobSystem.Job_call_playback fuel x pp w = Ok tt w'
        ∧ same_links w w' ∧ same_sched w w' ∧ body_log w' = body_log w
        ∧ queues_ready w' ∧ other_pools_same pp w w'
        ∧ counterAt w' x = Some (1 + Z.of_nat (length kids))
        ∧ (∀ t, t ≠ x → counterAt w' t = counterAt w t)
        ∧ match left with
          | O => all_queued w' ≡ₚ all_queued w ++ (Some <$> kids) ++ [Some c]
                 ∧ ∃ pool', m_jobPools w' !! pp = Some pool'
                            ∧ isPlayedBack pool' = false
          | S _ => all_queued w' ≡ₚ all_queued w ++ (Some <$> kids)
                   ∧ pool_playing w' pp c left
          end.
Proof.
  intros Hj Hchain Hfuel Hone Hbound Hready
    (pool & Hpool & Hplay & Hleft & Hfin) Hlb.
  unfold JobSystem.Job_call_playback.
  erewrite bind_run; [|apply readJob_run; exact Hj].
  destruct (play_children_spec kids fuel w (m_pFirstChild j) x 1)
    as (w1 & Hrun1 & Hl1 & Hpv1 & Hs1 & Hlog1 & Hready1 & Hq1 & Ho1 & Hc1);
    [done|done|by (unfold counterAt; rewrite Hj; cbn; f_equal)|lia|done|done|].
  erewrite bind_run; [|exact Hrun1].
  destruct (same_pool_views_lookup _ _ _ _ Hpv1 Hpool) as (pool1 & Hpool1 & Hv1).
  unfold pool_view in Hv1. injection Hv1 as Hidx1 Hleft1 Hplay1 Hfin1.
  erewrite bind_run; [|apply readPool_run; exact Hpool1].
  erewrite bind_run; [|eapply writePool_run; exact Hpool1].
  set (w2 := updPool _ pp w1).
  assert (Hl2 : same_links w w2).
  { apply same_links_trans with w1; [exact Hl1|]. by apply same_links_updPool. }
  assert (Hc2 : ∀ t, counterAt w2 t = counterAt w1 t).
  { intros t. by apply counterAt_updPool. }
  assert (Hpool2 : m_jobPools w2 !! pp
                   = Some (set_numJobsLeftToPlay (Z.of_nat left) pool1)).
  { unfold w2. rewrite lookup_updPool_eq, Hpool1. cbn. do 2 f_equal.
    rewrite Hleft1, Hleft. rewrite wrap32_small; lia. }
  assert (Hop2 : other_pools_same pp w w2).
  { apply other_pools_same_trans with w1; [by apply other_pools_same_views|].
    apply other_pools_same_updPool. }
  rewrite Hleft1, Hleft.
  destruct left as [|left].
  - rewrite decide_True by done.
    erewrite bind_run; [|eapply writePool_run; exact Hpool2].
    set (w3 := updPool _ pp w2).
    assert (Hpool3 : m_jobPools w3 !! pp
                     = Some (set_isPlayedBack false
                               (set_numJobsLeftToPlay (Z.of_nat 0) pool1))).
    { unfold w3. by rewrite lookup_updPool_eq, Hpool2. }
    erewrite bind_run; [|apply readPool_run; exact Hpool3].
    cbn [pOnPlaybackFinishedJob set_isPlayedBack set_numJobsLeftToPlay].
    rewrite Hfin1, Hfin.
    destruct (addJob_effect (Some c) w3)
      as (w4 & Hrun4 & Hpools4 & Hs4 & Hlog4 & Hready4 & Hq4); [done|].
    exists w4. split; [exact Hrun4|].
    split.
    { apply same_links_trans with w2; [exact Hl2|].
      apply same_links_trans with w3; [by apply same_links_updPool|].
      by apply same_links_pools. }
    split; [eapply same_sched_trans; [exact Hs1|exact Hs4]|].
    split; [by rewrite Hlog4|]. split; [done|].
    split.
    { apply other_pools_same_trans with w2; [exact Hop2|].
      apply other_pools_same_trans with w3; [apply other_pools_same_updPool|].
      by apply other_pools_same_views, same_pool_views_pools. }
    split.
    { rewrite (counterAt_same_pools w3 w4) by done.
      unfold w3. rewrite counterAt_updPool by done. by rewrite Hc2. }
    split.
    { intros t Ht. rewrite (counterAt_same_pools w3 w4) by done.
      unfold w3. rewrite counterAt_updPool by done. rewrite Hc2. by apply Ho1. }
    split.
    { rewrite Hq4. change (all_queued w3) with (all_queued w1).
      rewrite Hq1. by rewrite <- app_assoc. }
    exists (set_isPlayedBack false (set_numJobsLeftToPlay (Z.of_nat 0) pool1)).
    split; [|done]. by rewrite Hpools4.
  - rewrite decide_False by lia. exists w2. split; [reflexivity|].
    split; [done|]. split; [done|]. split; [done|]. split; [done|].
    split; [done|]. split; [by rewrite Hc2|].
    split; [intros t Ht; rewrite Hc2; by apply Ho1|].
    split; [done|].
    eexists. split; [exact Hpool2|]. cbn. by rewrite Hplay1, Hfin1.
Qed.

(** ** Executing one recorded job during playback *)

Section Exec.

Variables (R : Recording) (root c : JobPtr) (pp : nat).
Hypothesis Htree : tree_ok R root.
Hypothesis Hsmall : Z.of_nat (length (rec_nodes R)) + 1 < 2 ^ 32.

Lemma queues_ready_frame (w w' : World) :
  m_threads_size w' = m_threads_size w → m_jobQueues w' = m_jobQueues w →
  queues_ready w → queues_ready w'.
Proof. unfold queues_ready. by intros -> ->. Qed.

Lemma depth_chain (d : nat) :
  ∀ x, x ∈ rec_nodes R → rec_depth R x = d →
       ∃ l, NoDup l ∧ (∀ y, y ∈ l → y ∈ rec_nodes R ∧ (rec_depth R y ≤ d)%nat)
            ∧ length l = S d.
Proof.
  induction d as [|d IH]; intros x Hx Hd.
  - exists [x]. split; [apply NoDup_singleton|]. split; [|done].
    intros y ->%list_elem_of_singleton. split; [done|lia].
  - destruct (rec_par R x) as [z|] eqn:Hz.
    + destruct (parent_kid R root Htree x z Hx Hz) as (Hzn & _ & Hdep).
      destruct (IH z Hzn) as (l & Hnd & Hl & Hlen); [lia|].
      exists (x :: l). split; [|split].
      * apply NoDup_cons. split; [|done]. intros Hin.
        destruct (Hl x Hin) as [_ Hle]. lia.
      * intros y [->|Hy]%elem_of_cons; [split; [done|lia]|].
        destruct (Hl y Hy). split; [done|lia].
      * cbn. by rewrite Hlen.
    + destruct Htree as (_ & [_ Hroot] & Hnone & _).
      apply Hnone in Hz; [|done]. subst x. lia.
Qed.

Lemma depth_bound (x : JobPtr) :
  x ∈ rec_nodes R → (rec_depth R x < length (rec_nodes R))%nat.
Proof.
  intros Hx. destruct (depth_chain _ x Hx eq_refl) as (l & Hnd & Hl & Hlen).
  assert (length l ≤ length (rec_nodes R))%nat; [|lia].
  apply submseteq_length, NoDup_submseteq; [done|]. intros y Hy.
  by apply Hl.
Qed.

Lemma open_kids_all (D : list JobPtr) (x : JobPtr) :
  (∀ k, k ∈ rec_kids R x → k ∉ D) → open_kids R D x = rec_kids R x.
Proof.
  intros H. unfold open_kids. induction (rec_kids R x) as [|k l IH]; [done|].
  rewrite filter_cons. rewrite decide_True by (apply H; by left).
  f_equal. apply IH. intros k' Hk'. apply H. by right.
Qed.

Lemma pool_playing_frame (w w' : World) (left : nat) :
  same_pool_views w w' → pool_playing w pp c left → pool_playing w' pp c left.
Proof.
  intros Hpv (pool & Hpool & Hplay & Hleft & Hfin).
  destruct (same_pool_views_lookup _ _ _ _ Hpv Hpool) as (pool' & Hpool' & Hv).
  unfold pool_view in Hv. injection Hv as _ H2 H3 H4.
  exists pool'. by rewrite H2, H3, H4.
Qed.

Lemma closed_under_par_snoc (E : list JobPtr) (x : JobPtr) :
  closed_under_par R E → x ∈ frontier R E → closed_under_par R (E ++ [x]).
Proof.
  intros Hcl Hx y z [Hy| ->%list_elem_of_singleton]%elem_of_app Hz;
    apply elem_of_app; left.
  - by eapply Hcl.
  - apply (elem_of_frontier R) in Hx as (_ & _ & Hdue). by rewrite Hz in Hdue.
Qed.

Lemma exec_node (fuel : nat) (tid : ThreadId) (idx : nat) (x : JobPtr)
    (wa : World) (E D : list JobPtr) :
  recorded_in wa pp R → NoDup E → (∀ y, y ∈ E → y ∈ rec_nodes R) →
  closed_under_par R E → counters_ok R wa E D None →
  x ∈ frontier R E →
  pool_playing wa pp c (length (rec_nodes R) - length E) →
  (length E < length (rec_nodes R))%nat →
  queues_ready wa →
  m_threadIndexMap wa !! tid = Some idx →
  m_jobPointers wa !! idx = Some (Some x) →
  (length (rec_nodes R) < fuel)%nat →
  ∃ w', JobSystem.Job_call fuel tid x wa = Ok tt w'
        ∧ same_links wa w' ∧ same_sched wa w' ∧ queues_ready w'
        ∧ other_pools_same pp wa w'
        ∧ body_log w' = body_log wa ++ [x]
        ∧ (∃ D', counters_ok R w' (E ++ [x]) D' None)
        ∧ match (length (rec_nodes R) - S (length E))%nat with
          | O => all_queued w'
                 ≡ₚ all_queued wa ++ (Some <$> rec_kids R x) ++ [Some c]
                 ∧ ∃ pool', m_jobPools w' !! pp = Some pool'
                            ∧ isPlayedBack pool' = false
          | S _ => all_queued w' ≡ₚ all_queued wa ++ (Some <$> rec_kids R x)
                   ∧ pool_playing w' pp c
                       (length (rec_nodes R) - S (length E))
          end.
Proof.
  intros Hrec HndE HE Hcl Hok Hx Hplaying Hlt Hready Htid Hptr Hfuel.
  pose proof Hx as Hx'.
  apply (elem_of_frontier R) in Hx' as (Hxn & HxE & Hdue).
  destruct (Hrec x Hxn) as (j & b & Hj & Hjp & Hjf & Hquiet & Hjpar & Hjsucc
                            & Hchain).
  pose proof (kids_length R root Htree x Hxn) as Hklen.
  unfold JobSystem.Job_call.
  erewrite bind_run; [|apply readJob_run; exact Hj]. rewrite Hjf.
  erewrite bind_run; [|eapply writeJob_run; exact Hj].
  set (wb := updJob (set_numUnfinishedChildren 1) x wa).
  unfold JobSystem.call_function. rewrite bind_bind, bind_modify.
  set (wc := set_body_log (body_log wb ++ [x]) wb).
  assert (Hjc : jobAt wc x = Some (set_numUnfinishedChildren 1 j)).
  { change (jobAt wc x) with (jobAt wb x). unfold wb.
    by rewrite jobAt_updJob_eq, Hj. }
  assert (Hlc : same_links wa wc).
  { apply same_links_trans with wb; [by apply same_links_updJob|].
    by apply same_links_pools. }
  assert (Hpvc : same_pool_views wa wc).
  { apply same_pool_views_trans with wb; [apply same_pool_views_updJob|].
    by apply same_pool_views_pools. }
  pose proof (pool_playing_frame _ _ _ Hpvc Hplaying) as Hplayc.
  destruct Hplayc as (poolc & Hpoolc & Hplayc & Hleftc & Hfinc).
  erewrite bind_run.
  2:{ eapply (run_body_quiet fuel tid b wc idx x); eauto.
      cbn [m_poolNumber set_numUnfinishedChildren]. by rewrite Hjp. }
  erewrite bind_run; [|apply readJob_run; exact Hjc].
  cbn [m_poolNumber set_numUnfinishedChildren]. rewrite Hjp.
  erewrite bind_run; [|apply readPool_run; exact Hpoolc]. rewrite Hplayc.
  destruct (playback_block fuel pp c x wc (set_numUnfinishedChildren 1 j)
              (rec_kids R x) (length (rec_nodes R) - S (length E)))
    as (wd & Hrund & Hld & Hsd & Hlogd & Hreadyd & Hopd & Hcxd & Hcod & Hqd).
  { done. }
  { cbn [m_pFirstChild set_numUnfinishedChildren].
    by eapply chain_same_links. }
  { lia. }
  { done. }
  { lia. }
  { done. }
  { exists poolc. split; [done|]. split; [done|]. split; [|done].
    rewrite Hleftc. f_equal. lia. }
  { lia. }
  erewrite bind_run; [|exact Hrund].
  unfold JobSystem.Job_call_finish.
  assert (Hjd : ∃ jd, jobAt wd x = Some jd
                 ∧ m_numUnfinishedChildren jd
                   = 1 + Z.of_nat (length (rec_kids R x))).
  { unfold counterAt in Hcxd. destruct (jobAt wd x) as [jd|]; [|done].
    exists jd. split; [done|]. cbn in Hcxd. congruence. }
  destruct Hjd as (jd & Hjd & Hjdc).
  erewrite bind_run; [|apply readJob_run; exact Hjd].
  erewrite bind_run; [|eapply writeJob_run; exact Hjd].
  set (we := updJob _ x wd).
  assert (Hle : same_links wa we).
  { apply same_links_trans with wc; [done|].
    apply same_links_trans with wd; [done|]. by apply same_links_updJob. }
  assert (Hse : same_sched wa we).
  { apply same_sched_trans with wd; [|done].
    apply same_sched_trans with wc; done. }
  assert (Hope : other_pools_same pp wa we).
  { apply other_pools_same_trans with wc; [by apply other_pools_same_views|].
    apply other_pools_same_trans with wd; [done|].
    apply other_pools_same_views, same_pool_views_updJob. }
  assert (Hloge : body_log we = body_log wa ++ [x]).
  { change (body_log we) with (body_log wd). by rewrite Hlogd. }
  assert (Hce : ∀ z, z ≠ x → counterAt we z = counterAt wa z).
  { intros z Hz. unfold we. rewrite counterAt_updJob_ne by done.
    rewrite Hcod by done. change (counterAt wc z) with (counterAt wb z).
    unfold wb. by rewrite counterAt_updJob_ne. }
  assert (Hcxe : counterAt we x = Some (Z.of_nat (length (rec_kids R x)))).
  { unfold counterAt, we. rewrite jobAt_updJob_eq, Hjd. cbn. f_equal.
    rewrite Hjdc. rewrite wrap32_small; lia. }
  assert (Hqe : match (length (rec_nodes R) - S (length E))%nat with
                | O => all_queued we
                       ≡ₚ all_queued wa ++ (Some <$> rec_kids R x) ++ [Some c]
                       ∧ ∃ pool', m_jobPools we !! pp = Some pool'
                                  ∧ isPlayedBack pool' = false
                | S _ => all_queued we
                         ≡ₚ all_queued wa ++ (Some <$> rec_kids R x)
                         ∧ pool_playing we pp c
                             (length (rec_nodes R) - S (length E))
                end).
  { destruct (length (rec_nodes R) - S (length E))%nat.
    - destruct Hqd as [Hq (pool' & Hpool' & Hpb)]. split; [exact Hq|].
      destruct (same_pool_views_lookup wd we pp pool'
                  (same_pool_views_updJob _ x wd) Hpool')
        as (pool'' & Hpool'' & Hv).
      exists pool''. split; [done|]. unfold pool_view in Hv. congruence.
    - destruct Hqd as [Hq Hpl]. split; [exact Hq|].
      eapply pool_playing_frame; [|exact Hpl]. apply same_pool_views_updJob. }
  assert (HnodesE' : ∀ y, y ∈ E ++ [x] → y ∈ rec_nodes R).
  { intros y [Hy| ->%list_elem_of_singleton]%elem_of_app; [by apply HE|done]. }
  assert (Hkids_open : ∀ k, k ∈ rec_kids R x → k ∉ D).
  { intros k Hk HkD. destruct Hok as (HDE & _).
    by apply (kid_not_executed R root E Htree Hcl x k Hxn HxE Hk), HDE. }
  assert (HxD : x ∉ D).
  { intros HxD. destruct Hok as (HDE & _). by apply HxE, HDE. }
  assert (Hothers : ∀ z, z ∈ E ++ [x] → z ∉ D → z ≠ x →
            counterAt we z = Some (Z.of_nat (length (open_kids R D z)))
            ∧ open_kids R D z ≠ []).
  { intros z [Hz| ->%list_elem_of_singleton]%elem_of_app HzD Hzx; [|done].
    rewrite Hce by done. destruct Hok as (_ & _ & Hcnt). by apply Hcnt. }
  case_decide as Hone.
  - assert (Hnil : rec_kids R x = []).
    { apply length_zero_iff_nil. lia. }
    destruct (cascade R root pp (E ++ [x]) Htree HnodesE'
                (closed_under_par_snoc E x Hcl Hx) ltac:(lia) fuel x we D)
      as (w' & D' & Hrun & Hok' & _ & _ & Hl' & Hpv' & Hs' & Hlog' & Hq').
    + by eapply recorded_in_same_links.
    + by apply (queues_ready_frame wd we).
    + apply elem_of_app. right. by apply list_elem_of_singleton.
    + done.
    + unfold open_kids. by rewrite Hnil.
    + destruct Hok as (HDE & Hclosed & _). split; [|split; [done|]].
      * intros z Hz. apply elem_of_app. left. by apply HDE.
      * intros z Hz HzD Hzx. apply Hothers; [done|done|congruence].
    + pose proof (depth_bound x Hxn). lia.
    + exists w'. split; [exact Hrun|].
      split; [by apply same_links_trans with we|].
      split; [by apply same_sched_trans with we|].
      split.
      { destruct Hs' as (Hsz & _).
        apply (queues_ready_frame wd w'); [exact Hsz|exact Hq'|done]. }
      split.
      { apply other_pools_same_trans with we; [done|].
        by apply other_pools_same_views. }
      split; [by rewrite Hlog'|]. split; [by exists D'|].
      rewrite (all_queued_same we w' Hq').
      destruct (length (rec_nodes R) - S (length E))%nat.
      * destruct Hqe as [Hq (pool' & Hpool' & Hpb)]. split; [exact Hq|].
        destruct (same_pool_views_lookup we w' pp pool' Hpv' Hpool')
          as (pool'' & Hpool'' & Hv).
        exists pool''. split; [done|]. unfold pool_view in Hv. congruence.
      * destruct Hqe as [Hq Hpl]. split; [exact Hq|].
        by eapply pool_playing_frame.
  - exists we. split; [reflexivity|]. split; [done|]. split; [done|].
    split; [done|]. split; [done|]. split; [done|]. split; [|done].
    exists D. destruct Hok as (HDE & Hclosed & _). split; [|split; [done|]].
    + intros z Hz. apply elem_of_app. left. by apply HDE.
    + intros z Hz HzD _. destruct (decide (z = x)) as [->|Hzx].
      * rewrite (open_kids_all D x Hkids_open). split; [done|].
        intros Hnil. apply Hone. by rewrite Hjdc, Hnil.
      * by apply Hothers.
Qed.

End Exec.

(** ** Taking a job: the own queue, then up to five attempts to steal *)

Lemma no_null_lookup (w : World) (i : nat) (p : option JobPtr)
    (q : list (option JobPtr)) :
  Forall is_Some (all_queued w) →
  m_jobQueues w !! i = Some (Some (p :: q)) → is_Some p.
Proof.
  intros Hall Hq. rewrite Forall_forall in Hall. apply Hall.
  unfold all_queued. apply list_elem_of_bind. exists (Some (p :: q)).
  split; [by left|]. by eapply list_elem_of_lookup_2.
Qed.

Lemma taken_no_null (w w' : World) (r : option JobPtr) :
  taken w r w' → Forall is_Some (all_queued w) →
  Forall is_Some (all_queued w').
Proof.
  intros (_ & _ & _ & _ & Hq) Hall. destruct r as [x|].
  - rewrite Hq in Hall. by apply Forall_cons in Hall as [_ ?].
  - by rewrite Hq.
Qed.

Lemma taken_none_trans (w1 w2 w3 : World) (r : option JobPtr) :
  taken w1 None w2 → taken w2 r w3 → taken w1 r w3.
Proof.
  intros (Hp1 & Hs1 & Hl1 & _ & Hq1) (Hp2 & Hs2 & Hl2 & Hr2 & Hq2).
  split; [congruence|]. split; [by eapply same_sched_trans|].
  split; [congruence|]. split; [done|].
  destruct r; by rewrite <- Hq1.
Qed.

Lemma pop_queue_spec (idx : nat) (w : World) :
  queues_ready w → (idx < m_threads_size w)%nat →
  Forall is_Some (all_queued w) →
  ∃ r w', Worker.pop_queue idx w = Ok r w' ∧ taken w r w'
          ∧ ∀ p q, m_jobQueues w !! idx = Some (Some (p :: q)) → r = p.
Proof.
  intros Hready Hidx Hall. pose proof Hready as (Hpos & Hlen & Hq).
  destruct (Hq idx Hidx) as [q Hqi].
  unfold Worker.pop_queue. rewrite bind_get_world, Hqi.
  destruct q as [|p q].
  - rewrite pop_nil. cbv iota beta.
    rewrite bind_modify. exists None. eexists. split; [reflexivity|].
    split.
    + split; [done|]. split; [done|]. split; [done|]. split.
      * eapply queues_ready_set_jobQueues; [exact Hready|done|done].
      * unfold all_queued. wsimpl. by rewrite list_insert_id.
    + intros p q. wsimpl. congruence.
  - destruct (no_null_lookup w idx p q Hall Hqi) as [x ->].
    rewrite pop_cons. cbv iota beta.
    rewrite bind_modify. exists (Some x). eexists.
    split; [reflexivity|]. split.
    + split; [done|]. split; [done|]. split; [done|]. split.
      * eapply queues_ready_set_jobQueues; [exact Hready|done|done].
      * eapply all_queued_pop; [exact Hqi|done].
    + intros p' q' [= <- _]. done.
Qed.

Lemma taken_rand (w : World) (r : option JobPtr) (w' : World) :
  taken (set_rand_pos (S (rand_pos w)) w) r w' → taken w r w'.
Proof. done. Qed.

Lemma steal_loop_spec (max : nat) (idx : nat) :
  ∀ w, queues_ready w → Forall is_Some (all_queued w) →
       ∃ r w', Worker.steal_loop max idx None w = Ok r w' ∧ taken w r w'.
Proof.
  induction max as [|max IH]; intros w Hready Hall.
  - exists None, w. split; [reflexivity|]. repeat split; try done.
    all: by destruct Hready as (? & ? & ?).
  - cbn [Worker.steal_loop]. rewrite bind_get_world.
    case_decide as Hsize.
    + unfold JobSystem.rand. unfold bind at 1.
      set (wr := set_rand_pos (S (rand_pos w)) w).
      set (i := (rand_seq w (rand_pos w) mod m_threads_size w)%nat).
      assert (Hi : (i < m_threads_size w)%nat).
      { apply Nat.mod_upper_bound. lia. }
      case_decide as Hne.
      * destruct (pop_queue_spec i wr) as (r1 & w1 & Hrun1 & Htk1 & _);
          [done|done|done|].
        change Worker.steal_queue with Worker.pop_queue.
        erewrite bind_run; [|exact Hrun1].
        destruct r1 as [x|].
        -- exists (Some x), w1. split; [by destruct max|]. done.
        -- destruct (IH w1) as (r & w' & Hrun & Htk).
           { by destruct Htk1 as (_ & _ & _ & ? & _). }
           { by eapply taken_no_null. }
           exists r, w'. split; [exact Hrun|].
           eapply taken_none_trans; [|exact Htk]. done.
      * rewrite bind_ret. destruct (IH wr) as (r & w' & Hrun & Htk);
          [done|done|].
        exists r, w'. split; [exact Hrun|]. done.
    + exists None, w. split; [reflexivity|]. repeat split; try done.
      all: by destruct Hready as (? & ? & ?).
Qed.

Lemma steal_loop_some (max : nat) (idx : nat) (x : JobPtr) (w : World) :
  Worker.steal_loop max idx (Some x) w = Ok (Some x) w.
Proof. by destruct max. Qed.

(** One trip through the worker loop: either no job is found and only the
    queues' bookkeeping and the random source move, or a job is taken, made
    the current job of the worker and run. *)
Lemma iteration_spec (fuel : nat) (tid : ThreadId) (idx : nat) (w : World) :
  queues_ready w → (idx < m_threads_size w)%nat →
  Forall is_Some (all_queued w) → m_terminate w = false →
  ∃ r w1, taken w r w1
          ∧ (∀ p q, m_jobQueues w !! idx = Some (Some (p :: q)) → r = p)
          ∧ Worker.threadTask_iteration fuel tid idx w
            = match r with
              | Some x =>
                  (do _ <- JobSystem.Job_call fuel tid x; ret true)
                    (set_jobPointers (<[idx := Some x]> (m_jobPointers w1)) w1)
              | None => Ok true w1
              end.
Proof.
  intros Hready Hidx Hall Hterm.
  destruct (pop_queue_spec idx w Hready Hidx Hall)
    as (r1 & w1 & Hrun1 & Htk1 & Hhead).
  assert (Ht1 : m_terminate w1 = false).
  { destruct Htk1 as (_ & (_ & _ & Ht & _) & _). congruence. }
  unfold Worker.threadTask_iteration. rewrite bind_get_world, Hterm.
  erewrite bind_run; [|exact Hrun1]. rewrite bind_get_world, Ht1.
  destruct r1 as [x|].
  - exists (Some x), w1. split; [done|]. split; [done|].
    rewrite (bind_run _ _ _ _ _ (steal_loop_some 5 idx x w1)).
    rewrite bind_get_world, Ht1. rewrite bind_modify. reflexivity.
  - destruct (steal_loop_spec 5 idx w1) as (r & w2 & Hrun2 & Htk2).
    { by destruct Htk1 as (_ & _ & _ & ? & _). }
    { by eapply taken_no_null. }
    assert (Ht2 : m_terminate w2 = false).
    { destruct Htk2 as (_ & (_ & _ & Ht & _) & _). congruence. }
    exists r, w2. split; [by eapply taken_none_trans|]. split.
    { intros p q Hq. specialize (Hhead p q Hq). subst p.
      destruct (no_null_lookup w idx None q Hall Hq) as [? [=]]. }
    erewrite bind_run; [|exact Hrun2]. rewrite bind_get_world, Ht2.
    destruct r; [rewrite bind_modify|]; reflexivity.
Qed.

(** ** Running the completion job *)

Lemma exec_completion (fuel : nat) (tid : ThreadId) (c : JobPtr) (pp : nat)
    (wa : World) :
  completion_ok wa c pp → queues_ready wa → (0 < fuel)%nat →
  ∃ w', JobSystem.Job_call fuel tid c wa = Ok tt w'
        ∧ same_sched wa w' ∧ m_jobQueues w' = m_jobQueues wa
        ∧ body_log w' = body_log wa ++ [c].
Proof.
  intros (cj & poolq & Hcj & Hf & Hpar & Hsucc & Hne & Hq & Hplay) Hready Hfuel.
  destruct fuel as [|fuel]; [lia|].
  unfold JobSystem.Job_call.
  erewrite bind_run; [|apply readJob_run; exact Hcj]. rewrite Hf.
  erewrite bind_run; [|eapply writeJob_run; exact Hcj].
  set (wb := updJob (set_numUnfinishedChildren 1) c wa).
  unfold JobSystem.call_function. rewrite bind_bind, bind_modify.
  set (wc := set_body_log (body_log wb ++ [c]) wb).
  cbn [JobSystem.run_body]. rewrite bind_ret.
  assert (Hjc : jobAt wc c = Some (set_numUnfinishedChildren 1 cj)).
  { change (jobAt wc c) with (jobAt wb c). unfold wb.
    by rewrite jobAt_updJob_eq, Hcj. }
  erewrite bind_run; [|apply readJob_run; exact Hjc].
  cbn [m_poolNumber set_numUnfinishedChildren].
  destruct (same_pool_views_lookup wa wc (m_poolNumber cj) poolq)
    as (poolc & Hpoolc & Hv); [|done|].
  { apply same_pool_views_trans with wb; [apply same_pool_views_updJob|].
    by apply same_pool_views_pools. }
  unfold pool_view in Hv. injection Hv as _ _ Hpb _.
  erewrite bind_run; [|apply readPool_run; exact Hpoolc].
  rewrite Hpb, Hplay, bind_ret.
  unfold JobSystem.Job_call_finish.
  erewrite bind_run; [|apply readJob_run; exact Hjc].
  erewrite bind_run; [|eapply writeJob_run; exact Hjc].
  cbn [m_numUnfinishedChildren set_numUnfinishedChildren].
  rewrite decide_True by done.
  set (wd := updJob _ c wc).
  cbn [JobSystem.onFinished]. rewrite bind_modify.
  set (we := set_finished_log (finished_log wd ++ [c]) wd).
  assert (Hje : ∃ je, jobAt we c = Some je ∧ m_parentJob je = None
                      ∧ m_onFinishedJob je = None).
  { change (jobAt we c) with (jobAt wd c). unfold wd.
    rewrite jobAt_updJob_eq, Hjc. eexists. split; [reflexivity|]. done. }
  destruct Hje as (je & Hje & Hpe & Hse).
  erewrite bind_run; [|apply readJob_run; exact Hje].
  rewrite Hpe, bind_ret.
  destruct (onFinished_rest_plain c we je Hje Hse)
    as (w' & Hrun & _ & _ & _ & Hs & Hlog & Hqs).
  exists w'. split; [exact Hrun|]. split; [|split].
  - by apply same_sched_trans with we.
  - by rewrite Hqs.
  - by rewrite Hlog.
Qed.

(** ** One trip of a worker preserves the playback invariant *)

Lemma recorded_in_pools (w w' : World) (pp : nat) (R : Recording) :
  m_jobPools w' = m_jobPools w → recorded_in w pp R → recorded_in w' pp R.
Proof. intros H. apply recorded_in_same_links. by apply same_links_pools. Qed.

Lemma counters_ok_pools (R : Recording) (w w' : World) (E D : list JobPtr)
    (skip : option JobPtr) :
  m_jobPools w' = m_jobPools w →
  counters_ok R w E D skip → counters_ok R w' E D skip.
Proof.
  intros H (H1 & H2 & H3). split; [done|]. split; [done|].
  intros x Hx HxD Hs. rewrite (counterAt_same_pools w w') by done.
  by apply H3.
Qed.

Lemma pool_playing_pools (w w' : World) (pp : nat) (c : JobPtr) (left : nat) :
  m_jobPools w' = m_jobPools w →
  pool_playing w pp c left → pool_playing w' pp c left.
Proof. unfold pool_playing. by intros ->. Qed.

Lemma completion_ok_pools (w w' : World) (c : JobPtr) (pp : nat) :
  m_jobPools w' = m_jobPools w → completion_ok w c pp → completion_ok w' c pp.
Proof. unfold completion_ok, jobAt. by intros ->. Qed.

Lemma sched_ok_taken (w0 w w' : World) (r : option JobPtr) :
  taken w r w' → sched_ok w0 w → sched_ok w0 w'.
Proof.
  intros (_ & (Hsz & Hmap & Ht & Hptr) & _ & Hready & _)
         (_ & Hterm & Hm & Hs & Hlen).
  split; [done|]. split; [congruence|]. split; [congruence|].
  split; [congruence|]. by rewrite Hptr.
Qed.

Lemma no_null_fmap (w : World) (l : list JobPtr) :
  all_queued w ≡ₚ Some <$> l → Forall is_Some (all_queued w).
Proof.
  intros ->. apply Forall_fmap, Forall_forall. intros x _. by eexists.
Qed.

Lemma frontier_full (R : Recording) (E : list JobPtr) :
  (∀ y, y ∈ rec_nodes R → y ∈ E) → frontier R E = [].
Proof.
  intros Hall. unfold frontier.
  induction (rec_nodes R) as [|y l IH]; [done|].
  rewrite filter_cons. rewrite decide_False.
  - apply IH. intros z Hz. apply Hall. by right.
  - intros [Hy _]. apply Hy, Hall. by left.
Qed.

Lemma full_permutation (R : Recording) (root : JobPtr) (E : list JobPtr) :
  tree_ok R root → NoDup E → (∀ x, x ∈ E → x ∈ rec_nodes R) →
  length E = length (rec_nodes R) → E ≡ₚ rec_nodes R.
Proof.
  intros Htree Hnd HE Hlen. apply submseteq_length_Permutation; [|lia].
  by apply NoDup_submseteq.
Qed.

Section Step.

Variables (R : Recording) (root c : JobPtr) (pp : nat) (w0 : World).
Hypothesis Htree : tree_ok R root.
Hypothesis Hsmall : Z.of_nat (length (rec_nodes R)) + 1 < 2 ^ 32.
Hypothesis Hc : c ∉ rec_nodes R.

Lemma step_playing (fuel : nat) (ti : ThreadId * nat) (w : World)
    (E D : list JobPtr) :
  playing R pp c w0 w E D → worker_of w0 ti →
  (length (rec_nodes R) < fuel)%nat →
  ∃ w', Worker.threadTask_iteration fuel ti.1 ti.2 w = Ok true w'
        ∧ (replay_state R pp c w0 w' (S (length (rec_nodes R) - length E))
           ∨ replay_state R pp c w0 w' (length (rec_nodes R) - length E))
        ∧ ((∃ p q, m_jobQueues w !! ti.2 = Some (Some (p :: q))) →
           replay_state R pp c w0 w' (length (rec_nodes R) - length E)).
Proof.
  intros (Hrec & HndE & HE & Hcl & Hok & Hq & Hpl & Hlt & Hlog & Hsched & Hcomp)
    [Htid Hidx] Hfuel.
  pose proof Hsched as (Hready & Hterm & Hmap & Hsize & Hplen).
  destruct (iteration_spec fuel ti.1 ti.2 w)
    as (r & w1 & Htk & Hhead & Hrun); [done|lia|by eapply no_null_fmap|done|].
  rewrite Hrun. clear Hrun.
  pose proof Htk as (Hp1 & Hs1 & Hl1 & Hr1 & Hq1).
  pose proof (sched_ok_taken w0 w w1 r Htk Hsched) as Hsched1.
  destruct r as [x|].
  - (* a recorded job has been taken *)
    assert (Hx : x ∈ frontier R E).
    { assert (Hin : Some x ∈ Some <$> frontier R E).
      { rewrite <- Hq, Hq1. by left. }
      apply list_elem_of_fmap in Hin as (y & [= ->] & Hy). done. }
    set (wa := set_jobPointers (<[ti.2 := Some x]> (m_jobPointers w1)) w1).
    destruct (exec_node R root c pp Htree Hsmall fuel ti.1 ti.2 x wa E D)
      as (w' & Hrun & Hl' & Hs' & Hready' & Hop' & Hlog' & (D' & Hok') & Hq').
    { by apply (recorded_in_pools w). }
    { done. }
    { done. }
    { done. }
    { by apply (counters_ok_pools R w). }
    { done. }
    { by apply (pool_playing_pools w). }
    { done. }
    { done. }
    { change (m_threadIndexMap wa) with (m_threadIndexMap w1).
      destruct Hs1 as (_ & -> & _). by rewrite Hmap. }
    { unfold wa. wsimpl. apply list_lookup_insert_eq.
      destruct Hsched1 as (_ & _ & _ & _ & ->). done. }
    { done. }
    erewrite bind_run; [|exact Hrun]. exists w'. split; [reflexivity|].
    assert (Hsched' : sched_ok w0 w').
    { destruct Hsched1 as (_ & Ht1 & Hm1 & Hsz1 & Hlen1).
      destruct Hs' as (Hsz' & Hm' & Ht' & Hp').
      split; [done|]. split; [by rewrite Ht'|]. split; [by rewrite Hm'|].
      split; [by rewrite Hsz'|]. rewrite Hp'. unfold wa. wsimpl.
      by rewrite length_insert. }
    assert (Hcomp' : completion_ok w' c pp).
    { eapply completion_ok_frame; [exact Hl'|exact Hop'|].
      by apply (completion_ok_pools w). }
    assert (HndE' : NoDup (E ++ [x])).
    { apply NoDup_app. split; [done|]. split; [|apply NoDup_singleton].
      intros y Hy ->%list_elem_of_singleton.
      by apply (elem_of_frontier R) in Hx as (_ & ? & _). }
    assert (HE' : ∀ y, y ∈ E ++ [x] → y ∈ rec_nodes R).
    { intros y [Hy| ->%list_elem_of_singleton]%elem_of_app; [by apply HE|].
      by apply (elem_of_frontier R) in Hx as (? & _). }
    assert (Hlen' : length (E ++ [x]) = S (length E)).
    { rewrite length_app. cbn. lia. }
    assert (Hfr : (Some <$> frontier R (E ++ [x]))
                  ≡ₚ all_queued w1 ++ (Some <$> rec_kids R x)).
    { apply (Permutation_app_inv_r [Some x]).
      change [Some x] with (Some <$> [x]) at 1. rewrite <- fmap_app.
      rewrite (frontier_step R root E Htree Hcl x Hx).
      rewrite fmap_app, <- Hq, Hq1. cbn.
      apply Permutation_cons_append. }
    assert (Hnext : replay_state R pp c w0 w'
                      (length (rec_nodes R) - length E)).
    { destruct (length (rec_nodes R) - S (length E))%nat as [|k] eqn:Hk.
      - (* the last recorded job *)
        right. left. exists (E ++ [x]). split; [|lia].
        destruct Hq' as [Hq' _].
        assert (Hfull : E ++ [x] ≡ₚ rec_nodes R).
        { apply (full_permutation R root); [done|done|done|lia]. }
        split; [done|]. split.
        { rewrite Hq'. change (all_queued wa) with (all_queued w1).
          rewrite app_assoc, <- Hfr.
          rewrite (frontier_full R (E ++ [x])); [done|].
          intros y Hy. by rewrite Hfull. }
        split; [|done].
        rewrite Hlog'. change (body_log wa) with (body_log w1).
        by rewrite Hl1, Hlog, <- app_assoc.
      - left. exists (E ++ [x]), D'. split; [|lia].
        destruct Hq' as [Hq' Hpl'].
        split; [by eapply recorded_in_same_links;
                [exact Hl'|apply (recorded_in_pools w)]|].
        split; [done|]. split; [done|].
        split; [by apply (closed_under_par_snoc R)|].
        split; [done|].
        split.
        { rewrite Hq'. change (all_queued wa) with (all_queued w1).
          by rewrite Hfr. }
        split; [by rewrite Hlen', Hk|]. split; [lia|].
        split; [|done].
        rewrite Hlog'. change (body_log wa) with (body_log w1).
        by rewrite Hl1, Hlog, <- app_assoc. }
    split; [by right|]. intros _. done.
  - (* nothing found *)
    exists w1. split; [reflexivity|].
    assert (Hsame : replay_state R pp c w0 w1
                      (S (length (rec_nodes R) - length E))).
    { left. exists E, D. split; [|done].
      split; [by apply (recorded_in_pools w)|]. split; [done|].
      split; [done|]. split; [done|].
      split; [by apply (counters_ok_pools R w)|].
      split; [by rewrite Hq1|].
      split; [by apply (pool_playing_pools w)|]. split; [done|].
      split; [congruence|]. split; [done|].
      by apply (completion_ok_pools w). }
    split; [by left|].
    intros (p & q & Hpq). specialize (Hhead p q Hpq). subst p.
    exfalso.
    assert (Hnn : Forall is_Some (all_queued w)) by (by eapply no_null_fmap).
    destruct (no_null_lookup w ti.2 None q Hnn Hpq) as [? [=]].
Qed.

End Step.

Lemma all_queued_nonempty (w : World) :
  all_queued w ≠ [] →
  ∃ idx p q, m_jobQueues w !! idx = Some (Some (p :: q)).
Proof.
  unfold all_queued. induction (m_jobQueues w) as [|qo l IH]; [done|].
  cbn. intros Hne. destruct qo as [[|p q]|].
  - destruct IH as (idx & p & q & H); [done|]. by exists (S idx), p, q.
  - by exists 0%nat, p, q.
  - destruct IH as (idx & p & q & H); [done|]. by exists (S idx), p, q.
Qed.

Lemma times_NoDup (L : list JobPtr) (x : JobPtr) :
  NoDup L →
  length (filter (λ q, q = x) L) = if decide (x ∈ L) then 1%nat else 0%nat.
Proof.
  induction L as [|y L IH]; intros Hnd; [done|].
  apply NoDup_cons in Hnd as [Hy Hnd]. rewrite filter_cons.
  specialize (IH Hnd). destruct (decide (y = x)) as [->|Hne].
  - rewrite decide_True by (by left). cbn [length]. rewrite IH.
    by rewrite decide_False.
  - rewrite IH. destruct (decide (x ∈ L)) as [Hin|Hin].
    + rewrite decide_True; [done|by right].
    + rewrite decide_False; [done|].
      intros [->|?]%elem_of_cons; done.
Qed.

Section Replay.

Variables (R : Recording) (root c : JobPtr) (pp : nat) (w0 : World).
Hypothesis Htree : tree_ok R root.
Hypothesis Hsmall : Z.of_nat (length (rec_nodes R)) + 1 < 2 ^ 32.
Hypothesis Hc : c ∉ rec_nodes R.

Lemma sched_ok_after (w1 w' : World) (x : JobPtr) (idx : nat) :
  sched_ok w0 w1 →
  same_sched (set_jobPointers (<[idx := Some x]> (m_jobPointers w1)) w1) w' →
  queues_ready w' → sched_ok w0 w'.
Proof.
  intros (_ & Ht1 & Hm1 & Hsz1 & Hlen1) (Hsz' & Hm' & Ht' & Hp') Hready.
  split; [done|]. split; [by rewrite Ht'|]. split; [by rewrite Hm'|].
  split; [by rewrite Hsz'|]. rewrite Hp'. wsimpl. by rewrite length_insert.
Qed.

Lemma step_finished (fuel : nat) (ti : ThreadId * nat) (w : World)
    (E : list JobPtr) :
  finished R pp c w0 w E → worker_of w0 ti → (0 < fuel)%nat →
  ∃ w', Worker.threadTask_iteration fuel ti.1 ti.2 w = Ok true w'
        ∧ (replay_state R pp c w0 w' 1 ∨ replay_state R pp c w0 w' 0)
        ∧ ((∃ p q, m_jobQueues w !! ti.2 = Some (Some (p :: q))) →
           replay_state R pp c w0 w' 0).
Proof.
  intros (Hfull & Hq & Hlog & Hsched & Hcomp) [Htid Hidx] Hfuel.
  pose proof Hsched as (Hready & Hterm & Hmap & Hsize & Hplen).
  assert (Hnn : Forall is_Some (all_queued w)).
  { rewrite Hq. apply Forall_singleton. by eexists. }
  destruct (iteration_spec fuel ti.1 ti.2 w)
    as (r & w1 & Htk & Hhead & Hrun); [done|lia|done|done|].
  rewrite Hrun. clear Hrun.
  pose proof Htk as (Hp1 & Hs1 & Hl1 & Hr1 & Hq1).
  pose proof (sched_ok_taken w0 w w1 r Htk Hsched) as Hsched1.
  destruct r as [x|].
  - assert (Hx : x = c).
    { assert (Hin : Some x ∈ [Some c]) by (rewrite <- Hq, Hq1; by left).
      apply list_elem_of_singleton in Hin. congruence. }
    subst x.
    assert (Hnil : all_queued w1 = []).
    { apply Permutation_nil_r. apply (Permutation_cons_inv (a := Some c)).
      by rewrite <- Hq1, Hq. }
    set (wa := set_jobPointers (<[ti.2 := Some c]> (m_jobPointers w1)) w1).
    destruct (exec_completion fuel ti.1 c pp wa)
      as (w' & Hrun & Hs' & Hq' & Hlog'); [by apply (completion_ok_pools w)|
                                            done|done|].
    erewrite bind_run; [|exact Hrun]. exists w'. split; [reflexivity|].
    assert (Hdone : replay_state R pp c w0 w' 0).
    { right. right. exists E. split; [|done]. split; [done|].
      split; [by rewrite (all_queued_same wa w' Hq')|].
      split.
      { rewrite Hlog'. change (body_log wa) with (body_log w1).
        by rewrite Hl1, Hlog, <- app_assoc. }
      eapply sched_ok_after; [exact Hsched1|exact Hs'|].
      destruct Hs' as (Hsz & _).
      by apply (queues_ready_frame wa w'). }
    split; [by right|done].
  - exists w1. split; [reflexivity|].
    assert (Hsame : replay_state R pp c w0 w1 1).
    { right. left. exists E. split; [|done]. split; [done|].
      split; [by rewrite Hq1|]. split; [congruence|]. split; [done|].
      by apply (completion_ok_pools w). }
    split; [by left|].
    intros (p & q & Hpq). specialize (Hhead p q Hpq). subst p.
    destruct (no_null_lookup w ti.2 None q Hnn Hpq) as [? [=]].
Qed.

Lemma step_completed (fuel : nat) (ti : ThreadId * nat) (w : World)
    (E : list JobPtr) :
  completed R c w0 w E → worker_of w0 ti →
  ∃ w', Worker.threadTask_iteration fuel ti.1 ti.2 w = Ok true w'
        ∧ replay_state R pp c w0 w' 0.
Proof.
  intros (Hfull & Hq & Hlog & Hsched) [Htid Hidx].
  pose proof Hsched as (Hready & Hterm & Hmap & Hsize & Hplen).
  destruct (iteration_spec fuel ti.1 ti.2 w)
    as (r & w1 & Htk & Hhead & Hrun);
    [done|lia|by rewrite Hq|done|].
  rewrite Hrun. clear Hrun.
  pose proof Htk as (Hp1 & Hs1 & Hl1 & Hr1 & Hq1).
  destruct r as [x|].
  - rewrite Hq in Hq1. by apply Permutation_nil_cons in Hq1.
  - exists w1. split; [reflexivity|]. right. right. exists E.
    split; [|done]. split; [done|]. split; [congruence|].
    split; [congruence|]. by eapply sched_ok_taken.
Qed.

(** One trip of any worker keeps the playback in one of its states; the
    number of jobs to be run does not grow, and it shrinks if the worker's
    own queue was not empty. *)
Lemma step (fuel : nat) (ti : ThreadId * nat) (w : World) (m : nat) :
  replay_state R pp c w0 w m → worker_of w0 ti →
  (length (rec_nodes R) < fuel)%nat →
  ∃ w', Worker.threadTask_iteration fuel ti.1 ti.2 w = Ok true w'
        ∧ (replay_state R pp c w0 w' m
           ∨ ∃ m', m = S m' ∧ replay_state R pp c w0 w' m')
        ∧ ((∃ p q, m_jobQueues w !! ti.2 = Some (Some (p :: q))) →
           ∃ m', m = S m' ∧ replay_state R pp c w0 w' m').
Proof.
  intros [(E & D & Hpl & ->)|[(E & Hfin & ->)|(E & Hcmp & ->)]] Hw Hfuel.
  - destruct (step_playing R root c pp w0 Htree Hsmall fuel ti w E D)
      as (w' & Hrun & Hcases & Hhead); [done|done|done|].
    exists w'. split; [done|]. split.
    + destruct Hcases as [H|H]; [by left|right; by eexists].
    + intros Hq. eexists. split; [reflexivity|]. by apply Hhead.
  - destruct (step_finished fuel ti w E) as (w' & Hrun & Hcases & Hhead);
      [done|done|lia|].
    exists w'. split; [done|]. split.
    + destruct Hcases as [H|H]; [by left|right; by eexists].
    + intros Hq. eexists. split; [reflexivity|]. by apply Hhead.
  - destruct (step_completed fuel ti w E) as (w' & Hrun & Hst); [done|done|].
    exists w'. split; [done|]. split; [by left|].
    intros (p & q & Hpq). exfalso.
    destruct Hcmp as (_ & Hq & _).
    assert (Hin : p ∈ all_queued w).
    { unfold all_queued. apply list_elem_of_bind. exists (Some (p :: q)).
      split; [by left|]. by eapply list_elem_of_lookup_2. }
    rewrite Hq in Hin. by apply elem_of_nil in Hin.
Qed.

Lemma run_schedule_inv (fuel : nat) (sched : list (ThreadId * nat)) :
  Forall (worker_of w0) sched → (length (rec_nodes R) < fuel)%nat →
  ∀ w m, replay_state R pp c w0 w m →
         ∃ w' m', Worker.run_schedule fuel sched w = Ok tt w'
                  ∧ replay_state R pp c w0 w' m' ∧ (m' ≤ m)%nat.
Proof.
  intros Hall Hfuel. induction Hall as [|ti sched Hti _ IH]; intros w m Hst.
  - exists w, m. split; [reflexivity|]. split; [done|lia].
  - destruct (step fuel ti w m Hst Hti Hfuel) as (w1 & Hrun & Hcases & _).
    cbn [Worker.run_schedule]. destruct ti as [tid idx].
    erewrite bind_run; [|exact Hrun].
    destruct Hcases as [H|(m1 & -> & H)].
    + apply IH, H.
    + destruct (IH w1 m1 H) as (w' & m' & Hr & Hs & Hle).
      exists w', m'. split; [done|]. split; [done|lia].
Qed.

(** What a playback state says about the job bodies that have run. *)
Lemma replay_log (w : World) (m : nat) :
  replay_state R pp c w0 w m →
  ∃ L, body_log w = body_log w0 ++ L ∧ NoDup L
       ∧ (∀ x, x ∈ L → x ∈ rec_nodes R ∨ x = c)
       ∧ (m = 0%nat → L ≡ₚ rec_nodes R ++ [c])
       ∧ (all_queued w = [] → m = 0%nat).
Proof.
  intros [(E & D & Hpl & ->)|[(E & Hfin & ->)|(E & Hcmp & ->)]].
  - destruct Hpl as (_ & HndE & HE & Hcl & _ & Hq & _ & Hlt & Hlog & _).
    exists E. split; [done|]. split; [done|].
    split; [intros x Hx; left; by apply HE|]. split; [done|].
    intros Hnil. exfalso.
    apply (frontier_nonempty R root E Htree Hlt HndE).
    rewrite Hnil in Hq. symmetry in Hq. apply Permutation_nil_r in Hq.
    by apply fmap_nil_inv in Hq.
  - destruct Hfin as (Hfull & Hq & Hlog & _). exists E.
    split; [done|]. split.
    { rewrite Hfull. by destruct Htree. }
    split; [intros x Hx; left; by rewrite <- Hfull|]. split; [done|].
    intros Hnil. rewrite Hnil in Hq. by apply Permutation_nil_cons in Hq.
  - destruct Hcmp as (Hfull & Hq & Hlog & _). exists (E ++ [c]).
    split; [done|]. split.
    { apply NoDup_app. split; [rewrite Hfull; by destruct Htree|].
      split; [|apply NoDup_singleton].
      intros x Hx ->%list_elem_of_singleton. apply Hc. by rewrite <- Hfull. }
    split.
    { intros x [Hx| ->%list_elem_of_singleton]%elem_of_app;
        [left; by rewrite <- Hfull|by right]. }
    split; [intros _; by rewrite Hfull|done].
Qed.

Lemma body_times_app (w : World) (L : list JobPtr) (x : JobPtr) :
  body_log w = body_log w0 ++ L → NoDup L →
  body_times w x
  = (body_times w0 x + if decide (x ∈ L) then 1 else 0)%nat.
Proof.
  intros Hlog Hnd. unfold body_times.
  rewrite Hlog, filter_app, length_app. by rewrite (times_NoDup L x Hnd).
Qed.

End Replay.

(** ** Starting the playback *)

Lemma chain_updJob_other (f : Job -> Job) (p : JobPtr) (w : World)
    (start : option JobPtr) (l : list JobPtr) :
  (∀ k, k ∈ l → k ≠ p) → chain w start l → chain (updJob f p w) start l.
Proof.
  revert start. induction l as [|k l IH]; intros start Hl; [done|].
  cbn [chain]. intros (-> & kj & Hkj & Hrest). split; [done|].
  exists kj. split.
  - rewrite jobAt_updJob_ne; [done|]. intros ->. by apply (Hl k); [left|].
  - apply IH; [|done]. intros k' Hk'. apply Hl. by right.
Qed.

Lemma recorded_in_updJob_other (R : Recording) (root : JobPtr) (pp : nat)
    (f : Job -> Job) (p : JobPtr) (w : World) :
  tree_ok R root → p ∉ rec_nodes R →
  recorded_in w pp R → recorded_in (updJob f p w) pp R.
Proof.
  intros Htree Hp Hrec x Hx.
  destruct (Hrec x Hx) as (j & b & Hj & H1 & H2 & H3 & H4 & H5 & Hchain).
  exists j, b. split.
  { rewrite jobAt_updJob_ne; [done|]. by intros ->. }
  repeat split; try done. apply chain_updJob_other; [|done].
  intros k Hk ->. apply Hp.
  destruct Htree as (_ & _ & _ & Hkids & _). by apply (Hkids x).
Qed.

Lemma frontier_nil (R : Recording) (root : JobPtr) :
  tree_ok R root → frontier R [] ≡ₚ [root].
Proof.
  intros Htree. pose proof Htree as (Hnd & [Hroot _] & Hnone & _).
  apply NoDup_Permutation; [by apply (NoDup_frontier R root)|
                            apply NoDup_singleton|].
  intros y. rewrite (elem_of_frontier R), list_elem_of_singleton.
  unfold due. split.
  - intros (Hy & _ & Hdue). apply (Hnone y Hy).
    destruct (rec_par R y) as [z|]; [|done]. by apply elem_of_nil in Hdue.
  - intros ->. split; [done|]. split; [apply not_elem_of_nil|].
    by rewrite (proj2 (Hnone root Hroot) eq_refl).
Qed.

Lemma segment_missing_length (index : Z) (pool pool' : JobPool) :
  length (jobLists pool') = length (jobLists pool) →
  JobMemory.segment_missing index pool'
  = JobMemory.segment_missing index pool.
Proof. unfold JobMemory.segment_missing. by intros ->. Qed.

Lemma pools_fit_pools (w w' : World) :
  length (m_jobPools w') = length (m_jobPools w) → pools_fit w → pools_fit w'.
Proof. unfold pools_fit. by intros ->. Qed.

(** [playBackPool], called by a worker whose current job [J] is a top-level
    job of pool [q], for a pool [pp] that is not [q] and whose index is not
    zero: the completion job is the next slot of pool [q]; pool [pp] is put
    into playback mode with [numJobsLeftToPlay] equal to its index and the
    completion job recorded; slot 0 of pool [pp] is queued. *)
Lemma playBackPool_run (fuel : nat) (tid : ThreadId) (idx : nat)
    (pp : nat) (func : Function) (J : JobPtr) (w : World)
    (jj nj : Job) (pool poolq : JobPool) :
  m_threadIndexMap w !! tid = Some idx →
  m_jobPointers w !! idx = Some (Some J) →
  jobAt w J = Some jj → m_parentJob jj = None → m_poolNumber jj ≠ pp →
  pools_fit w →
  m_jobPools w !! m_poolNumber jj = Some poolq →
  JobMemory.segment_missing (jobIndex poolq) poolq = false →
  jobAt w (slot_of_index (m_poolNumber jj) (jobIndex poolq)) = Some nj →
  m_available nj = true →
  m_jobPools w !! pp = Some pool → jobIndex pool ≠ 0 →
  valid w (mkJobPtr pp 0 0) →
  queues_ready w →
  ∃ w', JobSystem.playBackPool (S fuel) tid pp func w = Ok tt w'
        ∧ (∃ pool', m_jobPools w' !! pp = Some pool'
                    ∧ isPlayedBack pool' = true
                    ∧ numJobsLeftToPlay pool' = jobIndex pool
                    ∧ pOnPlaybackFinishedJob pool'
                      = Some (slot_of_index (m_poolNumber jj) (jobIndex poolq))
                    ∧ jobIndex pool' = jobIndex pool)
        ∧ all_queued w' ≡ₚ all_queued w ++ [Some (mkJobPtr pp 0 0)]
        ∧ same_sched w w' ∧ body_log w' = body_log w ∧ queues_ready w'
        ∧ (∃ poolq', m_jobPools w' !! m_poolNumber jj = Some poolq'
                     ∧ isPlayedBack poolq' = isPlayedBack poolq)
        ∧ (∀ t, jobAt w' t
                = if decide (slot_of_index (m_poolNumber jj) (jobIndex poolq) = t)
                  then Some (set_function (Some func)
                               (allocate_init (m_poolNumber jj) nj))
                  else jobAt w t).
Proof.
  intros Htid Hptr HJ Hpar Hne Hfit Hq Hseg Hnj Hav Hpool Hidx Hroot Hready.
  set (q := m_poolNumber jj) in *.
  set (c := slot_of_index q (jobIndex poolq)) in *.
  unfold JobSystem.playBackPool.
  rewrite (bind_run _ _ _ _ _ (getJobPointer_registered _ _ _ _ Htid Hptr)).
  rewrite bind_bind. erewrite bind_run; [|apply readJob_run; exact HJ].
  rewrite bind_ret, Hpar.
  rewrite bind_bind. erewrite bind_run; [|apply readJob_run; exact HJ].
  rewrite bind_ret. fold q.
  erewrite bind_run;
    [|by apply (allocateJob_orphan_run fuel w q poolq nj)].
  fold c.
  set (wd := initialised q c (index_taken q poolq w)).
  assert (Hvd : valid wd c).
  { unfold wd. rewrite valid_initialised, valid_index_taken. by eexists. }
  unfold Job.setFunction.
  erewrite bind_run; [|apply writeJob_valid; exact Hvd].
  set (we := updJob (set_function (Some func)) c wd).
  assert (Hjobs : ∀ t, jobAt we t
                       = if decide (c = t)
                         then Some (set_function (Some func) (allocate_init q nj))
                         else jobAt w t).
  { intros t. unfold we, wd. rewrite jobAt_updJob, jobAt_initialised,
      jobAt_index_taken. case_decide; [|done]. subst t. by rewrite Hnj. }
  assert (Hpe : m_jobPools we !! pp = m_jobPools wd !! pp
                ∨ True) by (by right).
  assert (Hpool_e : ∃ poole, m_jobPools we !! pp = Some poole
                             ∧ pool_view poole = pool_view pool).
  { assert (H1 : m_jobPools (index_taken q poolq w) !! pp = Some pool).
    { unfold index_taken. rewrite lookup_updPool_ne; [done|]. done. }
    assert (Hv : same_pool_views (index_taken q poolq w) we).
    { unfold we, wd, initialised.
      repeat (eapply same_pool_views_trans; [|apply same_pool_views_updJob]).
      apply same_pool_views_refl. }
    by apply (same_pool_views_lookup _ _ _ _ Hv H1). }
  destruct Hpool_e as (poole & Hpoole & Hv).
  unfold pool_view in Hv. injection Hv as Hi He1 He2 He3.
  erewrite bind_run; [|apply readPool_run; exact Hpoole].
  rewrite Hi. rewrite decide_False by done.
  erewrite bind_run; [|eapply writePool_run; exact Hpoole].
  set (w1 := updPool (set_isPlayedBack true) pp we).
  assert (Hp1 : m_jobPools w1 !! pp = Some (set_isPlayedBack true poole)).
  { unfold w1. by rewrite lookup_updPool_eq, Hpoole. }
  erewrite bind_run; [|eapply writePool_run; exact Hp1].
  set (w2 := updPool _ pp w1).
  assert (Hp2 : m_jobPools w2 !! pp
                = Some (set_numJobsLeftToPlay (jobIndex poole)
                          (set_isPlayedBack true poole))).
  { unfold w2. by rewrite lookup_updPool_eq, Hp1. }
  erewrite bind_run; [|eapply writePool_run; exact Hp2].
  set (w3 := updPool _ pp w2).
  assert (Hp3 : m_jobPools w3 !! pp
                = Some (set_pOnPlaybackFinishedJob (Some c)
                          (set_numJobsLeftToPlay (jobIndex poole)
                             (set_isPlayedBack true poole)))).
  { unfold w3. by rewrite lookup_updPool_eq, Hp2. }
  assert (Hjobs3 : ∀ t, jobAt w3 t = jobAt we t).
  { intros t. unfold w3, w2, w1. by rewrite !jobAt_updPool. }
  assert (Hroot3 : valid w3 (mkJobPtr pp 0 0)).
  { unfold valid. rewrite Hjobs3, Hjobs. case_decide; [by eexists|done]. }
  destruct Hroot3 as [rj Hrj].
  erewrite bind_run; [|apply readJob_run; exact Hrj].
  destruct (addJob_effect (Some (mkJobPtr pp 0 0)) w3)
    as (w4 & Hrun4 & Hpools4 & Hs4 & Hlog4 & Hready4 & Hq4); [done|].
  exists w4. split; [exact Hrun4|]. split.
  { eexists. rewrite Hpools4. split; [exact Hp3|]. cbn. by rewrite Hi. }
  split; [done|]. split; [done|]. split; [done|]. split; [done|]. split.
  { assert (Hq3 : m_jobPools w3 !! q = m_jobPools we !! q).
    { unfold w3, w2, w1. rewrite !lookup_updPool_ne; done. }
    assert (Hqi : m_jobPools (index_taken q poolq w) !! q
                  = Some (set_jobIndex (wrap32 (jobIndex poolq + 1)) poolq)).
    { unfold index_taken. by rewrite lookup_updPool_eq, Hq. }
    assert (Hv : same_pool_views (index_taken q poolq w) we).
    { unfold we, wd, initialised.
      repeat (eapply same_pool_views_trans; [|apply same_pool_views_updJob]).
      apply same_pool_views_refl. }
    destruct (same_pool_views_lookup _ _ _ _ Hv Hqi) as (poolq' & Hq' & Hv').
    exists poolq'. rewrite Hpools4, Hq3. split; [done|].
    unfold pool_view in Hv'. by injection Hv' as _ _ -> _. }
  intros t. rewrite (jobAt_same_pools w3 w4) by done. by rewrite Hjobs3.
Qed.

Lemma chain_links_on (w w' : World) (start : option JobPtr)
    (l : list JobPtr) :
  (∀ k, k ∈ l → (link_view <$> jobAt w' k) = (link_view <$> jobAt w k)) →
  chain w start l → chain w' start l.
Proof.
  revert start. induction l as [|k l IH]; intros start Hl; [done|].
  cbn [chain]. intros (-> & kj & Hkj & Hrest). split; [done|].
  assert (Hk := Hl k (list_elem_of_here _ _)). rewrite Hkj in Hk.
  destruct (jobAt w' k) as [kj'|] eqn:Hkj'; [|done].
  exists kj'. split; [done|]. cbn in Hk.
  assert (Hv : link_view kj' = link_view kj) by congruence.
  apply link_view_fields in Hv. rename Hv into Hk'. clear Hk.
  rename Hk' into Hk.
  destruct Hk as (_ & _ & _ & _ & _ & _ & ->).
  apply IH; [|done]. intros k' Hk'. apply Hl. by right.
Qed.

Lemma recorded_in_links_on (R : Recording) (root : JobPtr) (pp : nat)
    (w w' : World) :
  tree_ok R root →
  (∀ x, x ∈ rec_nodes R →
        (link_view <$> jobAt w' x) = (link_view <$> jobAt w x)) →
  recorded_in w pp R → recorded_in w' pp R.
Proof.
  intros Htree Hl Hrec x Hx.
  destruct (Hrec x Hx) as (j & b & Hj & H1 & H2 & H3 & H4 & H5 & Hchain).
  assert (Hjx := Hl x Hx). rewrite Hj in Hjx.
  destruct (jobAt w' x) as [j'|] eqn:Hj'; [|done].
  cbn in Hjx. assert (Hv : link_view j' = link_view j) by congruence.
  clear Hjx. rename Hv into Hjx. apply link_view_fields in Hjx.
  destruct Hjx as (E1 & E2 & E3 & E4 & E5 & E6 & E7).
  exists j', b. split; [done|]. rewrite E1, E2, E3, E4, E5.
  repeat split; try done. apply (chain_links_on w); [|done].
  intros k Hk. apply Hl.
  destruct Htree as (_ & _ & _ & Hkids & _). by apply (Hkids x).
Qed.

Lemma same_links_updJob_counter (n : Z) (p : JobPtr) (w : World) :
  same_links w (updJob (set_numUnfinishedChildren n) p w).
Proof.
  intros t. rewrite jobAt_updJob. case_decide; [|done].
  subst t. by destruct (jobAt w p).
Qed.

(** ** Running the caller of the playback *)

Lemma exec_caller (R : Recording) (pp : nat) (c J : JobPtr) (fuel : nat)
    (tid : ThreadId) (idx : nat) (wa : World) :
  tree_ok R (mkJobPtr pp 0 0) →
  request_ready R pp c J wa →
  m_threadIndexMap wa !! tid = Some idx →
  m_jobPointers wa !! idx = Some (Some J) →
  queues_ready wa → (0 < fuel)%nat →
  ∃ w', JobSystem.Job_call fuel tid J wa = Ok tt w'
        ∧ recorded_in w' pp R
        ∧ pool_playing w' pp c (length (rec_nodes R))
        ∧ completion_ok w' c pp
        ∧ all_queued w' ≡ₚ all_queued wa ++ [Some (mkJobPtr pp 0 0)]
        ∧ same_sched wa w' ∧ body_log w' = body_log wa ++ [J]
        ∧ queues_ready w'.
Proof.
  intros Htree (Hrec & Hfit & (pool & Hpool & Hrest & Hidx)
                & (jj & poolq & nj & HJ & Hf & Hpar & Hsucc & Hne & Hq
                   & Hqrest & Hseg & Hc & Hnj & Hav & Hnpar)
                & HcJ & Hcn & HJn) Htid Hptr Hready Hfuel.
  destruct fuel as [|fuel]; [lia|].
  pose proof Htree as (_ & [Hroot _] & _).
  set (q := m_poolNumber jj) in *.
  unfold JobSystem.Job_call.
  erewrite bind_run; [|apply readJob_run; exact HJ]. rewrite Hf.
  erewrite bind_run; [|eapply writeJob_run; exact HJ].
  set (wb := updJob (set_numUnfinishedChildren 1) J wa).
  unfold playback_caller, JobSystem.call_function.
  rewrite bind_bind, bind_modify.
  set (wc := set_body_log (body_log wb ++ [J]) wb).
  cbn [JobSystem.run_body].
  assert (Hjc : jobAt wc J = Some (set_numUnfinishedChildren 1 jj)).
  { change (jobAt wc J) with (jobAt wb J). unfold wb.
    by rewrite jobAt_updJob_eq, HJ. }
  assert (Hother : ∀ t, t ≠ J → jobAt wc t = jobAt wa t).
  { intros t Ht. change (jobAt wc t) with (jobAt wb t). unfold wb.
    by rewrite jobAt_updJob_ne. }
  destruct (pool_updJob (set_numUnfinishedChildren 1) J wa q poolq Hq)
    as (poolq' & Hq' & Hqi & _ & Hqp & _ & Hqlen).
  destruct (pool_updJob (set_numUnfinishedChildren 1) J wa pp pool Hpool)
    as (pool' & Hpool' & Hpi & _ & Hpp & _ & _).
  destruct (playBackPool_run fuel tid idx pp (Some BReturn) J wc
              (set_numUnfinishedChildren 1 jj) nj pool' poolq')
    as (w4 & Hrun & (pool4 & Hpool4 & Hplay4 & Hleft4 & Hdone4 & Hidx4)
        & Hq4 & Hs4 & Hlog4 & Hready4 & (poolq4 & Hpoolq4 & Hqplay4) & Hjobs4);
    try done.
  { apply (pools_fit_pools wa); [|done]. unfold wc, wb.
    apply length_alterJob. }
  { by rewrite (segment_missing_length _ poolq poolq'), Hqi. }
  { cbn [m_poolNumber set_numUnfinishedChildren]. fold q. rewrite Hqi, <- Hc.
    by rewrite Hother. }
  { rewrite Hpi, Hidx. destruct Htree as (_ & [Hr _] & _).
    destruct (rec_nodes R); [by apply elem_of_nil in Hr|]. cbn. lia. }
  { destruct (Hrec _ Hroot) as (rj & ? & Hrj & _). exists rj.
    rewrite Hother; [done|]. by intros <-. }
  cbn [m_poolNumber set_numUnfinishedChildren] in Hdone4, Hpoolq4, Hjobs4.
  fold q in Hdone4, Hpoolq4, Hjobs4. rewrite Hqi, <- Hc in Hdone4, Hjobs4.
  rewrite bind_bind. erewrite bind_run; [|exact Hrun]. rewrite !bind_ret.
  assert (Hj4 : jobAt w4 J = Some (set_numUnfinishedChildren 1 jj)).
  { rewrite Hjobs4. by rewrite decide_False. }
  erewrite bind_run; [|apply readJob_run; exact Hj4].
  cbn [m_poolNumber set_numUnfinishedChildren]. fold q.
  erewrite bind_run; [|apply readPool_run; exact Hpoolq4].
  rewrite Hqplay4, Hqp, Hqrest, bind_ret.
  unfold JobSystem.Job_call_finish.
  erewrite bind_run; [|apply readJob_run; exact Hj4].
  erewrite bind_run; [|eapply writeJob_run; exact Hj4].
  cbn [m_numUnfinishedChildren set_numUnfinishedChildren].
  rewrite decide_True by done.
  set (wd := updJob _ J w4).
  cbn [JobSystem.onFinished]. rewrite bind_modify.
  set (we := set_finished_log (finished_log wd ++ [J]) wd).
  assert (Hje : ∃ je, jobAt we J = Some je ∧ m_parentJob je = None
                      ∧ m_onFinishedJob je = None).
  { change (jobAt we J) with (jobAt wd J). unfold wd.
    rewrite jobAt_updJob_eq, Hj4. eexists. split; [reflexivity|]. done. }
  destruct Hje as (je & Hje & Hpe & Hse).
  erewrite bind_run; [|apply readJob_run; exact Hje].
  rewrite Hpe, bind_ret.
  destruct (onFinished_rest_plain J we je Hje Hse)
    as (w' & Hrun' & Hlinks' & _ & Hviews' & Hs' & Hlog' & Hqs').
  assert (Hlinks4 : same_links w4 w').
  { apply same_links_trans with we; [|done].
    apply same_links_trans with wd; [|by apply same_links_pools].
    apply same_links_updJob_counter. }
  assert (Hviews4 : same_pool_views w4 w').
  { apply same_pool_views_trans with we; [|done].
    apply same_pool_views_trans with wd; [|by apply same_pool_views_pools].
    apply same_pool_views_updJob. }
  exists w'. split; [exact Hrun'|]. split.
  { apply (recorded_in_links_on R _ pp wa w' Htree); [|done].
    intros x Hx. rewrite Hlinks4, Hjobs4.
    rewrite decide_False by (by intros ->). rewrite Hother; [done|].
    by intros ->. }
  split.
  { destruct (same_pool_views_lookup w4 w' pp pool4 Hviews4 Hpool4)
      as (poolf & Hpoolf & Hv).
    unfold pool_view in Hv. injection Hv as _ E2 E3 E4.
    exists poolf. split; [done|]. rewrite E2, E3, E4.
    split; [done|]. split; [by rewrite Hleft4, Hpi|done]. }
  split.
  { destruct (same_pool_views_lookup w4 w' q poolq4 Hviews4 Hpoolq4)
      as (poolf & Hpoolf & Hv).
    unfold pool_view in Hv. injection Hv as _ _ E3 _.
    assert (Hcj := Hlinks4 c). rewrite Hjobs4, decide_True in Hcj by done.
    destruct (jobAt w' c) as [cj|] eqn:Hcj'; [|done].
    cbn in Hcj. assert (Hv : link_view cj = link_view
      (set_function (Some (Some BReturn)) (allocate_init q nj)))
      by congruence.
    apply link_view_fields in Hv.
    destruct Hv as (E1 & E2 & E5 & E6 & _).
    exists cj, poolf. split; [done|]. rewrite E1, E2, E5, E6.
    cbn. split; [done|]. split; [done|]. split; [done|]. split; [done|].
    split; [done|]. by rewrite E3, Hqplay4, Hqp. }
  split.
  { rewrite (all_queued_same we w' Hqs').
    change (all_queued we) with (all_queued w4).
    by rewrite Hq4. }
  split.
  { apply same_sched_trans with we; [|done].
    apply same_sched_trans with wd; [|done].
    apply same_sched_trans with w4; [|apply same_sched_updJob].
    apply same_sched_trans with wc; [|done].
    apply same_sched_trans with wb; [apply same_sched_updJob|done]. }
  split.
  { rewrite Hlog'. change (body_log we) with (body_log w4).
    by rewrite Hlog4. }
  apply (queues_ready_frame we w'); [by destruct Hs' as (-> & _)|done|].
  by apply (queues_ready_frame w4 we).
Qed.

(** ** A run from the request to quiescence *)

Lemma request_ready_pools (R : Recording) (pp : nat) (c J : JobPtr)
    (w w' : World) :
  m_jobPools w' = m_jobPools w →
  request_ready R pp c J w → request_ready R pp c J w'.
Proof.
  intros Hp (Hrec & Hfit & Hpool & Hcaller & Hrest).
  split; [by apply (recorded_in_pools w)|].
  split; [by apply (pools_fit_pools w); [rewrite Hp|]|].
  unfold jobAt in *. rewrite Hp. done.
Qed.

(** A worker that finds nothing leaves the logs and the queued jobs as they
    are. *)
Lemma idle_iteration (fuel : nat) (ti : ThreadId * nat) (w0 w : World) :
  sched_ok w0 w → worker_of w0 ti → all_queued w = [] →
  ∃ w', Worker.threadTask_iteration fuel ti.1 ti.2 w = Ok true w'
        ∧ taken w None w' ∧ sched_ok w0 w'.
Proof.
  intros Hsched [Htid Hidx] Hnil.
  pose proof Hsched as (Hready & Hterm & Hmap & Hsize & Hplen).
  destruct (iteration_spec fuel ti.1 ti.2 w)
    as (r & w1 & Htk & _ & Hrun); [done|lia| |done|].
  { rewrite Hnil. constructor. }
  destruct r as [x|].
  { exfalso. destruct Htk as (_ & _ & _ & _ & Hq). rewrite Hnil in Hq.
    by apply Permutation_nil_cons in Hq. }
  exists w1. split; [done|]. split; [done|].
  by apply (sched_ok_taken w0 w w1 None).
Qed.

Lemma idle_schedule (fuel : nat) (sched : list (ThreadId * nat))
    (w0 : World) :
  Forall (worker_of w0) sched →
  ∀ w, sched_ok w0 w → all_queued w = [] →
       ∃ w', Worker.run_schedule fuel sched w = Ok tt w'
             ∧ m_jobPools w' = m_jobPools w
             ∧ body_log w' = body_log w
             ∧ all_queued w' = [].
Proof.
  intros Hall. induction Hall as [|ti sched Hti _ IH]; intros w Hs Hnil.
  - by exists w.
  - destruct (idle_iteration fuel ti w0 w Hs Hti Hnil)
      as (w1 & Hrun & (Hp1 & _ & Hl1 & _ & Hq1) & Hs1).
    destruct (IH w1 Hs1) as (w' & Hrun' & Hp' & Hl' & Hq'); [congruence|].
    cbn [Worker.run_schedule]. destruct ti as [tid idx].
    erewrite bind_run; [|exact Hrun].
    exists w'. split; [done|]. split; [congruence|]. split; [congruence|done].
Qed.

Lemma nodes_nonempty (R : Recording) (root : JobPtr) :
  tree_ok R root → (0 < length (rec_nodes R))%nat.
Proof.
  intros (_ & [Hr _] & _).
  destruct (rec_nodes R); [by apply elem_of_nil in Hr|]. cbn. lia.
Qed.

Section Run.

Variables (R : Recording) (pp : nat) (c J : JobPtr) (ws : World).
Hypothesis Htree : tree_ok R (mkJobPtr pp 0 0).
Hypothesis Hsmall : Z.of_nat (length (rec_nodes R)) + 1 < 2 ^ 32.
Hypothesis HcJ : c ≠ J.
Hypothesis Hc : c ∉ rec_nodes R.
Hypothesis HJ : J ∉ rec_nodes R.

Lemma step_requested (fuel : nat) (ti : ThreadId * nat) (w : World) :
  requested R pp c J ws w → worker_of ws ti → (0 < fuel)%nat →
  ∃ w', Worker.threadTask_iteration fuel ti.1 ti.2 w = Ok true w'
        ∧ (run_state R pp c J ws w' (S (S (length (rec_nodes R))))
           ∨ run_state R pp c J ws w' (S (length (rec_nodes R))))
        ∧ ((∃ p q, m_jobQueues w !! ti.2 = Some (Some (p :: q))) →
           run_state R pp c J ws w' (S (length (rec_nodes R)))).
Proof.
  intros (Hrr & Hq & Hlog & Hsched) [Htid Hidx] Hfuel.
  pose proof Hsched as (Hready & Hterm & Hmap & Hsize & Hplen).
  assert (Hnn : Forall is_Some (all_queued w)).
  { rewrite Hq. apply Forall_singleton. by eexists. }
  destruct (iteration_spec fuel ti.1 ti.2 w)
    as (r & w1 & Htk & Hhead & Hrun); [done|lia|done|done|].
  rewrite Hrun. clear Hrun.
  pose proof Htk as (Hp1 & Hs1 & Hl1 & Hr1 & Hq1).
  pose proof (sched_ok_taken ws w w1 r Htk Hsched) as Hsched1.
  destruct r as [x|].
  - assert (Hx : x = J).
    { assert (Hin : Some x ∈ [Some J]) by (rewrite <- Hq, Hq1; by left).
      apply list_elem_of_singleton in Hin. congruence. }
    subst x.
    assert (Hnil : all_queued w1 = []).
    { apply Permutation_nil_r. apply (Permutation_cons_inv (a := Some J)).
      by rewrite <- Hq1, Hq. }
    set (wa := set_jobPointers (<[ti.2 := Some J]> (m_jobPointers w1)) w1).
    pose proof Hsched1 as (_ & Hterm1 & Hmap1 & Hsize1 & Hplen1).
    destruct (exec_caller R pp c J fuel ti.1 ti.2 wa)
      as (w' & Hrun & Hrec' & Hplay' & Hcomp' & Hq' & Hs' & Hlog' & Hready');
      [done|by apply (request_ready_pools R pp c J w)| | |done|done|].
    { change (m_threadIndexMap wa) with (m_threadIndexMap w1).
      by rewrite Hmap1. }
    { unfold wa. wsimpl. apply list_lookup_insert_eq. lia. }
    erewrite bind_run; [|exact Hrun]. exists w'. split; [reflexivity|].
    assert (Hst : run_state R pp c J ws w' (S (length (rec_nodes R)))).
    { right. exists w'.
      destruct Hs' as (Hsz' & Hm' & Ht' & Hp').
      split.
      { rewrite Hlog'. change (body_log wa) with (body_log w1).
        by rewrite Hl1, Hlog. }
      split; [by rewrite Hm'|]. split; [by rewrite Hsz'|].
      left. exists [], []. split; [|cbn [length]; by rewrite Nat.sub_0_r].
      split; [done|]. split; [apply NoDup_nil_2|].
      split; [by intros x Hx%elem_of_nil|].
      split; [by intros x y Hx%elem_of_nil|].
      split.
      { split; [done|]. split; [by intros x k Hx%elem_of_nil|].
        by intros x Hx%elem_of_nil. }
      split.
      { rewrite Hq'. change (all_queued wa) with (all_queued w1).
        rewrite Hnil. cbn [app].
        by rewrite (frontier_nil R _ Htree). }
      split; [cbn [length]; by rewrite Nat.sub_0_r|].
      split; [cbn [length]; by apply (nodes_nonempty R _ Htree)|].
      split; [by rewrite app_nil_r|]. split; [|done].
      split; [done|]. split; [by rewrite Ht'|]. split; [done|].
      split; [done|]. rewrite Hp', Hsz'. unfold wa. wsimpl.
      rewrite length_insert. congruence. }
    split; [by right|done].
  - exists w1. split; [reflexivity|].
    assert (Hsame : run_state R pp c J ws w1
                      (S (S (length (rec_nodes R))))).
    { left. split; [|done]. split; [by apply (request_ready_pools R pp c J w)|].
      split; [by rewrite Hq1|]. split; [congruence|done]. }
    split; [by left|].
    intros (p & q & Hpq). specialize (Hhead p q Hpq). subst p.
    destruct (no_null_lookup w ti.2 None q Hnn Hpq) as [? [=]].
Qed.

Lemma step_run (fuel : nat) (ti : ThreadId * nat) (w : World) (m : nat) :
  run_state R pp c J ws w m → worker_of ws ti →
  (length (rec_nodes R) < fuel)%nat →
  ∃ w', Worker.threadTask_iteration fuel ti.1 ti.2 w = Ok true w'
        ∧ (run_state R pp c J ws w' m
           ∨ ∃ m', m = S m' ∧ run_state R pp c J ws w' m')
        ∧ ((∃ p q, m_jobQueues w !! ti.2 = Some (Some (p :: q))) →
           ∃ m', m = S m' ∧ run_state R pp c J ws w' m').
Proof.
  intros [[Hreq ->]|(w1 & Hlog1 & Hmap1 & Hsize1 & Hst)] Hw Hfuel.
  - destruct (step_requested fuel ti w Hreq Hw) as (w' & Hrun & Hcases & Hhead);
      [lia|].
    exists w'. split; [done|]. split.
    + destruct Hcases as [H|H]; [by left|right; by eexists].
    + intros Hq. eexists. split; [reflexivity|]. by apply Hhead.
  - assert (Hw1 : worker_of w1 ti).
    { destruct Hw as [Ht Hi]. split; [by rewrite Hmap1|by rewrite Hsize1]. }
    destruct (step R _ c pp w1 Htree Hsmall fuel ti w m Hst Hw1 Hfuel)
      as (w' & Hrun & Hcases & Hhead).
    exists w'. split; [done|]. split.
    + destruct Hcases as [H|(m' & -> & H)].
      * left. right. by exists w1.
      * right. exists m'. split; [done|]. right. by exists w1.
    + intros Hq. destruct (Hhead Hq) as (m' & -> & H).
      exists m'. split; [done|]. right. by exists w1.
Qed.

Lemma run_state_schedule (fuel : nat) (sched : list (ThreadId * nat)) :
  Forall (worker_of ws) sched → (length (rec_nodes R) < fuel)%nat →
  ∀ w m, run_state R pp c J ws w m →
         ∃ w' m', Worker.run_schedule fuel sched w = Ok tt w'
                  ∧ run_state R pp c J ws w' m' ∧ (m' ≤ m)%nat.
Proof.
  intros Hall Hfuel. induction Hall as [|ti sched Hti _ IH]; intros w m Hst.
  - exists w, m. split; [reflexivity|]. split; [done|lia].
  - destruct (step_run fuel ti w m Hst Hti Hfuel) as (w1 & Hrun & Hcases & _).
    cbn [Worker.run_schedule]. destruct ti as [tid idx].
    erewrite bind_run; [|exact Hrun].
    destruct Hcases as [H|(m1 & -> & H)].
    + apply IH, H.
    + destruct (IH w1 m1 H) as (w' & m' & Hr & Hs & Hle).
      exists w', m'. split; [done|]. split; [done|lia].
Qed.

(** What a state of the run says about the bodies that have run. *)
Lemma run_state_log (w : World) (m : nat) :
  run_state R pp c J ws w m →
  ∃ L, body_log w = body_log ws ++ L ∧ NoDup L
       ∧ (all_queued w = [] →
          m = 0%nat ∧ L ≡ₚ J :: rec_nodes R ++ [c]).
Proof.
  intros [[Hreq ->]|(w1 & Hlog1 & Hmap1 & Hsize1 & Hst)].
  - destruct Hreq as (_ & Hq & Hlog & _). exists [].
    split; [by rewrite app_nil_r|]. split; [apply NoDup_nil_2|].
    intros Hnil. rewrite Hnil in Hq. by apply Permutation_nil_cons in Hq.
  - destruct (replay_log R _ c pp w1 Htree Hc w m Hst)
      as (L & Hlog & Hnd & Hin & Hfull & Hquiet).
    exists (J :: L). split; [by rewrite Hlog, Hlog1, <- app_assoc|]. split.
    { apply NoDup_cons. split; [|done].
      intros [Hx|Hx]%Hin; [done|by apply HcJ]. }
    intros Hnil. specialize (Hquiet Hnil). split; [done|].
    by rewrite (Hfull Hquiet).
Qed.

Lemma run_state_sched (w : World) (m : nat) :
  run_state R pp c J ws w m →
  queues_ready w ∧ m_threads_size w = m_threads_size ws.
Proof.
  intros [[Hreq ->]|(w1 & Hlog1 & Hmap1 & Hsize1 & Hst)].
  - by destruct Hreq as (_ & _ & _ & (? & _ & _ & ? & _)).
  - destruct Hst as [(E & D & Hpl & _)|[(E & Hfin & _)|(E & Hcmp & _)]].
    + destruct Hpl as (_ & _ & _ & _ & _ & _ & _ & _ & _
                       & (? & _ & _ & ? & _) & _).
      split; [done|congruence].
    + destruct Hfin as (_ & _ & _ & (? & _ & _ & ? & _) & _).
      split; [done|congruence].
    + destruct Hcmp as (_ & _ & _ & (? & _ & _ & ? & _)).
      split; [done|congruence].
Qed.

Lemma run_state_done (w : World) :
  run_state R pp c J ws w 0 → all_queued w = [].
Proof.
  intros [[_ [=]]|(w1 & _ & _ & _ & Hst)].
  destruct Hst as [(E & D & _ & [=])|[(E & _ & [=])|(E & Hcmp & _)]].
  by destruct Hcmp as (_ & ? & _).
Qed.

(** When every queue has a worker, some schedule empties the queues. *)
Lemma quiescent_schedule (fuel : nat) :
  (∀ idx, (idx < m_threads_size ws)%nat →
          ∃ tid, m_threadIndexMap ws !! tid = Some idx) →
  (length (rec_nodes R) < fuel)%nat →
  ∀ m w, run_state R pp c J ws w m →
         ∃ sched w', Forall (worker_of ws) sched
                     ∧ Worker.run_schedule fuel sched w = Ok tt w'
                     ∧ run_state R pp c J ws w' 0.
Proof.
  intros Hworkers Hfuel. induction m as [|m IH]; intros w Hst.
  - exists [], w. split; [constructor|]. by split.
  - destruct (run_state_log w (S m) Hst) as (L & _ & _ & Hquiet).
    destruct (run_state_sched w (S m) Hst) as [Hready Hsize].
    destruct (all_queued_nonempty w) as (idx & p & q & Hpq).
    { intros Hnil. by destruct (Hquiet Hnil). }
    assert (Hidx : (idx < m_threads_size ws)%nat).
    { destruct Hready as (_ & Hlen & _). apply lookup_lt_Some in Hpq. lia. }
    destruct (Hworkers idx Hidx) as [tid Htid].
    assert (Hw : worker_of ws (tid, idx)) by done.
    destruct (step_run fuel (tid, idx) w (S m) Hst Hw Hfuel)
      as (w1 & Hrun & _ & Hhead).
    destruct Hhead as (m' & [= <-] & Hst1); [by exists p, q|].
    destruct (IH w1 Hst1) as (sched & w' & Hall & Hrun' & Hdone).
    exists ((tid, idx) :: sched), w'. split; [by constructor|].
    split; [|done]. cbn [Worker.run_schedule].
    cbn [fst snd] in Hrun. by erewrite bind_run; [|exact Hrun].
Qed.

End Run.

(** X22.  Playback of a pool whose recorded jobs form one tree.
    Pool [pp] holds a
    recording [R]: its jobs are slot 0 and the jobs reached from it through
    the recorded child links, they are all the jobs counted by the index of
    the pool, their bodies only return, add children or register
    successors, and none has a successor.  The caller [J] is a queued
    top-level job of another pool whose body calls
    [playBackPool(pp, callback)]; [c] is the slot that the completion job
    will get.  Then:
    - when [J] runs, [playBackPool] returns with pool [pp] in playback
      mode, [numJobsLeftToPlay] equal to the index of the pool (the number
      of recorded jobs), [c] recorded as the completion job, and slot 0
      added to the queues;
    - every schedule of worker trips returns, and the bodies called during
      it are pairwise different jobs; when it ends with nothing queued,
      they are the caller, every recorded job and the completion job, so
      each recorded body and the completion callback have run exactly once;
    - when every queue has a worker, some schedule ends with nothing
      queued.
    A recorded child that has a successor is outside the statement: see
    [playback_successor_runs_twice]. *)
Theorem playBackPool_replays_tree_once (R : Recording) (pp : nat)
    (c J : JobPtr) (ws : World) (fuel : nat) :
  tree_ok R (mkJobPtr pp 0 0) →
  Z.of_nat (length (rec_nodes R)) + 1 < 2 ^ 32 →
  requested R pp c J ws ws →
  (length (rec_nodes R) < fuel)%nat →
  (∀ tid idx w,
     request_ready R pp c J w →
     m_threadIndexMap w !! tid = Some idx →
     m_jobPointers w !! idx = Some (Some J) →
     queues_ready w →
     ∃ w', JobSystem.playBackPool fuel tid pp (Some BReturn) w = Ok tt w'
           ∧ pool_playing w' pp c (length (rec_nodes R))
           ∧ all_queued w' ≡ₚ all_queued w ++ [Some (mkJobPtr pp 0 0)])
  ∧ (∀ sched,
       Forall (worker_of ws) sched →
       ∃ w' L, Worker.run_schedule fuel sched ws = Ok tt w'
               ∧ body_log w' = body_log ws ++ L
               ∧ NoDup L
               ∧ (∀ x, (body_times w' x ≤ S (body_times ws x))%nat)
               ∧ (all_queued w' = [] →
                  L ≡ₚ J :: rec_nodes R ++ [c]
                  ∧ (∀ x, x ∈ rec_nodes R →
                          body_times w' x = S (body_times ws x))
                  ∧ body_times w' c = S (body_times ws c)))
  ∧ ((∀ idx, (idx < m_threads_size ws)%nat →
             ∃ tid, m_threadIndexMap ws !! tid = Some idx) →
     ∃ sched w', Forall (worker_of ws) sched
                 ∧ Worker.run_schedule fuel sched ws = Ok tt w'
                 ∧ all_queued w' = []).
Proof.
  intros Htree Hsmall Hreq Hfuel.
  pose proof Hreq as ((_ & _ & _ & _ & HcJ & Hc & HJ) & _).
  assert (Hst : run_state R pp c J ws ws (S (S (length (rec_nodes R)))))
    by (by left).
  split; [|split].
  - intros tid idx w (Hrec & Hfit & (pool & Hpool & Hrest & Hidx)
                       & (jj & poolq & nj & HjJ & Hf & Hpar & Hsucc & Hne
                          & Hq & Hqrest & Hseg & Hceq & Hnj & Hav & Hnpar)
                       & _) Htid Hptr Hready.
    destruct fuel as [|fuel]; [lia|].
    pose proof (nodes_nonempty R _ Htree) as Hpos.
    destruct (playBackPool_run fuel tid idx pp (Some BReturn) J w jj nj
                pool poolq)
      as (w' & Hrun & (pool' & Hpool' & Hplay & Hleft & Hdone & _)
          & Hqueued & _); try done.
    { by rewrite <- Hceq. }
    { lia. }
    { destruct Htree as (_ & [Hroot _] & _).
      destruct (Hrec _ Hroot) as (rj & ? & Hrj & _). by exists rj. }
    exists w'. split; [done|]. split; [|done].
    exists pool'. split; [done|]. split; [done|].
    split; [by rewrite Hleft|by rewrite Hdone, <- Hceq].
  - intros sched Hall.
    destruct (run_state_schedule R pp c J ws Htree Hsmall fuel sched Hall
                Hfuel ws _ Hst) as (w' & m' & Hrun & Hst' & _).
    destruct (run_state_log R pp c J ws Htree HcJ Hc HJ w' m' Hst')
      as (L & Hlog & Hnd & Hquiet).
    exists w', L. split; [done|]. split; [done|]. split; [done|]. split.
    { intros x. rewrite (body_times_app ws w' L x Hlog Hnd).
      case_decide; lia. }
    intros Hnil. destruct (Hquiet Hnil) as [_ Hperm].
    split; [done|]. split.
    + intros x Hx. rewrite (body_times_app ws w' L x Hlog Hnd).
      rewrite decide_True; [lia|]. rewrite Hperm. right.
      apply elem_of_app. by left.
    + rewrite (body_times_app ws w' L c Hlog Hnd).
      rewrite decide_True; [lia|]. rewrite Hperm. right.
      apply elem_of_app. right. by left.
  - intros Hworkers.
    destruct (quiescent_schedule R pp c J ws Htree Hsmall HcJ Hc HJ fuel
                Hworkers Hfuel _ ws Hst) as (sched & w' & Hall & Hrun & Hdone).
    exists sched, w'. split; [done|]. split; [done|].
    by apply (run_state_done R pp c J ws).
Qed.

(** ** The recorded tree of [world_tree_requested] *)

Ltac in_list H :=
  repeat (apply elem_of_cons in H as [->|H]);
  [..|by apply elem_of_nil in H].

Lemma tree_recording_ok : tree_ok tree_recording (mkJobPtr 1 0 0).
Proof.
  split; [apply (bool_decide_unpack _); by vm_compute|].
  split; [split; [by left|reflexivity]|].
  split.
  { intros y Hy. cbn in Hy. in_list Hy; vm_compute; split; congruence. }
  split.
  { intros x k Hx Hk. cbn in Hx. in_list Hx; vm_compute in Hk;
      try (by apply elem_of_nil in Hk).
    in_list Hk; (split; [apply (bool_decide_unpack _); by vm_compute|]);
      by vm_compute. }
  split.
  { intros x Hx. cbn in Hx.
    in_list Hx; apply (bool_decide_unpack _); by vm_compute. }
  intros y x Hy Hpar. cbn in Hy.
  in_list Hy; vm_compute in Hpar; try discriminate;
    injection Hpar as <-;
    (split; apply (bool_decide_unpack _); by vm_compute).
Qed.

Lemma world_tree_recorded :
  recorded_in world_tree_requested 1 tree_recording.
Proof.
  intros x Hx. cbn in Hx. in_list Hx.
  - exists (the_job world_tree_requested tree_root),
      (BAddChildJob leaf (BAddChildJob leaf BReturn)).
    repeat (split; [by vm_compute|]).
    vm_compute. eexists. split; [reflexivity|].
    split; [done|]. eexists. split; [reflexivity|]. done.
  - exists (the_job world_tree_requested (mkJobPtr 1 0 1)), BReturn.
    repeat (split; [by vm_compute|]). by vm_compute.
  - exists (the_job world_tree_requested (mkJobPtr 1 0 2)), BReturn.
    repeat (split; [by vm_compute|]). by vm_compute.
Qed.

Lemma world_tree_sched_ok :
  sched_ok world_tree_requested world_tree_requested.
Proof.
  split.
  { split; [vm_compute; lia|]. split; [by vm_compute|].
    intros i Hi. change (m_threads_size world_tree_requested) with 2%nat in Hi.
    destruct i as [|[|i]]; [| |lia]; eexists; vm_compute; reflexivity. }
  split; [vm_compute; reflexivity|]. split; [vm_compute; reflexivity|].
  split; vm_compute; reflexivity.
Qed.

Lemma world_tree_is_requested :
  requested tree_recording 1 (mkJobPtr 0 0 1) slot0
    world_tree_requested world_tree_requested.
Proof.
  split.
  { split; [apply world_tree_recorded|]. split; [by vm_compute|].
    split.
    { exists (the_pool world_tree_requested 1). by vm_compute. }
    split.
    { exists (the_job world_tree_requested slot0),
        (the_pool world_tree_requested 0),
        (the_job world_tree_requested (mkJobPtr 0 0 1)).
      repeat (split; [by vm_compute|]). by vm_compute. }
    split; [done|].
    split; apply (bool_decide_unpack _); by vm_compute. }
  split; [by vm_compute|]. split; [done|]. apply world_tree_sched_ok.
Qed.

Lemma world_tree_workers :
  Forall (worker_of world_tree_requested)
    [(1, 0); (2, 1); (1, 0); (2, 1); (1, 0); (1, 0)]%nat.
Proof.
  repeat (apply Forall_cons; split;
          [split; [vm_compute; reflexivity|vm_compute; lia]|]).
  apply Forall_nil_2.
Qed.

Lemma playBackPool_replays_tree_once_witness :
  tree_ok tree_recording (mkJobPtr 1 0 0)
  ∧ requested tree_recording 1 (mkJobPtr 0 0 1) slot0
      world_tree_requested world_tree_requested
  ∧ ∃ w' L,
      Worker.run_schedule 4 [(1, 0); (2, 1); (1, 0); (2, 1); (1, 0); (1, 0)]%nat
        world_tree_requested = Ok tt w'
      ∧ body_log w' = body_log world_tree_requested ++ L
      ∧ NoDup L
      ∧ (all_queued w' = [] →
         L ≡ₚ slot0 :: rec_nodes tree_recording ++ [mkJobPtr 0 0 1]).
Proof.
  split; [exact tree_recording_ok|].
  split; [exact world_tree_is_requested|].
  destruct (playBackPool_replays_tree_once tree_recording 1 (mkJobPtr 0 0 1)
              slot0 world_tree_requested 4 tree_recording_ok eq_refl
              world_tree_is_requested (le_n 4)) as (_ & Hsched & _).
  destruct (Hsched _ world_tree_workers)
    as (w' & L & Hrun & Hlog & Hnd & _ & Hquiet).
  exists w', L. split; [exact Hrun|]. split; [exact Hlog|].
  split; [exact Hnd|]. intros Hnil. exact (proj1 (Hquiet Hnil)).
Defined.

(** ** A pool with two top-level jobs *)

Lemma world_forest_sched_ok :
  sched_ok world_forest_requested world_forest_played.
Proof.
  split.
  { split; [vm_compute; lia|]. split; [by vm_compute|].
    intros i Hi. change (m_threads_size world_forest_played) with 2%nat in Hi.
    destruct i as [|[|i]]; [| |lia]; eexists; vm_compute; reflexivity. }
  split; [vm_compute; reflexivity|]. split; [vm_compute; reflexivity|].
  split; vm_compute; reflexivity.
Qed.

(** C3, the code at the failing input.  Pool 1 holds two recorded jobs,
    both submitted by
    the main thread.  The playback is requested with the index of the pool
    at 2.  After the caller and slot 0 have run nothing is queued: slot 1
    has not been called, [numJobsLeftToPlay] is 1, the pool is still in
    playback mode, the completion job (slot 1 of pool 0) has not been
    called, and no further worker trip calls any body. *)
Lemma playBackPool_forest_counterexample :
  jobIndex (the_pool world_forest_requested 1) = 2
  ∧ all_queued world_forest_requested = [Some slot0]
  ∧ Worker.run_schedule 4 [(1, 0); (1, 0)]%nat world_forest_requested
    = Ok tt world_forest_played
  ∧ all_queued world_forest_played = []
  ∧ body_log world_forest_played
    = body_log world_forest_requested ++ [slot0; mkJobPtr 1 0 0]
  ∧ numJobsLeftToPlay (the_pool world_forest_played 1) = 1
  ∧ isPlayedBack (the_pool world_forest_played 1) = true
  ∧ pOnPlaybackFinishedJob (the_pool world_forest_played 1)
    = Some (mkJobPtr 0 0 1)
  ∧ body_times world_forest_played (mkJobPtr 0 0 1) = 0%nat
  ∧ ∀ sched, Forall (worker_of world_forest_requested) sched →
             ∃ w', Worker.run_schedule 4 sched world_forest_played = Ok tt w'
                   ∧ body_log w' = body_log world_forest_played
                   ∧ all_queued w' = [].
Proof.
  repeat (split; [vm_compute; reflexivity|]).
  intros sched Hall.
  destruct (idle_schedule 4 sched world_forest_requested Hall
              world_forest_played world_forest_sched_ok)
    as (w' & Hrun & _ & Hlog & Hq); [vm_compute; reflexivity|].
  exists w'. split; [exact Hrun|]. split; [exact Hlog|exact Hq].
Qed.

(** * Further properties of the job memory *)

Lemma pool_missing_true (n : nat) (w : World) :
  (0 < length (m_jobPools w))%nat → pools_fit w →
  (length (m_jobPools w) ≤ n)%nat →
  JobMemory.pool_missing n w = true.
Proof.
  unfold pools_fit, JobMemory.pool_missing. intros Hpos Hfit Hn.
  apply bool_decide_eq_true. rewrite wrap64_small; lia.
Qed.

Lemma memory_ok_fit (w : World) : memory_ok w → pools_fit w.
Proof. intros (_ & Hle & _). unfold pools_fit. lia. Qed.

Lemma pool_ok_ctor (b : bool) : pool_ok (JobPool_ctor b).
Proof.
  unfold pool_ok, capacity. cbn [jobIndex jobLists JobPool_ctor length].
  split; [done|]. split; [done|]. split; [done|].
  apply Forall_singleton. unfold JobList_new. apply length_replicate.
Qed.

Lemma pool_ok_reset (p : JobPool) : pool_ok p → pool_ok (set_jobIndex 0 p).
Proof.
  intros (_ & _ & Hcap & Hsegs). unfold pool_ok, capacity in *.
  cbn [jobIndex jobLists set_jobIndex]. split; [done|]. split; [lia|].
  by split.
Qed.

(** The pools after [resetPool] has created the missing ones. *)
Lemma resetPool_missing_run (poolNumber : nat) (w : World) :
  (0 < length (m_jobPools w))%nat → pools_fit w →
  (length (m_jobPools w) ≤ poolNumber)%nat →
  JobMemory.resetPool poolNumber w
  = Ok tt (set_jobPools
             (m_jobPools w
              ++ replicate (S poolNumber - length (m_jobPools w))
                   (JobPool_ctor (indeterminate_flag w))) w).
Proof.
  intros Hpos Hfit Hn. unfold JobMemory.resetPool.
  rewrite bind_get_world, (pool_missing_true _ _ Hpos Hfit Hn), bind_modify.
  set (pools := m_jobPools w ++ _).
  assert (Hlook : pools !! poolNumber
                  = Some (JobPool_ctor (indeterminate_flag w))).
  { unfold pools. rewrite lookup_app_r by lia.
    apply lookup_replicate_2. lia. }
  erewrite writePool_run; [|exact Hlook]. f_equal.
  unfold updPool, set_jobPools. cbn. f_equal.
  apply list_eq. intros i. destruct (decide (i = poolNumber)) as [->|Hne].
  - by rewrite list_lookup_alter_eq, Hlook.
  - by rewrite list_lookup_alter_ne.
Qed.

Lemma memory_ok_reset_missing (poolNumber : nat) (w : World) :
  memory_ok w → (length (m_jobPools w) ≤ poolNumber)%nat →
  Z.of_nat poolNumber < 2 ^ 32 →
  memory_ok (set_jobPools
               (m_jobPools w
                ++ replicate (S poolNumber - length (m_jobPools w))
                     (JobPool_ctor (indeterminate_flag w))) w).
Proof.
  intros (Hpos & Hle & Hall) Hn Hsmall. unfold memory_ok. wsimpl.
  rewrite length_app, length_replicate.
  split; [lia|]. split; [lia|].
  apply Forall_app. split; [done|].
  apply Forall_replicate, pool_ok_ctor.
Qed.

Lemma jobAt_lookup (w : World) (p : JobPtr) (pool : JobPool) :
  m_jobPools w !! jp_pool p = Some pool →
  jobAt w p = (seg ← jobLists pool !! jp_seg p; seg !! jp_off p).
Proof. unfold jobAt, lookupJob. by intros ->. Qed.

Lemma slot_in_range (pool : JobPool) (index : Z) :
  Forall (λ seg, length seg = m_listLength) (jobLists pool) →
  0 ≤ index < capacity pool →
  is_Some (seg ← jobLists pool !! Z.to_nat (index / Z.of_nat m_listLength);
           seg !! Z.to_nat (index mod Z.of_nat m_listLength)).
Proof.
  intros Hsegs [H0 Hlt]. unfold capacity in Hlt.
  assert (Hl : 0 < Z.of_nat m_listLength) by (by vm_compute).
  assert (Hseg : (Z.to_nat (index / Z.of_nat m_listLength)
                  < length (jobLists pool))%nat).
  { apply Nat2Z.inj_lt. rewrite Z2Nat.id by (by apply Z.div_pos).
    apply Z.div_lt_upper_bound; lia. }
  destruct (lookup_lt_is_Some_2 _ _ Hseg) as [seg Hs].
  rewrite Hs. cbn.
  apply lookup_lt_is_Some_2.
  rewrite (Forall_lookup_1 _ _ _ _ Hsegs Hs).
  apply Nat2Z.inj_lt.
  rewrite Z2Nat.id by (apply Z.mod_pos_bound; lia).
  apply Z.mod_pos_bound. lia.
Qed.

Lemma segment_missing_iff (pool : JobPool) :
  pool_ok pool →
  JobMemory.segment_missing (jobIndex pool) pool = true
  ↔ jobIndex pool = capacity pool.
Proof.
  intros (Hidx & Hcap & Hpos & _). unfold JobMemory.segment_missing.
  fold (capacity pool). rewrite bool_decide_eq_true.
  rewrite wrap64_small by lia. lia.
Qed.

Lemma capacity_multiple (pool : JobPool) :
  capacity pool + Z.of_nat m_listLength ≤ 2 ^ 32 ∨ 2 ^ 32 ≤ capacity pool.
Proof.
  unfold capacity.
  change (Z.of_nat m_listLength) with 4096. change (2 ^ 32) with (1048576 * 4096).
  lia.
Qed.

(** What [getNextJob] may change in a world: the pools. *)
Lemma getNextJob_existing (n : nat) (w : World) (pool : JobPool) :
  memory_ok w → m_jobPools w !! n = Some pool →
  ∃ w' pool',
    JobMemory.getNextJob n w = Ok (slot_of_index n (jobIndex pool)) w'
    ∧ memory_ok w'
    ∧ valid w' (slot_of_index n (jobIndex pool))
    ∧ (∀ q, valid w q → jobAt w' q = jobAt w q)
    ∧ m_jobPools w' = <[n := pool']> (m_jobPools w)
    ∧ set_jobPools (m_jobPools w) w' = w
    ∧ pool' = set_jobLists
                (if JobMemory.segment_missing (jobIndex pool) pool
                 then jobLists pool ++ [JobList_new (indeterminate_flag w)]
                 else jobLists pool)
                (set_jobIndex (wrap32 (jobIndex pool + 1)) pool).
Proof.
  intros Hok Hpool.
  pose proof Hok as (Hpos & Hle & Hall).
  pose proof (Forall_lookup_1 _ _ _ _ Hall Hpool) as Hpok.
  pose proof Hpok as (Hidx & Hcap & Hcpos & Hsegs).
  assert (Hlt : (n < length (m_jobPools w))%nat)
    by (eapply lookup_lt_Some; eauto).
  set (pool' := set_jobLists
                  (if JobMemory.segment_missing (jobIndex pool) pool
                   then jobLists pool ++ [JobList_new (indeterminate_flag w)]
                   else jobLists pool)
                  (set_jobIndex (wrap32 (jobIndex pool + 1)) pool)).
  set (w' := set_jobPools (<[n := pool']> (m_jobPools w)) w).
  assert (Hpool' : m_jobPools w' !! n = Some pool').
  { unfold w'. wsimpl. by apply list_lookup_insert_eq. }
  assert (Hrun : JobMemory.getNextJob n w
                 = (do _ <- readJob (slot_of_index n (jobIndex pool));
                    ret (slot_of_index n (jobIndex pool))) w').
  { unfold JobMemory.getNextJob. rewrite bind_get_world.
    rewrite (pool_missing_false _ _ (memory_ok_fit _ Hok) Hlt), bind_ret.
    erewrite bind_run; [|apply readPool_run; exact Hpool].
    erewrite bind_run; [|eapply writePool_run; exact Hpool].
    set (w1 := updPool _ n w).
    assert (Hp1 : m_jobPools w1 !! n
                  = Some (set_jobIndex (wrap32 (jobIndex pool + 1)) pool)).
    { unfold w1. by rewrite lookup_updPool_eq, Hpool. }
    fold (slot_of_index n (jobIndex pool)). unfold w', pool'.
    destruct (JobMemory.segment_missing (jobIndex pool) pool) eqn:Hseg.
    - rewrite bind_bind, bind_get_world.
      erewrite bind_run; [|eapply writePool_run; exact Hp1].
      f_equal. unfold w1, updPool, set_jobPools. cbn. f_equal.
      apply list_eq. intros i. destruct (decide (i = n)) as [->|Hne].
      + rewrite list_lookup_insert_eq by done.
        by rewrite !list_lookup_alter_eq, Hpool.
      + rewrite list_lookup_insert_ne by done.
        by rewrite !list_lookup_alter_ne.
    - rewrite bind_ret. f_equal. unfold w1, updPool, set_jobPools. f_equal.
      apply list_eq. intros i. destruct (decide (i = n)) as [->|Hne].
      + rewrite list_lookup_insert_eq by done.
        by rewrite list_lookup_alter_eq, Hpool.
      + rewrite list_lookup_insert_ne by done.
        by rewrite list_lookup_alter_ne. }
  assert (Hpok' : pool_ok pool').
  { unfold pool', pool_ok, capacity.
    cbn [jobIndex jobLists set_jobLists set_jobIndex].
    assert (Hw : 0 ≤ wrap32 (jobIndex pool + 1) < 2 ^ 32)
      by (unfold wrap32; apply Z.mod_pos_bound; lia).
    assert (Hwle : wrap32 (jobIndex pool + 1) ≤ jobIndex pool + 1).
    { unfold wrap32. apply Z.mod_le; lia. }
    destruct (JobMemory.segment_missing (jobIndex pool) pool) eqn:Hseg.
    - apply (segment_missing_iff pool Hpok) in Hseg.
      rewrite length_app, Forall_app. cbn [length].
      destruct (capacity_multiple pool) as [Hroom|Hfull]; [|lia].
      unfold capacity in *. change (Z.of_nat m_listLength) with 4096 in *.
      split; [done|]. split; [lia|]. split; [lia|]. split; [done|].
      apply Forall_singleton. unfold JobList_new. apply length_replicate.
    - assert (Hne : jobIndex pool ≠ capacity pool).
      { intros Heq. apply (segment_missing_iff pool Hpok) in Heq. congruence. }
      unfold capacity in *. split; [done|]. split; [lia|]. by split. }
  assert (Hslot : valid w' (slot_of_index n (jobIndex pool))).
  { unfold valid, slot_of_index.
    rewrite (jobAt_lookup w' _ pool') by done.
    cbn [jp_seg jp_off]. apply slot_in_range; [by destruct Hpok' as (_&_&_&?)|].
    split; [lia|]. unfold pool', capacity. cbn [jobLists set_jobLists].
    destruct (JobMemory.segment_missing (jobIndex pool) pool) eqn:Hseg.
    - apply (segment_missing_iff pool Hpok) in Hseg.
      rewrite length_app. cbn [length]. unfold capacity in *.
      change (Z.of_nat m_listLength) with 4096 in *. lia.
    - assert (Hne : jobIndex pool ≠ capacity pool).
      { intros Heq. apply (segment_missing_iff pool Hpok) in Heq. congruence. }
      unfold capacity in *. lia. }
  exists w', pool'. split.
  { rewrite Hrun. destruct Hslot as [j Hj].
    erewrite bind_run; [|apply readJob_run; exact Hj]. reflexivity. }
  split.
  { unfold memory_ok, w'. wsimpl. rewrite length_insert.
    split; [done|]. split; [done|]. by apply Forall_insert. }
  split; [done|]. split.
  { intros q [j Hj]. unfold jobAt, lookupJob, w' in *. wsimpl.
    destruct (decide (jp_pool q = n)) as [Hq|Hq].
    - rewrite Hq in *. rewrite list_lookup_insert_eq by done.
      rewrite Hpool in *. cbn in *. unfold pool'. cbn [jobLists set_jobLists].
      destruct (JobMemory.segment_missing (jobIndex pool) pool); [|done].
      destruct (jobLists pool !! jp_seg q) as [seg|] eqn:Hs; [|done].
      by rewrite (lookup_app_l_Some _ _ _ _ Hs).
    - by rewrite list_lookup_insert_ne. }
  split; [done|]. split; [|done].
  unfold w', set_jobPools. cbn. by destruct w.
Qed.

(** X1.  [resetPool] for a pool number beyond the pools that exist: the pools
    from the old size up to [poolNumber] are created as [JobPool()] makes
    them, the pools that existed and everything outside the job memory are
    left alone, and the memory stays well formed.  The largest [uint32_t]
    is left out: for it the creating loop has no last iteration. *)
Theorem resetPool_creates_missing_pools (poolNumber : nat) (w : World) :
  memory_ok w →
  (length (m_jobPools w) ≤ poolNumber)%nat →
  Z.of_nat poolNumber < 2 ^ 32 - 1 →
  ∃ w', JobMemory.resetPool poolNumber w = Ok tt w'
        ∧ length (m_jobPools w') = S poolNumber
        ∧ (∀ i, (i < length (m_jobPools w))%nat →
                m_jobPools w' !! i = m_jobPools w !! i)
        ∧ (∀ i, (length (m_jobPools w) ≤ i ≤ poolNumber)%nat →
                m_jobPools w' !! i
                = Some (JobPool_ctor (indeterminate_flag w)))
        ∧ set_jobPools (m_jobPools w) w' = w
        ∧ memory_ok w'.
Proof.
  intros Hok Hn Hsmall. pose proof Hok as (Hpos & Hle & _).
  eexists. split.
  { apply resetPool_missing_run; [done|by apply memory_ok_fit|done]. }
  wsimpl. split; [rewrite length_app, length_replicate; lia|].
  split; [intros i Hi; by rewrite lookup_app_l|].
  split.
  { intros i Hi. rewrite lookup_app_r by lia.
    apply lookup_replicate_2. lia. }
  split; [by destruct w|]. apply memory_ok_reset_missing; [done|done|lia].
Qed.

Lemma frame_pools_trans (w w' : World) (pools pools' : list JobPool) :
  set_jobPools pools w' = set_jobPools pools' w →
  set_jobPools (m_jobPools w) w' = w.
Proof.
  destruct w, w'. unfold set_jobPools. cbn.
  by intros [= _ -> -> -> -> -> -> -> -> -> -> -> -> ->].
Qed.

Lemma getNextJob_missing (n : nat) (w : World) :
  memory_ok w → (length (m_jobPools w) ≤ n)%nat → Z.of_nat n < 2 ^ 32 →
  JobMemory.getNextJob n w
  = JobMemory.getNextJob n
      (set_jobPools
         (m_jobPools w
          ++ replicate (S n - length (m_jobPools w))
               (JobPool_ctor (indeterminate_flag w))) w).
Proof.
  intros Hok Hn Hsmall. pose proof Hok as (Hpos & Hle & _).
  pose proof (memory_ok_reset_missing n w Hok Hn Hsmall) as Hok1.
  set (w1 := set_jobPools _ w) in *.
  unfold JobMemory.getNextJob at 1 2. rewrite !bind_get_world.
  rewrite (pool_missing_true n w Hpos (memory_ok_fit _ Hok) Hn).
  rewrite (pool_missing_false n w1 (memory_ok_fit _ Hok1)).
  2:{ unfold w1. wsimpl. rewrite length_app, length_replicate. lia. }
  erewrite bind_run;
    [|apply resetPool_missing_run; [done|by apply memory_ok_fit|done]].
  by rewrite bind_ret.
Qed.

(** X2.  [getNextJob] is safe on a well-formed memory, for every pool number
    below the largest [uint32_t]:
    it returns the slot at the index of the pool (slot 0 of a pool that it
    had to create), the slot can be addressed, the index has advanced by one
    with wrap-around, no slot that existed has changed, nothing outside the
    job memory has changed, and the memory is still well formed. *)
Theorem getNextJob_safe (n : nat) (w : World) :
  memory_ok w → Z.of_nat n < 2 ^ 32 - 1 →
  ∃ w', JobMemory.getNextJob n w
        = Ok (slot_of_index n (default 0 (jobIndex <$> m_jobPools w !! n))) w'
        ∧ memory_ok w'
        ∧ valid w' (slot_of_index n
                      (default 0 (jobIndex <$> m_jobPools w !! n)))
        ∧ (jobIndex <$> m_jobPools w' !! n)
          = Some (wrap32 (default 0 (jobIndex <$> m_jobPools w !! n) + 1))
        ∧ (∀ q, valid w q → jobAt w' q = jobAt w q)
        ∧ set_jobPools (m_jobPools w) w' = w.
Proof.
  intros Hok Hsmall.
  destruct (m_jobPools w !! n) as [pool|] eqn:Hpool.
  - destruct (getNextJob_existing n w pool Hok Hpool)
      as (w' & pool' & Hrun & Hok' & Hv & Hjobs & Hpools & Hrest & Hp').
    exists w'. cbn [fmap option_fmap option_map default].
    split; [done|]. split; [done|]. split; [done|]. split; [|by split].
    rewrite Hpools, list_lookup_insert_eq by (by eapply lookup_lt_Some).
    by rewrite Hp'.
  - apply lookup_ge_None in Hpool.
    assert (Hsmall' : Z.of_nat n < 2 ^ 32) by lia.
    pose proof (memory_ok_reset_missing n w Hok Hpool Hsmall') as Hok1.
    rewrite (getNextJob_missing n w Hok Hpool Hsmall').
    set (w1 := set_jobPools _ w) in *.
    assert (Hp1 : m_jobPools w1 !! n
                  = Some (JobPool_ctor (indeterminate_flag w))).
    { unfold w1. wsimpl. rewrite lookup_app_r by lia.
      apply lookup_replicate_2. lia. }
    destruct (getNextJob_existing n w1 _ Hok1 Hp1)
      as (w' & pool' & Hrun & Hok' & Hv & Hjobs & Hpools & Hrest & Hp').
    exists w'. cbn [fmap option_fmap option_map default].
    split; [done|]. split; [done|]. split; [done|]. split.
    { rewrite Hpools, list_lookup_insert_eq by (by eapply lookup_lt_Some).
      by rewrite Hp'. }
    split.
    { intros q Hq. rewrite Hjobs.
      - unfold jobAt, lookupJob, w1. wsimpl.
        destruct Hq as [j Hj]. unfold jobAt, lookupJob in Hj.
        destruct (m_jobPools w !! jp_pool q) as [pq|] eqn:Hpq; [|done].
        by rewrite (lookup_app_l_Some _ _ _ _ Hpq).
      - destruct Hq as [j Hj]. exists j. unfold jobAt, lookupJob, w1 in *.
        wsimpl.
        destruct (m_jobPools w !! jp_pool q) as [pq|] eqn:Hpq; [|done].
        by rewrite (lookup_app_l_Some _ _ _ _ Hpq). }
    clear -Hrest. unfold w1 in Hrest.
    by apply (frame_pools_trans _ _ _ _ Hrest).
Qed.

(** X3.  When the index of a pool has reached the capacity, [getNextJob]
    appends one segment of [m_listLength] jobs as [Job()] makes them and
    returns the first slot of that segment. *)
Theorem getNextJob_appends_segment (n : nat) (w : World) (pool : JobPool) :
  memory_ok w → m_jobPools w !! n = Some pool →
  jobIndex pool = capacity pool →
  ∃ w', JobMemory.getNextJob n w
        = Ok (mkJobPtr n (length (jobLists pool)) 0) w'
        ∧ m_jobPools w'
          = <[n := set_jobLists
                     (jobLists pool ++ [JobList_new (indeterminate_flag w)])
                     (set_jobIndex (wrap32 (jobIndex pool + 1)) pool)]>
              (m_jobPools w)
        ∧ jobAt w' (mkJobPtr n (length (jobLists pool)) 0)
          = Some (Job_ctor (indeterminate_flag w))
        ∧ set_jobPools (m_jobPools w) w' = w.
Proof.
  intros Hok Hpool Hfull.
  pose proof Hok as (_ & _ & Hall).
  pose proof (Forall_lookup_1 _ _ _ _ Hall Hpool) as Hpok.
  destruct (getNextJob_existing n w pool Hok Hpool)
    as (w' & pool' & Hrun & Hok' & Hv & Hjobs & Hpools & Hrest & Hp').
  rewrite (proj2 (segment_missing_iff pool Hpok) Hfull) in Hp'.
  assert (Hslot : slot_of_index n (jobIndex pool)
                  = mkJobPtr n (length (jobLists pool)) 0).
  { unfold slot_of_index. rewrite Hfull. unfold capacity.
    assert (Hl : Z.of_nat m_listLength ≠ 0) by (by vm_compute).
    rewrite Z.div_mul, Z.mod_mul by done. by rewrite Nat2Z.id. }
  exists w'. rewrite <- Hslot. split; [done|]. subst pool'.
  split; [done|]. split; [|done].
  rewrite Hslot. erewrite jobAt_lookup.
  2:{ cbn [jp_pool]. rewrite Hpools.
      apply list_lookup_insert_eq. by eapply lookup_lt_Some. }
  cbn [jp_seg jp_off jobLists set_jobLists].
  rewrite lookup_app_r by lia. rewrite Nat.sub_diag. reflexivity.
Qed.

Lemma memory_ok_one_pool (w : World) (b : bool) (index : Z) :
  m_jobPools w = [set_jobIndex index (JobPool_ctor b)] →
  0 ≤ index ≤ Z.of_nat m_listLength →
  memory_ok w.
Proof.
  intros Hp Hi. unfold memory_ok. rewrite Hp. cbn [length].
  split; [lia|]. split; [done|]. apply Forall_singleton.
  destruct (pool_ok_ctor b) as (_ & _ & Hcap & Hsegs).
  unfold pool_ok, capacity in *. cbn [jobIndex jobLists set_jobIndex] in *.
  cbn [JobPool_ctor jobLists length] in *.
  change (Z.of_nat m_listLength) with 4096 in *.
  split; [lia|]. split; [lia|]. by split.
Qed.

Lemma memory_ok_started : memory_ok (started_world 1 true).
Proof.
  apply (memory_ok_one_pool _ true 0); [vm_compute; reflexivity|done].
Qed.

Lemma resetPool_creates_missing_pools_witness :
  memory_ok (started_world 1 true)
  ∧ ∃ w', JobMemory.resetPool 3 (started_world 1 true) = Ok tt w'
          ∧ length (m_jobPools w') = 4%nat.
Proof.
  split; [exact memory_ok_started|].
  destruct (resetPool_creates_missing_pools 3 (started_world 1 true)
              memory_ok_started)
    as (w' & Hrun & Hlen & _).
  - vm_compute. lia.
  - reflexivity.
  - exists w'. split; [exact Hrun|exact Hlen].
Defined.

Lemma getNextJob_safe_witness :
  memory_ok (started_world 1 true)
  ∧ ∃ w', JobMemory.getNextJob 2 (started_world 1 true)
          = Ok (slot_of_index 2
                  (default 0
                     (jobIndex <$> m_jobPools (started_world 1 true) !! 2%nat)))
               w'
          ∧ memory_ok w'.
Proof.
  split; [exact memory_ok_started|].
  destruct (getNextJob_safe 2 (started_world 1 true) memory_ok_started)
    as (w' & Hrun & Hok & _).
  - reflexivity.
  - exists w'. split; [exact Hrun|exact Hok].
Defined.

Lemma memory_ok_segment_full : memory_ok world_segment_full.
Proof.
  apply (memory_ok_one_pool _ true (Z.of_nat m_listLength));
    [vm_compute; reflexivity|]. by vm_compute.
Qed.

Lemma getNextJob_appends_segment_witness :
  ∃ w', JobMemory.getNextJob 0 world_segment_full
        = Ok (mkJobPtr 0 1 0) w'
        ∧ jobAt w' (mkJobPtr 0 1 0) = Some (Job_ctor true).
Proof.
  destruct (getNextJob_appends_segment 0 world_segment_full
              (set_jobIndex (Z.of_nat m_listLength) (JobPool_ctor true))
              memory_ok_segment_full)
    as (w' & Hrun & _ & Hjob & _).
  - vm_compute. reflexivity.
  - reflexivity.
  - exists w'. split; [exact Hrun|exact Hjob].
Defined.

(** ** The probe loop of [allocateJob] *)

Lemma updPool_set_jobIndex_twice (a b : Z) (n : nat) (w : World) :
  updPool (set_jobIndex a) n (updPool (set_jobIndex b) n w)
  = updPool (set_jobIndex a) n w.
Proof.
  unfold updPool, set_jobPools. cbn. f_equal.
  apply list_eq. intros i. destruct (decide (i = n)) as [->|Hne].
  - rewrite !list_lookup_alter_eq. by destruct (m_jobPools w !! n).
  - by rewrite !list_lookup_alter_ne.
Qed.

Lemma probe_skips (k : nat) :
  ∀ (w : World) (n : nat) (pool : JobPool) (j : Job),
    pools_fit w → m_jobPools w !! n = Some pool →
    0 ≤ jobIndex pool →
    jobIndex pool + Z.of_nat k < capacity pool →
    capacity pool ≤ 2 ^ 32 →
    (∀ i, (i < k)%nat →
          (m_available <$> jobAt w (slot_of_index n (jobIndex pool + Z.of_nat i)))
          = Some false) →
    jobAt w (slot_of_index n (jobIndex pool + Z.of_nat k)) = Some j →
    m_available j = true →
    JobMemory.probe (S k) n w
    = Ok (slot_of_index n (jobIndex pool + Z.of_nat k))
         (updPool (set_jobIndex (wrap32 (jobIndex pool + Z.of_nat k + 1))) n w).
Proof.
  induction k as [|k IH]; intros w n pool j Hfit Hpool H0 Hlt Hcap Hbusy Hj Hav.
  - rewrite Z.add_0_r in *.
    rewrite (probe_run w n pool Hfit Hpool) with (j := j); try done.
    unfold JobMemory.segment_missing. fold (capacity pool).
    apply bool_decide_eq_false. rewrite wrap64_small; lia.
  - assert (Hseg : JobMemory.segment_missing (jobIndex pool) pool = false).
    { unfold JobMemory.segment_missing. fold (capacity pool).
      apply bool_decide_eq_false. rewrite wrap64_small; lia. }
    specialize (Hbusy 0%nat ltac:(lia)) as Hfirst.
    rewrite Z.add_0_r in Hfirst.
    destruct (jobAt w (slot_of_index n (jobIndex pool))) as [j0|] eqn:Hj0;
      [|done].
    cbn in Hfirst. injection Hfirst as Hfirst.
    cbn [JobMemory.probe].
    rewrite (bind_run _ _ _ _ _
               (getNextJob_run w n pool Hfit Hpool Hseg (mk_is_Some _ _ Hj0))).
    erewrite bind_run;
      [|apply readJob_run; rewrite jobAt_index_taken; exact Hj0].
    rewrite Hfirst.
    set (w1 := index_taken n pool w).
    set (pool1 := set_jobIndex (wrap32 (jobIndex pool + 1)) pool).
    assert (Hw : wrap32 (jobIndex pool + 1) = jobIndex pool + 1)
      by (apply wrap32_small; lia).
    assert (Hp1 : m_jobPools w1 !! n = Some pool1).
    { unfold w1, index_taken. by rewrite lookup_updPool_eq, Hpool. }
    assert (Hidx1 : jobIndex pool1 = jobIndex pool + 1) by done.
    assert (Hcap1 : capacity pool1 = capacity pool) by done.
    change (JobMemory.probe (S k) n w1
            = Ok (slot_of_index n (jobIndex pool + Z.of_nat (S k)))
                 (updPool
                    (set_jobIndex (wrap32 (jobIndex pool + Z.of_nat (S k) + 1)))
                    n w)).
    replace (jobIndex pool + Z.of_nat (S k))
      with (jobIndex pool1 + Z.of_nat k) in * by lia.
    rewrite (IH w1 n pool1 j); try done; try lia.
    + unfold w1, index_taken. by rewrite updPool_set_jobIndex_twice.
    + unfold w1, index_taken, pools_fit, updPool. wsimpl.
      by rewrite length_alter.
    + intros i Hi. unfold w1. rewrite jobAt_index_taken.
      replace (jobIndex pool1 + Z.of_nat i)
        with (jobIndex pool + Z.of_nat (S i)) by lia.
      apply Hbusy. lia.
    + unfold w1. by rewrite jobAt_index_taken.
Qed.

(** X5.  [allocateJob] skips the slots that are not available: when the [k]
    slots from the index on are taken and the next one is free (all within
    the capacity of the pool), it returns that slot, the index of the pool
    ends behind it, the slot has its pool number set and its successor,
    child and sibling links cleared, and every other slot, among them the
    skipped ones, is as before. *)
Theorem allocateJob_skips_unavailable (k : nat) (w : World) (n : nat)
    (pool : JobPool) (j : Job) :
  pools_fit w → m_jobPools w !! n = Some pool →
  0 ≤ jobIndex pool →
  jobIndex pool + Z.of_nat k < capacity pool →
  capacity pool ≤ 2 ^ 32 →
  (∀ i, (i < k)%nat →
        (m_available <$> jobAt w (slot_of_index n (jobIndex pool + Z.of_nat i)))
        = Some false) →
  jobAt w (slot_of_index n (jobIndex pool + Z.of_nat k)) = Some j →
  m_available j = true →
  ∃ w', JobMemory.allocateJob (S k) None n w
        = Ok (slot_of_index n (jobIndex pool + Z.of_nat k)) w'
        ∧ (jobIndex <$> m_jobPools w' !! n)
          = Some (wrap32 (jobIndex pool + Z.of_nat k + 1))
        ∧ jobAt w' (slot_of_index n (jobIndex pool + Z.of_nat k))
          = Some (allocate_init n j)
        ∧ (∀ q, q ≠ slot_of_index n (jobIndex pool + Z.of_nat k) →
                jobAt w' q = jobAt w q).
Proof.
  intros Hfit Hpool H0 Hlt Hcap Hbusy Hj Hav.
  pose proof (probe_skips k w n pool j Hfit Hpool H0 Hlt Hcap Hbusy Hj Hav)
    as Hprobe.
  set (p := slot_of_index n (jobIndex pool + Z.of_nat k)) in *.
  set (w1 := updPool (set_jobIndex (wrap32 (jobIndex pool + Z.of_nat k + 1)))
              n w).
  assert (Hjobs : ∀ q, jobAt w1 q = jobAt w q).
  { intros q. unfold w1. by apply jobAt_updPool. }
  assert (Hv : valid w1 p) by (exists j; by rewrite Hjobs).
  exists (initialised n p w1). split.
  { unfold JobMemory.allocateJob.
    rewrite (bind_run _ _ _ _ _ Hprobe).
    fold w1. unfold initialised.
    repeat (erewrite bind_run;
            [|apply writeJob_valid; rewrite ?valid_updJob; exact Hv]).
    reflexivity. }
  split.
  { unfold initialised.
    assert (Hp1 : m_jobPools w1 !! n
                  = Some (set_jobIndex (wrap32 (jobIndex pool + Z.of_nat k + 1))
                            pool)).
    { unfold w1. by rewrite lookup_updPool_eq, Hpool. }
    repeat match goal with
           | |- context [m_jobPools (updJob ?f ?q ?x) !! n] =>
               let H := fresh in
               let pl := fresh in
               assert (∃ pl, m_jobPools (updJob f q x) !! n = Some pl
                             ∧ jobIndex pl = wrap32 (jobIndex pool + Z.of_nat k + 1))
                 as (pl & H & ?); [|rewrite H; cbn; by f_equal]
           end.
    repeat match goal with
           | |- ∃ _, m_jobPools (updJob ?f ?q ?x) !! n = Some _ ∧ _ =>
               let H := fresh in
               assert (∃ pl, m_jobPools x !! n = Some pl
                             ∧ jobIndex pl = wrap32 (jobIndex pool + Z.of_nat k + 1))
                 as (pl0 & H & ?);
               [|destruct (pool_updJob f q x n pl0 H) as (pl1 & ? & ? & _);
                 exists pl1; split; [done|congruence]]
           end.
    by eexists. }
  split.
  { rewrite jobAt_initialised, Hjobs. by rewrite decide_True, Hj. }
  intros q Hq. rewrite jobAt_initialised, Hjobs. by rewrite decide_False.
Qed.

Lemma world_two_taken_busy (i : nat) :
  (i < 2)%nat →
  (m_available
     <$> jobAt world_two_taken
           (slot_of_index 0
              (jobIndex (the_pool world_two_taken 0) + Z.of_nat i)))
  = Some false.
Proof.
  intros Hi. destruct i as [|[|i]]; [| |lia]; vm_compute; reflexivity.
Qed.

Lemma allocateJob_skips_unavailable_witness :
  ∃ w', JobMemory.allocateJob 3 None 0 world_two_taken
        = Ok (mkJobPtr 0 0 2) w'
        ∧ (jobIndex <$> m_jobPools w' !! 0%nat) = Some 3
        ∧ (m_available <$> jobAt w' slot0) = Some false.
Proof.
  destruct (allocateJob_skips_unavailable 2 world_two_taken 0
              (the_pool world_two_taken 0) (Job_ctor true))
    as (w' & Hrun & Hidx & _ & Hother).
  - vm_compute. reflexivity.
  - vm_compute. reflexivity.
  - vm_compute. discriminate.
  - vm_compute. reflexivity.
  - vm_compute. discriminate.
  - exact world_two_taken_busy.
  - vm_compute. reflexivity.
  - reflexivity.
  - exists w'. split; [exact Hrun|]. split; [exact Hidx|].
    rewrite (Hother slot0); [vm_compute; reflexivity|discriminate].
Defined.

(** ** Registering children *)

Lemma chain_head (w : World) (start : option JobPtr) (l : list JobPtr) :
  chain w start l → start = head l.
Proof. destruct l; cbn [chain]; [done|]. by intros [-> _]. Qed.

Lemma chain_valid (w : World) (start : option JobPtr) (l : list JobPtr)
    (k : JobPtr) :
  chain w start l → k ∈ l → valid w k.
Proof.
  revert start. induction l as [|x l IH]; intros start Hc Hk.
  - by apply elem_of_nil in Hk.
  - cbn [chain] in Hc. destruct Hc as (_ & xj & Hxj & Hrest).
    apply elem_of_cons in Hk as [->|Hk]; [by exists xj|by eapply IH].
Qed.

(** Appending to a sibling chain: the last element gets the new one as
    next sibling, the other elements keep theirs. *)
Lemma chain_append (w w' : World) (this : JobPtr) (l : list JobPtr) :
  ∀ start,
    chain w start l → NoDup l → this ∉ l →
    (∀ k, k ∈ l → Some k ≠ last l →
          (m_pNextSibling <$> jobAt w' k) = (m_pNextSibling <$> jobAt w k)) →
    (∀ lst, last l = Some lst →
            (m_pNextSibling <$> jobAt w' lst) = Some (Some this)) →
    (m_pNextSibling <$> jobAt w' this) = Some None →
    chain w' (if l is [] then Some this else start) (l ++ [this]).
Proof.
  induction l as [|k l IH]; intros start Hc Hnd Hthis Hkeep Hlast Hnew.
  - cbn [app chain]. split; [done|].
    destruct (jobAt w' this) as [tj|]; [|done]. exists tj. split; [done|].
    cbn in Hnew. congruence.
  - cbn [chain] in Hc. destruct Hc as (-> & kj & Hkj & Hrest).
    apply NoDup_cons in Hnd as [Hk Hnd].
    cbn [app chain]. split; [done|].
    destruct l as [|k2 l].
    + cbn [chain] in Hrest.
      specialize (Hlast k eq_refl).
      destruct (jobAt w' k) as [kj'|]; [|done]. exists kj'. split; [done|].
      cbn in Hlast. injection Hlast as ->.
      apply (IH None); try done; try (by intros ? ?%elem_of_nil).
      apply not_elem_of_nil.
    + assert (Hne : Some k ≠ last (k :: k2 :: l)).
      { rewrite last_cons_cons. intros Heq. apply Hk.
        symmetry in Heq. apply last_Some in Heq as [l' ->].
        apply elem_of_app. right. by left. }
      pose proof (Hkeep k (list_elem_of_here _ _) Hne) as Hsame.
      rewrite Hkj in Hsame.
      destruct (jobAt w' k) as [kj'|]; [|done]. exists kj'. split; [done|].
      cbn in Hsame. injection Hsame as ->.
      apply (IH (m_pNextSibling kj) Hrest Hnd).
      * intros Hin. apply Hthis. by right.
      * intros k0 Hk0 Hk0l. apply Hkeep; [by right|].
        by rewrite last_cons_cons.
      * intros lst Hl. apply Hlast. by rewrite last_cons_cons.
      * exact Hnew.
Qed.

Lemma same_pool_shapes_refl (w : World) : same_pool_shapes w w.
Proof. done. Qed.

Lemma same_pool_shapes_trans (w1 w2 w3 : World) :
  same_pool_shapes w1 w2 → same_pool_shapes w2 w3 → same_pool_shapes w1 w3.
Proof. intros H1 H2 n. by rewrite H2, H1. Qed.

Lemma same_pool_shapes_updJob (f : Job → Job) (p : JobPtr) (w : World) :
  same_pool_shapes w (updJob f p w).
Proof.
  intros n. destruct (m_jobPools w !! n) as [pool|] eqn:Hn.
  - destruct (pool_updJob f p w n pool Hn)
      as (pool' & -> & H1 & H2 & H3 & H4 & H5).
    cbn. unfold pool_shape, pool_view. by rewrite H1, H2, H3, H4, H5.
  - unfold updJob, alterJob. wsimpl.
    apply lookup_ge_None in Hn.
    rewrite (proj2 (lookup_ge_None _ _)); [done|].
    by rewrite length_alter.
Qed.

Lemma same_pool_shapes_pools (w w' : World) :
  m_jobPools w' = m_jobPools w → same_pool_shapes w w'.
Proof. intros H n. by rewrite H. Qed.

Lemma same_pool_shapes_lookup (w w' : World) (n : nat) (pool : JobPool) :
  same_pool_shapes w w' → m_jobPools w !! n = Some pool →
  ∃ pool', m_jobPools w' !! n = Some pool'
           ∧ pool_view pool' = pool_view pool
           ∧ length (jobLists pool') = length (jobLists pool).
Proof.
  intros H Hn. specialize (H n). rewrite Hn in H.
  destruct (m_jobPools w' !! n) as [pool'|]; [|done].
  exists pool'. split; [done|]. cbn in H. unfold pool_shape in H.
  split; congruence.
Qed.

Lemma same_pool_shapes_fit (w w' : World) :
  same_pool_shapes w w' → pools_fit w → pools_fit w'.
Proof.
  intros H. unfold pools_fit.
  assert (Hlen : length (m_jobPools w') = length (m_jobPools w)).
  { apply Nat.le_antisymm.
    - destruct (decide (length (m_jobPools w') ≤ length (m_jobPools w))%nat)
        as [?|Hgt]; [done|].
      specialize (H (length (m_jobPools w))).
      rewrite (proj2 (lookup_ge_None (m_jobPools w) _)) in H by done.
      destruct (lookup_lt_is_Some_2 (m_jobPools w') (length (m_jobPools w)))
        as [x Hx]; [lia|]. by rewrite Hx in H.
    - destruct (decide (length (m_jobPools w) ≤ length (m_jobPools w'))%nat)
        as [?|Hgt]; [done|].
      specialize (H (length (m_jobPools w'))).
      rewrite (proj2 (lookup_ge_None (m_jobPools w') _)) in H by done.
      destruct (lookup_lt_is_Some_2 (m_jobPools w) (length (m_jobPools w')))
        as [x Hx]; [lia|]. by rewrite Hx in H. }
  by rewrite Hlen.
Qed.

Lemma setParentJob_append_run (this parent : JobPtr) (w : World)
    (l : list JobPtr) (tj : Job) :
  child_list w parent l →
  this ∉ l → this ≠ parent →
  jobAt w this = Some tj → m_pNextSibling tj = None →
  ∃ w', Job.setParentJob this parent w = Ok tt w'
        ∧ child_list w' parent (l ++ [this])
        ∧ jobAt w' this = Some (set_parentJob (Some parent) tj)
        ∧ counterAt w' parent
          = (λ c, wrap32 (c + 1)) <$> counterAt w parent
        ∧ (∀ q, q ≠ this → q ≠ parent → Some q ≠ last l →
                jobAt w' q = jobAt w q)
        ∧ (∀ q, q ≠ parent →
                (link_view <$> jobAt w' q)
                = (link_view <$> (if decide (q = this)
                                  then set_parentJob (Some parent) <$> jobAt w q
                                  else if decide (Some q = last l)
                                       then set_pNextSibling (Some this)
                                              <$> jobAt w q
                                       else jobAt w q)))
        ∧ set_jobPools (m_jobPools w) w' = w
        ∧ (m_poolNumber <$> jobAt w' parent) = (m_poolNumber <$> jobAt w parent)
        ∧ same_pool_shapes w w'.
Proof.
  intros (pj & Hpj & Hchain & Hlast & Hnd & Hpar) Hthis Hne Htj Hnext.
  pose proof (chain_head _ _ _ Hchain) as Hhead.
  assert (Hpj1 : jobAt (updJob (set_parentJob (Some parent)) this w) parent
                 = Some pj) by (by rewrite jobAt_updJob_ne).
  assert (Hnd' : NoDup (l ++ [this])).
  { apply NoDup_app. split; [done|]. split; [|apply NoDup_singleton].
    by intros x Hx ->%list_elem_of_singleton. }
  assert (Hpar' : parent ∉ l ++ [this]).
  { intros [?| ->%list_elem_of_singleton]%elem_of_app; done. }
  destruct l as [|k0 l0] eqn:Hl.
  - eexists. split.
    { apply (setParentJob_first_run this parent w pj); [by eexists|done|done]. }
    split.
    { eexists. split.
      { jobAt_norm. rewrite Hpj. reflexivity. }
      cbn [m_pFirstChild m_pLastChild set_pLastChild set_pFirstChild].
      split.
      { apply (chain_append w _ this [] None eq_refl NoDup_nil_2
                 (not_elem_of_nil _)); [by intros ? ?%elem_of_nil|done|].
        jobAt_norm. by rewrite Htj; cbn; rewrite Hnext. }
      done. }
    split; [jobAt_norm; by rewrite Htj|].
    split; [unfold counterAt; jobAt_norm; by rewrite Hpj|].
    split; [intros q Hq1 Hq2 _; by jobAt_norm|].
    split.
    { intros q Hq. cbn [last].
      rewrite (decide_False (P := Some q = None)) by done.
      case_decide as Hqt; [subst q|]; by jobAt_norm. }
    split; [by destruct w|].
    split; [jobAt_norm; by rewrite Hpj|].
    repeat (eapply same_pool_shapes_trans; [|apply same_pool_shapes_updJob]).
    apply same_pool_shapes_refl.
  - rewrite <- Hl in *.
    assert (Hnil : l ≠ []) by (by rewrite Hl).
    destruct (last l) as [lst|] eqn:Hlst.
    2:{ apply last_None in Hlst. done. }
    assert (Hin : lst ∈ l).
    { apply last_Some in Hlst as [l' ->]. apply elem_of_app. right. by left. }
    assert (Hlp : lst ≠ parent) by (by intros ->).
    assert (Hlt : lst ≠ this) by (by intros ->).
    destruct (chain_valid _ _ _ lst Hchain Hin) as [lj Hlj].
    eexists. split.
    { apply (setParentJob_next_run this parent lst w pj);
        [by eexists|done| |by apply Hlast|by eexists].
      rewrite Hhead, Hl. by eexists. }
    split.
    { eexists. split.
      { jobAt_norm. rewrite Hpj. reflexivity. }
      cbn [m_pFirstChild m_pLastChild set_pLastChild incr_counter
           set_numUnfinishedChildren].
      split.
      { pose proof (chain_append w
                      (updJob (set_pLastChild (Some this)) parent
                         (updJob (set_pNextSibling (Some this)) lst
                            (updJob incr_counter parent
                               (updJob (set_parentJob (Some parent)) this w))))
                      this l (m_pFirstChild pj) Hchain Hnd Hthis) as Happ.
        assert (Hif : (if l is [] then Some this else m_pFirstChild pj)
                      = m_pFirstChild pj) by (by rewrite Hl).
        rewrite Hif in Happ. apply Happ.
        - intros k Hk Hkl.
          assert (k ≠ lst) by congruence.
          assert (k ≠ parent) by (by intros ->).
          assert (k ≠ this) by (by intros ->).
          by jobAt_norm.
        - intros lst' Hl'. rewrite Hlst in Hl'. injection Hl' as <-.
          jobAt_norm. by rewrite Hlj.
        - jobAt_norm. by rewrite Htj; cbn; rewrite Hnext. }
      split; [intros _; by rewrite last_snoc|done]. }
    split; [jobAt_norm; by rewrite Htj|].
    split; [unfold counterAt; jobAt_norm; by rewrite Hpj|].
    split.
    { intros q Hq1 Hq2 Hq3.
      assert (lst ≠ q) by congruence. by jobAt_norm. }
    split.
    { intros q Hq. case_decide as Hqt; [subst q; by jobAt_norm|].
      case_decide as Hql.
      + injection Hql as ->. by jobAt_norm.
      + assert (lst ≠ q) by congruence. by jobAt_norm. }
    split; [by destruct w|].
    split; [jobAt_norm; by rewrite Hpj|].
    repeat (eapply same_pool_shapes_trans; [|apply same_pool_shapes_updJob]).
    apply same_pool_shapes_refl.
Qed.

(** X6.  [setParentJob] appends the job to the child list of the parent: the
    list that playback walks gets the job as its new last element, the
    job's parent pointer is set and the parent's counter is one higher.
    Apart from the job, the parent and the former last child no slot is
    written, and nothing outside the job memory changes. *)
Theorem setParentJob_appends_child (this parent : JobPtr) (w : World)
    (l : list JobPtr) (tj : Job) :
  child_list w parent l →
  this ∉ l → this ≠ parent →
  jobAt w this = Some tj → m_pNextSibling tj = None →
  ∃ w', Job.setParentJob this parent w = Ok tt w'
        ∧ child_list w' parent (l ++ [this])
        ∧ jobAt w' this = Some (set_parentJob (Some parent) tj)
        ∧ counterAt w' parent
          = (λ c, wrap32 (c + 1)) <$> counterAt w parent
        ∧ (∀ q, q ≠ this → q ≠ parent → Some q ≠ last l →
                jobAt w' q = jobAt w q)
        ∧ set_jobPools (m_jobPools w) w' = w.
Proof.
  intros Hl Hthis Hne Htj Hnext.
  destruct (setParentJob_append_run this parent w l tj Hl Hthis Hne Htj Hnext)
    as (w' & Hrun & Hl' & Hj & Hc & Hother & _ & Hrest & _).
  by exists w'.
Qed.

Lemma chain_next_on (w w' : World) (start : option JobPtr)
    (l : list JobPtr) :
  (∀ k, k ∈ l →
        (m_pNextSibling <$> jobAt w' k) = (m_pNextSibling <$> jobAt w k)) →
  chain w start l → chain w' start l.
Proof.
  revert start. induction l as [|k l IH]; intros start Hl; [done|].
  cbn [chain]. intros (-> & kj & Hkj & Hrest). split; [done|].
  assert (Hk := Hl k (list_elem_of_here _ _)). rewrite Hkj in Hk.
  destruct (jobAt w' k) as [kj'|] eqn:Hkj'; [|done].
  exists kj'. split; [done|]. cbn in Hk. injection Hk as ->.
  apply IH; [|done]. intros k' Hk'. apply Hl. by right.
Qed.

Lemma child_list_ext (w w' : World) (parent : JobPtr) (l : list JobPtr) :
  (m_pFirstChild <$> jobAt w' parent) = (m_pFirstChild <$> jobAt w parent) →
  (m_pLastChild <$> jobAt w' parent) = (m_pLastChild <$> jobAt w parent) →
  (∀ k, k ∈ l →
        (m_pNextSibling <$> jobAt w' k) = (m_pNextSibling <$> jobAt w k)) →
  child_list w parent l → child_list w' parent l.
Proof.
  intros Hf Hla Hl (pj & Hpj & Hchain & Hlast & Hnd & Hpar).
  rewrite Hpj in Hf, Hla.
  destruct (jobAt w' parent) as [pj'|] eqn:Hpj'; [|done].
  cbn in Hf, Hla. injection Hf as Hf. injection Hla as Hla.
  exists pj'. split; [done|]. rewrite Hf, Hla. split; [|done].
  by apply (chain_next_on w).
Qed.

(** ** Submitting jobs *)

Lemma addJob_counted (p : option JobPtr) (w : World) :
  queues_ready w →
  ∃ w', JobSystem.addJob p w = Ok tt w'
        ∧ m_jobPools w' = m_jobPools w
        ∧ same_sched w w'
        ∧ body_log w' = body_log w ∧ finished_log w' = finished_log w
        ∧ notify_count w' = notify_count w
        ∧ m_numJobs w' = wrap32 (m_numJobs w + 1)
        ∧ queues_ready w'
        ∧ all_queued w' ≡ₚ all_queued w ++ [p].
Proof.
  intros Hready. pose proof Hready as (Hpos & Hlen & Hq).
  destruct (Hq (rand_seq w (rand_pos w) mod m_threads_size w)%nat) as [q Hqi].
  { apply Nat.mod_upper_bound. lia. }
  eexists. split; [apply addJob_run; [lia|exact Hqi]|].
  split; [reflexivity|]. split; [done|]. split; [reflexivity|].
  split; [reflexivity|]. split; [reflexivity|]. split; [reflexivity|]. split.
  - eapply queues_ready_set_jobQueues; [exact Hready|reflexivity|reflexivity].
  - eapply all_queued_push; [exact Hqi|reflexivity].
Qed.

Lemma queues_ready_pools (w w' : World) :
  m_threads_size w' = m_threads_size w → m_jobQueues w' = m_jobQueues w →
  queues_ready w → queues_ready w'.
Proof. unfold queues_ready. by intros -> ->. Qed.

Lemma addJob_pushes (p : option JobPtr) (w w' : World) :
  JobSystem.addJob p w = Ok tt w' → pushed_back w w' p.
Proof.
  unfold JobSystem.addJob, JobSystem.rand, modify, get_world, bind. wsimpl.
  case_decide; [done|].
  destruct (m_jobQueues w !! _) as [[q|]|] eqn:Hq; try done.
  intros [= <-]. exists q. split; [exact Hq|reflexivity].
Qed.

Lemma pushed_back_from (w0 w w' : World) (p : option JobPtr) :
  m_jobQueues w = m_jobQueues w0 → rand_seq w = rand_seq w0 →
  rand_pos w = rand_pos w0 → m_threads_size w = m_threads_size w0 →
  pushed_back w w' p → pushed_back w0 w' p.
Proof. unfold pushed_back. by intros -> -> -> ->. Qed.

Lemma pushed_back_to (w w1 w' : World) (p : option JobPtr) :
  m_jobQueues w' = m_jobQueues w1 →
  pushed_back w w1 p → pushed_back w w' p.
Proof. unfold pushed_back. by intros ->. Qed.

(** X7.  [addJob(func, poolNumber)], called by a thread that has a slot for its
    current job, when the slot at the index of the pool is available: the
    slot becomes the new job with [func] as its function, its pool number
    set and its successor, child and sibling links cleared; its parent
    pointer and counter are what the slot held before.  The job is added at
    the back of the queue that the next value of [std::rand] selects, and
    no other queue changes; [m_numJobs] is one higher, the index of the
    pool has advanced, and no other slot has changed. *)
Theorem addJob_func_submits (fuel : nat) (tid : ThreadId) (idx : nat)
    (cur : option JobPtr) (func : Function) (n : nat) (w : World)
    (pool : JobPool) (j : Job) :
  m_threadIndexMap w !! tid = Some idx →
  m_jobPointers w !! idx = Some cur →
  pools_fit w → m_jobPools w !! n = Some pool →
  JobMemory.segment_missing (jobIndex pool) pool = false →
  jobAt w (slot_of_index n (jobIndex pool)) = Some j →
  m_available j = true →
  queues_ready w →
  ∃ w', JobSystem.addJob_func (S fuel) tid func n w = Ok tt w'
        ∧ jobAt w' (slot_of_index n (jobIndex pool))
          = Some (set_function (Some func) (allocate_init n j))
        ∧ (∀ q, q ≠ slot_of_index n (jobIndex pool) → jobAt w' q = jobAt w q)
        ∧ (jobIndex <$> m_jobPools w' !! n)
          = Some (wrap32 (jobIndex pool + 1))
        ∧ all_queued w' ≡ₚ all_queued w
                           ++ [Some (slot_of_index n (jobIndex pool))]
        ∧ m_numJobs w' = wrap32 (m_numJobs w + 1)
        ∧ body_log w' = body_log w
        ∧ pushed_back w w' (Some (slot_of_index n (jobIndex pool))).
Proof.
  intros Htid Hptr Hfit Hpool Hseg Hj Hav Hready.
  set (p := slot_of_index n (jobIndex pool)) in *.
  set (w1 := initialised n p (index_taken n pool w)).
  set (w2 := updJob (set_function (Some func)) p w1).
  assert (Hv1 : valid w1 p).
  { unfold w1. rewrite valid_initialised, valid_index_taken. by eexists. }
  assert (Hjobs : ∀ q, jobAt w2 q
                       = if decide (p = q)
                         then Some (set_function (Some func) (allocate_init n j))
                         else jobAt w q).
  { intros q. unfold w2, w1. rewrite jobAt_updJob, jobAt_initialised,
      jobAt_index_taken. case_decide; [|done]. subst q. by rewrite Hj. }
  assert (Hready2 : queues_ready w2) by (by apply (queues_ready_pools w)).
  destruct (addJob_counted (Some p) w2 Hready2)
    as (w' & Hrun & Hpools & Hs & Hlog & _ & _ & Hnum & _ & Hq).
  assert (Hbody : JobSystem.addJob_func (S fuel) tid func n w = Ok tt w').
  { unfold JobSystem.addJob_func.
    rewrite (bind_run _ _ _ _ _ (getJobPointer_registered _ _ _ _ Htid Hptr)).
    assert (Hrest : (do pJob <- JobMemory.allocateJob (S fuel) None n;
                     do _ <- Job.setFunction pJob (Some func);
                     JobSystem.addJob (Some pJob)) w = Ok tt w').
    { erewrite bind_run;
        [|by apply (allocateJob_orphan_run fuel w n pool j)].
      fold p w1. unfold Job.setFunction.
      erewrite bind_run; [|apply writeJob_valid; exact Hv1]. exact Hrun. }
    by destruct cur. }
  exists w'. split; [done|].
  split; [rewrite (jobAt_same_pools w2 w') by done; rewrite Hjobs;
          by rewrite decide_True|].
  split.
  { intros q Hq'. rewrite (jobAt_same_pools w2 w') by done.
    rewrite Hjobs. by rewrite decide_False. }
  split.
  { rewrite Hpools.
    assert (Hp0 : m_jobPools (index_taken n pool w) !! n
                  = Some (set_jobIndex (wrap32 (jobIndex pool + 1)) pool)).
    { unfold index_taken. by rewrite lookup_updPool_eq, Hpool. }
    assert (Hv : same_pool_views (index_taken n pool w) w2).
    { unfold w2, w1, initialised.
      repeat (eapply same_pool_views_trans; [|apply same_pool_views_updJob]).
      apply same_pool_views_refl. }
    destruct (same_pool_views_lookup _ _ _ _ Hv Hp0) as (pl & -> & Hpv).
    unfold pool_view in Hpv. injection Hpv as Hi _ _ _. cbn. by rewrite Hi. }
  split; [by rewrite Hq|]. split; [by rewrite Hnum|].
  split; [by rewrite Hlog|].
  apply (pushed_back_from w w2); [reflexivity..|]. by apply addJob_pushes.
Qed.

Lemma outside_pools (w w' : World) (pools : list JobPool) :
  set_jobPools pools w' = w →
  m_threads_size w' = m_threads_size w
  ∧ m_jobQueues w' = m_jobQueues w
  ∧ m_numJobs w' = m_numJobs w
  ∧ m_jobPointers w' = m_jobPointers w
  ∧ m_threadIndexMap w' = m_threadIndexMap w
  ∧ body_log w' = body_log w.
Proof. intros <-. by destruct w'. Qed.

Lemma outside_pools_terminate (w w' : World) (pools : list JobPool) :
  set_jobPools pools w' = w → m_terminate w' = m_terminate w.
Proof. intros <-. by destruct w'. Qed.

Lemma outside_pools_rand (w w' : World) (pools : list JobPool) :
  set_jobPools pools w' = w →
  rand_seq w' = rand_seq w ∧ rand_pos w' = rand_pos w.
Proof. intros <-. by destruct w'. Qed.

Lemma addChildJob_in_run (fuel : nat) (tid : ThreadId)
    (idx : nat) (cur : JobPtr) (func : Function) (n : nat) (w : World)
    (pool : JobPool) (j : Job) (l : list JobPtr) :
  m_threadIndexMap w !! tid = Some idx →
  m_jobPointers w !! idx = Some (Some cur) →
  pools_fit w → m_jobPools w !! n = Some pool →
  isPlayedBack pool = false →
  JobMemory.segment_missing (jobIndex pool) pool = false →
  jobAt w (slot_of_index n (jobIndex pool)) = Some j →
  m_available j = true →
  child_list w cur l →
  slot_of_index n (jobIndex pool) ∉ l →
  slot_of_index n (jobIndex pool) ≠ cur →
  queues_ready w →
  ∃ w', JobSystem.addChildJob_in (S fuel) tid func n w = Ok tt w'
        ∧ child_list w' cur (l ++ [slot_of_index n (jobIndex pool)])
        ∧ jobAt w' (slot_of_index n (jobIndex pool))
          = Some (set_function (Some func)
                    (set_parentJob (Some cur) (allocate_init n j)))
        ∧ counterAt w' cur = (λ c, wrap32 (c + 1)) <$> counterAt w cur
        ∧ all_queued w' ≡ₚ all_queued w
                           ++ [Some (slot_of_index n (jobIndex pool))]
        ∧ m_numJobs w' = wrap32 (m_numJobs w + 1)
        ∧ (∀ q, q ≠ slot_of_index n (jobIndex pool) → q ≠ cur →
                Some q ≠ last l → jobAt w' q = jobAt w q)
        ∧ (m_poolNumber <$> jobAt w' cur) = (m_poolNumber <$> jobAt w cur)
        ∧ (∃ pool', m_jobPools w' !! n = Some pool'
                    ∧ jobIndex pool' = wrap32 (jobIndex pool + 1)
                    ∧ isPlayedBack pool' = false
                    ∧ length (jobLists pool') = length (jobLists pool))
        ∧ pools_fit w' ∧ same_sched w w' ∧ queues_ready w'
        ∧ body_log w' = body_log w
        ∧ (∀ q, q ≠ slot_of_index n (jobIndex pool) → q ≠ cur →
                (m_function <$> jobAt w' q) = (m_function <$> jobAt w q)
                ∧ (m_parentJob <$> jobAt w' q)
                  = (m_parentJob <$> jobAt w q))
        ∧ pushed_back w w' (Some (slot_of_index n (jobIndex pool))).
Proof.
  intros Htid Hptr Hfit Hpool Hplay Hseg Hj Hav Hl Hnotin Hne Hready.
  set (p := slot_of_index n (jobIndex pool)) in *.
  set (w0 := index_taken n pool w).
  set (w1 := initialised n p w0).
  assert (Hjobs1 : ∀ q, jobAt w1 q
                        = if decide (p = q) then Some (allocate_init n j)
                          else jobAt w q).
  { intros q. unfold w1, w0. rewrite jobAt_initialised, jobAt_index_taken.
    case_decide; [|done]. subst q. by rewrite Hj. }
  assert (Hl1 : child_list w1 cur l).
  { apply (child_list_ext w); [| | |done].
    - rewrite Hjobs1. by rewrite decide_False.
    - rewrite Hjobs1. by rewrite decide_False.
    - intros k Hk. rewrite Hjobs1. rewrite decide_False; [done|].
      by intros <-. }
  assert (Hp1 : jobAt w1 p = Some (allocate_init n j)).
  { rewrite Hjobs1. by rewrite decide_True. }
  destruct (setParentJob_append_run p cur w1 l _ Hl1 Hnotin Hne Hp1 eq_refl)
    as (w2 & Hset & Hl2 & Hp2 & Hc2 & Hother2 & Hlinks2 & Hrest2 & Hpn2
        & Hshape2).
  set (w3 := updJob (set_function (Some func)) p w2).
  destruct (outside_pools _ _ _ Hrest2)
    as (Hsz2 & Hq2 & Hn2 & Hptr2 & Hmap2 & Hbl2).
  assert (Hready3 : queues_ready w3) by (by apply (queues_ready_pools w)).
  destruct (addJob_counted (Some p) w3 Hready3)
    as (w' & Hrun & Hpools & Hs & Hbl & _ & _ & Hnum & Hready' & Hq).
  assert (Hj3 : ∀ k, jobAt w' k
                      = if decide (p = k)
                        then set_function (Some func) <$> jobAt w2 k
                        else jobAt w2 k).
  { intros k. rewrite (jobAt_same_pools w3 w') by done. unfold w3.
    apply jobAt_updJob. }
  assert (Hshape : same_pool_shapes w0 w').
  { apply same_pool_shapes_trans with w3; [|by apply same_pool_shapes_pools].
    apply same_pool_shapes_trans with w2; [|apply same_pool_shapes_updJob].
    apply same_pool_shapes_trans with w1; [|done].
    unfold w1, initialised.
    repeat (eapply same_pool_shapes_trans; [|apply same_pool_shapes_updJob]).
    apply same_pool_shapes_refl. }
  assert (Hp0 : m_jobPools w0 !! n
                = Some (set_jobIndex (wrap32 (jobIndex pool + 1)) pool)).
  { unfold w0, index_taken. by rewrite lookup_updPool_eq, Hpool. }
  exists w'. split.
  { unfold JobSystem.addChildJob_in.
    erewrite bind_run; [|apply readPool_run; exact Hpool]. rewrite Hplay.
    rewrite (bind_run _ _ _ _ _ (getJobPointer_registered _ _ _ _ Htid Hptr)).
    erewrite bind_run;
      [|by apply (allocateJob_child_run fuel w n pool j cur w2)].
    fold p. unfold Job.setFunction.
    erewrite bind_run; [|eapply writeJob_run; exact Hp2]. exact Hrun. }
  split.
  { apply (child_list_ext w2); [| | |done].
    - rewrite Hj3. by rewrite decide_False.
    - rewrite Hj3. by rewrite decide_False.
    - intros k Hk. rewrite Hj3. case_decide; [|done].
      by destruct (jobAt w2 k). }
  split; [rewrite Hj3; by rewrite decide_True, Hp2|].
  split.
  { unfold counterAt in *. rewrite Hj3. rewrite decide_False by done.
    rewrite Hc2, Hjobs1. by rewrite decide_False. }
  split; [rewrite Hq; by rewrite (all_queued_same w w3)|].
  split.
  { rewrite Hnum. change (m_numJobs w3) with (m_numJobs w2). by rewrite Hn2. }
  split.
  { intros q Hq1 Hq2' Hq3. rewrite Hj3. rewrite decide_False by done.
    rewrite Hother2 by done. rewrite Hjobs1. by rewrite decide_False. }
  split.
  { rewrite Hj3. rewrite decide_False by done. rewrite Hpn2, Hjobs1.
    by rewrite decide_False. }
  split.
  { destruct (same_pool_shapes_lookup w0 w' n _ Hshape Hp0)
      as (pool' & Hpool' & Hv & Hlen).
    exists pool'. split; [done|]. unfold pool_view in Hv.
    injection Hv as Hi _ Hpb _. split; [done|]. split; [|done].
    by rewrite Hpb. }
  split.
  { apply (same_pool_shapes_fit w0); [done|].
    unfold w0, index_taken, pools_fit, updPool. wsimpl.
    by rewrite length_alter. }
  split.
  { apply same_sched_trans with w3; [|done].
    pose proof (outside_pools_terminate _ _ _ Hrest2) as Ht2.
    unfold same_sched.
    change (m_threads_size w3) with (m_threads_size w2).
    change (m_threadIndexMap w3) with (m_threadIndexMap w2).
    change (m_terminate w3) with (m_terminate w2).
    change (m_jobPointers w3) with (m_jobPointers w2).
    by rewrite Hsz2, Hmap2, Ht2, Hptr2. }
  split; [done|]. split.
  { rewrite Hbl. change (body_log w3) with (body_log w2). by rewrite Hbl2. }
  split; [|destruct (outside_pools_rand _ _ _ Hrest2) as [Hrs2 Hrp2];
           apply (pushed_back_from w w3); [exact Hq2|exact Hrs2|exact Hrp2
                                          |exact Hsz2|];
           by apply addJob_pushes].
  intros q Hq1 Hq2'. specialize (Hlinks2 q Hq2').
  rewrite decide_False in Hlinks2 by done.
  assert (Hq1' : jobAt w1 q = jobAt w q).
  { rewrite Hjobs1. by rewrite decide_False. }
  rewrite Hq1' in Hlinks2. rewrite Hj3. rewrite decide_False by done.
  destruct (jobAt w2 q) as [a|], (jobAt w q) as [b|];
    case_decide; cbn in Hlinks2; try discriminate; try done.
  - assert (Hv : link_view a = link_view (set_pNextSibling (Some p) b))
      by congruence.
    apply link_view_fields in Hv. destruct Hv as (_ & Hf & Hp & _).
    cbn in *. by rewrite Hf, Hp.
  - assert (Hv : link_view a = link_view b) by congruence.
    apply link_view_fields in Hv. destruct Hv as (_ & Hf & Hp & _).
    cbn. by rewrite Hf, Hp.
Qed.

(** X8.  [addChildJob(func, poolNumber, id)], called by a worker that runs the
    job [cur], for a pool that is not played back and whose slot at the
    index is available: the slot becomes a job with [func] as function and
    [cur] as parent, it is appended to the recorded child list of [cur],
    the counter of [cur] is one higher, the job is added at the back of the
    queue that the next value of [std::rand] selects, no other queue
    changes, and [m_numJobs] is one higher. *)
Theorem addChildJob_registers_child (fuel : nat) (tid : ThreadId)
    (idx : nat) (cur : JobPtr) (func : Function) (n : nat) (w : World)
    (pool : JobPool) (j : Job) (l : list JobPtr) :
  m_threadIndexMap w !! tid = Some idx →
  m_jobPointers w !! idx = Some (Some cur) →
  pools_fit w → m_jobPools w !! n = Some pool →
  isPlayedBack pool = false →
  JobMemory.segment_missing (jobIndex pool) pool = false →
  jobAt w (slot_of_index n (jobIndex pool)) = Some j →
  m_available j = true →
  child_list w cur l →
  slot_of_index n (jobIndex pool) ∉ l →
  slot_of_index n (jobIndex pool) ≠ cur →
  queues_ready w →
  ∃ w', JobSystem.addChildJob_in (S fuel) tid func n w = Ok tt w'
        ∧ child_list w' cur (l ++ [slot_of_index n (jobIndex pool)])
        ∧ jobAt w' (slot_of_index n (jobIndex pool))
          = Some (set_function (Some func)
                    (set_parentJob (Some cur) (allocate_init n j)))
        ∧ counterAt w' cur = (λ c, wrap32 (c + 1)) <$> counterAt w cur
        ∧ all_queued w' ≡ₚ all_queued w
                           ++ [Some (slot_of_index n (jobIndex pool))]
        ∧ m_numJobs w' = wrap32 (m_numJobs w + 1)
        ∧ pushed_back w w' (Some (slot_of_index n (jobIndex pool))).
Proof.
  intros Htid Hptr Hfit Hpool Hplay Hseg Hj Hav Hl Hnotin Hne Hready.
  destruct (addChildJob_in_run fuel tid idx cur func n w pool j l Htid Hptr
              Hfit Hpool Hplay Hseg Hj Hav Hl Hnotin Hne Hready)
    as (w' & Hrun & H1 & H2 & H3 & H4 & H5 & _ & _ & _ & _ & _ & _ & _ & _
        & H6).
  by exists w'.
Qed.

Lemma queues_ready_started : queues_ready (started_world 1 true).
Proof. apply (queues_ready_one_worker _ []); vm_compute; reflexivity. Qed.

Lemma queues_ready_leaf_running : queues_ready world_leaf_running.
Proof. apply (queues_ready_one_worker _ []); vm_compute; reflexivity. Qed.

Lemma addJob_func_submits_witness :
  ∃ w', JobSystem.addJob_func 1 1%nat leaf 0 (started_world 1 true) = Ok tt w'
        ∧ all_queued w' ≡ₚ all_queued (started_world 1 true) ++ [Some slot0]
        ∧ m_numJobs w' = wrap32 (m_numJobs (started_world 1 true) + 1)
        ∧ m_jobQueues w' = [Some [Some slot0]].
Proof.
  destruct (addJob_func_submits 0 1%nat 0%nat None leaf 0
              (started_world 1 true) (JobPool_ctor true) (Job_ctor true))
    as (w' & Hrun & _ & _ & _ & Hq & Hnum & _ & (q & Hq1 & Hq2)).
  - vm_compute. reflexivity.
  - vm_compute. reflexivity.
  - vm_compute. reflexivity.
  - vm_compute. reflexivity.
  - vm_compute. reflexivity.
  - vm_compute. reflexivity.
  - reflexivity.
  - exact queues_ready_started.
  - exists w'. split; [exact Hrun|]. split; [exact Hq|].
    split; [exact Hnum|].
    vm_compute in Hq1. injection Hq1 as <-. rewrite Hq2.
    vm_compute. reflexivity.
Defined.

Lemma child_list_leaf_running : child_list world_leaf_running slot0 [].
Proof.
  exists (the_job world_leaf_running slot0).
  split; [vm_compute; reflexivity|]. split; [vm_compute; reflexivity|].
  split; [done|]. split; [apply NoDup_nil_2|apply not_elem_of_nil].
Qed.

Lemma addChildJob_registers_child_witness :
  ∃ w', JobSystem.addChildJob_in 1 1%nat leaf 0 world_leaf_running = Ok tt w'
        ∧ child_list w' slot0 [mkJobPtr 0 0 1]
        ∧ all_queued w' ≡ₚ all_queued world_leaf_running
                           ++ [Some (mkJobPtr 0 0 1)]
        ∧ m_jobQueues w' = [Some [Some (mkJobPtr 0 0 1)]].
Proof.
  destruct (addChildJob_registers_child 0 1%nat 0%nat slot0 leaf 0
              world_leaf_running (the_pool world_leaf_running 0)
              (Job_ctor true) [])
    as (w' & Hrun & Hl & _ & _ & Hq & _ & (q & Hq1 & Hq2)).
  - vm_compute. reflexivity.
  - vm_compute. reflexivity.
  - vm_compute. reflexivity.
  - vm_compute. reflexivity.
  - vm_compute. reflexivity.
  - vm_compute. reflexivity.
  - vm_compute. reflexivity.
  - reflexivity.
  - exact child_list_leaf_running.
  - apply not_elem_of_nil.
  - vm_compute. discriminate.
  - exact queues_ready_leaf_running.
  - exists w'. split; [exact Hrun|]. split; [exact Hl|].
    split; [exact Hq|].
    vm_compute in Hq1. injection Hq1 as <-. rewrite Hq2.
    vm_compute. reflexivity.
Defined.

Lemma child_list_tree_root :
  child_list world_tree_requested tree_root [mkJobPtr 1 0 1; mkJobPtr 1 0 2].
Proof.
  exists (the_job world_tree_requested tree_root).
  split; [vm_compute; reflexivity|]. split.
  { vm_compute. split; [reflexivity|]. eexists. split; [reflexivity|].
    split; [reflexivity|]. eexists. split; reflexivity. }
  split; [intros _; vm_compute; reflexivity|].
  split; apply (bool_decide_unpack _); vm_compute; exact I.
Qed.

Lemma setParentJob_appends_child_witness :
  ∃ w', Job.setParentJob (mkJobPtr 1 0 3) tree_root world_tree_requested
        = Ok tt w'
        ∧ child_list w' tree_root
            [mkJobPtr 1 0 1; mkJobPtr 1 0 2; mkJobPtr 1 0 3].
Proof.
  destruct (setParentJob_appends_child (mkJobPtr 1 0 3) tree_root
              world_tree_requested [mkJobPtr 1 0 1; mkJobPtr 1 0 2]
              (Job_ctor true) child_list_tree_root)
    as (w' & Hrun & Hl & _).
  - apply (bool_decide_unpack _). vm_compute. exact I.
  - discriminate.
  - vm_compute. reflexivity.
  - reflexivity.
  - exists w'. split; [exact Hrun|exact Hl].
Defined.

(** * Further properties of the worker threads *)

(** ** The prologue of [threadTask] *)

Lemma threadTask_start_run (tid : ThreadId) (w : World) :
  (threadIndexCounter w < length (m_jobQueues w))%nat →
  (threadIndexCounter w < length (m_jobPointers w))%nat →
  Worker.threadTask_start tid w
  = Ok (threadIndexCounter w)
       (set_threadIndexMap (<[tid := threadIndexCounter w]> (m_threadIndexMap w))
          (set_jobPointers (<[threadIndexCounter w := None]> (m_jobPointers w))
             (set_jobQueues
                (<[threadIndexCounter w := Some []]> (m_jobQueues w))
                (set_threadIndexCounter (S (threadIndexCounter w)) w)))).
Proof.
  intros Hq Hp. unfold Worker.threadTask_start.
  rewrite bind_get_world, bind_modify. wsimpl.
  rewrite decide_True by done. reflexivity.
Qed.

Lemma start_workers_from (tids : list ThreadId) :
  ∀ w,
    NoDup tids →
    (threadIndexCounter w + length tids ≤ length (m_jobQueues w))%nat →
    (threadIndexCounter w + length tids ≤ length (m_jobPointers w))%nat →
    ∃ w', Worker.start_workers tids w = Ok tt w'
          ∧ threadIndexCounter w'
            = (threadIndexCounter w + length tids)%nat
          ∧ length (m_jobQueues w') = length (m_jobQueues w)
          ∧ length (m_jobPointers w') = length (m_jobPointers w)
          ∧ (∀ i, m_jobQueues w' !! i
                  = if decide (threadIndexCounter w ≤ i
                               < threadIndexCounter w + length tids)%nat
                    then Some (Some []) else m_jobQueues w !! i)
          ∧ (∀ i, m_jobPointers w' !! i
                  = if decide (threadIndexCounter w ≤ i
                               < threadIndexCounter w + length tids)%nat
                    then Some None else m_jobPointers w !! i)
          ∧ (∀ k tid, tids !! k = Some tid →
                      m_threadIndexMap w' !! tid
                      = Some (threadIndexCounter w + k)%nat)
          ∧ (∀ tid, tid ∉ tids →
                    m_threadIndexMap w' !! tid = m_threadIndexMap w !! tid)
          ∧ m_jobPools w' = m_jobPools w
          ∧ m_threads_size w' = m_threads_size w
          ∧ m_terminate w' = m_terminate w
          ∧ m_numJobs w' = m_numJobs w
          ∧ rand_pos w' = rand_pos w ∧ rand_seq w' = rand_seq w
          ∧ body_log w' = body_log w ∧ finished_log w' = finished_log w.
Proof.
  induction tids as [|tid tids IH]; intros w Hnd Hq Hp.
  - exists w. cbn [length] in *. split; [reflexivity|].
    split; [lia|]. split; [done|]. split; [done|].
    split; [intros i; rewrite decide_False by lia; done|].
    split; [intros i; rewrite decide_False by lia; done|].
    split; [intros k tid Hk; by rewrite lookup_nil in Hk|]. by repeat split.
  - cbn [length] in *. apply NoDup_cons in Hnd as [Htid Hnd].
    set (c := threadIndexCounter w) in *.
    pose proof (threadTask_start_run tid w ltac:(lia) ltac:(lia)) as Hrun.
    fold c in Hrun.
    set (w1 := set_threadIndexMap _ _) in Hrun.
    destruct (IH w1 Hnd) as (w' & Hrun' & Hc & Hlq & Hlp & Hqs & Hps & Hmap
                            & Hmap' & Hrest).
    { unfold w1. wsimpl. rewrite length_insert. lia. }
    { unfold w1. wsimpl. rewrite length_insert. lia. }
    change (threadIndexCounter w1) with (S c) in *.
    exists w'. split.
    { cbn [Worker.start_workers]. erewrite bind_run; [|exact Hrun]. done. }
    split; [lia|].
    split; [rewrite Hlq; unfold w1; wsimpl; by rewrite length_insert|].
    split; [rewrite Hlp; unfold w1; wsimpl; by rewrite length_insert|].
    split.
    { intros i. rewrite Hqs. unfold w1. wsimpl.
      destruct (decide (i = c)) as [->|Hne].
      - rewrite decide_False by lia. rewrite decide_True by lia.
        apply list_lookup_insert_eq. lia.
      - rewrite list_lookup_insert_ne by done.
        repeat case_decide; try done; lia. }
    split.
    { intros i. rewrite Hps. unfold w1. wsimpl.
      destruct (decide (i = c)) as [->|Hne].
      - rewrite decide_False by lia. rewrite decide_True by lia.
        apply list_lookup_insert_eq. lia.
      - rewrite list_lookup_insert_ne by done.
        repeat case_decide; try done; lia. }
    split.
    { intros [|k] t Ht.
      - injection Ht as <-. rewrite Hmap' by done. unfold w1. wsimpl.
        rewrite lookup_insert_eq. f_equal. lia.
      - rewrite (Hmap k t Ht). f_equal. lia. }
    split.
    { intros t Ht. apply not_elem_of_cons in Ht as [Hne Ht].
      rewrite Hmap' by done. unfold w1. wsimpl.
      by rewrite lookup_insert_ne. }
    exact Hrest.
Qed.

(** ** Submitting before a worker has created its queue *)

(** X11.  The constructor fills [m_jobQueues] with null pointers and every worker
    creates its own queue in its prologue.  When only the first workers
    have run the prologue and [std::rand] picks a worker that has not,
    [addJob] pushes through a null queue pointer: undefined behaviour. *)
Theorem addJob_before_worker_start (threadCount : nat)
    (tids : list ThreadId) (rnd : nat → nat) (b : bool)
    (pJob : option JobPtr) :
  NoDup tids → (length tids ≤ threadCount)%nat →
  (length tids ≤ rnd 0%nat mod threadCount)%nat →
  ∃ w, Worker.start_workers tids (Worker.initial_world threadCount rnd b)
       = Ok tt w
       ∧ JobSystem.addJob pJob w = UB.
Proof.
  intros Hnd Hlen Hpick.
  destruct (start_workers_from tids (Worker.initial_world threadCount rnd b)
              Hnd)
    as (w & Hrun & Hc & Hlq & Hlp & Hqs & Hps & Hmap & Hmap' & Hpools
        & Hsize & Hterm & Hnum & Hrp & Hrs & _).
  { cbn. rewrite length_replicate. lia. }
  { cbn. rewrite length_replicate. lia. }
  exists w. split; [done|].
  cbn [Worker.initial_world threadIndexCounter m_jobQueues m_jobPointers
       m_threads_size rand_pos rand_seq] in *.
  unfold JobSystem.addJob, JobSystem.rand.
  rewrite bind_modify. unfold bind at 1. wsimpl.
  rewrite bind_get_world. wsimpl. rewrite Hsize, Hrp, Hrs.
  case_decide; [done|].
  rewrite Hqs. rewrite decide_False by lia.
  destruct (replicate threadCount None !! (rnd 0%nat mod threadCount)%nat)
    as [[q|]|] eqn:Hl; try done.
  apply lookup_replicate in Hl as [[=] _].
Qed.

Lemma addJob_before_worker_start_witness :
  ∃ w, Worker.start_workers [1%nat] (Worker.initial_world 2 (λ _, 1%nat) true)
       = Ok tt w
       ∧ JobSystem.addJob (Some slot0) w = UB.
Proof.
  apply (addJob_before_worker_start 2 [1%nat] (λ _, 1%nat) true (Some slot0)).
  - apply NoDup_singleton.
  - cbn. lia.
  - vm_compute. lia.
Defined.

(** ** The loop of [threadTask] *)

Lemma steal_queue_run (i : nat) (w : World) (q : list (option JobPtr)) :
  m_jobQueues w !! i = Some (Some q) →
  Worker.steal_queue i w
  = Ok (JobQueue.steal q).1
       (set_jobQueues (<[i := Some (JobQueue.steal q).2]> (m_jobQueues w)) w).
Proof.
  intros Hq. unfold Worker.steal_queue. rewrite bind_get_world, Hq.
  by destruct (JobQueue.steal q).
Qed.

(** X12.  The steal loop never takes from the worker's own queue, draws at most
    [max] random numbers, and changes nothing but the other queues and the
    position of the random source.  It does nothing at all when the worker
    already has a job or is the only worker. *)
Theorem steal_loop_spares_own_queue (max : nat) (threadIndex : nat) :
  ∀ (pJob : option JobPtr) (w : World),
    queues_ready w →
    ∃ r w', Worker.steal_loop max threadIndex pJob w = Ok r w'
            ∧ m_jobQueues w' !! threadIndex = m_jobQueues w !! threadIndex
            ∧ (rand_pos w ≤ rand_pos w' ≤ rand_pos w + max)%nat
            ∧ queues_ready w'
            ∧ m_jobPools w' = m_jobPools w ∧ same_sched w w'
            ∧ m_numJobs w' = m_numJobs w
            ∧ body_log w' = body_log w ∧ finished_log w' = finished_log w
            ∧ (is_Some pJob ∨ m_threads_size w = 1%nat → r = pJob ∧ w' = w).
Proof.
  induction max as [|max IH]; intros pJob w Hready.
  - exists pJob, w. split; [reflexivity|]. split; [done|]. split; [lia|].
    repeat (split; [done|]); done.
  - cbn [Worker.steal_loop]. rewrite bind_get_world.
    destruct pJob as [x|].
    { exists (Some x), w. split; [reflexivity|]. split; [done|].
      split; [lia|]. repeat (split; [done|]); done. }
    case_decide as Hsize.
    2:{ exists None, w. split; [reflexivity|]. split; [done|].
        split; [lia|]. repeat (split; [done|]); done. }
    unfold JobSystem.rand. unfold bind at 1.
    set (wr := set_rand_pos (S (rand_pos w)) w).
    set (i := (rand_seq w (rand_pos w) mod m_threads_size w)%nat).
    assert (Hi : (i < m_threads_size w)%nat).
    { apply Nat.mod_upper_bound. lia. }
    assert (Hreadyr : queues_ready wr) by done.
    case_decide as Hne.
    + pose proof Hready as (Hpos & Hlen & Hq).
      destruct (Hq i Hi) as [q Hqi].
      erewrite bind_run; [|apply (steal_queue_run i wr q); exact Hqi].
      set (w1 := set_jobQueues _ wr).
      assert (Hready1 : queues_ready w1).
      { eapply queues_ready_set_jobQueues; [exact Hreadyr|done|done]. }
      destruct (IH (JobQueue.steal q).1 w1 Hready1)
        as (r & w' & Hrun & Hown & Hrand & Hready' & Hpools & Hs & Hnum
            & Hbl & Hfl & _).
      exists r, w'. split; [exact Hrun|]. split.
      { rewrite Hown. unfold w1. wsimpl. by apply list_lookup_insert_ne. }
      split; [unfold w1, wr in Hrand; wsimpl; lia|]. split; [done|].
      split; [done|]. split; [by apply same_sched_trans with w1|].
      split; [done|]. split; [done|]. split; [done|].
      intros [[? [=]]|Hone]. lia.
    + rewrite bind_ret.
      destruct (IH None wr Hreadyr)
        as (r & w' & Hrun & Hown & Hrand & Hready' & Hpools & Hs & Hnum
            & Hbl & Hfl & _).
      exists r, w'. split; [exact Hrun|]. split; [done|].
      split; [unfold wr in Hrand; wsimpl; lia|]. split; [done|].
      split; [done|]. split; [by apply same_sched_trans with wr|].
      split; [done|]. split; [done|]. split; [done|].
      intros [[? [=]]|Hone]. lia.
Qed.

Lemma steal_loop_spares_own_queue_witness :
  ∃ r w', Worker.steal_loop 5 1 None world_tree_requested = Ok r w'
          ∧ m_jobQueues w' !! 1%nat = m_jobQueues world_tree_requested !! 1%nat.
Proof.
  destruct (steal_loop_spares_own_queue 5 1 None world_tree_requested)
    as (r & w' & Hrun & Hown & _).
  - exact (proj1 world_tree_sched_ok).
  - exists r, w'. split; [exact Hrun|exact Hown].
Defined.

(** X13.  A worker whose own queue is not empty runs the job at its front: it
    does not steal and draws no random number.  The job is removed from
    the queue and made the current job of the worker before it is
    called. *)
Theorem worker_runs_own_queue_first (fuel : nat) (tid : ThreadId)
    (threadIndex : nat) (w : World) (x : JobPtr)
    (q : list (option JobPtr)) :
  m_terminate w = false →
  m_jobQueues w !! threadIndex = Some (Some (Some x :: q)) →
  Worker.threadTask_iteration fuel tid threadIndex w
  = (do _ <- JobSystem.Job_call fuel tid x; ret true)
      (set_jobPointers (<[threadIndex := Some x]> (m_jobPointers w))
         (set_jobQueues (<[threadIndex := Some q]> (m_jobQueues w)) w)).
Proof.
  intros Hterm Hq. unfold Worker.threadTask_iteration.
  rewrite bind_get_world, Hterm.
  unfold Worker.pop_queue. rewrite bind_bind, bind_get_world, Hq.
  rewrite pop_cons. cbv iota beta. rewrite bind_bind, bind_modify, bind_ret.
  rewrite bind_get_world. wsimpl. rewrite Hterm.
  rewrite (bind_run _ _ _ _ _ (steal_loop_some 5 threadIndex x _)).
  rewrite bind_get_world. wsimpl. rewrite Hterm.
  by rewrite bind_modify.
Qed.

Lemma worker_runs_own_queue_first_witness :
  Worker.threadTask_iteration 4 1%nat 0 world_tree_requested
  = (do _ <- JobSystem.Job_call 4 1%nat slot0; ret true)
      (set_jobPointers (<[0%nat := Some slot0]>
                          (m_jobPointers world_tree_requested))
         (set_jobQueues (<[0%nat := Some []]>
                           (m_jobQueues world_tree_requested))
            world_tree_requested)).
Proof.
  apply (worker_runs_own_queue_first 4 1%nat 0 world_tree_requested slot0 []).
  - vm_compute. reflexivity.
  - vm_compute. reflexivity.
Defined.

(** X14.  After [terminate()] no worker takes a job any more: every trip through
    the loop of [threadTask] leaves at its first test, whatever is queued,
    so the state after any schedule is the state after [terminate()]. *)
Theorem terminate_stops_workers (fuel : nat)
    (sched : list (ThreadId * nat)) (w : World) :
  (do _ <- JobSystem.terminate; Worker.run_schedule fuel sched) w
  = Ok tt (set_terminate true w).
Proof.
  unfold JobSystem.terminate. rewrite bind_modify.
  induction sched as [|[tid idx] sched IH]; [reflexivity|].
  cbn [Worker.run_schedule]. unfold Worker.threadTask_iteration.
  rewrite bind_bind, bind_get_world. wsimpl. by rewrite bind_ret.
Qed.

(** * Running a job to completion *)

(** The part of [Job::operator()] before the last two statements, for a
    job whose body only returns and whose pool is not played back. *)
Lemma Job_call_leaf_front (fuel : nat) (tid : ThreadId) (x : JobPtr)
    (w : World) (j : Job) (pool : JobPool) :
  jobAt w x = Some j →
  m_function j = Some (Some BReturn) →
  m_jobPools w !! m_poolNumber j = Some pool →
  isPlayedBack pool = false →
  JobSystem.Job_call fuel tid x w
  = JobSystem.Job_call_finish fuel x
      (set_body_log (body_log w ++ [x])
         (updJob (set_numUnfinishedChildren 1) x w)).
Proof.
  intros Hj Hf Hpool Hplay. unfold JobSystem.Job_call.
  erewrite bind_run; [|apply readJob_run; exact Hj]. rewrite Hf.
  erewrite bind_run; [|eapply writeJob_run; exact Hj].
  set (wb := updJob (set_numUnfinishedChildren 1) x w).
  unfold JobSystem.call_function. rewrite bind_bind, bind_modify.
  set (wc := set_body_log (body_log wb ++ [x]) wb).
  cbn [JobSystem.run_body]. rewrite bind_ret.
  assert (Hjc : jobAt wc x = Some (set_numUnfinishedChildren 1 j)).
  { change (jobAt wc x) with (jobAt wb x). unfold wb.
    by rewrite jobAt_updJob_eq, Hj. }
  erewrite bind_run; [|apply readJob_run; exact Hjc].
  cbn [m_poolNumber set_numUnfinishedChildren].
  destruct (pool_updJob (set_numUnfinishedChildren 1) x w _ pool Hpool)
    as (pool' & Hpool' & _ & _ & Hpb & _).
  erewrite bind_run; [|apply readPool_run; exact Hpool'].
  by rewrite Hpb, Hplay, bind_ret.
Qed.

(** X16.  [Job::operator()] on a job without parent and successor whose body
    only returns, in a pool that is not played back: the body is called
    once, [onFinished] runs once, the counter of the job is back at 0 and
    the slot is marked available, [m_numJobs] is one lower, the main thread
    is notified exactly when [m_numJobs] was 1, and no other slot, no queue
    and no thread bookkeeping has changed. *)
Theorem Job_call_leaf (fuel : nat) (tid : ThreadId) (x : JobPtr)
    (w : World) (j : Job) (pool : JobPool) :
  jobAt w x = Some j →
  m_function j = Some (Some BReturn) →
  m_parentJob j = None → m_onFinishedJob j = None →
  m_jobPools w !! m_poolNumber j = Some pool →
  isPlayedBack pool = false →
  (0 < fuel)%nat →
  ∃ w', JobSystem.Job_call fuel tid x w = Ok tt w'
        ∧ jobAt w' x
          = Some (set_available true (set_numUnfinishedChildren 0 j))
        ∧ (∀ q, q ≠ x → jobAt w' q = jobAt w q)
        ∧ body_log w' = body_log w ++ [x]
        ∧ finished_log w' = finished_log w ++ [x]
        ∧ m_numJobs w' = wrap32 (m_numJobs w - 1)
        ∧ notify_count w'
          = (if decide (m_numJobs w = 1) then S (notify_count w)
             else notify_count w)
        ∧ m_jobQueues w' = m_jobQueues w
        ∧ same_sched w w'.
Proof.
  intros Hj Hf Hpar Hsucc Hpool Hplay Hfuel.
  destruct fuel as [|fuel]; [lia|].
  rewrite (Job_call_leaf_front (S fuel) tid x w j pool Hj Hf Hpool Hplay).
  set (wb := updJob (set_numUnfinishedChildren 1) x w).
  set (wc := set_body_log (body_log w ++ [x]) wb).
  assert (Hjc : jobAt wc x = Some (set_numUnfinishedChildren 1 j)).
  { change (jobAt wc x) with (jobAt wb x). unfold wb.
    by rewrite jobAt_updJob_eq, Hj. }
  unfold JobSystem.Job_call_finish.
  erewrite bind_run; [|apply readJob_run; exact Hjc].
  erewrite bind_run; [|eapply writeJob_run; exact Hjc].
  cbn [m_numUnfinishedChildren set_numUnfinishedChildren].
  rewrite decide_True by done.
  set (wd := updJob _ x wc).
  cbn [JobSystem.onFinished]. rewrite bind_modify.
  set (we := set_finished_log (finished_log wd ++ [x]) wd).
  assert (Hje : jobAt we x
                = Some (set_numUnfinishedChildren (wrap32 (1 - 1))
                          (set_numUnfinishedChildren 1 j))).
  { change (jobAt we x) with (jobAt wd x). unfold wd.
    by rewrite jobAt_updJob_eq, Hjc. }
  erewrite bind_run; [|apply readJob_run; exact Hje].
  cbn [m_parentJob set_numUnfinishedChildren]. rewrite Hpar, bind_ret.
  unfold JobSystem.onFinished_rest.
  erewrite bind_run; [|apply readJob_run; exact Hje].
  cbn [m_onFinishedJob set_numUnfinishedChildren]. rewrite Hsucc, bind_ret.
  rewrite bind_get_world, bind_modify.
  change (m_numJobs we) with (m_numJobs w).
  set (wf := set_numJobs _ we).
  assert (Hother : ∀ v, (∀ q, jobAt v q = jobAt we q) →
                        ∀ q, q ≠ x → jobAt v q = jobAt w q).
  { intros v Hv q Hq. rewrite Hv.
    change (jobAt we q) with (jobAt wd q). unfold wd.
    rewrite jobAt_updJob_ne by done.
    change (jobAt wc q) with (jobAt wb q). unfold wb.
    by rewrite jobAt_updJob_ne. }
  case_decide as Hone.
  - rewrite bind_modify.
    set (wg := set_notify_count _ wf).
    assert (Hjg : jobAt wg x = jobAt we x) by done.
    erewrite writeJob_run; [|rewrite Hjg; exact Hje].
    eexists. split; [reflexivity|].
    split; [rewrite jobAt_updJob_eq, Hjg, Hje; reflexivity|].
    split.
    { intros q Hq. rewrite jobAt_updJob_ne by done. by apply Hother. }
    by repeat split.
  - rewrite bind_ret.
    assert (Hjg : jobAt wf x = jobAt we x) by done.
    erewrite writeJob_run; [|rewrite Hjg; exact Hje].
    eexists. split; [reflexivity|].
    split; [rewrite jobAt_updJob_eq, Hjg, Hje; reflexivity|].
    split.
    { intros q Hq. rewrite jobAt_updJob_ne by done. by apply Hother. }
    by repeat split.
Qed.

Lemma Job_call_leaf_witness :
  ∃ w', JobSystem.Job_call 1 1%nat slot0 world_leaf_running = Ok tt w'
        ∧ m_numJobs w' = wrap32 (m_numJobs world_leaf_running - 1)
        ∧ notify_count w' = S (notify_count world_leaf_running).
Proof.
  destruct (Job_call_leaf 1 1%nat slot0 world_leaf_running
              (the_job world_leaf_running slot0)
              (the_pool world_leaf_running 0))
    as (w' & Hrun & _ & _ & _ & _ & Hnum & Hnot & _).
  - vm_compute. reflexivity.
  - vm_compute. reflexivity.
  - vm_compute. reflexivity.
  - vm_compute. reflexivity.
  - vm_compute. reflexivity.
  - vm_compute. reflexivity.
  - lia.
  - exists w'. split; [exact Hrun|]. split; [exact Hnum|exact Hnot].
Defined.

(** X17.  [Job::operator()] on a job without parent that has a successor, with a
    body that only returns, in a pool that is not played back: when the job
    finishes, the successor is added, exactly once, at the back of the
    queue that the next value of [std::rand] selects, and no other queue
    changes; [onFinished] runs once for the job, the slot is marked
    available, and [m_numJobs] has been raised for the successor and
    lowered for the job. *)
Theorem Job_call_schedules_successor (fuel : nat) (tid : ThreadId)
    (x s : JobPtr) (w : World) (j : Job) (pool : JobPool) :
  jobAt w x = Some j →
  m_function j = Some (Some BReturn) →
  m_parentJob j = None → m_onFinishedJob j = Some s →
  m_jobPools w !! m_poolNumber j = Some pool →
  isPlayedBack pool = false →
  queues_ready w →
  (0 < fuel)%nat →
  ∃ w', JobSystem.Job_call fuel tid x w = Ok tt w'
        ∧ all_queued w' ≡ₚ all_queued w ++ [Some s]
        ∧ jobAt w' x
          = Some (set_available true (set_numUnfinishedChildren 0 j))
        ∧ (∀ q, q ≠ x → jobAt w' q = jobAt w q)
        ∧ body_log w' = body_log w ++ [x]
        ∧ finished_log w' = finished_log w ++ [x]
        ∧ m_numJobs w' = wrap32 (wrap32 (m_numJobs w + 1) - 1)
        ∧ pushed_back w w' (Some s).
Proof.
  intros Hj Hf Hpar Hsucc Hpool Hplay Hready Hfuel.
  destruct fuel as [|fuel]; [lia|].
  rewrite (Job_call_leaf_front (S fuel) tid x w j pool Hj Hf Hpool Hplay).
  set (wb := updJob (set_numUnfinishedChildren 1) x w).
  set (wc := set_body_log (body_log w ++ [x]) wb).
  assert (Hjc : jobAt wc x = Some (set_numUnfinishedChildren 1 j)).
  { change (jobAt wc x) with (jobAt wb x). unfold wb.
    by rewrite jobAt_updJob_eq, Hj. }
  unfold JobSystem.Job_call_finish.
  erewrite bind_run; [|apply readJob_run; exact Hjc].
  erewrite bind_run; [|eapply writeJob_run; exact Hjc].
  cbn [m_numUnfinishedChildren set_numUnfinishedChildren].
  rewrite decide_True by done.
  set (wd := updJob _ x wc).
  cbn [JobSystem.onFinished]. rewrite bind_modify.
  set (we := set_finished_log (finished_log wd ++ [x]) wd).
  assert (Hje : jobAt we x
                = Some (set_numUnfinishedChildren (wrap32 (1 - 1))
                          (set_numUnfinishedChildren 1 j))).
  { change (jobAt we x) with (jobAt wd x). unfold wd.
    by rewrite jobAt_updJob_eq, Hjc. }
  erewrite bind_run; [|apply readJob_run; exact Hje].
  cbn [m_parentJob set_numUnfinishedChildren]. rewrite Hpar, bind_ret.
  unfold JobSystem.onFinished_rest.
  erewrite bind_run; [|apply readJob_run; exact Hje].
  cbn [m_onFinishedJob set_numUnfinishedChildren]. rewrite Hsucc.
  assert (Hreadye : queues_ready we) by done.
  destruct (addJob_counted (Some s) we Hreadye)
    as (wq & Hrun & Hpools & Hs & Hbl & Hfl & Hnc & Hnum & Hreadyq & Hq).
  erewrite bind_run; [|exact Hrun].
  rewrite bind_get_world, bind_modify.
  set (wf := set_numJobs _ wq).
  assert (Hjq : jobAt wq x = jobAt we x) by (by apply jobAt_same_pools).
  assert (Hother : ∀ v, (∀ q, jobAt v q = jobAt wq q) →
                        ∀ q, q ≠ x → jobAt v q = jobAt w q).
  { intros v Hv q Hq'. rewrite Hv, (jobAt_same_pools we wq) by done.
    change (jobAt we q) with (jobAt wd q). unfold wd.
    rewrite jobAt_updJob_ne by done.
    change (jobAt wc q) with (jobAt wb q). unfold wb.
    by rewrite jobAt_updJob_ne. }
  assert (Hfacts : all_queued wq ≡ₚ all_queued w ++ [Some s]
                   ∧ body_log wq = body_log w ++ [x]
                   ∧ finished_log wq = finished_log w ++ [x]
                   ∧ wrap32 (m_numJobs wq - 1)
                     = wrap32 (wrap32 (m_numJobs w + 1) - 1)).
  { split; [by rewrite Hq|]. split; [by rewrite Hbl|].
    split; [by rewrite Hfl|]. by rewrite Hnum. }
  destruct Hfacts as (Hq' & Hbl' & Hfl' & Hnum').
  assert (Hpush : pushed_back w wq (Some s)).
  { apply (pushed_back_from w we); [reflexivity..|]. by apply addJob_pushes. }
  case_decide as Hone.
  - rewrite bind_modify.
    set (wg := set_notify_count _ wf).
    assert (Hjg : jobAt wg x = jobAt we x) by done.
    erewrite writeJob_run; [|rewrite Hjg; exact Hje].
    eexists. split; [reflexivity|]. split; [done|].
    split; [rewrite jobAt_updJob_eq, Hjg, Hje; reflexivity|].
    split.
    { intros q Hqx. rewrite jobAt_updJob_ne by done. by apply Hother. }
    split; [done|]. split; [done|]. split; [done|].
    by apply (pushed_back_to w wq).
  - rewrite bind_ret.
    assert (Hjg : jobAt wf x = jobAt we x) by done.
    erewrite writeJob_run; [|rewrite Hjg; exact Hje].
    eexists. split; [reflexivity|]. split; [done|].
    split; [rewrite jobAt_updJob_eq, Hjg, Hje; reflexivity|].
    split.
    { intros q Hqx. rewrite jobAt_updJob_ne by done. by apply Hother. }
    split; [done|]. split; [done|]. split; [done|].
    by apply (pushed_back_to w wq).
Qed.

Lemma Job_call_schedules_successor_witness :
  ∃ w', JobSystem.Job_call 1 1%nat slot0 world_successor_pending = Ok tt w'
        ∧ all_queued w' ≡ₚ all_queued world_successor_pending
                           ++ [Some (mkJobPtr 0 0 1)]
        ∧ m_jobQueues w' = [Some [Some (mkJobPtr 0 0 1)]].
Proof.
  destruct (Job_call_schedules_successor 1 1%nat slot0 (mkJobPtr 0 0 1)
              world_successor_pending
              (the_job world_successor_pending slot0)
              (the_pool world_successor_pending 0))
    as (w' & Hrun & Hq & _ & _ & _ & _ & _ & (q & Hq1 & Hq2)).
  - vm_compute. reflexivity.
  - vm_compute. reflexivity.
  - vm_compute. reflexivity.
  - vm_compute. reflexivity.
  - vm_compute. reflexivity.
  - vm_compute. reflexivity.
  - apply (queues_ready_one_worker _ []); vm_compute; reflexivity.
  - lia.
  - exists w'. split; [exact Hrun|]. split; [exact Hq|].
    vm_compute in Hq1. injection Hq1 as <-. rewrite Hq2.
    vm_compute. reflexivity.
Defined.

(** * Calls from inside a job body *)

(** X18.  While the pool of the current job is played back, [onFinishedAddJob]
    and [onFinishedTerminatePool] return at once: no successor is
    allocated or registered and the world is unchanged. *)
Theorem successor_ignored_in_playback (fuel : nat) (tid : ThreadId)
    (func : Function) (w : World) (n : nat) (cur : JobPtr) (j : Job)
    (pool : JobPool) :
  m_threadIndexMap w !! tid = Some n →
  m_jobPointers w !! n = Some (Some cur) →
  jobAt w cur = Some j →
  m_jobPools w !! m_poolNumber j = Some pool →
  isPlayedBack pool = true →
  JobSystem.onFinishedAddJob fuel tid func w = Ok tt w
  ∧ JobSystem.onFinishedTerminatePool fuel tid w = Ok tt w.
Proof.
  intros Htid Hcur Hj Hpool Hplay.
  assert (H : ∀ f, JobSystem.onFinishedAddJob fuel tid f w = Ok tt w).
  { intros f. unfold JobSystem.onFinishedAddJob.
    rewrite (bind_run _ _ _ _ _ (getJobPointer_registered _ _ _ _ Htid Hcur)).
    rewrite (bind_run _ _ _ _ _ (readJob_run _ _ _ Hj)).
    rewrite (bind_run _ _ _ _ _ (readPool_run _ _ _ Hpool)).
    by rewrite Hplay. }
  split; [apply H|apply H].
Qed.

(** X19.  [addChildJob(func)], [onFinishedAddJob] and [onFinishedTerminatePool]
    read the pool number through the pointer to the caller's current job.
    On a thread whose current-job pointer is null, such as the main thread
    before worker 0 has run a job, the read goes through a null pointer:
    undefined behaviour, whatever the arguments. *)
Theorem child_calls_need_current_job (fuel : nat) (tid : ThreadId)
    (func : Function) (w w1 : World) :
  JobSystem.getJobPointer tid w = Ok None w1 →
  JobSystem.addChildJob fuel tid func w = UB
  ∧ JobSystem.onFinishedAddJob fuel tid func w = UB
  ∧ JobSystem.onFinishedTerminatePool fuel tid w = UB.
Proof.
  intros Hptr.
  unfold JobSystem.onFinishedTerminatePool, JobSystem.addChildJob,
    JobSystem.onFinishedAddJob.
  by rewrite !(bind_run _ _ _ _ _ Hptr).
Qed.

Lemma successor_ignored_in_playback_witness :
  JobSystem.onFinishedAddJob 1 1%nat leaf world_leaf_in_playback
  = Ok tt world_leaf_in_playback
  ∧ JobSystem.onFinishedTerminatePool 1 1%nat world_leaf_in_playback
    = Ok tt world_leaf_in_playback.
Proof.
  apply (successor_ignored_in_playback 1 1%nat leaf world_leaf_in_playback
           0 slot0 (the_job world_leaf_in_playback slot0)
           (the_pool world_leaf_in_playback 0)).
  - vm_compute. reflexivity.
  - vm_compute. reflexivity.
  - vm_compute. reflexivity.
  - vm_compute. reflexivity.
  - vm_compute. reflexivity.
Defined.

Lemma child_calls_need_current_job_witness :
  JobSystem.addChildJob 1 0%nat leaf (started_world 1 true) = UB
  ∧ JobSystem.onFinishedAddJob 1 0%nat leaf (started_world 1 true) = UB
  ∧ JobSystem.onFinishedTerminatePool 1 0%nat (started_world 1 true) = UB.
Proof.
  apply (child_calls_need_current_job 1 0%nat leaf (started_world 1 true)
           (set_threadIndexMap
              (<[0%nat := 0%nat]> (m_threadIndexMap (started_world 1 true)))
              (started_world 1 true))).
  vm_compute. reflexivity.
Defined.

(** ** Playing back an empty pool *)

(** X20.  [playBackPool] for a pool whose index is 0, called by a worker whose
    current job is a top-level job of another pool: the completion job is
    the next slot of the caller's pool, it gets the callback as function
    and is queued at once; the played pool is not put into playback mode
    and keeps its bookkeeping. *)
Theorem playBackPool_empty_pool (fuel : nat) (tid : ThreadId) (idx : nat)
    (pp : nat) (func : Function) (J : JobPtr) (w : World)
    (jj nj : Job) (pool poolq : JobPool) :
  m_threadIndexMap w !! tid = Some idx →
  m_jobPointers w !! idx = Some (Some J) →
  jobAt w J = Some jj → m_parentJob jj = None → m_poolNumber jj ≠ pp →
  pools_fit w →
  m_jobPools w !! m_poolNumber jj = Some poolq →
  JobMemory.segment_missing (jobIndex poolq) poolq = false →
  jobAt w (slot_of_index (m_poolNumber jj) (jobIndex poolq)) = Some nj →
  m_available nj = true →
  m_jobPools w !! pp = Some pool → jobIndex pool = 0 →
  queues_ready w →
  ∃ w', JobSystem.playBackPool (S fuel) tid pp func w = Ok tt w'
        ∧ all_queued w' ≡ₚ all_queued w
            ++ [Some (slot_of_index (m_poolNumber jj) (jobIndex poolq))]
        ∧ jobAt w' (slot_of_index (m_poolNumber jj) (jobIndex poolq))
          = Some (set_function (Some func)
                    (allocate_init (m_poolNumber jj) nj))
        ∧ (∀ t, t ≠ slot_of_index (m_poolNumber jj) (jobIndex poolq) →
                jobAt w' t = jobAt w t)
        ∧ (pool_view <$> m_jobPools w' !! pp) = Some (pool_view pool)
        ∧ m_numJobs w' = wrap32 (m_numJobs w + 1).
Proof.
  intros Htid Hptr HJ Hpar Hne Hfit Hq Hseg Hnj Hav Hpool Hidx Hready.
  set (q := m_poolNumber jj) in *.
  set (c := slot_of_index q (jobIndex poolq)) in *.
  unfold JobSystem.playBackPool.
  rewrite (bind_run _ _ _ _ _ (getJobPointer_registered _ _ _ _ Htid Hptr)).
  rewrite bind_bind. erewrite bind_run; [|apply readJob_run; exact HJ].
  rewrite bind_ret, Hpar.
  rewrite bind_bind. erewrite bind_run; [|apply readJob_run; exact HJ].
  rewrite bind_ret. fold q.
  erewrite bind_run;
    [|by apply (allocateJob_orphan_run fuel w q poolq nj)].
  fold c.
  set (wd := initialised q c (index_taken q poolq w)).
  assert (Hvd : valid wd c).
  { unfold wd. rewrite valid_initialised, valid_index_taken. by eexists. }
  unfold Job.setFunction.
  erewrite bind_run; [|apply writeJob_valid; exact Hvd].
  set (we := updJob (set_function (Some func)) c wd).
  assert (Hjobs : ∀ t, jobAt we t
                       = if decide (c = t)
                         then Some (set_function (Some func) (allocate_init q nj))
                         else jobAt w t).
  { intros t. unfold we, wd. rewrite jobAt_updJob, jobAt_initialised,
      jobAt_index_taken. case_decide; [|done]. subst t. by rewrite Hnj. }
  assert (Hpool_e : ∃ poole, m_jobPools we !! pp = Some poole
                             ∧ pool_view poole = pool_view pool).
  { assert (H1 : m_jobPools (index_taken q poolq w) !! pp = Some pool).
    { unfold index_taken. rewrite lookup_updPool_ne; [done|]. done. }
    assert (Hv : same_pool_views (index_taken q poolq w) we).
    { unfold we, wd, initialised.
      repeat (eapply same_pool_views_trans; [|apply same_pool_views_updJob]).
      apply same_pool_views_refl. }
    by apply (same_pool_views_lookup _ _ _ _ Hv H1). }
  destruct Hpool_e as (poole & Hpoole & Hv).
  pose proof Hv as Hv'. unfold pool_view in Hv'. injection Hv' as Hi _ _ _.
  erewrite bind_run; [|apply readPool_run; exact Hpoole].
  rewrite Hi, Hidx. rewrite decide_True by done.
  assert (Hreadye : queues_ready we) by (by apply (queues_ready_pools w)).
  destruct (addJob_counted (Some c) we Hreadye)
    as (w' & Hrun & Hpools & _ & _ & _ & _ & Hnum & _ & Hqs).
  exists w'. split; [exact Hrun|]. split; [by rewrite Hqs|].
  split.
  { rewrite (jobAt_same_pools we w') by done. rewrite Hjobs.
    by rewrite decide_True. }
  split.
  { intros t Ht. rewrite (jobAt_same_pools we w') by done. rewrite Hjobs.
    by rewrite decide_False. }
  split; [rewrite Hpools, Hpoole; cbn; by rewrite Hv|]. by rewrite Hnum.
Qed.

Lemma playBackPool_empty_pool_witness :
  ∃ w', JobSystem.playBackPool 1 1%nat 1 leaf world_caller_running = Ok tt w'
        ∧ all_queued w' ≡ₚ all_queued world_caller_running
                           ++ [Some (mkJobPtr 0 0 1)]
        ∧ (pool_view <$> m_jobPools w' !! 1%nat)
          = Some (pool_view (the_pool world_caller_running 1)).
Proof.
  destruct (playBackPool_empty_pool 0 1%nat 0%nat 1 leaf slot0
              world_caller_running (the_job world_caller_running slot0)
              (Job_ctor true) (the_pool world_caller_running 1)
              (the_pool world_caller_running 0))
    as (w' & Hrun & Hq & _ & _ & Hpool & _).
  - vm_compute. reflexivity.
  - vm_compute. reflexivity.
  - vm_compute. reflexivity.
  - vm_compute. reflexivity.
  - vm_compute. discriminate.
  - vm_compute. reflexivity.
  - vm_compute. reflexivity.
  - vm_compute. reflexivity.
  - vm_compute. reflexivity.
  - reflexivity.
  - vm_compute. reflexivity.
  - vm_compute. reflexivity.
  - apply (queues_ready_one_worker _ []); vm_compute; reflexivity.
  - exists w'. split; [exact Hrun|]. split; [exact Hq|exact Hpool].
Defined.

(** * What job bodies leave alone *)

Lemma kt_ret {A} (a : A) : keeps_threads (ret a).
Proof. by intros w a' w' [= _ <-]. Qed.

Lemma kt_bind {A B} (m : M A) (k : A → M B) :
  keeps_threads m → (∀ a, keeps_threads (k a)) → keeps_threads (bind m k).
Proof.
  intros Hm Hk w b w' (a & w1 & H1 & H2)%bind_Ok_inv.
  rewrite (Hk a _ _ _ H2). by apply (Hm _ _ _ H1).
Qed.

Lemma kt_undefined {A} : keeps_threads (@undefined A).
Proof. by intros w a w'. Qed.

Lemma kt_out_of_fuel {A} : keeps_threads (@out_of_fuel A).
Proof. by intros w a w'. Qed.

Lemma kt_bad_function_call {A} : keeps_threads (@bad_function_call A).
Proof. by intros w a w'. Qed.

Lemma kt_get_world : keeps_threads get_world.
Proof. by intros w a w' [= _ <-]. Qed.

Lemma kt_modify (f : World → World) :
  (∀ w, thread_view (f w) = thread_view w) → keeps_threads (modify f).
Proof. intros Hf w a w' [= _ <-]. apply Hf. Qed.

Lemma kt_readJob (p : JobPtr) : keeps_threads (readJob p).
Proof.
  intros w a w'. unfold readJob. destruct (lookupJob _ _); [|done].
  by intros [= _ <-].
Qed.

Lemma kt_writeJob (f : Job → Job) (p : JobPtr) : keeps_threads (writeJob f p).
Proof.
  intros w a w'. unfold writeJob. destruct (lookupJob _ _); [|done].
  by intros [= _ <-].
Qed.

Lemma kt_readPool (n : nat) : keeps_threads (readPool n).
Proof.
  intros w a w'. unfold readPool. destruct (_ !! _); [|done].
  by intros [= _ <-].
Qed.

Lemma kt_writePool (f : JobPool → JobPool) (n : nat) :
  keeps_threads (writePool f n).
Proof.
  intros w a w'. unfold writePool. destruct (_ !! _); [|done].
  by intros [= _ <-].
Qed.

Lemma kt_rand : keeps_threads JobSystem.rand.
Proof. by intros w a w' [= _ <-]. Qed.

Lemma kt_getThreadNumber (tid : ThreadId) :
  keeps_threads (JobSystem.getThreadNumber tid).
Proof.
  intros w a w'. unfold JobSystem.getThreadNumber.
  destruct (_ !! _); by intros [= _ <-].
Qed.

Create HintDb threads.

#[local] Hint Resolve kt_ret kt_undefined kt_out_of_fuel
  kt_bad_function_call kt_get_world kt_readJob kt_writeJob kt_readPool
  kt_writePool kt_rand kt_getThreadNumber : threads.

Ltac kt_step :=
  lazymatch goal with
  | |- keeps_threads (bind _ _) => apply kt_bind; [|intros ?]
  | |- keeps_threads (modify _) => apply kt_modify; intros ?; reflexivity
  | |- keeps_threads (match ?x with _ => _ end) => destruct x
  | |- keeps_threads (let '(_, _) := ?x in _) => destruct x
  | |- keeps_threads _ => solve [auto with threads]
  end.

Ltac kt := repeat kt_step.

Lemma kt_getJobPointer (tid : ThreadId) :
  keeps_threads (JobSystem.getJobPointer tid).
Proof. unfold JobSystem.getJobPointer. kt. Qed.

Lemma kt_addJob (pJob : option JobPtr) : keeps_threads (JobSystem.addJob pJob).
Proof. unfold JobSystem.addJob. kt. Qed.

Lemma kt_setParentJob (this parent : JobPtr) :
  keeps_threads (Job.setParentJob this parent).
Proof. unfold Job.setParentJob. kt. Qed.

Lemma kt_resetPool (n : nat) : keeps_threads (JobMemory.resetPool n).
Proof. unfold JobMemory.resetPool. kt. Qed.

#[local] Hint Resolve kt_getJobPointer kt_addJob kt_setParentJob
  kt_resetPool : threads.

Lemma kt_getNextJob (n : nat) : keeps_threads (JobMemory.getNextJob n).
Proof. unfold JobMemory.getNextJob. kt. Qed.

#[local] Hint Resolve kt_getNextJob : threads.

Lemma kt_probe (fuel n : nat) : keeps_threads (JobMemory.probe fuel n).
Proof. induction fuel as [|fuel IH]; cbn [JobMemory.probe]; kt. Qed.

#[local] Hint Resolve kt_probe : threads.

Lemma kt_allocateJob (fuel : nat) (pParent : option JobPtr) (n : nat) :
  keeps_threads (JobMemory.allocateJob fuel pParent n).
Proof. unfold JobMemory.allocateJob. kt. Qed.

#[local] Hint Resolve kt_allocateJob : threads.

Lemma kt_addJob_func (fuel : nat) (tid : ThreadId) (func : Function)
    (n : nat) :
  keeps_threads (JobSystem.addJob_func fuel tid func n).
Proof. unfold JobSystem.addJob_func, Job.setFunction. kt. Qed.

Lemma kt_addChildJob_in (fuel : nat) (tid : ThreadId) (func : Function)
    (n : nat) :
  keeps_threads (JobSystem.addChildJob_in fuel tid func n).
Proof. unfold JobSystem.addChildJob_in, Job.setFunction. kt. Qed.

#[local] Hint Resolve kt_addJob_func kt_addChildJob_in : threads.

Lemma kt_addChildJob (fuel : nat) (tid : ThreadId) (func : Function) :
  keeps_threads (JobSystem.addChildJob fuel tid func).
Proof. unfold JobSystem.addChildJob. kt. Qed.

Lemma kt_onFinishedAddJob (fuel : nat) (tid : ThreadId) (func : Function) :
  keeps_threads (JobSystem.onFinishedAddJob fuel tid func).
Proof.
  unfold JobSystem.onFinishedAddJob, Job.setFunction, Job.setOnFinished. kt.
Qed.

Lemma kt_playBackPool (fuel : nat) (tid : ThreadId) (n : nat)
    (func : Function) :
  keeps_threads (JobSystem.playBackPool fuel tid n func).
Proof. unfold JobSystem.playBackPool, Job.setFunction. kt. Qed.

Lemma kt_terminate : keeps_threads JobSystem.terminate.
Proof. unfold JobSystem.terminate. kt. Qed.

#[local] Hint Resolve kt_addChildJob kt_onFinishedAddJob kt_playBackPool
  kt_terminate : threads.

Lemma kt_run_body (fuel : nat) (tid : ThreadId) (b : Body) :
  keeps_threads (JobSystem.run_body fuel tid b).
Proof.
  induction b; cbn [JobSystem.run_body];
    unfold JobSystem.onFinishedTerminatePool; kt.
Qed.

#[local] Hint Resolve kt_run_body : threads.

Lemma kt_call_function (fuel : nat) (tid : ThreadId) (this : JobPtr)
    (func : Function) :
  keeps_threads (JobSystem.call_function fuel tid this func).
Proof. unfold JobSystem.call_function. kt. Qed.

Lemma kt_onFinished_rest (this : JobPtr) :
  keeps_threads (JobSystem.onFinished_rest this).
Proof. unfold JobSystem.onFinished_rest. kt. Qed.

#[local] Hint Resolve kt_call_function kt_onFinished_rest : threads.

Lemma kt_onFinished (fuel : nat) :
  ∀ this, keeps_threads (JobSystem.onFinished fuel this).
Proof.
  induction fuel as [|fuel IH]; intros this; cbn [JobSystem.onFinished];
    [kt|].
  unfold Job.childFinished_with. kt.
Qed.

#[local] Hint Resolve kt_onFinished : threads.

Lemma kt_play_children (fuel : nat) (this : JobPtr) :
  ∀ pChild, keeps_threads (JobSystem.play_children fuel this pChild).
Proof.
  induction fuel as [|fuel IH]; intros [child|];
    cbn [JobSystem.play_children]; kt.
Qed.

#[local] Hint Resolve kt_play_children : threads.

Lemma kt_Job_call (fuel : nat) (tid : ThreadId) (this : JobPtr) :
  keeps_threads (JobSystem.Job_call fuel tid this).
Proof.
  unfold JobSystem.Job_call, JobSystem.Job_call_playback,
    JobSystem.Job_call_finish. kt.
Qed.

Lemma kt_pop_queue (idx : nat) : keeps_threads (Worker.pop_queue idx).
Proof. unfold Worker.pop_queue. kt. Qed.

Lemma kt_steal_queue (idx : nat) : keeps_threads (Worker.steal_queue idx).
Proof. unfold Worker.steal_queue. kt. Qed.

#[local] Hint Resolve kt_Job_call kt_pop_queue kt_steal_queue : threads.

Lemma kt_steal_loop (max idx : nat) :
  ∀ pJob, keeps_threads (Worker.steal_loop max idx pJob).
Proof.
  induction max as [|max IH]; intros pJob; cbn [Worker.steal_loop]; kt.
Qed.

(** * Reusing a pool *)

Lemma resetPool_existing_run (n : nat) (w : World) (pool : JobPool) :
  pools_fit w → m_jobPools w !! n = Some pool →
  JobMemory.resetPool n w = Ok tt (updPool (set_jobIndex 0) n w).
Proof.
  intros Hfit Hpool. unfold JobMemory.resetPool. rewrite bind_get_world.
  rewrite (pool_missing_false n w Hfit) by (by eapply lookup_lt_Some).
  rewrite bind_ret. by eapply writePool_run.
Qed.

Lemma memory_ok_updPool (f : JobPool → JobPool) (n : nat) (w : World) :
  (∀ p, pool_ok p → pool_ok (f p)) → memory_ok w → memory_ok (updPool f n w).
Proof.
  intros Hf (Hpos & Hle & Hall). unfold memory_ok, updPool. wsimpl.
  rewrite length_alter. split; [done|]. split; [done|].
  apply Forall_alter; [done|]. intros p _. apply Hf.
Qed.

(** X4.  After [resetPool] the pool hands out its slots again from slot 0, and
    the slot still holds what the last job that used it left there: the
    links recorded in a pool survive the reset. *)
Theorem resetPool_restarts_at_slot_zero (n : nat) (w : World)
    (pool : JobPool) :
  memory_ok w → m_jobPools w !! n = Some pool →
  ∃ w', (do _ <- JobMemory.resetPool n; JobMemory.getNextJob n) w
        = Ok (mkJobPtr n 0 0) w'
        ∧ (∀ q, jobAt w' q = jobAt w q)
        ∧ (jobIndex <$> m_jobPools w' !! n) = Some 1
        ∧ memory_ok w'.
Proof.
  intros Hok Hpool.
  pose proof Hok as (_ & _ & Hall).
  pose proof (Forall_lookup_1 _ _ _ _ Hall Hpool) as Hpok.
  erewrite bind_run;
    [|by apply (resetPool_existing_run n w pool); [apply memory_ok_fit|]].
  set (w1 := updPool (set_jobIndex 0) n w).
  assert (Hok1 : memory_ok w1)
    by (apply memory_ok_updPool; [apply pool_ok_reset|done]).
  assert (Hp1 : m_jobPools w1 !! n = Some (set_jobIndex 0 pool)).
  { unfold w1. by rewrite lookup_updPool_eq, Hpool. }
  destruct (getNextJob_existing n w1 _ Hok1 Hp1)
    as (w' & pool' & Hrun & Hok' & Hv & Hjobs & Hpools & Hrest & Hp').
  assert (Hseg : JobMemory.segment_missing (jobIndex (set_jobIndex 0 pool))
                   (set_jobIndex 0 pool) = false).
  { destruct (JobMemory.segment_missing _ _) eqn:Hs; [|done].
    apply (segment_missing_iff _ (pool_ok_reset _ Hpok)) in Hs.
    destruct Hpok as (_ & _ & Hcap & _).
    unfold capacity in *. cbn [jobIndex jobLists set_jobIndex] in Hs. lia. }
  rewrite Hseg in Hp'. cbn [jobIndex set_jobIndex] in *.
  exists w'. split; [exact Hrun|]. split.
  { intros q. unfold jobAt, lookupJob. rewrite Hpools.
    destruct (decide (jp_pool q = n)) as [Hq|Hq].
    - rewrite Hq, list_lookup_insert_eq by (by eapply lookup_lt_Some).
      by rewrite Hpool, Hp'.
    - rewrite list_lookup_insert_ne by done.
      unfold w1, updPool. wsimpl. by rewrite list_lookup_alter_ne. }
  split; [|done].
  rewrite Hpools, list_lookup_insert_eq by (by eapply lookup_lt_Some).
  by rewrite Hp'.
Qed.

Lemma resetPool_restarts_at_slot_zero_witness :
  ∃ w', (do _ <- JobMemory.resetPool 0; JobMemory.getNextJob 0)
          world_segment_full
        = Ok (mkJobPtr 0 0 0) w'
        ∧ (jobIndex <$> m_jobPools w' !! 0%nat) = Some 1.
Proof.
  destruct (resetPool_restarts_at_slot_zero 0 world_segment_full
              (set_jobIndex (Z.of_nat m_listLength) (JobPool_ctor true))
              memory_ok_segment_full)
    as (w' & Hrun & _ & Hidx & _).
  - vm_compute. reflexivity.
  - exists w'. split; [exact Hrun|exact Hidx].
Defined.

(** ** Recording children *)

Lemma slot_of_index_inj (n : nat) (a b : Z) :
  0 ≤ a → 0 ≤ b → slot_of_index n a = slot_of_index n b → a = b.
Proof.
  intros Ha Hb. unfold slot_of_index.
  change (Z.of_nat m_listLength) with 4096. intros [= Hd Hm].
  apply Z2Nat.inj in Hd; [|by apply Z.div_pos|by apply Z.div_pos].
  apply Z2Nat.inj in Hm; [|by apply Z.mod_pos_bound|by apply Z.mod_pos_bound].
  rewrite (Z.div_mod a 4096), (Z.div_mod b 4096) by done.
  by rewrite Hd, Hm.
Qed.

Lemma slots_from_S (n : nat) (index : Z) (k : nat) :
  slots_from n index (S k)
  = slot_of_index n index :: slots_from n (index + 1) k.
Proof.
  unfold slots_from. cbn [seq fmap list_fmap]. rewrite Z.add_0_r. f_equal.
  rewrite <- fmap_S_seq, <- list_fmap_compose. apply list_fmap_ext.
  intros i x _. cbn. f_equal. lia.
Qed.

Lemma elem_of_slots_from (n : nat) (index : Z) (k : nat) (p : JobPtr) :
  p ∈ slots_from n index k
  ↔ ∃ i, (i < k)%nat ∧ p = slot_of_index n (index + Z.of_nat i).
Proof.
  unfold slots_from. rewrite list_elem_of_fmap. split.
  - intros (i & -> & Hi). apply elem_of_seq in Hi. exists i. split; [lia|done].
  - intros (i & Hi & ->). exists i. split; [done|]. apply elem_of_seq. lia.
Qed.

Lemma wrap32_add_l (a b : Z) : wrap32 (wrap32 a + b) = wrap32 (a + b).
Proof. unfold wrap32. by rewrite Z.add_mod_idemp_l. Qed.

Lemma wrap32_idem (a : Z) : wrap32 (wrap32 a) = wrap32 a.
Proof. unfold wrap32. by rewrite Z.mod_mod. Qed.

Lemma addChildJob_run (fuel : nat) (tid : ThreadId) (idx : nat)
    (cur : JobPtr) (cj : Job) (func : Function) (w : World) :
  m_threadIndexMap w !! tid = Some idx →
  m_jobPointers w !! idx = Some (Some cur) →
  jobAt w cur = Some cj →
  JobSystem.addChildJob fuel tid func w
  = JobSystem.addChildJob_in fuel tid func (m_poolNumber cj) w.
Proof.
  intros Htid Hptr Hcj. unfold JobSystem.addChildJob.
  rewrite (bind_run _ _ _ _ _ (getJobPointer_registered _ _ _ _ Htid Hptr)).
  by rewrite (bind_run _ _ _ _ _ (readJob_run _ _ _ Hcj)).
Qed.

Lemma record_children_run (fuel : nat) (tid : ThreadId) (idx : nat)
    (cur : JobPtr) (func : Function) (n : nat) (rest : Body) (k : nat) :
  ∀ (w : World) (pool : JobPool) (l : list JobPtr),
  m_threadIndexMap w !! tid = Some idx →
  m_jobPointers w !! idx = Some (Some cur) →
  (m_poolNumber <$> jobAt w cur) = Some n →
  pools_fit w → m_jobPools w !! n = Some pool →
  isPlayedBack pool = false →
  0 ≤ jobIndex pool → jobIndex pool + Z.of_nat k < 2 ^ 32 →
  (∀ i, (i < k)%nat →
        (JobMemory.segment_missing (jobIndex pool + Z.of_nat i) pool = false)
        ∧ (slot_of_index n (jobIndex pool + Z.of_nat i) ∉ l)
        ∧ (slot_of_index n (jobIndex pool + Z.of_nat i) ≠ cur)
        ∧ ∃ j, jobAt w (slot_of_index n (jobIndex pool + Z.of_nat i))
               = Some j ∧ m_available j = true) →
  child_list w cur l →
  queues_ready w →
  (∀ c, counterAt w cur = Some c → wrap32 c = c) →
  wrap32 (m_numJobs w) = m_numJobs w →
  ∃ w', JobSystem.run_body (S fuel) tid (add_children k func rest) w
        = JobSystem.run_body (S fuel) tid rest w'
        ∧ child_list w' cur (l ++ slots_from n (jobIndex pool) k)
        ∧ counterAt w' cur
          = (λ c, wrap32 (c + Z.of_nat k)) <$> counterAt w cur
        ∧ all_queued w' ≡ₚ all_queued w
                           ++ (Some <$> slots_from n (jobIndex pool) k)
        ∧ m_numJobs w' = wrap32 (m_numJobs w + Z.of_nat k)
        ∧ Forall (λ p, ∃ j, jobAt w' p = Some j
                            ∧ m_function j = Some func
                            ∧ m_parentJob j = Some cur)
            (slots_from n (jobIndex pool) k)
        ∧ (jobIndex <$> m_jobPools w' !! n)
          = Some (jobIndex pool + Z.of_nat k)
        ∧ body_log w' = body_log w
        ∧ (∀ q, q ∉ slots_from n (jobIndex pool) k → q ≠ cur →
                (m_function <$> jobAt w' q) = (m_function <$> jobAt w q)
                ∧ (m_parentJob <$> jobAt w' q)
                  = (m_parentJob <$> jobAt w q)).
Proof.
  induction k as [|k IH];
    intros w pool l Htid Hptr Hcur Hfit Hpool Hplay H0 Hmax Hslots Hl Hready
           Hcw Hnw.
  { exists w. cbn [add_children]. split; [done|].
    unfold slots_from. cbn [seq fmap list_fmap]. rewrite !app_nil_r.
    split; [done|]. split.
    { destruct (counterAt w cur) as [c|] eqn:Hc; [|done]. cbn. f_equal.
      rewrite Z.add_0_r. symmetry. by apply Hcw. }
    split; [done|]. split; [by rewrite Z.add_0_r|].
    split; [apply Forall_nil_2|]. split; [rewrite Hpool; cbn; f_equal; lia|].
    done. }
  destruct (Hslots 0%nat ltac:(lia)) as (Hseg0 & Hnot0 & Hne0 & j & Hj & Hav).
  change (Z.of_nat 0) with 0 in *.
  rewrite Z.add_0_r in Hseg0, Hnot0, Hne0, Hj.
  destruct (jobAt w cur) as [cj|] eqn:Hcj; [|done].
  cbn in Hcur. injection Hcur as Hcn.
  destruct (addChildJob_in_run fuel tid idx cur func n w pool j l Htid Hptr
              Hfit Hpool Hplay Hseg0 Hj Hav Hl Hnot0 Hne0 Hready)
    as (w1 & Hrun1 & Hl1 & Hp1 & Hc1 & Hq1 & Hn1 & Hother1 & Hpn1
        & (pool1 & Hpool1 & Hi1 & Hplay1 & Hlen1) & Hfit1 & Hs1 & Hready1
        & Hbl1 & Hfp1 & _).
  rewrite wrap32_small in Hi1 by lia.
  destruct Hs1 as (_ & Hmap1 & _ & Hptr1).
  assert (Hdiff : ∀ i, slot_of_index n (jobIndex pool + Z.of_nat (S i))
                       ≠ slot_of_index n (jobIndex pool)).
  { intros i E. apply slot_of_index_inj in E; lia. }
  destruct (IH w1 pool1 (l ++ [slot_of_index n (jobIndex pool)]))
    as (w2 & Hrun2 & Hl2 & Hc2 & Hq2 & Hn2 & Hall2 & Hi2 & Hbl2 & Hfp2).
  - by rewrite Hmap1.
  - by rewrite Hptr1.
  - rewrite Hpn1, Hcj. cbn. by rewrite Hcn.
  - done.
  - done.
  - done.
  - lia.
  - lia.
  - intros i Hi.
    destruct (Hslots (S i) ltac:(lia)) as (Hs & Hn & Hne & j' & Hj' & Hav').
    rewrite Hi1.
    replace (jobIndex pool + 1 + Z.of_nat i)
      with (jobIndex pool + Z.of_nat (S i)) by lia.
    split; [by rewrite (segment_missing_length _ pool pool1)|].
    split.
    { rewrite not_elem_of_app, list_elem_of_singleton. split; [done|].
      apply Hdiff. }
    split; [done|]. exists j'. split; [|done].
    rewrite Hother1; [done|apply Hdiff|done|].
    intros E. symmetry in E. by apply last_Some_elem_of in E.
  - done.
  - done.
  - intros c. rewrite Hc1. destruct (counterAt w cur) as [c0|]; [|done].
    intros [= <-]. apply wrap32_idem.
  - rewrite Hn1. apply wrap32_idem.
  - rewrite Hi1 in *.
    assert (Hfresh : slot_of_index n (jobIndex pool)
                     ∉ slots_from n (jobIndex pool + 1) k).
    { rewrite elem_of_slots_from. intros (i & Hi & E).
      apply slot_of_index_inj in E; lia. }
    exists w2. rewrite slots_from_S. split.
    { cbn [add_children JobSystem.run_body].
      rewrite (bind_run (JobSystem.addChildJob (S fuel) tid func) _ w w1 tt);
        [exact Hrun2|].
      rewrite (addChildJob_run _ _ _ _ _ _ _ Htid Hptr Hcj), Hcn.
      exact Hrun1. }
    split; [by rewrite cons_middle, app_assoc|].
    split.
    { rewrite Hc2, Hc1. destruct (counterAt w cur) as [c|]; [|done].
      cbn. f_equal. rewrite wrap32_add_l. f_equal. lia. }
    split; [by rewrite Hq2, Hq1, fmap_cons, <- app_assoc|].
    split; [rewrite Hn2, Hn1, wrap32_add_l; f_equal; lia|].
    split.
    { apply Forall_cons. split; [|done].
      destruct (Hfp2 _ Hfresh Hne0) as [Hf Hp]. rewrite Hp1 in Hf, Hp.
      destruct (jobAt w2 (slot_of_index n (jobIndex pool))) as [a|];
        [|done].
      cbn in Hf, Hp. exists a. split; [done|].
      split; congruence. }
    split; [rewrite Hi2; f_equal; lia|].
    split; [by rewrite Hbl2|].
    intros q Hq Hqc. apply not_elem_of_cons in Hq as [Hq Hq'].
    destruct (Hfp2 q Hq' Hqc) as [Hf Hp].
    destruct (Hfp1 q Hq Hqc) as [Hf1 Hp1'].
    split; congruence.
Qed.

(** X21.  A job body that starts with [k] calls of [addChildJob(func)], run by a
    worker whose current job [cur] lies in a pool that is not played back
    and whose next [k] slots exist and are available: the [k] slots are
    appended, in the order of the calls, to the recorded child list of
    [cur]; each of them has [func] as function and [cur] as parent; the
    counter of [cur] and [m_numJobs] are [k] higher, the [k] jobs have been
    added to the queues, the index of the pool has advanced by [k], and the
    body goes on with what follows the calls. *)
Theorem run_body_records_children (fuel : nat) (tid : ThreadId) (idx : nat)
    (cur : JobPtr) (func : Function) (n : nat) (rest : Body) (k : nat)
    (w : World) (pool : JobPool) (l : list JobPtr) :
  m_threadIndexMap w !! tid = Some idx →
  m_jobPointers w !! idx = Some (Some cur) →
  (m_poolNumber <$> jobAt w cur) = Some n →
  pools_fit w → m_jobPools w !! n = Some pool →
  isPlayedBack pool = false →
  0 ≤ jobIndex pool → jobIndex pool + Z.of_nat k < 2 ^ 32 →
  (∀ i, (i < k)%nat →
        (JobMemory.segment_missing (jobIndex pool + Z.of_nat i) pool = false)
        ∧ (slot_of_index n (jobIndex pool + Z.of_nat i) ∉ l)
        ∧ (slot_of_index n (jobIndex pool + Z.of_nat i) ≠ cur)
        ∧ ∃ j, jobAt w (slot_of_index n (jobIndex pool + Z.of_nat i))
               = Some j ∧ m_available j = true) →
  child_list w cur l →
  queues_ready w →
  (∀ c, counterAt w cur = Some c → 0 ≤ c < 2 ^ 32) →
  0 ≤ m_numJobs w < 2 ^ 32 →
  ∃ w', JobSystem.run_body (S fuel) tid (add_children k func rest) w
        = JobSystem.run_body (S fuel) tid rest w'
        ∧ child_list w' cur (l ++ slots_from n (jobIndex pool) k)
        ∧ Forall (λ p, ∃ j, jobAt w' p = Some j
                            ∧ m_function j = Some func
                            ∧ m_parentJob j = Some cur)
            (slots_from n (jobIndex pool) k)
        ∧ counterAt w' cur
          = (λ c, wrap32 (c + Z.of_nat k)) <$> counterAt w cur
        ∧ all_queued w' ≡ₚ all_queued w
                           ++ (Some <$> slots_from n (jobIndex pool) k)
        ∧ m_numJobs w' = wrap32 (m_numJobs w + Z.of_nat k)
        ∧ (jobIndex <$> m_jobPools w' !! n)
          = Some (jobIndex pool + Z.of_nat k)
        ∧ body_log w' = body_log w.
Proof.
  intros Htid Hptr Hcur Hfit Hpool Hplay H0 Hmax Hslots Hl Hready Hc Hn.
  destruct (record_children_run fuel tid idx cur func n rest k w pool l
              Htid Hptr Hcur Hfit Hpool Hplay H0 Hmax Hslots Hl Hready)
    as (w' & Hrun & Hl' & Hc' & Hq' & Hn' & Hall & Hi & Hbl & _).
  - intros c Hcc. apply wrap32_small. by apply Hc.
  - by apply wrap32_small.
  - exists w'. split; [exact Hrun|]. split; [exact Hl'|].
    split; [exact Hall|]. split; [exact Hc'|]. split; [exact Hq'|].
    split; [exact Hn'|]. split; [exact Hi|exact Hbl].
Qed.

Lemma run_body_records_children_witness :
  ∃ w', JobSystem.run_body 1 1%nat (add_children 2 leaf BReturn)
          world_leaf_running = Ok tt w'
        ∧ child_list w' slot0 [mkJobPtr 0 0 1; mkJobPtr 0 0 2]
        ∧ all_queued w' ≡ₚ all_queued world_leaf_running
                           ++ [Some (mkJobPtr 0 0 1); Some (mkJobPtr 0 0 2)]
        ∧ m_numJobs w' = wrap32 (m_numJobs world_leaf_running + 2).
Proof.
  destruct (run_body_records_children 0 1%nat 0%nat slot0 leaf 0 BReturn 2
              world_leaf_running (the_pool world_leaf_running 0) [])
    as (w' & Hrun & Hl & _ & _ & Hq & Hnum & _).
  - vm_compute. reflexivity.
  - vm_compute. reflexivity.
  - vm_compute. reflexivity.
  - vm_compute. reflexivity.
  - vm_compute. reflexivity.
  - vm_compute. reflexivity.
  - vm_compute. discriminate.
  - vm_compute. reflexivity.
  - intros i Hi. destruct i as [|[|i]]; [| |lia].
    + split; [vm_compute; reflexivity|]. split; [apply not_elem_of_nil|].
      split; [vm_compute; discriminate|]. exists (Job_ctor true).
      split; [vm_compute; reflexivity|reflexivity].
    + split; [vm_compute; reflexivity|]. split; [apply not_elem_of_nil|].
      split; [vm_compute; discriminate|]. exists (Job_ctor true).
      split; [vm_compute; reflexivity|reflexivity].
  - exact child_list_leaf_running.
  - exact queues_ready_leaf_running.
  - intros c Hc. vm_compute in Hc. injection Hc as <-. lia.
  - vm_compute. split; [discriminate|reflexivity].
  - exists w'. split; [exact Hrun|]. split; [exact Hl|].
    split; [exact Hq|exact Hnum].
Defined.

(** * A slot that is used again keeps its parent pointer *)

(** C9, the code at the failing input.  Pool 0 has been used for a frame
    in which slot 1 was a child of slot 0, and has been reset.  In the
    second frame a top-level job gets slot 0; it has no parent.  Its body
    calls [onFinishedAddJob]: the successor gets slot 1, [allocateJob] is
    called with a null parent and leaves [m_parentJob] of the slot as it
    was, so the successor has slot 0, the calling job itself, as its
    parent, while the counter of slot 0 has not been raised for it.  When
    the job and its successor have run, the successor has reported its
    completion to slot 0, whose counter has passed below zero. *)
Theorem onFinishedAddJob_stale_parent :
  all_queued world_second_frame = []
  ∧ m_numJobs world_second_frame = 0
  ∧ jobIndex (the_pool world_second_frame 0) = 0
  ∧ (m_parentJob <$> jobAt world_second_frame (mkJobPtr 0 0 1))
    = Some (Some slot0)
  ∧ JobSystem.addJob_func 1 0%nat with_successor 0 world_second_frame
    = Ok tt world_successor_submitted
  ∧ all_queued world_successor_submitted = [Some slot0]
  ∧ m_jobPointers world_successor_calling = [Some slot0]
  ∧ (m_parentJob <$> jobAt world_successor_calling slot0) = Some None
  ∧ JobSystem.onFinishedAddJob 1 1%nat leaf world_successor_calling
    = Ok tt world_successor_registered
  ∧ (m_onFinishedJob <$> jobAt world_successor_registered slot0)
    = Some (Some (mkJobPtr 0 0 1))
  ∧ (m_function <$> jobAt world_successor_registered (mkJobPtr 0 0 1))
    = Some (Some leaf)
  ∧ (m_parentJob <$> jobAt world_successor_registered slot0) = Some None
  ∧ (m_parentJob <$> jobAt world_successor_registered (mkJobPtr 0 0 1))
    = Some (Some slot0)
  ∧ counterAt world_successor_registered slot0 = Some 1
  ∧ Worker.run_schedule 2 [(1, 0); (1, 0)]%nat world_successor_submitted
    = Ok tt world_successor_done
  ∧ body_log world_successor_done
    = body_log world_successor_submitted ++ [slot0; mkJobPtr 0 0 1]
  ∧ (m_parentJob <$> jobAt world_successor_done (mkJobPtr 0 0 1))
    = Some (Some slot0)
  ∧ counterAt world_successor_done slot0 = Some (2 ^ 32 - 1).
Proof. repeat (split; [vm_compute; reflexivity|]). vm_compute. reflexivity. Qed.

(** C4, the code at the failing input.  Pool 0 has been used for a frame
    in which slot 1 was a child of slot 0, and has been reset.  In the
    second frame the main thread submits a leaf, which gets slot 0, and a
    job that registers a successor, which gets slot 1 and keeps the parent
    pointer to slot 0.  The worker runs the leaf: its counter reaches zero
    and [onFinished] runs for slot 0.  It runs the second job: the
    successor is allocated with slot 0 as parent, which raises the counter
    of slot 0 to 1 again, and the completion of the second job is reported
    to slot 0, whose counter reaches zero a second time: [onFinished] runs
    for slot 0 again.  In the frame the body of slot 0 has been called once
    and [onFinished] twice; after the successor has run nothing is queued
    and [m_numJobs] has passed below zero. *)
Theorem onFinished_twice_for_one_job :
  all_queued world_second_frame = []
  ∧ m_numJobs world_second_frame = 0
  ∧ jobIndex (the_pool world_second_frame 0) = 0
  ∧ (m_parentJob <$> jobAt world_second_frame (mkJobPtr 0 0 1))
    = Some (Some slot0)
  ∧ (do _ <- JobSystem.addJob_func 1 0%nat leaf 0;
     JobSystem.addJob_func 1 0%nat with_successor 0) world_second_frame
    = Ok tt world_two_submitted
  ∧ all_queued world_two_submitted = [Some slot0; Some (mkJobPtr 0 0 1)]
  ∧ m_numJobs world_two_submitted = 2
  ∧ (m_parentJob <$> jobAt world_two_submitted slot0) = Some None
  ∧ Worker.run_schedule 3 [(1, 0)]%nat world_two_submitted
    = Ok tt (world_two_after 1)
  ∧ body_log (world_two_after 1) = body_log world_two_submitted ++ [slot0]
  ∧ finished_log (world_two_after 1)
    = finished_log world_two_submitted ++ [slot0]
  ∧ counterAt (world_two_after 1) slot0 = Some 0
  ∧ Worker.run_schedule 3 [(1, 0); (1, 0)]%nat world_two_submitted
    = Ok tt (world_two_after 2)
  ∧ body_log (world_two_after 2)
    = body_log world_two_submitted ++ [slot0; mkJobPtr 0 0 1]
  ∧ finished_log (world_two_after 2)
    = finished_log world_two_submitted ++ [slot0; mkJobPtr 0 0 1; slot0]
  ∧ Worker.run_schedule 3 [(1, 0); (1, 0); (1, 0)]%nat world_two_submitted
    = Ok tt (world_two_after 3)
  ∧ all_queued (world_two_after 3) = []
  ∧ body_log (world_two_after 3)
    = body_log world_two_submitted
      ++ [slot0; mkJobPtr 0 0 1; mkJobPtr 0 0 2]
  ∧ finished_log (world_two_after 3)
    = finished_log world_two_submitted
      ++ [slot0; mkJobPtr 0 0 1; slot0; mkJobPtr 0 0 2]
  ∧ body_times (world_two_after 3) slot0
    = S (body_times world_two_submitted slot0)
  ∧ finished_times (world_two_after 3) slot0
    = S (S (finished_times world_two_submitted slot0))
  ∧ m_numJobs (world_two_after 3) = 2 ^ 32 - 1.
Proof. repeat (split; [vm_compute; reflexivity|]). vm_compute. reflexivity. Qed.

(** * The thread registry over a run *)

(** ** The index found for a thread is kept by every step but its own
    prologue *)

Lemma ki_ret (t0 : ThreadId) {A} (a : A) : keeps_index t0 (ret a).
Proof. by intros w a' w' [= _ <-]. Qed.

Lemma ki_bind (t0 : ThreadId) {A B} (m : M A) (k : A → M B) :
  keeps_index t0 m → (∀ a, keeps_index t0 (k a)) → keeps_index t0 (bind m k).
Proof.
  intros Hm Hk w b w' (a & w1 & H1 & H2)%bind_Ok_inv.
  rewrite (Hk a _ _ _ H2). by apply (Hm _ _ _ H1).
Qed.

Lemma ki_undefined (t0 : ThreadId) {A} : keeps_index t0 (@undefined A).
Proof. by intros w a w'. Qed.

Lemma ki_out_of_fuel (t0 : ThreadId) {A} : keeps_index t0 (@out_of_fuel A).
Proof. by intros w a w'. Qed.

Lemma ki_bad_function_call (t0 : ThreadId) {A} : keeps_index t0 (@bad_function_call A).
Proof. by intros w a w'. Qed.

Lemma ki_get_world (t0 : ThreadId) : keeps_index t0 get_world.
Proof. by intros w a w' [= _ <-]. Qed.

Lemma ki_modify (t0 : ThreadId) (f : World → World) :
  (∀ w, m_threadIndexMap (f w) = m_threadIndexMap w) →
  keeps_index t0 (modify f).
Proof. intros Hf w a w' [= _ <-]. unfold index_found. by rewrite Hf. Qed.

Lemma ki_readJob (t0 : ThreadId) (p : JobPtr) : keeps_index t0 (readJob p).
Proof.
  intros w a w'. unfold readJob. destruct (lookupJob _ _); [|done].
  by intros [= _ <-].
Qed.

Lemma ki_writeJob (t0 : ThreadId) (f : Job → Job) (p : JobPtr) : keeps_index t0 (writeJob f p).
Proof.
  intros w a w'. unfold writeJob. destruct (lookupJob _ _); [|done].
  by intros [= _ <-].
Qed.

Lemma ki_readPool (t0 : ThreadId) (n : nat) : keeps_index t0 (readPool n).
Proof.
  intros w a w'. unfold readPool. destruct (_ !! _); [|done].
  by intros [= _ <-].
Qed.

Lemma ki_writePool (t0 : ThreadId) (f : JobPool → JobPool) (n : nat) :
  keeps_index t0 (writePool f n).
Proof.
  intros w a w'. unfold writePool. destruct (_ !! _); [|done].
  by intros [= _ <-].
Qed.

Lemma ki_rand (t0 : ThreadId) : keeps_index t0 JobSystem.rand.
Proof. by intros w a w' [= _ <-]. Qed.

Lemma ki_getThreadNumber (t0 : ThreadId) (tid : ThreadId) :
  keeps_index t0 (JobSystem.getThreadNumber tid).
Proof.
  intros w a w'. unfold JobSystem.getThreadNumber, index_found.
  destruct (m_threadIndexMap w !! tid) as [n|] eqn:Htid;
    intros [= _ <-]; [done|].
  cbn [m_threadIndexMap set_threadIndexMap].
  destruct (decide (t0 = tid)) as [->|Hne].
  - by rewrite lookup_insert_eq, Htid.
  - by rewrite lookup_insert_ne.
Qed.

Create HintDb indices.

#[local] Hint Resolve ki_ret ki_undefined ki_out_of_fuel
  ki_bad_function_call ki_get_world ki_readJob ki_writeJob ki_readPool
  ki_writePool ki_rand ki_getThreadNumber : indices.

Ltac ki_step :=
  lazymatch goal with
  | |- keeps_index _ (bind _ _) => apply ki_bind; [|intros ?]
  | |- keeps_index _ (modify _) => apply ki_modify; intros ?; reflexivity
  | |- keeps_index _ (match ?x with _ => _ end) => destruct x
  | |- keeps_index _ (let '(_, _) := ?x in _) => destruct x
  | |- keeps_index _ _ => solve [auto with indices]
  end.

Ltac ki := repeat ki_step.

Lemma ki_getJobPointer (t0 : ThreadId) (tid : ThreadId) :
  keeps_index t0 (JobSystem.getJobPointer tid).
Proof. unfold JobSystem.getJobPointer. ki. Qed.

Lemma ki_addJob (t0 : ThreadId) (pJob : option JobPtr) : keeps_index t0 (JobSystem.addJob pJob).
Proof. unfold JobSystem.addJob. ki. Qed.

Lemma ki_setParentJob (t0 : ThreadId) (this parent : JobPtr) :
  keeps_index t0 (Job.setParentJob this parent).
Proof. unfold Job.setParentJob. ki. Qed.

Lemma ki_resetPool (t0 : ThreadId) (n : nat) : keeps_index t0 (JobMemory.resetPool n).
Proof. unfold JobMemory.resetPool. ki. Qed.

#[local] Hint Resolve ki_getJobPointer ki_addJob ki_setParentJob
  ki_resetPool : indices.

Lemma ki_getNextJob (t0 : ThreadId) (n : nat) : keeps_index t0 (JobMemory.getNextJob n).
Proof. unfold JobMemory.getNextJob. ki. Qed.

#[local] Hint Resolve ki_getNextJob : indices.

Lemma ki_probe (t0 : ThreadId) (fuel n : nat) : keeps_index t0 (JobMemory.probe fuel n).
Proof. induction fuel as [|fuel IH]; cbn [JobMemory.probe]; ki. Qed.

#[local] Hint Resolve ki_probe : indices.

Lemma ki_allocateJob (t0 : ThreadId) (fuel : nat) (pParent : option JobPtr) (n : nat) :
  keeps_index t0 (JobMemory.allocateJob fuel pParent n).
Proof. unfold JobMemory.allocateJob. ki. Qed.

#[local] Hint Resolve ki_allocateJob : indices.

Lemma ki_addJob_func (t0 : ThreadId) (fuel : nat) (tid : ThreadId) (func : Function)
    (n : nat) :
  keeps_index t0 (JobSystem.addJob_func fuel tid func n).
Proof. unfold JobSystem.addJob_func, Job.setFunction. ki. Qed.

Lemma ki_addChildJob_in (t0 : ThreadId) (fuel : nat) (tid : ThreadId) (func : Function)
    (n : nat) :
  keeps_index t0 (JobSystem.addChildJob_in fuel tid func n).
Proof. unfold JobSystem.addChildJob_in, Job.setFunction. ki. Qed.

#[local] Hint Resolve ki_addJob_func ki_addChildJob_in : indices.

Lemma ki_addChildJob (t0 : ThreadId) (fuel : nat) (tid : ThreadId) (func : Function) :
  keeps_index t0 (JobSystem.addChildJob fuel tid func).
Proof. unfold JobSystem.addChildJob. ki. Qed.

Lemma ki_onFinishedAddJob (t0 : ThreadId) (fuel : nat) (tid : ThreadId) (func : Function) :
  keeps_index t0 (JobSystem.onFinishedAddJob fuel tid func).
Proof.
  unfold JobSystem.onFinishedAddJob, Job.setFunction, Job.setOnFinished. ki.
Qed.

Lemma ki_playBackPool (t0 : ThreadId) (fuel : nat) (tid : ThreadId) (n : nat)
    (func : Function) :
  keeps_index t0 (JobSystem.playBackPool fuel tid n func).
Proof. unfold JobSystem.playBackPool, Job.setFunction. ki. Qed.

Lemma ki_terminate (t0 : ThreadId) : keeps_index t0 JobSystem.terminate.
Proof. unfold JobSystem.terminate. ki. Qed.

#[local] Hint Resolve ki_addChildJob ki_onFinishedAddJob ki_playBackPool
  ki_terminate : indices.

Lemma ki_run_body (t0 : ThreadId) (fuel : nat) (tid : ThreadId) (b : Body) :
  keeps_index t0 (JobSystem.run_body fuel tid b).
Proof.
  induction b; cbn [JobSystem.run_body];
    unfold JobSystem.onFinishedTerminatePool; ki.
Qed.

#[local] Hint Resolve ki_run_body : indices.

Lemma ki_call_function (t0 : ThreadId) (fuel : nat) (tid : ThreadId) (this : JobPtr)
    (func : Function) :
  keeps_index t0 (JobSystem.call_function fuel tid this func).
Proof. unfold JobSystem.call_function. ki. Qed.

Lemma ki_onFinished_rest (t0 : ThreadId) (this : JobPtr) :
  keeps_index t0 (JobSystem.onFinished_rest this).
Proof. unfold JobSystem.onFinished_rest. ki. Qed.

#[local] Hint Resolve ki_call_function ki_onFinished_rest : indices.

Lemma ki_onFinished (t0 : ThreadId) (fuel : nat) :
  ∀ this, keeps_index t0 (JobSystem.onFinished fuel this).
Proof.
  induction fuel as [|fuel IH]; intros this; cbn [JobSystem.onFinished];
    [ki|].
  unfold Job.childFinished_with. ki.
Qed.

#[local] Hint Resolve ki_onFinished : indices.

Lemma ki_play_children (t0 : ThreadId) (fuel : nat) (this : JobPtr) :
  ∀ pChild, keeps_index t0 (JobSystem.play_children fuel this pChild).
Proof.
  induction fuel as [|fuel IH]; intros [child|];
    cbn [JobSystem.play_children]; ki.
Qed.

#[local] Hint Resolve ki_play_children : indices.

Lemma ki_Job_call (t0 : ThreadId) (fuel : nat) (tid : ThreadId) (this : JobPtr) :
  keeps_index t0 (JobSystem.Job_call fuel tid this).
Proof.
  unfold JobSystem.Job_call, JobSystem.Job_call_playback,
    JobSystem.Job_call_finish. ki.
Qed.

Lemma ki_pop_queue (t0 : ThreadId) (idx : nat) : keeps_index t0 (Worker.pop_queue idx).
Proof. unfold Worker.pop_queue. ki. Qed.

Lemma ki_steal_queue (t0 : ThreadId) (idx : nat) : keeps_index t0 (Worker.steal_queue idx).
Proof. unfold Worker.steal_queue. ki. Qed.

#[local] Hint Resolve ki_Job_call ki_pop_queue ki_steal_queue : indices.

Lemma ki_steal_loop (t0 : ThreadId) (max idx : nat) :
  ∀ pJob, keeps_index t0 (Worker.steal_loop max idx pJob).
Proof.
  induction max as [|max IH]; intros pJob; cbn [Worker.steal_loop]; ki.
Qed.


#[local] Hint Resolve ki_steal_loop : indices.

Lemma ki_threadTask_iteration (t0 : ThreadId) (fuel : nat) (tid : ThreadId)
    (threadIndex : nat) :
  keeps_index t0 (Worker.threadTask_iteration fuel tid threadIndex).
Proof. unfold Worker.threadTask_iteration. ki. Qed.

Lemma ki_threadTask_start (t0 tid : ThreadId) :
  tid ≠ t0 → keeps_index t0 (Worker.threadTask_start tid).
Proof.
  intros Hne w a w'. unfold Worker.threadTask_start.
  rewrite bind_get_world, bind_modify. case_decide; [|done].
  rewrite !bind_modify. intros [= _ <-]. unfold index_found.
  cbn [m_threadIndexMap set_threadIndexMap set_jobPointers set_jobQueues
       set_threadIndexCounter].
  by rewrite lookup_insert_ne.
Qed.

#[local] Hint Resolve ki_threadTask_iteration : indices.

Lemma ki_run_event (t0 : ThreadId) (fuel : nat) (e : Event) :
  e ≠ EStart t0 → keeps_index t0 (run_event fuel e).
Proof.
  intros He. destruct e as [tid|tid idx|tid calls|tid]; cbn [run_event].
  - apply ki_bind; [|intros ?; apply ki_ret].
    apply ki_threadTask_start. congruence.
  - ki.
  - ki.
  - ki.
Qed.

Lemma ki_run_events (t0 : ThreadId) (fuel : nat) (es : list Event) :
  Forall (λ e, e ≠ EStart t0) es → keeps_index t0 (run_events fuel es).
Proof.
  induction 1 as [|e es He _ IH]; cbn [run_events]; [apply ki_ret|].
  apply ki_bind; [by apply ki_run_event|]. intros _. exact IH.
Qed.

(** [getThreadNumber] returns the index found and leaves an entry with
    it. *)
Lemma getThreadNumber_index_found (tid : ThreadId) (w : World) :
  JobSystem.getThreadNumber tid w
  = Ok (index_found tid w)
       (set_threadIndexMap
          (<[tid := index_found tid w]> (m_threadIndexMap w)) w).
Proof.
  unfold JobSystem.getThreadNumber, index_found.
  destruct (m_threadIndexMap w !! tid) as [n|] eqn:Htid; [|done].
  cbn [default]. rewrite insert_id by done. by destruct w.
Qed.

(** C10.  A thread that has not run the prologue of [threadTask]: whatever
    the threads have done since its identity was absent from
    [m_threadIndexMap] (prologues of other threads, trips of workers
    through their loop, interface calls and lookups of any thread, this one
    included), [getThreadNumber] returns 0 on it and leaves the entry
    [tid ↦ 0], which the first lookup inserts and which later lookups find;
    [getJobPointer] reads [m_jobPointers[0]], the current-job slot of
    worker 0, and returns the null pointer exactly when that slot holds
    none. *)
Theorem unregistered_thread_is_worker_zero (fuel : nat) (tid : ThreadId)
    (es : list Event) (w w' : World) :
  m_threadIndexMap w !! tid = None →
  Forall (λ e, e ≠ EStart tid) es →
  run_events fuel es w = Ok tt w' →
  let w'' := set_threadIndexMap (<[tid := 0%nat]> (m_threadIndexMap w')) w' in
  JobSystem.getThreadNumber tid w' = Ok 0%nat w''
  ∧ (m_threadIndexMap w' !! tid = None
     ∨ (m_threadIndexMap w' !! tid = Some 0%nat ∧ w'' = w'))
  ∧ JobSystem.getJobPointer tid w'
    = match m_jobPointers w' !! 0%nat with
      | Some p => Ok p w''
      | None => UB
      end
  ∧ (JobSystem.getJobPointer tid w' = Ok None w''
     ↔ m_jobPointers w' !! 0%nat = Some None).
Proof.
  intros Hnone Hes Hrun w''.
  assert (Hidx : index_found tid w' = 0%nat).
  { rewrite (ki_run_events tid fuel es Hes _ _ _ Hrun).
    unfold index_found. by rewrite Hnone. }
  assert (Hnum : JobSystem.getThreadNumber tid w' = Ok 0%nat w'').
  { by rewrite getThreadNumber_index_found, Hidx. }
  assert (Hptr : JobSystem.getJobPointer tid w'
                 = match m_jobPointers w' !! 0%nat with
                   | Some p => Ok p w''
                   | None => UB
                   end).
  { unfold JobSystem.getJobPointer. rewrite (bind_run _ _ _ _ _ Hnum).
    unfold get_world, bind. subst w''. cbn [m_jobPointers set_threadIndexMap].
    by destruct (m_jobPointers w' !! 0%nat). }
  split; [done|]. split.
  { unfold index_found in Hidx.
    destruct (m_threadIndexMap w' !! tid) as [n|] eqn:Htid; [|by left].
    right. cbn in Hidx. subst n. split; [done|]. subst w''.
    rewrite insert_id by done. by destruct w'. }
  split; [done|].
  rewrite Hptr. destruct (m_jobPointers w' !! 0%nat) as [[p|]|]; split;
    intros H; try done; inversion H.
Qed.

Lemma unregistered_thread_is_worker_zero_witness :
  ∃ w', run_events 2 [ECalls 0%nat (BAddJob leaf 0 BReturn); ETrip 1 0;
                      ECurrentJob 0%nat] (started_world 1 true) = Ok tt w'
        ∧ m_threadIndexMap w' !! 0%nat = Some 0%nat
        ∧ JobSystem.getThreadNumber 0%nat w' = Ok 0%nat w'
        ∧ JobSystem.getJobPointer 0%nat w' = Ok (Some slot0) w'.
Proof.
  set (es := [ECalls 0%nat (BAddJob leaf 0 BReturn); ETrip 1 0;
              ECurrentJob 0%nat]).
  set (w' := default (started_world 1 true)
               (final_world (run_events 2 es (started_world 1 true)))).
  assert (Hrun : run_events 2 es (started_world 1 true) = Ok tt w')
    by (vm_compute; reflexivity).
  assert (Hes : Forall (λ e, e ≠ EStart 0%nat) es).
  { subst es. repeat (apply Forall_cons; split; [discriminate|]).
    apply Forall_nil_2. }
  destruct (unregistered_thread_is_worker_zero 2 0%nat es
              (started_world 1 true) w' eq_refl Hes Hrun)
    as (Hnum & [Habs|[Hin Hsame]] & Hptr & _).
  - exfalso. revert Habs. vm_compute. discriminate.
  - exists w'. split; [exact Hrun|]. split; [exact Hin|].
    rewrite Hsame in Hnum, Hptr. split; [exact Hnum|].
    rewrite Hptr. vm_compute. reflexivity.
Defined.

(** * The job that a worker runs *)

Lemma removed_refl (w : World) : removed w None 0 w.
Proof. split; [done|]. reflexivity. Qed.

Lemma removed_trans (w w1 w2 : World) (r : option JobPtr) (k1 k2 : nat) :
  removed w None k1 w1 → removed w1 r k2 w2 → removed w r (k1 + k2) w2.
Proof.
  intros [Hp1 Hq1] [Hp2 Hq2]. split; [congruence|].
  rewrite Hq1, Hq2. cbn [app]. rewrite replicate_add.
  rewrite <- !app_assoc.
  rewrite (app_assoc (replicate k1 None)).
  rewrite (Permutation_app_comm (replicate k1 None)).
  by rewrite <- !app_assoc.
Qed.

Lemma removed_rand (w w1 : World) (r : option JobPtr) (k : nat) :
  removed (set_rand_pos (S (rand_pos w)) w) r k w1 → removed w r k w1.
Proof. done. Qed.

Lemma pop_queue_removes (idx : nat) (w w1 : World) (r : option JobPtr) :
  Worker.pop_queue idx w = Ok r w1 →
  (∃ k, removed w r k w1)
  ∧ (∀ p q, m_jobQueues w !! idx = Some (Some (p :: q)) → r = p).
Proof.
  unfold Worker.pop_queue. rewrite bind_get_world.
  destruct (m_jobQueues w !! idx) as [[q|]|] eqn:Hq; try done.
  destruct q as [|p q].
  - rewrite pop_nil. cbv iota beta. rewrite bind_modify.
    intros [= <- <-]. split; [|done]. exists 0%nat. split; [done|].
    unfold all_queued. wsimpl. by rewrite list_insert_id.
  - rewrite pop_cons. cbv iota beta. rewrite bind_modify.
    intros [= <- <-]. split; [|by intros p' q' [= <- _]].
    pose proof (all_queued_pop w (set_jobQueues (<[idx := Some q]> (m_jobQueues w)) w)
                  idx q p Hq eq_refl) as Hperm.
    destruct p as [x|].
    + exists 0%nat. split; [done|]. exact Hperm.
    + exists 1%nat. split; [done|]. exact Hperm.
Qed.

Lemma steal_loop_removes (max idx : nat) :
  ∀ w w1 r, Worker.steal_loop max idx None w = Ok r w1 →
            ∃ k, removed w r k w1.
Proof.
  induction max as [|max IH]; intros w w1 r.
  - intros [= <- <-]. exists 0%nat. apply removed_refl.
  - cbn [Worker.steal_loop]. rewrite bind_get_world.
    case_decide as Hsize;
      [|intros [= <- <-]; exists 0%nat; apply removed_refl].
    unfold JobSystem.rand. unfold bind at 1.
    set (wr := set_rand_pos (S (rand_pos w)) w).
    case_decide as Hne.
    + change Worker.steal_queue with Worker.pop_queue.
      intros (r1 & w2 & H1 & H2)%bind_Ok_inv.
      destruct (pop_queue_removes _ _ _ _ H1) as [[k1 Hk1] _].
      apply removed_rand in Hk1.
      destruct r1 as [x|].
      * rewrite steal_loop_some in H2. injection H2 as <- <-. by exists k1.
      * destruct (IH _ _ _ H2) as [k2 Hk2]. exists (k1 + k2)%nat.
        by eapply removed_trans.
    + rewrite bind_ret. intros H2. destruct (IH _ _ _ H2) as [k2 Hk2].
      exists k2. by apply removed_rand.
Qed.

(** X15.  A trip of a worker through its loop, whatever the body of the job
    it runs calls: the number of threads and the index counter are
    unchanged, and of the current-job pointers only the worker's own is
    written, with the job that the worker has removed from a queue and then
    runs: the job at the front of its own queue if there is one.  Apart
    from that job only null entries have left the queues, nothing of the
    job memory has changed before the job is run, and the pointer is not
    reset when the job has finished. *)
Theorem worker_trip_writes_own_pointer (fuel : nat) (tid : ThreadId)
    (threadIndex : nat) (w w' : World) (b : bool) :
  Worker.threadTask_iteration fuel tid threadIndex w = Ok b w' →
  m_threads_size w' = m_threads_size w
  ∧ threadIndexCounter w' = threadIndexCounter w
  ∧ (m_jobPointers w' = m_jobPointers w
     ∨ ∃ x k w1,
         b = true
         ∧ m_jobPointers w' = <[threadIndex := Some x]> (m_jobPointers w)
         ∧ removed w (Some x) k w1
         ∧ (∀ y q, m_jobQueues w !! threadIndex = Some (Some (Some y :: q)) →
                   x = y)
         ∧ m_jobPointers w1 = <[threadIndex := Some x]> (m_jobPointers w)
         ∧ JobSystem.Job_call fuel tid x w1 = Ok tt w').
Proof.
  unfold Worker.threadTask_iteration. rewrite bind_get_world.
  destruct (m_terminate w); [by intros [= _ <-]; auto|].
  intros (p1 & w1 & H1 & H)%bind_Ok_inv.
  pose proof (kt_pop_queue _ _ _ _ H1) as V1.
  destruct (pop_queue_removes _ _ _ _ H1) as [[k1 Hk1] Hfront].
  rewrite bind_get_world in H.
  destruct (m_terminate w1).
  { injection H as _ <-. unfold thread_view in V1.
    injection V1 as -> -> ->. auto. }
  apply bind_Ok_inv in H as (p2 & w2 & H2 & H).
  pose proof (kt_steal_loop _ _ _ _ _ _ H2) as V2.
  rewrite bind_get_world in H.
  assert (V : thread_view w2 = thread_view w) by congruence.
  unfold thread_view in V. injection V as Vp Vs Vc.
  destruct (m_terminate w2); [injection H as _ <-; auto|].
  destruct p2 as [x|]; [|injection H as _ <-; auto].
  rewrite bind_modify in H.
  apply bind_Ok_inv in H as ([] & w3 & H3 & H).
  injection H as <- <-.
  pose proof (kt_Job_call _ _ _ _ _ _ H3) as V3.
  unfold thread_view in V3. wsimpl. injection V3 as Vp3 Vs3 Vc3.
  split; [congruence|]. split; [congruence|]. right.
  assert (Hrem : ∃ k, removed w (Some x) k w2
                      ∧ ∀ y q, m_jobQueues w !! threadIndex
                               = Some (Some (Some y :: q)) → x = y).
  { destruct p1 as [x1|].
    - rewrite steal_loop_some in H2. injection H2 as -> <-.
      exists k1. split; [done|]. intros y q Hq.
      specialize (Hfront _ _ Hq). congruence.
    - destruct (steal_loop_removes _ _ _ _ _ H2) as [k2 Hk2].
      exists (k1 + k2)%nat. split; [by eapply removed_trans|].
      intros y q Hq. specialize (Hfront _ _ Hq). congruence. }
  destruct Hrem as (k & Hk & Hown).
  exists x, k, (set_jobPointers (<[threadIndex := Some x]> (m_jobPointers w2)) w2).
  split; [done|]. split; [by rewrite Vp3, Vp|].
  split; [exact Hk|]. split; [exact Hown|].
  split; [by rewrite <- Vp|exact H3].
Qed.

Lemma worker_trip_writes_own_pointer_witness :
  Worker.threadTask_iteration 4 1%nat 0 world_tree_requested
  = Ok true world_tree_playing
  ∧ m_jobQueues world_tree_requested !! 0%nat = Some (Some [Some slot0])
  ∧ m_jobPointers world_tree_requested !! 0%nat
    = Some (Some (mkJobPtr 1 0 2))
  ∧ m_jobPointers world_tree_playing !! 0%nat = Some (Some slot0)
  ∧ m_threads_size world_tree_playing = m_threads_size world_tree_requested.
Proof.
  assert (Hrun : Worker.threadTask_iteration 4 1%nat 0 world_tree_requested
                 = Ok true world_tree_playing) by (vm_compute; reflexivity).
  split; [exact Hrun|].
  assert (Hq : m_jobQueues world_tree_requested !! 0%nat
               = Some (Some [Some slot0])) by (vm_compute; reflexivity).
  split; [exact Hq|]. split; [vm_compute; reflexivity|].
  destruct (worker_trip_writes_own_pointer 4 1%nat 0 world_tree_requested
              world_tree_playing true Hrun)
    as (Hs & _ & [Hsame|(x & k & w1 & _ & Hp & _ & Hown & _)]).
  - exfalso. revert Hsame. vm_compute. discriminate.
  - split; [|exact Hs]. rewrite Hp, (Hown slot0 [] Hq).
    vm_compute. reflexivity.
Defined.

(** * Playback of a recorded child with a successor *)

(** Why the recorded jobs of [playBackPool_replays_tree_once] have no
    successor.  Pool 1 holds a root (slot 0), its child (slot 1) and the
    successor of the child (slot 2).  The successor has inherited the
    parent of the child, so it is the second child of the root as well.
    During playback the root queues it as a child, and the child queues it
    again when it finishes: of the three recorded jobs the third is called
    twice. *)
Lemma playback_successor_runs_twice :
  jobIndex (the_pool world_chain_requested 1) = 3
  ∧ all_queued world_chain_requested = [Some slot0]
  ∧ (m_pFirstChild <$> jobAt world_chain_requested tree_root)
    = Some (Some (mkJobPtr 1 0 1))
  ∧ (m_pNextSibling <$> jobAt world_chain_requested (mkJobPtr 1 0 1))
    = Some (Some (mkJobPtr 1 0 2))
  ∧ (m_onFinishedJob <$> jobAt world_chain_requested (mkJobPtr 1 0 1))
    = Some (Some (mkJobPtr 1 0 2))
  ∧ (m_parentJob <$> jobAt world_chain_requested (mkJobPtr 1 0 2))
    = Some (Some tree_root)
  ∧ Worker.run_schedule 4 (replicate 6 (1, 0)%nat) world_chain_requested
    = Ok tt world_chain_played
  ∧ all_queued world_chain_played = []
  ∧ body_log world_chain_played
    = body_log world_chain_requested
      ++ [slot0; tree_root; mkJobPtr 1 0 1; mkJobPtr 1 0 2; mkJobPtr 1 0 2;
          mkJobPtr 0 0 1].
Proof. repeat (split; [vm_compute; reflexivity|]). vm_compute. reflexivity. Qed.
